(** * Wortschatzspiel: lexical identity and cross-reference pipeline

    A shallow embedding of the tools under [tools/]:
    - [tools/add_lex_ids_and_build_index.py]            (module [IndexBuilder])
    - [tools/conjugation/extract_conjugation_tables.py] (module [Extractor])
    - [tools/conjugation/dedupe_conjugation_tables.py]  (module [Deduper])
    - [tools/validate_ruleset_integrity.py]             (module [Validator])
    - [tools/link_conjugation_tables_to_lexicon.py]     (module [Linker])

    Conventions of the embedding.
    - A Python [str] is a [string] holding its UTF-8 bytes; its characters
      are the code points the bytes encode.  [str.strip], [str.split] and the
      class [\s] use the blanks of [str.isspace]; [str.lower] and [str.upper]
      use the case mappings of the Unicode Character Database 14.0 (the one
      of Python 3.11), held here as tables.  Comparing the bytes of two UTF-8
      strings orders them as Python orders their code points.
    - A Python [dict] whose iteration order is observable is an association
      list with unique keys in insertion order; a [dict] or [set] that is only
      queried is a [gmap] or a list used as a set.
    - A value loaded from YAML is a [yaml] tree (floats are left out); mapping
      keys are strings, and two places of a tree never share one object (no
      YAML anchors).
    - An uncaught Python exception is the result [None] of a function and the
      outcome [Raise] of a run; what a run writes or prints is a list of
      effects or messages beside its outcome. *)

From Stdlib Require Import String Ascii NArith ZArith List Bool Lia DecimalString.
From stdpp Require Import base option list strings gmap.
From Stdlib Require DecimalNat DecimalFacts.

Local Open Scope string_scope.

(** ** Python strings *)
Module Py.

Definition code (c : ascii) : nat := nat_of_ascii c.

Definition between (lo hi : nat) (c : ascii) : bool :=
  (lo <=? code c)%nat && (code c <=? hi)%nat.

Definition is_upper (c : ascii) : bool := between 65 90 c.
Definition is_digit (c : ascii) : bool := between 48 57 c.

Definition lead_C3 (c : ascii) : bool := (code c =? 195)%nat.

(** *** The characters of a text

    A character is one byte below 0x80, or a byte from 0x80 on with the
    bytes 0x80..0xBF that continue it. *)
Definition is_ascii (c : ascii) : bool := (code c <? 128)%nat.
Definition continues (c : ascii) : bool := between 128 191 c.

(** One more byte in front of the characters read so far. *)
Definition push (c : ascii) (ks : list string) : list string :=
  match ks with
  | String d k :: more =>
      if negb (is_ascii c) && continues d then String c (String d k) :: more
      else String c "" :: ks
  | _ => String c "" :: ks
  end.

(** [list(s)]: the characters of [s], each as its bytes. *)
Fixpoint chars (s : string) : list string :=
  match s with
  | EmptyString => []
  | String c rest => push c (chars rest)
  end.

(** ["".join(ks)] *)
Fixpoint unchars (ks : list string) : string :=
  match ks with
  | [] => EmptyString
  | k :: rest => k ++ unchars rest
  end.

Definition byte (n : N) : ascii := ascii_of_N n.

(** [chr(n)], as UTF-8. *)
Definition utf8 (n : N) : string :=
  (if n <? 0x80 then String (byte n) ""
   else if n <? 0x800 then
     String (byte (0xC0 + n / 0x40)) (String (byte (0x80 + n mod 0x40)) "")
   else if n <? 0x10000 then
     String (byte (0xE0 + n / 0x1000))
       (String (byte (0x80 + n / 0x40 mod 0x40))
          (String (byte (0x80 + n mod 0x40)) ""))
   else
     String (byte (0xF0 + n / 0x40000))
       (String (byte (0x80 + n / 0x1000 mod 0x40))
          (String (byte (0x80 + n / 0x40 mod 0x40))
             (String (byte (0x80 + n mod 0x40)) ""))))%N.

Definition low_bits (c : ascii) (m : N) : N := (N_of_ascii c mod m)%N.

(** [ord(k)] of a character; [None] for bytes that are no character. *)
Definition ord (k : string) : option N :=
  let n :=
    (match k with
     | String a "" => N_of_ascii a
     | String a (String b "") => low_bits a 0x20 * 0x40 + low_bits b 0x40
     | String a (String b (String c "")) =>
         low_bits a 0x10 * 0x1000 + low_bits b 0x40 * 0x40 + low_bits c 0x40
     | String a (String b (String c (String d ""))) =>
         low_bits a 8 * 0x40000 + low_bits b 0x40 * 0x1000
         + low_bits c 0x40 * 0x40 + low_bits d 0x40
     | _ => 0
     end)%N in
  if String.eqb (utf8 n) k then Some n else None.

Definition in_ranges (ranges : list (N * N)) (n : N) : bool :=
  existsb (fun r => (fst r <=? n)%N && (n <=? snd r)%N) ranges.

(** The code points for which [str.isspace] holds; [str.strip],
    [str.split] and the class [\s] of a text pattern use the same ones. *)
Definition SPACES : list (N * N) :=
  [(0x9, 0xD); (0x1C, 0x20); (0x85, 0x85); (0xA0, 0xA0);
   (0x1680, 0x1680); (0x2000, 0x200A); (0x2028, 0x2029); (0x202F, 0x202F);
   (0x205F, 0x205F); (0x3000, 0x3000)]%N.

Definition isspace (k : string) : bool :=
  match ord k with
  | Some n => in_ranges SPACES n
  | None => false
  end.

(** *** Case

    The simple case mappings, as spans: the code points [first],
    [first + step], ... up to [last] go to [image], [image + step], ... *)
Definition span : Type := N * N * N * N.

Definition in_span (n : N) (sp : span) : bool :=
  let '(first, last, step, _) := sp in
  ((first <=? n) && (n <=? last) && ((n - first) mod step =? 0))%N.

Definition shifted (table : list span) (n : N) : N :=
  match find (in_span n) table with
  | Some (first, _, _, image) => (image + (n - first))%N
  | None => n
  end.

Definition LOWER : list span :=
  [(0x41, 0x5A, 1, 0x61); (0xC0, 0xD6, 1, 0xE0); (0xD8, 0xDE, 1, 0xF8);
   (0x100, 0x12E, 2, 0x101); (0x132, 0x136, 2, 0x133); (0x139, 0x147, 2, 0x13A);
   (0x14A, 0x176, 2, 0x14B); (0x178, 0x178, 1, 0xFF); (0x179, 0x17D, 2, 0x17A);
   (0x181, 0x181, 1, 0x253); (0x182, 0x184, 2, 0x183); (0x186, 0x186, 1, 0x254);
   (0x187, 0x187, 1, 0x188); (0x189, 0x18A, 1, 0x256); (0x18B, 0x18B, 1, 0x18C);
   (0x18E, 0x18E, 1, 0x1DD); (0x18F, 0x18F, 1, 0x259); (0x190, 0x190, 1, 0x25B);
   (0x191, 0x191, 1, 0x192); (0x193, 0x193, 1, 0x260); (0x194, 0x194, 1, 0x263);
   (0x196, 0x196, 1, 0x269); (0x197, 0x197, 1, 0x268); (0x198, 0x198, 1, 0x199);
   (0x19C, 0x19C, 1, 0x26F); (0x19D, 0x19D, 1, 0x272); (0x19F, 0x19F, 1, 0x275);
   (0x1A0, 0x1A4, 2, 0x1A1); (0x1A6, 0x1A6, 1, 0x280); (0x1A7, 0x1A7, 1, 0x1A8);
   (0x1A9, 0x1A9, 1, 0x283); (0x1AC, 0x1AC, 1, 0x1AD); (0x1AE, 0x1AE, 1, 0x288);
   (0x1AF, 0x1AF, 1, 0x1B0); (0x1B1, 0x1B2, 1, 0x28A); (0x1B3, 0x1B5, 2, 0x1B4);
   (0x1B7, 0x1B7, 1, 0x292); (0x1B8, 0x1B8, 1, 0x1B9); (0x1BC, 0x1BC, 1, 0x1BD);
   (0x1C4, 0x1C4, 1, 0x1C6); (0x1C5, 0x1C5, 1, 0x1C6); (0x1C7, 0x1C7, 1, 0x1C9);
   (0x1C8, 0x1C8, 1, 0x1C9); (0x1CA, 0x1CA, 1, 0x1CC); (0x1CB, 0x1DB, 2, 0x1CC);
   (0x1DE, 0x1EE, 2, 0x1DF); (0x1F1, 0x1F1, 1, 0x1F3); (0x1F2, 0x1F4, 2, 0x1F3);
   (0x1F6, 0x1F6, 1, 0x195); (0x1F7, 0x1F7, 1, 0x1BF); (0x1F8, 0x21E, 2, 0x1F9);
   (0x220, 0x220, 1, 0x19E); (0x222, 0x232, 2, 0x223); (0x23A, 0x23A, 1, 0x2C65);
   (0x23B, 0x23B, 1, 0x23C); (0x23D, 0x23D, 1, 0x19A); (0x23E, 0x23E, 1, 0x2C66);
   (0x241, 0x241, 1, 0x242); (0x243, 0x243, 1, 0x180); (0x244, 0x244, 1, 0x289);
   (0x245, 0x245, 1, 0x28C); (0x246, 0x24E, 2, 0x247); (0x370, 0x372, 2, 0x371);
   (0x376, 0x376, 1, 0x377); (0x37F, 0x37F, 1, 0x3F3); (0x386, 0x386, 1, 0x3AC);
   (0x388, 0x38A, 1, 0x3AD); (0x38C, 0x38C, 1, 0x3CC); (0x38E, 0x38F, 1, 0x3CD);
   (0x391, 0x3A1, 1, 0x3B1); (0x3A3, 0x3AB, 1, 0x3C3); (0x3CF, 0x3CF, 1, 0x3D7);
   (0x3D8, 0x3EE, 2, 0x3D9); (0x3F4, 0x3F4, 1, 0x3B8); (0x3F7, 0x3F7, 1, 0x3F8);
   (0x3F9, 0x3F9, 1, 0x3F2); (0x3FA, 0x3FA, 1, 0x3FB); (0x3FD, 0x3FF, 1, 0x37B);
   (0x400, 0x40F, 1, 0x450); (0x410, 0x42F, 1, 0x430); (0x460, 0x480, 2, 0x461);
   (0x48A, 0x4BE, 2, 0x48B); (0x4C0, 0x4C0, 1, 0x4CF); (0x4C1, 0x4CD, 2, 0x4C2);
   (0x4D0, 0x52E, 2, 0x4D1); (0x531, 0x556, 1, 0x561); (0x10A0, 0x10C5, 1, 0x2D00);
   (0x10C7, 0x10C7, 1, 0x2D27); (0x10CD, 0x10CD, 1, 0x2D2D); (0x13A0, 0x13EF, 1, 0xAB70);
   (0x13F0, 0x13F5, 1, 0x13F8); (0x1C90, 0x1CBA, 1, 0x10D0); (0x1CBD, 0x1CBF, 1, 0x10FD);
   (0x1E00, 0x1E94, 2, 0x1E01); (0x1E9E, 0x1E9E, 1, 0xDF); (0x1EA0, 0x1EFE, 2, 0x1EA1);
   (0x1F08, 0x1F0F, 1, 0x1F00); (0x1F18, 0x1F1D, 1, 0x1F10); (0x1F28, 0x1F2F, 1, 0x1F20);
   (0x1F38, 0x1F3F, 1, 0x1F30); (0x1F48, 0x1F4D, 1, 0x1F40); (0x1F59, 0x1F5F, 2, 0x1F51);
   (0x1F68, 0x1F6F, 1, 0x1F60); (0x1F88, 0x1F8F, 1, 0x1F80); (0x1F98, 0x1F9F, 1, 0x1F90);
   (0x1FA8, 0x1FAF, 1, 0x1FA0); (0x1FB8, 0x1FB9, 1, 0x1FB0); (0x1FBA, 0x1FBB, 1, 0x1F70);
   (0x1FBC, 0x1FBC, 1, 0x1FB3); (0x1FC8, 0x1FCB, 1, 0x1F72); (0x1FCC, 0x1FCC, 1, 0x1FC3);
   (0x1FD8, 0x1FD9, 1, 0x1FD0); (0x1FDA, 0x1FDB, 1, 0x1F76); (0x1FE8, 0x1FE9, 1, 0x1FE0);
   (0x1FEA, 0x1FEB, 1, 0x1F7A); (0x1FEC, 0x1FEC, 1, 0x1FE5); (0x1FF8, 0x1FF9, 1, 0x1F78);
   (0x1FFA, 0x1FFB, 1, 0x1F7C); (0x1FFC, 0x1FFC, 1, 0x1FF3); (0x2126, 0x2126, 1, 0x3C9);
   (0x212A, 0x212A, 1, 0x6B); (0x212B, 0x212B, 1, 0xE5); (0x2132, 0x2132, 1, 0x214E);
   (0x2160, 0x216F, 1, 0x2170); (0x2183, 0x2183, 1, 0x2184); (0x24B6, 0x24CF, 1, 0x24D0);
   (0x2C00, 0x2C2F, 1, 0x2C30); (0x2C60, 0x2C60, 1, 0x2C61); (0x2C62, 0x2C62, 1, 0x26B);
   (0x2C63, 0x2C63, 1, 0x1D7D); (0x2C64, 0x2C64, 1, 0x27D); (0x2C67, 0x2C6B, 2, 0x2C68);
   (0x2C6D, 0x2C6D, 1, 0x251); (0x2C6E, 0x2C6E, 1, 0x271); (0x2C6F, 0x2C6F, 1, 0x250);
   (0x2C70, 0x2C70, 1, 0x252); (0x2C72, 0x2C72, 1, 0x2C73); (0x2C75, 0x2C75, 1, 0x2C76);
   (0x2C7E, 0x2C7F, 1, 0x23F); (0x2C80, 0x2CE2, 2, 0x2C81); (0x2CEB, 0x2CED, 2, 0x2CEC);
   (0x2CF2, 0x2CF2, 1, 0x2CF3); (0xA640, 0xA66C, 2, 0xA641); (0xA680, 0xA69A, 2, 0xA681);
   (0xA722, 0xA72E, 2, 0xA723); (0xA732, 0xA76E, 2, 0xA733); (0xA779, 0xA77B, 2, 0xA77A);
   (0xA77D, 0xA77D, 1, 0x1D79); (0xA77E, 0xA786, 2, 0xA77F); (0xA78B, 0xA78B, 1, 0xA78C);
   (0xA78D, 0xA78D, 1, 0x265); (0xA790, 0xA792, 2, 0xA791); (0xA796, 0xA7A8, 2, 0xA797);
   (0xA7AA, 0xA7AA, 1, 0x266); (0xA7AB, 0xA7AB, 1, 0x25C); (0xA7AC, 0xA7AC, 1, 0x261);
   (0xA7AD, 0xA7AD, 1, 0x26C); (0xA7AE, 0xA7AE, 1, 0x26A); (0xA7B0, 0xA7B0, 1, 0x29E);
   (0xA7B1, 0xA7B1, 1, 0x287); (0xA7B2, 0xA7B2, 1, 0x29D); (0xA7B3, 0xA7B3, 1, 0xAB53);
   (0xA7B4, 0xA7C2, 2, 0xA7B5); (0xA7C4, 0xA7C4, 1, 0xA794); (0xA7C5, 0xA7C5, 1, 0x282);
   (0xA7C6, 0xA7C6, 1, 0x1D8E); (0xA7C7, 0xA7C9, 2, 0xA7C8); (0xA7D0, 0xA7D0, 1, 0xA7D1);
   (0xA7D6, 0xA7D8, 2, 0xA7D7); (0xA7F5, 0xA7F5, 1, 0xA7F6); (0xFF21, 0xFF3A, 1, 0xFF41);
   (0x10400, 0x10427, 1, 0x10428); (0x104B0, 0x104D3, 1, 0x104D8); (0x10570, 0x1057A, 1, 0x10597);
   (0x1057C, 0x1058A, 1, 0x105A3); (0x1058C, 0x10592, 1, 0x105B3); (0x10594, 0x10595, 1, 0x105BB);
   (0x10C80, 0x10CB2, 1, 0x10CC0); (0x118A0, 0x118BF, 1, 0x118C0); (0x16E40, 0x16E5F, 1, 0x16E60);
   (0x1E900, 0x1E921, 1, 0x1E922)]%N.

(** The code points that [str.lower] turns into more than one. *)
Definition LOWER_SPECIAL : list (N * list N) :=
  [(0x130, [0x69; 0x307])]%N.

Definition UPPER : list span :=
  [(0x61, 0x7A, 1, 0x41); (0xB5, 0xB5, 1, 0x39C); (0xE0, 0xF6, 1, 0xC0);
   (0xF8, 0xFE, 1, 0xD8); (0xFF, 0xFF, 1, 0x178); (0x101, 0x12F, 2, 0x100);
   (0x131, 0x131, 1, 0x49); (0x133, 0x137, 2, 0x132); (0x13A, 0x148, 2, 0x139);
   (0x14B, 0x177, 2, 0x14A); (0x17A, 0x17E, 2, 0x179); (0x17F, 0x17F, 1, 0x53);
   (0x180, 0x180, 1, 0x243); (0x183, 0x185, 2, 0x182); (0x188, 0x188, 1, 0x187);
   (0x18C, 0x18C, 1, 0x18B); (0x192, 0x192, 1, 0x191); (0x195, 0x195, 1, 0x1F6);
   (0x199, 0x199, 1, 0x198); (0x19A, 0x19A, 1, 0x23D); (0x19E, 0x19E, 1, 0x220);
   (0x1A1, 0x1A5, 2, 0x1A0); (0x1A8, 0x1A8, 1, 0x1A7); (0x1AD, 0x1AD, 1, 0x1AC);
   (0x1B0, 0x1B0, 1, 0x1AF); (0x1B4, 0x1B6, 2, 0x1B3); (0x1B9, 0x1B9, 1, 0x1B8);
   (0x1BD, 0x1BD, 1, 0x1BC); (0x1BF, 0x1BF, 1, 0x1F7); (0x1C5, 0x1C5, 1, 0x1C4);
   (0x1C6, 0x1C6, 1, 0x1C4); (0x1C8, 0x1C8, 1, 0x1C7); (0x1C9, 0x1C9, 1, 0x1C7);
   (0x1CB, 0x1CB, 1, 0x1CA); (0x1CC, 0x1CC, 1, 0x1CA); (0x1CE, 0x1DC, 2, 0x1CD);
   (0x1DD, 0x1DD, 1, 0x18E); (0x1DF, 0x1EF, 2, 0x1DE); (0x1F2, 0x1F2, 1, 0x1F1);
   (0x1F3, 0x1F3, 1, 0x1F1); (0x1F5, 0x1F5, 1, 0x1F4); (0x1F9, 0x21F, 2, 0x1F8);
   (0x223, 0x233, 2, 0x222); (0x23C, 0x23C, 1, 0x23B); (0x23F, 0x240, 1, 0x2C7E);
   (0x242, 0x242, 1, 0x241); (0x247, 0x24F, 2, 0x246); (0x250, 0x250, 1, 0x2C6F);
   (0x251, 0x251, 1, 0x2C6D); (0x252, 0x252, 1, 0x2C70); (0x253, 0x253, 1, 0x181);
   (0x254, 0x254, 1, 0x186); (0x256, 0x257, 1, 0x189); (0x259, 0x259, 1, 0x18F);
   (0x25B, 0x25B, 1, 0x190); (0x25C, 0x25C, 1, 0xA7AB); (0x260, 0x260, 1, 0x193);
   (0x261, 0x261, 1, 0xA7AC); (0x263, 0x263, 1, 0x194); (0x265, 0x265, 1, 0xA78D);
   (0x266, 0x266, 1, 0xA7AA); (0x268, 0x268, 1, 0x197); (0x269, 0x269, 1, 0x196);
   (0x26A, 0x26A, 1, 0xA7AE); (0x26B, 0x26B, 1, 0x2C62); (0x26C, 0x26C, 1, 0xA7AD);
   (0x26F, 0x26F, 1, 0x19C); (0x271, 0x271, 1, 0x2C6E); (0x272, 0x272, 1, 0x19D);
   (0x275, 0x275, 1, 0x19F); (0x27D, 0x27D, 1, 0x2C64); (0x280, 0x280, 1, 0x1A6);
   (0x282, 0x282, 1, 0xA7C5); (0x283, 0x283, 1, 0x1A9); (0x287, 0x287, 1, 0xA7B1);
   (0x288, 0x288, 1, 0x1AE); (0x289, 0x289, 1, 0x244); (0x28A, 0x28B, 1, 0x1B1);
   (0x28C, 0x28C, 1, 0x245); (0x292, 0x292, 1, 0x1B7); (0x29D, 0x29D, 1, 0xA7B2);
   (0x29E, 0x29E, 1, 0xA7B0); (0x345, 0x345, 1, 0x399); (0x371, 0x373, 2, 0x370);
   (0x377, 0x377, 1, 0x376); (0x37B, 0x37D, 1, 0x3FD); (0x3AC, 0x3AC, 1, 0x386);
   (0x3AD, 0x3AF, 1, 0x388); (0x3B1, 0x3C1, 1, 0x391); (0x3C2, 0x3C2, 1, 0x3A3);
   (0x3C3, 0x3CB, 1, 0x3A3); (0x3CC, 0x3CC, 1, 0x38C); (0x3CD, 0x3CE, 1, 0x38E);
   (0x3D0, 0x3D0, 1, 0x392); (0x3D1, 0x3D1, 1, 0x398); (0x3D5, 0x3D5, 1, 0x3A6);
   (0x3D6, 0x3D6, 1, 0x3A0); (0x3D7, 0x3D7, 1, 0x3CF); (0x3D9, 0x3EF, 2, 0x3D8);
   (0x3F0, 0x3F0, 1, 0x39A); (0x3F1, 0x3F1, 1, 0x3A1); (0x3F2, 0x3F2, 1, 0x3F9);
   (0x3F3, 0x3F3, 1, 0x37F); (0x3F5, 0x3F5, 1, 0x395); (0x3F8, 0x3F8, 1, 0x3F7);
   (0x3FB, 0x3FB, 1, 0x3FA); (0x430, 0x44F, 1, 0x410); (0x450, 0x45F, 1, 0x400);
   (0x461, 0x481, 2, 0x460); (0x48B, 0x4BF, 2, 0x48A); (0x4C2, 0x4CE, 2, 0x4C1);
   (0x4CF, 0x4CF, 1, 0x4C0); (0x4D1, 0x52F, 2, 0x4D0); (0x561, 0x586, 1, 0x531);
   (0x10D0, 0x10FA, 1, 0x1C90); (0x10FD, 0x10FF, 1, 0x1CBD); (0x13F8, 0x13FD, 1, 0x13F0);
   (0x1C80, 0x1C80, 1, 0x412); (0x1C81, 0x1C81, 1, 0x414); (0x1C82, 0x1C82, 1, 0x41E);
   (0x1C83, 0x1C84, 1, 0x421); (0x1C85, 0x1C85, 1, 0x422); (0x1C86, 0x1C86, 1, 0x42A);
   (0x1C87, 0x1C87, 1, 0x462); (0x1C88, 0x1C88, 1, 0xA64A); (0x1D79, 0x1D79, 1, 0xA77D);
   (0x1D7D, 0x1D7D, 1, 0x2C63); (0x1D8E, 0x1D8E, 1, 0xA7C6); (0x1E01, 0x1E95, 2, 0x1E00);
   (0x1E9B, 0x1E9B, 1, 0x1E60); (0x1EA1, 0x1EFF, 2, 0x1EA0); (0x1F00, 0x1F07, 1, 0x1F08);
   (0x1F10, 0x1F15, 1, 0x1F18); (0x1F20, 0x1F27, 1, 0x1F28); (0x1F30, 0x1F37, 1, 0x1F38);
   (0x1F40, 0x1F45, 1, 0x1F48); (0x1F51, 0x1F57, 2, 0x1F59); (0x1F60, 0x1F67, 1, 0x1F68);
   (0x1F70, 0x1F71, 1, 0x1FBA); (0x1F72, 0x1F75, 1, 0x1FC8); (0x1F76, 0x1F77, 1, 0x1FDA);
   (0x1F78, 0x1F79, 1, 0x1FF8); (0x1F7A, 0x1F7B, 1, 0x1FEA); (0x1F7C, 0x1F7D, 1, 0x1FFA);
   (0x1FB0, 0x1FB1, 1, 0x1FB8); (0x1FBE, 0x1FBE, 1, 0x399); (0x1FD0, 0x1FD1, 1, 0x1FD8);
   (0x1FE0, 0x1FE1, 1, 0x1FE8); (0x1FE5, 0x1FE5, 1, 0x1FEC); (0x214E, 0x214E, 1, 0x2132);
   (0x2170, 0x217F, 1, 0x2160); (0x2184, 0x2184, 1, 0x2183); (0x24D0, 0x24E9, 1, 0x24B6);
   (0x2C30, 0x2C5F, 1, 0x2C00); (0x2C61, 0x2C61, 1, 0x2C60); (0x2C65, 0x2C65, 1, 0x23A);
   (0x2C66, 0x2C66, 1, 0x23E); (0x2C68, 0x2C6C, 2, 0x2C67); (0x2C73, 0x2C73, 1, 0x2C72);
   (0x2C76, 0x2C76, 1, 0x2C75); (0x2C81, 0x2CE3, 2, 0x2C80); (0x2CEC, 0x2CEE, 2, 0x2CEB);
   (0x2CF3, 0x2CF3, 1, 0x2CF2); (0x2D00, 0x2D25, 1, 0x10A0); (0x2D27, 0x2D27, 1, 0x10C7);
   (0x2D2D, 0x2D2D, 1, 0x10CD); (0xA641, 0xA66D, 2, 0xA640); (0xA681, 0xA69B, 2, 0xA680);
   (0xA723, 0xA72F, 2, 0xA722); (0xA733, 0xA76F, 2, 0xA732); (0xA77A, 0xA77C, 2, 0xA779);
   (0xA77F, 0xA787, 2, 0xA77E); (0xA78C, 0xA78C, 1, 0xA78B); (0xA791, 0xA793, 2, 0xA790);
   (0xA794, 0xA794, 1, 0xA7C4); (0xA797, 0xA7A9, 2, 0xA796); (0xA7B5, 0xA7C3, 2, 0xA7B4);
   (0xA7C8, 0xA7CA, 2, 0xA7C7); (0xA7D1, 0xA7D1, 1, 0xA7D0); (0xA7D7, 0xA7D9, 2, 0xA7D6);
   (0xA7F6, 0xA7F6, 1, 0xA7F5); (0xAB53, 0xAB53, 1, 0xA7B3); (0xAB70, 0xABBF, 1, 0x13A0);
   (0xFF41, 0xFF5A, 1, 0xFF21); (0x10428, 0x1044F, 1, 0x10400); (0x104D8, 0x104FB, 1, 0x104B0);
   (0x10597, 0x105A1, 1, 0x10570); (0x105A3, 0x105B1, 1, 0x1057C); (0x105B3, 0x105B9, 1, 0x1058C);
   (0x105BB, 0x105BC, 1, 0x10594); (0x10CC0, 0x10CF2, 1, 0x10C80); (0x118C0, 0x118DF, 1, 0x118A0);
   (0x16E60, 0x16E7F, 1, 0x16E40); (0x1E922, 0x1E943, 1, 0x1E900)]%N.

(** The code points that [str.upper] turns into more than one. *)
Definition UPPER_SPECIAL : list (N * list N) :=
  [(0xDF, [0x53; 0x53]); (0x149, [0x2BC; 0x4E]); (0x1F0, [0x4A; 0x30C]);
   (0x390, [0x399; 0x308; 0x301]); (0x3B0, [0x3A5; 0x308; 0x301]); (0x587, [0x535; 0x552]);
   (0x1E96, [0x48; 0x331]); (0x1E97, [0x54; 0x308]); (0x1E98, [0x57; 0x30A]);
   (0x1E99, [0x59; 0x30A]); (0x1E9A, [0x41; 0x2BE]); (0x1F50, [0x3A5; 0x313]);
   (0x1F52, [0x3A5; 0x313; 0x300]); (0x1F54, [0x3A5; 0x313; 0x301]); (0x1F56, [0x3A5; 0x313; 0x342]);
   (0x1F80, [0x1F08; 0x399]); (0x1F81, [0x1F09; 0x399]); (0x1F82, [0x1F0A; 0x399]);
   (0x1F83, [0x1F0B; 0x399]); (0x1F84, [0x1F0C; 0x399]); (0x1F85, [0x1F0D; 0x399]);
   (0x1F86, [0x1F0E; 0x399]); (0x1F87, [0x1F0F; 0x399]); (0x1F88, [0x1F08; 0x399]);
   (0x1F89, [0x1F09; 0x399]); (0x1F8A, [0x1F0A; 0x399]); (0x1F8B, [0x1F0B; 0x399]);
   (0x1F8C, [0x1F0C; 0x399]); (0x1F8D, [0x1F0D; 0x399]); (0x1F8E, [0x1F0E; 0x399]);
   (0x1F8F, [0x1F0F; 0x399]); (0x1F90, [0x1F28; 0x399]); (0x1F91, [0x1F29; 0x399]);
   (0x1F92, [0x1F2A; 0x399]); (0x1F93, [0x1F2B; 0x399]); (0x1F94, [0x1F2C; 0x399]);
   (0x1F95, [0x1F2D; 0x399]); (0x1F96, [0x1F2E; 0x399]); (0x1F97, [0x1F2F; 0x399]);
   (0x1F98, [0x1F28; 0x399]); (0x1F99, [0x1F29; 0x399]); (0x1F9A, [0x1F2A; 0x399]);
   (0x1F9B, [0x1F2B; 0x399]); (0x1F9C, [0x1F2C; 0x399]); (0x1F9D, [0x1F2D; 0x399]);
   (0x1F9E, [0x1F2E; 0x399]); (0x1F9F, [0x1F2F; 0x399]); (0x1FA0, [0x1F68; 0x399]);
   (0x1FA1, [0x1F69; 0x399]); (0x1FA2, [0x1F6A; 0x399]); (0x1FA3, [0x1F6B; 0x399]);
   (0x1FA4, [0x1F6C; 0x399]); (0x1FA5, [0x1F6D; 0x399]); (0x1FA6, [0x1F6E; 0x399]);
   (0x1FA7, [0x1F6F; 0x399]); (0x1FA8, [0x1F68; 0x399]); (0x1FA9, [0x1F69; 0x399]);
   (0x1FAA, [0x1F6A; 0x399]); (0x1FAB, [0x1F6B; 0x399]); (0x1FAC, [0x1F6C; 0x399]);
   (0x1FAD, [0x1F6D; 0x399]); (0x1FAE, [0x1F6E; 0x399]); (0x1FAF, [0x1F6F; 0x399]);
   (0x1FB2, [0x1FBA; 0x399]); (0x1FB3, [0x391; 0x399]); (0x1FB4, [0x386; 0x399]);
   (0x1FB6, [0x391; 0x342]); (0x1FB7, [0x391; 0x342; 0x399]); (0x1FBC, [0x391; 0x399]);
   (0x1FC2, [0x1FCA; 0x399]); (0x1FC3, [0x397; 0x399]); (0x1FC4, [0x389; 0x399]);
   (0x1FC6, [0x397; 0x342]); (0x1FC7, [0x397; 0x342; 0x399]); (0x1FCC, [0x397; 0x399]);
   (0x1FD2, [0x399; 0x308; 0x300]); (0x1FD3, [0x399; 0x308; 0x301]); (0x1FD6, [0x399; 0x342]);
   (0x1FD7, [0x399; 0x308; 0x342]); (0x1FE2, [0x3A5; 0x308; 0x300]); (0x1FE3, [0x3A5; 0x308; 0x301]);
   (0x1FE4, [0x3A1; 0x313]); (0x1FE6, [0x3A5; 0x342]); (0x1FE7, [0x3A5; 0x308; 0x342]);
   (0x1FF2, [0x1FFA; 0x399]); (0x1FF3, [0x3A9; 0x399]); (0x1FF4, [0x38F; 0x399]);
   (0x1FF6, [0x3A9; 0x342]); (0x1FF7, [0x3A9; 0x342; 0x399]); (0x1FFC, [0x3A9; 0x399]);
   (0xFB00, [0x46; 0x46]); (0xFB01, [0x46; 0x49]); (0xFB02, [0x46; 0x4C]);
   (0xFB03, [0x46; 0x46; 0x49]); (0xFB04, [0x46; 0x46; 0x4C]); (0xFB05, [0x53; 0x54]);
   (0xFB06, [0x53; 0x54]); (0xFB13, [0x544; 0x546]); (0xFB14, [0x544; 0x535]);
   (0xFB15, [0x544; 0x53B]); (0xFB16, [0x54E; 0x546]); (0xFB17, [0x544; 0x53D])]%N.

(** The code points with the property Case_Ignorable. *)
Definition CASE_IGNORABLE : list (N * N) :=
  [(0x27, 0x27); (0x2E, 0x2E); (0x3A, 0x3A); (0x5E, 0x5E);
   (0x60, 0x60); (0xA8, 0xA8); (0xAD, 0xAD); (0xAF, 0xAF);
   (0xB4, 0xB4); (0xB7, 0xB8); (0x2B0, 0x36F); (0x374, 0x375);
   (0x37A, 0x37A); (0x384, 0x385); (0x387, 0x387); (0x483, 0x489);
   (0x559, 0x559); (0x55F, 0x55F); (0x591, 0x5BD); (0x5BF, 0x5BF);
   (0x5C1, 0x5C2); (0x5C4, 0x5C5); (0x5C7, 0x5C7); (0x5F4, 0x5F4);
   (0x600, 0x605); (0x610, 0x61A); (0x61C, 0x61C); (0x640, 0x640);
   (0x64B, 0x65F); (0x670, 0x670); (0x6D6, 0x6DD); (0x6DF, 0x6E8);
   (0x6EA, 0x6ED); (0x70F, 0x70F); (0x711, 0x711); (0x730, 0x74A);
   (0x7A6, 0x7B0); (0x7EB, 0x7F5); (0x7FA, 0x7FA); (0x7FD, 0x7FD);
   (0x816, 0x82D); (0x859, 0x85B); (0x888, 0x888); (0x890, 0x891);
   (0x898, 0x89F); (0x8C9, 0x902); (0x93A, 0x93A); (0x93C, 0x93C);
   (0x941, 0x948); (0x94D, 0x94D); (0x951, 0x957); (0x962, 0x963);
   (0x971, 0x971); (0x981, 0x981); (0x9BC, 0x9BC); (0x9C1, 0x9C4);
   (0x9CD, 0x9CD); (0x9E2, 0x9E3); (0x9FE, 0x9FE); (0xA01, 0xA02);
   (0xA3C, 0xA3C); (0xA41, 0xA42); (0xA47, 0xA48); (0xA4B, 0xA4D);
   (0xA51, 0xA51); (0xA70, 0xA71); (0xA75, 0xA75); (0xA81, 0xA82);
   (0xABC, 0xABC); (0xAC1, 0xAC5); (0xAC7, 0xAC8); (0xACD, 0xACD);
   (0xAE2, 0xAE3); (0xAFA, 0xAFF); (0xB01, 0xB01); (0xB3C, 0xB3C);
   (0xB3F, 0xB3F); (0xB41, 0xB44); (0xB4D, 0xB4D); (0xB55, 0xB56);
   (0xB62, 0xB63); (0xB82, 0xB82); (0xBC0, 0xBC0); (0xBCD, 0xBCD);
   (0xC00, 0xC00); (0xC04, 0xC04); (0xC3C, 0xC3C); (0xC3E, 0xC40);
   (0xC46, 0xC48); (0xC4A, 0xC4D); (0xC55, 0xC56); (0xC62, 0xC63);
   (0xC81, 0xC81); (0xCBC, 0xCBC); (0xCBF, 0xCBF); (0xCC6, 0xCC6);
   (0xCCC, 0xCCD); (0xCE2, 0xCE3); (0xD00, 0xD01); (0xD3B, 0xD3C);
   (0xD41, 0xD44); (0xD4D, 0xD4D); (0xD62, 0xD63); (0xD81, 0xD81);
   (0xDCA, 0xDCA); (0xDD2, 0xDD4); (0xDD6, 0xDD6); (0xE31, 0xE31);
   (0xE34, 0xE3A); (0xE46, 0xE4E); (0xEB1, 0xEB1); (0xEB4, 0xEBC);
   (0xEC6, 0xEC6); (0xEC8, 0xECD); (0xF18, 0xF19); (0xF35, 0xF35);
   (0xF37, 0xF37); (0xF39, 0xF39); (0xF71, 0xF7E); (0xF80, 0xF84);
   (0xF86, 0xF87); (0xF8D, 0xF97); (0xF99, 0xFBC); (0xFC6, 0xFC6);
   (0x102D, 0x1030); (0x1032, 0x1037); (0x1039, 0x103A); (0x103D, 0x103E);
   (0x1058, 0x1059); (0x105E, 0x1060); (0x1071, 0x1074); (0x1082, 0x1082);
   (0x1085, 0x1086); (0x108D, 0x108D); (0x109D, 0x109D); (0x10FC, 0x10FC);
   (0x135D, 0x135F); (0x1712, 0x1714); (0x1732, 0x1733); (0x1752, 0x1753);
   (0x1772, 0x1773); (0x17B4, 0x17B5); (0x17B7, 0x17BD); (0x17C6, 0x17C6);
   (0x17C9, 0x17D3); (0x17D7, 0x17D7); (0x17DD, 0x17DD); (0x180B, 0x180F);
   (0x1843, 0x1843); (0x1885, 0x1886); (0x18A9, 0x18A9); (0x1920, 0x1922);
   (0x1927, 0x1928); (0x1932, 0x1932); (0x1939, 0x193B); (0x1A17, 0x1A18);
   (0x1A1B, 0x1A1B); (0x1A56, 0x1A56); (0x1A58, 0x1A5E); (0x1A60, 0x1A60);
   (0x1A62, 0x1A62); (0x1A65, 0x1A6C); (0x1A73, 0x1A7C); (0x1A7F, 0x1A7F);
   (0x1AA7, 0x1AA7); (0x1AB0, 0x1ACE); (0x1B00, 0x1B03); (0x1B34, 0x1B34);
   (0x1B36, 0x1B3A); (0x1B3C, 0x1B3C); (0x1B42, 0x1B42); (0x1B6B, 0x1B73);
   (0x1B80, 0x1B81); (0x1BA2, 0x1BA5); (0x1BA8, 0x1BA9); (0x1BAB, 0x1BAD);
   (0x1BE6, 0x1BE6); (0x1BE8, 0x1BE9); (0x1BED, 0x1BED); (0x1BEF, 0x1BF1);
   (0x1C2C, 0x1C33); (0x1C36, 0x1C37); (0x1C78, 0x1C7D); (0x1CD0, 0x1CD2);
   (0x1CD4, 0x1CE0); (0x1CE2, 0x1CE8); (0x1CED, 0x1CED); (0x1CF4, 0x1CF4);
   (0x1CF8, 0x1CF9); (0x1D2C, 0x1D6A); (0x1D78, 0x1D78); (0x1D9B, 0x1DFF);
   (0x1FBD, 0x1FBD); (0x1FBF, 0x1FC1); (0x1FCD, 0x1FCF); (0x1FDD, 0x1FDF);
   (0x1FED, 0x1FEF); (0x1FFD, 0x1FFE); (0x200B, 0x200F); (0x2018, 0x2019);
   (0x2024, 0x2024); (0x2027, 0x2027); (0x202A, 0x202E); (0x2060, 0x2064);
   (0x2066, 0x206F); (0x2071, 0x2071); (0x207F, 0x207F); (0x2090, 0x209C);
   (0x20D0, 0x20F0); (0x2C7C, 0x2C7D); (0x2CEF, 0x2CF1); (0x2D6F, 0x2D6F);
   (0x2D7F, 0x2D7F); (0x2DE0, 0x2DFF); (0x2E2F, 0x2E2F); (0x3005, 0x3005);
   (0x302A, 0x302D); (0x3031, 0x3035); (0x303B, 0x303B); (0x3099, 0x309E);
   (0x30FC, 0x30FE); (0xA015, 0xA015); (0xA4F8, 0xA4FD); (0xA60C, 0xA60C);
   (0xA66F, 0xA672); (0xA674, 0xA67D); (0xA67F, 0xA67F); (0xA69C, 0xA69F);
   (0xA6F0, 0xA6F1); (0xA700, 0xA721); (0xA770, 0xA770); (0xA788, 0xA78A);
   (0xA7F2, 0xA7F4); (0xA7F8, 0xA7F9); (0xA802, 0xA802); (0xA806, 0xA806);
   (0xA80B, 0xA80B); (0xA825, 0xA826); (0xA82C, 0xA82C); (0xA8C4, 0xA8C5);
   (0xA8E0, 0xA8F1); (0xA8FF, 0xA8FF); (0xA926, 0xA92D); (0xA947, 0xA951);
   (0xA980, 0xA982); (0xA9B3, 0xA9B3); (0xA9B6, 0xA9B9); (0xA9BC, 0xA9BD);
   (0xA9CF, 0xA9CF); (0xA9E5, 0xA9E6); (0xAA29, 0xAA2E); (0xAA31, 0xAA32);
   (0xAA35, 0xAA36); (0xAA43, 0xAA43); (0xAA4C, 0xAA4C); (0xAA70, 0xAA70);
   (0xAA7C, 0xAA7C); (0xAAB0, 0xAAB0); (0xAAB2, 0xAAB4); (0xAAB7, 0xAAB8);
   (0xAABE, 0xAABF); (0xAAC1, 0xAAC1); (0xAADD, 0xAADD); (0xAAEC, 0xAAED);
   (0xAAF3, 0xAAF4); (0xAAF6, 0xAAF6); (0xAB5B, 0xAB5F); (0xAB69, 0xAB6B);
   (0xABE5, 0xABE5); (0xABE8, 0xABE8); (0xABED, 0xABED); (0xFB1E, 0xFB1E);
   (0xFBB2, 0xFBC2); (0xFE00, 0xFE0F); (0xFE13, 0xFE13); (0xFE20, 0xFE2F);
   (0xFE52, 0xFE52); (0xFE55, 0xFE55); (0xFEFF, 0xFEFF); (0xFF07, 0xFF07);
   (0xFF0E, 0xFF0E); (0xFF1A, 0xFF1A); (0xFF3E, 0xFF3E); (0xFF40, 0xFF40);
   (0xFF70, 0xFF70); (0xFF9E, 0xFF9F); (0xFFE3, 0xFFE3); (0xFFF9, 0xFFFB);
   (0x101FD, 0x101FD); (0x102E0, 0x102E0); (0x10376, 0x1037A); (0x10780, 0x10785);
   (0x10787, 0x107B0); (0x107B2, 0x107BA); (0x10A01, 0x10A03); (0x10A05, 0x10A06);
   (0x10A0C, 0x10A0F); (0x10A38, 0x10A3A); (0x10A3F, 0x10A3F); (0x10AE5, 0x10AE6);
   (0x10D24, 0x10D27); (0x10EAB, 0x10EAC); (0x10F46, 0x10F50); (0x10F82, 0x10F85);
   (0x11001, 0x11001); (0x11038, 0x11046); (0x11070, 0x11070); (0x11073, 0x11074);
   (0x1107F, 0x11081); (0x110B3, 0x110B6); (0x110B9, 0x110BA); (0x110BD, 0x110BD);
   (0x110C2, 0x110C2); (0x110CD, 0x110CD); (0x11100, 0x11102); (0x11127, 0x1112B);
   (0x1112D, 0x11134); (0x11173, 0x11173); (0x11180, 0x11181); (0x111B6, 0x111BE);
   (0x111C9, 0x111CC); (0x111CF, 0x111CF); (0x1122F, 0x11231); (0x11234, 0x11234);
   (0x11236, 0x11237); (0x1123E, 0x1123E); (0x112DF, 0x112DF); (0x112E3, 0x112EA);
   (0x11300, 0x11301); (0x1133B, 0x1133C); (0x11340, 0x11340); (0x11366, 0x1136C);
   (0x11370, 0x11374); (0x11438, 0x1143F); (0x11442, 0x11444); (0x11446, 0x11446);
   (0x1145E, 0x1145E); (0x114B3, 0x114B8); (0x114BA, 0x114BA); (0x114BF, 0x114C0);
   (0x114C2, 0x114C3); (0x115B2, 0x115B5); (0x115BC, 0x115BD); (0x115BF, 0x115C0);
   (0x115DC, 0x115DD); (0x11633, 0x1163A); (0x1163D, 0x1163D); (0x1163F, 0x11640);
   (0x116AB, 0x116AB); (0x116AD, 0x116AD); (0x116B0, 0x116B5); (0x116B7, 0x116B7);
   (0x1171D, 0x1171F); (0x11722, 0x11725); (0x11727, 0x1172B); (0x1182F, 0x11837);
   (0x11839, 0x1183A); (0x1193B, 0x1193C); (0x1193E, 0x1193E); (0x11943, 0x11943);
   (0x119D4, 0x119D7); (0x119DA, 0x119DB); (0x119E0, 0x119E0); (0x11A01, 0x11A0A);
   (0x11A33, 0x11A38); (0x11A3B, 0x11A3E); (0x11A47, 0x11A47); (0x11A51, 0x11A56);
   (0x11A59, 0x11A5B); (0x11A8A, 0x11A96); (0x11A98, 0x11A99); (0x11C30, 0x11C36);
   (0x11C38, 0x11C3D); (0x11C3F, 0x11C3F); (0x11C92, 0x11CA7); (0x11CAA, 0x11CB0);
   (0x11CB2, 0x11CB3); (0x11CB5, 0x11CB6); (0x11D31, 0x11D36); (0x11D3A, 0x11D3A);
   (0x11D3C, 0x11D3D); (0x11D3F, 0x11D45); (0x11D47, 0x11D47); (0x11D90, 0x11D91);
   (0x11D95, 0x11D95); (0x11D97, 0x11D97); (0x11EF3, 0x11EF4); (0x13430, 0x13438);
   (0x16AF0, 0x16AF4); (0x16B30, 0x16B36); (0x16B40, 0x16B43); (0x16F4F, 0x16F4F);
   (0x16F8F, 0x16F9F); (0x16FE0, 0x16FE1); (0x16FE3, 0x16FE4); (0x1AFF0, 0x1AFF3);
   (0x1AFF5, 0x1AFFB); (0x1AFFD, 0x1AFFE); (0x1BC9D, 0x1BC9E); (0x1BCA0, 0x1BCA3);
   (0x1CF00, 0x1CF2D); (0x1CF30, 0x1CF46); (0x1D167, 0x1D169); (0x1D173, 0x1D182);
   (0x1D185, 0x1D18B); (0x1D1AA, 0x1D1AD); (0x1D242, 0x1D244); (0x1DA00, 0x1DA36);
   (0x1DA3B, 0x1DA6C); (0x1DA75, 0x1DA75); (0x1DA84, 0x1DA84); (0x1DA9B, 0x1DA9F);
   (0x1DAA1, 0x1DAAF); (0x1E000, 0x1E006); (0x1E008, 0x1E018); (0x1E01B, 0x1E021);
   (0x1E023, 0x1E024); (0x1E026, 0x1E02A); (0x1E130, 0x1E13D); (0x1E2AE, 0x1E2AE);
   (0x1E2EC, 0x1E2EF); (0x1E8D0, 0x1E8D6); (0x1E944, 0x1E94B); (0x1F3FB, 0x1F3FF);
   (0xE0001, 0xE0001); (0xE0020, 0xE007F); (0xE0100, 0xE01EF)]%N.

(** The cased code points that are not Case_Ignorable. *)
Definition CASED : list (N * N) :=
  [(0x41, 0x5A); (0x61, 0x7A); (0xAA, 0xAA); (0xB5, 0xB5);
   (0xBA, 0xBA); (0xC0, 0xD6); (0xD8, 0xF6); (0xF8, 0x1BA);
   (0x1BC, 0x1BF); (0x1C4, 0x293); (0x295, 0x2AF); (0x370, 0x373);
   (0x376, 0x377); (0x37B, 0x37D); (0x37F, 0x37F); (0x386, 0x386);
   (0x388, 0x38A); (0x38C, 0x38C); (0x38E, 0x3A1); (0x3A3, 0x3F5);
   (0x3F7, 0x481); (0x48A, 0x52F); (0x531, 0x556); (0x560, 0x588);
   (0x10A0, 0x10C5); (0x10C7, 0x10C7); (0x10CD, 0x10CD); (0x10D0, 0x10FA);
   (0x10FD, 0x10FF); (0x13A0, 0x13F5); (0x13F8, 0x13FD); (0x1C80, 0x1C88);
   (0x1C90, 0x1CBA); (0x1CBD, 0x1CBF); (0x1D00, 0x1D2B); (0x1D6B, 0x1D77);
   (0x1D79, 0x1D9A); (0x1E00, 0x1F15); (0x1F18, 0x1F1D); (0x1F20, 0x1F45);
   (0x1F48, 0x1F4D); (0x1F50, 0x1F57); (0x1F59, 0x1F59); (0x1F5B, 0x1F5B);
   (0x1F5D, 0x1F5D); (0x1F5F, 0x1F7D); (0x1F80, 0x1FB4); (0x1FB6, 0x1FBC);
   (0x1FBE, 0x1FBE); (0x1FC2, 0x1FC4); (0x1FC6, 0x1FCC); (0x1FD0, 0x1FD3);
   (0x1FD6, 0x1FDB); (0x1FE0, 0x1FEC); (0x1FF2, 0x1FF4); (0x1FF6, 0x1FFC);
   (0x2102, 0x2102); (0x2107, 0x2107); (0x210A, 0x2113); (0x2115, 0x2115);
   (0x2119, 0x211D); (0x2124, 0x2124); (0x2126, 0x2126); (0x2128, 0x2128);
   (0x212A, 0x212D); (0x212F, 0x2134); (0x2139, 0x2139); (0x213C, 0x213F);
   (0x2145, 0x2149); (0x214E, 0x214E); (0x2160, 0x217F); (0x2183, 0x2184);
   (0x24B6, 0x24E9); (0x2C00, 0x2C7B); (0x2C7E, 0x2CE4); (0x2CEB, 0x2CEE);
   (0x2CF2, 0x2CF3); (0x2D00, 0x2D25); (0x2D27, 0x2D27); (0x2D2D, 0x2D2D);
   (0xA640, 0xA66D); (0xA680, 0xA69B); (0xA722, 0xA76F); (0xA771, 0xA787);
   (0xA78B, 0xA78E); (0xA790, 0xA7CA); (0xA7D0, 0xA7D1); (0xA7D3, 0xA7D3);
   (0xA7D5, 0xA7D9); (0xA7F5, 0xA7F6); (0xA7FA, 0xA7FA); (0xAB30, 0xAB5A);
   (0xAB60, 0xAB68); (0xAB70, 0xABBF); (0xFB00, 0xFB06); (0xFB13, 0xFB17);
   (0xFF21, 0xFF3A); (0xFF41, 0xFF5A); (0x10400, 0x1044F); (0x104B0, 0x104D3);
   (0x104D8, 0x104FB); (0x10570, 0x1057A); (0x1057C, 0x1058A); (0x1058C, 0x10592);
   (0x10594, 0x10595); (0x10597, 0x105A1); (0x105A3, 0x105B1); (0x105B3, 0x105B9);
   (0x105BB, 0x105BC); (0x10C80, 0x10CB2); (0x10CC0, 0x10CF2); (0x118A0, 0x118DF);
   (0x16E40, 0x16E7F); (0x1D400, 0x1D454); (0x1D456, 0x1D49C); (0x1D49E, 0x1D49F);
   (0x1D4A2, 0x1D4A2); (0x1D4A5, 0x1D4A6); (0x1D4A9, 0x1D4AC); (0x1D4AE, 0x1D4B9);
   (0x1D4BB, 0x1D4BB); (0x1D4BD, 0x1D4C3); (0x1D4C5, 0x1D505); (0x1D507, 0x1D50A);
   (0x1D50D, 0x1D514); (0x1D516, 0x1D51C); (0x1D51E, 0x1D539); (0x1D53B, 0x1D53E);
   (0x1D540, 0x1D544); (0x1D546, 0x1D546); (0x1D54A, 0x1D550); (0x1D552, 0x1D6A5);
   (0x1D6A8, 0x1D6C0); (0x1D6C2, 0x1D6DA); (0x1D6DC, 0x1D6FA); (0x1D6FC, 0x1D714);
   (0x1D716, 0x1D734); (0x1D736, 0x1D74E); (0x1D750, 0x1D76E); (0x1D770, 0x1D788);
   (0x1D78A, 0x1D7A8); (0x1D7AA, 0x1D7C2); (0x1D7C4, 0x1D7CB); (0x1DF00, 0x1DF09);
   (0x1DF0B, 0x1DF1E); (0x1E900, 0x1E943); (0x1F130, 0x1F149); (0x1F150, 0x1F169);
   (0x1F170, 0x1F189)]%N.

Definition mapped (special : list (N * list N)) (table : list span) (n : N)
  : list N :=
  match find (fun e => (fst e =? n)%N) special with
  | Some (_, image) => image
  | None => [shifted table n]
  end.

(** A character through a case mapping. *)
Definition map_char (special : list (N * list N)) (table : list span) (k : string)
  : string :=
  match ord k with
  | Some n => unchars (map utf8 (mapped special table n))
  | None => k
  end.

Definition case_ignorable (k : string) : bool :=
  match ord k with Some n => in_ranges CASE_IGNORABLE n | None => false end.
Definition cased (k : string) : bool :=
  match ord k with Some n => in_ranges CASED n | None => false end.

(** The first character that counts for case, if there is one, is cased. *)
Fixpoint cased_ahead (ks : list string) : bool :=
  match ks with
  | [] => false
  | k :: rest => if case_ignorable k then cased_ahead rest else cased k
  end.

Definition capital_sigma : string := utf8 0x3A3.
Definition small_sigma : string := utf8 0x3C3.
Definition final_sigma : string := utf8 0x3C2.

(** [str.lower]: every character through the mapping, but for the capital
    sigma, which becomes the final sigma when it ends a word: a cased letter
    before it and none after it, characters that are ignored for case being
    skipped. [after_cased] says that the last character before that counts is
    cased. *)
Fixpoint lower_chars (after_cased : bool) (ks : list string) : string :=
  match ks with
  | [] => EmptyString
  | k :: rest =>
      (if String.eqb k capital_sigma then
         if after_cased && negb (cased_ahead rest) then final_sigma else small_sigma
       else map_char LOWER_SPECIAL LOWER k)
      ++ lower_chars (if case_ignorable k then after_cased else cased k) rest
  end.

Definition lower (s : string) : string := lower_chars false (chars s).

(** [str.upper] *)
Fixpoint upper_chars (ks : list string) : string :=
  match ks with
  | [] => EmptyString
  | k :: rest => map_char UPPER_SPECIAL UPPER k ++ upper_chars rest
  end.

Definition upper (s : string) : string := upper_chars (chars s).

(** *** Stripping and splitting *)

(** [str.lstrip], [str.rstrip], [str.strip] with a predicate for the
    bytes to remove, for arguments that are ASCII characters. *)
Fixpoint lstrip_by (p : ascii -> bool) (s : string) : string :=
  match s with
  | EmptyString => EmptyString
  | String c rest => if p c then lstrip_by p rest else s
  end.

Fixpoint rstrip_by (p : ascii -> bool) (s : string) : string :=
  match s with
  | EmptyString => EmptyString
  | String c rest =>
      match rstrip_by p rest with
      | EmptyString => if p c then EmptyString else String c EmptyString
      | r => String c r
      end
  end.

Definition strip_by (p : ascii -> bool) (s : string) : string :=
  rstrip_by p (lstrip_by p s).

(** The same on characters, for blanks. *)
Fixpoint lstrip_chars (ks : list string) : list string :=
  match ks with
  | [] => []
  | k :: rest => if isspace k then lstrip_chars rest else ks
  end.

Fixpoint rstrip_chars (ks : list string) : list string :=
  match ks with
  | [] => []
  | k :: rest =>
      match rstrip_chars rest with
      | [] => if isspace k then [] else [k]
      | r => k :: r
      end
  end.

(** [s.strip()] *)
Definition strip (s : string) : string :=
  unchars (rstrip_chars (lstrip_chars (chars s))).

(** [str.split()] without argument: the maximal runs of characters that are
    not blanks. [word] is the run being read, reversed. *)
Fixpoint split_go (word : list string) (ks : list string) : list string :=
  let emit (out : list string) : list string :=
    match word with
    | [] => out
    | _ => unchars (rev word) :: out
    end in
  match ks with
  | [] => emit []
  | k :: rest =>
      if isspace k then emit (split_go [] rest)
      else split_go (k :: word) rest
  end.

Definition split (s : string) : list string := split_go [] (chars s).

(** [sep.join(parts)] *)
Fixpoint join (sep : string) (parts : list string) : string :=
  match parts with
  | [] => EmptyString
  | [p] => p
  | p :: rest => p ++ sep ++ join sep rest
  end.

(** [s.endswith(suffix)] *)
Fixpoint endswith (s suffix : string) : bool :=
  if String.eqb s suffix then true
  else match s with
       | EmptyString => false
       | String _ rest => endswith rest suffix
       end.

(** [c in s] for a character *)
Fixpoint contains_char (c : ascii) (s : string) : bool :=
  match s with
  | EmptyString => false
  | String d rest => Ascii.eqb c d || contains_char c rest
  end.

(** Truth value of a string: [bool(s)]. *)
Definition nonempty (s : string) : bool := negb (String.eqb s "").

(** [a < b] on strings and on pairs of strings, as Python compares tuples. *)
Definition str_ltb (a b : string) : bool :=
  match String.compare a b with Lt => true | _ => false end.

Definition pair_ltb (a b : string * string) : bool :=
  str_ltb (fst a) (fst b) || (String.eqb (fst a) (fst b) && str_ltb (snd a) (snd b)).

(** [sorted(l, key=key)] is stable: an element goes after the elements whose
    key is not larger. *)
Fixpoint insert_sorted {A} (key : A -> string * string) (x : A) (l : list A)
  : list A :=
  match l with
  | [] => [x]
  | y :: rest =>
      if pair_ltb (key x) (key y) then x :: l else y :: insert_sorted key x rest
  end.

Definition sorted_by {A} (key : A -> string * string) (l : list A) : list A :=
  fold_left (fun acc x => insert_sorted key x acc) l [].

(** [str(n)] for a natural number and for an integer. *)
Definition str_of_nat (n : nat) : string :=
  NilZero.string_of_uint (Nat.to_uint n).
Definition str_of_Z (z : Z) : string :=
  NilZero.string_of_int (Z.to_int z).

End Py.

(** ** Dictionaries in insertion order *)
Module Dict.

Abbreviation t V := (list (string * V)).

Section Dict.
Context {V : Type}.
Implicit Types d : t V.

Fixpoint get (k : string) d : option V :=
  match d with
  | [] => None
  | (k', v) :: rest => if String.eqb k k' then Some v else get k rest
  end.

Definition mem (k : string) d : bool :=
  match get k d with Some _ => true | None => false end.

(** [d[k] = v]: an existing key keeps its place, a new key goes last. *)
Fixpoint set (k : string) (v : V) d : t V :=
  match d with
  | [] => [(k, v)]
  | (k', v') :: rest =>
      if String.eqb k k' then (k', v) :: rest else (k', v') :: set k v rest
  end.

(** [d.pop(k, None)]: the key is gone afterwards. *)
Fixpoint pop (k : string) d : t V :=
  match d with
  | [] => []
  | (k', v') :: rest =>
      if String.eqb k k' then pop k rest else (k', v') :: pop k rest
  end.

Definition keys d : list string := map fst d.

End Dict.
End Dict.

(** ** tools/add_lex_ids_and_build_index.py: identifiers *)
Module LexId.
Import Py.

Definition ARTICLES : list string := ["der"; "die"; "das"].

(** [UMLAUT_MAP], on the UTF-8 bytes (lead byte 0xC3). *)
Definition umlaut_of (d : ascii) : option string :=
  let n := code d in
  if ((n =? 164) || (n =? 132))%nat then Some "AE"
  else if ((n =? 182) || (n =? 150))%nat then Some "OE"
  else if ((n =? 188) || (n =? 156))%nat then Some "UE"
  else if (n =? 159)%nat then Some "SS"
  else None.

(** [s.translate(UMLAUT_MAP)] *)
Fixpoint translate_umlauts (s : string) : string :=
  match s with
  | EmptyString => EmptyString
  | String c rest =>
      if lead_C3 c then
        match rest with
        | String d rest' =>
            match umlaut_of d with
            | Some r => r ++ translate_umlauts rest'
            | None => String c (translate_umlauts rest)
            end
        | EmptyString => String c EmptyString
        end
      else String c (translate_umlauts rest)
  end.

Definition id_char (c : ascii) : bool := is_upper c || is_digit c.

(** [NON_ID_CHARS.sub(".", s)]: every maximal run of characters outside
    [A-Z0-9] becomes one dot. [in_run] says that the previous character was
    part of such a run. *)
Fixpoint sub_non_id (in_run : bool) (s : string) : string :=
  match s with
  | EmptyString => EmptyString
  | String c rest =>
      if id_char c then String c (sub_non_id false rest)
      else if in_run then sub_non_id true rest
      else String "."%char (sub_non_id true rest)
  end.

Definition is_dot (c : ascii) : bool := Ascii.eqb c "."%char.

(** [re.sub(r"\.+", ".", s)] *)
Fixpoint collapse_dots (in_run : bool) (s : string) : string :=
  match s with
  | EmptyString => EmptyString
  | String c rest =>
      if is_dot c then
        if in_run then collapse_dots true rest
        else String c (collapse_dots true rest)
      else String c (collapse_dots false rest)
  end.

Definition to_id_token (s : string) : string :=
  if negb (nonempty s) then ""
  else
    let s := upper (translate_umlauts (strip s)) in
    let s := sub_non_id false s in
    let s := strip_by is_dot s in
    collapse_dots false s.

Definition in_articles (w : string) : bool :=
  existsb (String.eqb w) ARTICLES.

(** [parse_noun_text]: the article, when the first of at least two words is
    one, and the core. *)
Definition parse_noun_text (text : string) : option string * string :=
  let t := strip text in
  if negb (nonempty t) then (None, "")
  else
    match split t with
    | first :: (_ :: _) as others =>
        if in_articles (lower first) then (Some (lower first), join " " others)
        else (None, t)
    | _ => (None, t)
    end.

Definition or_else (s fallback : string) : string :=
  if nonempty s then s else fallback.

Definition category_prefix (category : string) : string :=
  let c := strip (lower category) in
  if String.eqb c "noun" then "LEX.NOUN"
  else if String.eqb c "verb" then "LEX.VERB"
  else if String.eqb c "adjective" then "LEX.ADJ"
  else if String.eqb c "adverb" then "LEX.ADV"
  else if String.eqb c "time_numbers" || String.eqb c "numbers_time" then "LEX.TIME"
  else "LEX." ++ or_else (to_id_token c) "ITEM".

Definition make_lex_id (category text : string) : string :=
  let prefix := category_prefix category in
  if String.eqb (strip (lower category)) "noun" then
    let '(art, core) := parse_noun_text text in
    let core_tok := or_else (to_id_token core) "UNKNOWN" in
    match art with
    | Some a =>
        if nonempty a then prefix ++ "." ++ core_tok ++ "." ++ to_id_token a
        else prefix ++ "." ++ core_tok
    | None => prefix ++ "." ++ core_tok
    end
  else
    let tok := or_else (to_id_token text) "UNKNOWN" in
    prefix ++ "." ++ tok.

(** [ensure_unique_id]: the identifier handed out and the counters after the
    call. *)
Definition ensure_unique_id (proposed : string) (used : gmap string nat)
  : string * gmap string nat :=
  match used !! proposed with
  | None => (proposed, <[proposed := 1]> used)
  | Some n =>
      let n' := S n in
      (proposed ++ "." ++ str_of_nat n', <[proposed := n']> used)
  end.

End LexId.

(** ** Values loaded from YAML *)
Module Yaml.
Import Py.

#[local] Unset Elimination Schemes.
Inductive yaml : Type :=
| YNull
| YBool (b : bool)
| YInt (z : Z)
| YStr (s : string)
| YList (items : list yaml)
| YDict (fields : list (string * yaml)).
#[local] Set Elimination Schemes.

(** Truth value, [bool(v)]. *)
Definition truthy (v : yaml) : bool :=
  match v with
  | YNull => false
  | YBool b => b
  | YInt z => negb (z =? 0)%Z
  | YStr s => nonempty s
  | YList l => match l with [] => false | _ => true end
  | YDict d => match d with [] => false | _ => true end
  end.

Definition is_list (v : yaml) : bool :=
  match v with YList _ => true | _ => false end.
Definition is_dict (v : yaml) : bool :=
  match v with YDict _ => true | _ => false end.
Definition is_null (v : yaml) : bool :=
  match v with YNull => true | _ => false end.

(** [(v or "")] followed by a string method: a false value counts as the empty
    string, a string is itself, any other value has no such method. *)
Definition str_or_empty (v : yaml) : option string :=
  if truthy v then match v with YStr s => Some s | _ => None end
  else Some "".

(** [v.method()] for a string method, with no default. *)
Definition as_str (v : yaml) : option string :=
  match v with YStr s => Some s | _ => None end.

Definition hex_digit (n : nat) : ascii :=
  if (n <? 10)%nat then ascii_of_nat (48 + n) else ascii_of_nat (87 + n).

(** One character inside [repr(s)], [q] being the enclosing quote. *)
Definition repr_char (q c : ascii) : string :=
  let n := code c in
  if Ascii.eqb c "\"%char then "\\"
  else if Ascii.eqb c q then String "\"%char (String q "")
  else if (n =? 9)%nat then "\t"
  else if (n =? 10)%nat then "\n"
  else if (n =? 13)%nat then "\r"
  else if ((n <? 32) || (n =? 127))%nat then
    "\x" ++ String (hex_digit (n / 16)) (String (hex_digit (n mod 16)) "")
  else String c "".

Fixpoint repr_chars (q : ascii) (s : string) : string :=
  match s with
  | EmptyString => EmptyString
  | String c rest => repr_char q c ++ repr_chars q rest
  end.

Definition apostrophe : ascii := ascii_of_nat 39.
Definition dquote : ascii := ascii_of_nat 34.

(** [repr(s)] of a string: single quotes, unless it holds an apostrophe and
    no double quote. *)
Definition repr_str (s : string) : string :=
  let q := if contains_char apostrophe s && negb (contains_char dquote s)
           then dquote else apostrophe in
  String q (repr_chars q s ++ String q "").

Fixpoint py_repr (v : yaml) : string :=
  match v with
  | YNull => "None"
  | YBool true => "True"
  | YBool false => "False"
  | YInt z => str_of_Z z
  | YStr s => repr_str s
  | YList l => "[" ++ join ", " (map py_repr l) ++ "]"
  | YDict d =>
      "{" ++ join ", " (map (fun kv => repr_str (fst kv) ++ ": " ++ py_repr (snd kv)) d)
          ++ "}"
  end.

(** [for x in v]: the elements of a list; an empty mapping or text gives
    nothing; a mapping or a text that is not empty gives keys or characters,
    which have no [get], and the loops here call [get] first; other values
    cannot be run over. *)
Definition iterate (v : yaml) : option (list yaml) :=
  match v with
  | YList l => Some l
  | YDict [] => Some []
  | YStr EmptyString => Some []
  | _ => None
  end.

(** [str(v)] *)
Definition py_str (v : yaml) : string :=
  match v with
  | YStr s => s
  | _ => py_repr v
  end.

End Yaml.

(** ** How a tool ends *)
Module Process.

(** [return code] of [main] handed to [SystemExit], or an uncaught
    exception. *)
Inductive outcome : Type :=
| Return (code : Z)
| Raise.

(** Exit status of the process: an uncaught exception ends it with 1. *)
Definition exit_status (o : outcome) : Z :=
  match o with
  | Return code => code
  | Raise => 1
  end.

End Process.

(** ** tools/add_lex_ids_and_build_index.py: the index builder *)
Module IndexBuilder.
Import Py LexId Yaml Process.

Definition LEXICON_DIR : string := "linguistic_rules/lexicon".
Definition INDEX_PATH : string := LEXICON_DIR ++ "/index.yaml".
Definition MANAGED_FILES : list string :=
  ["nouns.yaml"; "verbs.yaml"; "adjectives.yaml"; "adverbs.yaml"; "numbers_time.yaml"].

(** What the run finds on disk: every file that exists under [LEXICON_DIR]
    by name, with the value [yaml.safe_load] gives for it. *)
Record world : Type := World {
  lexicon_dir_exists : bool;
  lexicon_files : Dict.t yaml;
  index_exists : bool
}.

(** Writes to disk, in the order they happen: [Backup path] is the call
    [backup_file(path)], [Dump path data] the call [dump_yaml(path, data)]. *)
Inductive effect : Type :=
| Backup (path : string)
| Dump (path : string) (data : Dict.t yaml).

(** [backup_file]: the file [path] is copied to the path the function
    returns, [path] with [.bak] added to its suffix; a backup that is there
    already is replaced. *)
Definition backup_file (path : string) : string := path ++ ".bak".

(** [load_yaml]: a false value is read as the empty mapping, anything else
    but a mapping raises [ValueError]. *)
Definition load_yaml (v : yaml) : option (Dict.t yaml) :=
  if truthy v then match v with YDict d => Some d | _ => None end
  else Some [].

(** [isinstance(lex_id, str) and lex_id.strip()]: the trimmed identifier an
    item already carries, if it carries one. *)
Definition existing_lex_id (item : Dict.t yaml) : option string :=
  match Dict.get "lex_id" item with
  | Some (YStr s) => if nonempty (strip s) then Some (strip s) else None
  | _ => None
  end.

(** Inner loop of [collect_all_existing_ids] over one file. *)
Fixpoint collect_items (fname : string) (i : nat) (items : list yaml)
    (seen : gmap string string) : gmap string string :=
  match items with
  | [] => seen
  | YDict item :: rest =>
      let seen' :=
        match existing_lex_id item with
        | Some key =>
            match seen !! key with
            | None => <[key := fname ++ ":" ++ str_of_nat i]> seen
            | Some _ => seen
            end
        | None => seen
        end in
      collect_items fname (S i) rest seen'
  | _ :: rest => collect_items fname (S i) rest seen
  end.

Fixpoint collect_files (files_data : list (string * Dict.t yaml))
    (seen : gmap string string) : gmap string string :=
  match files_data with
  | [] => seen
  | (fname, data) :: rest =>
      match Dict.get "items" data with
      | Some (YList items) => collect_files rest (collect_items fname 0 items seen)
      | _ => collect_files rest seen
      end
  end.

Definition collect_all_existing_ids (files_data : list (string * Dict.t yaml))
  : gmap string string :=
  collect_files files_data ∅.

(** [item.get("text", "")] *)
Definition text_of (item : Dict.t yaml) : yaml :=
  match Dict.get "text" item with Some v => v | None => YStr "" end.

Definition is_category (category name : string) : bool :=
  String.eqb (strip (lower category)) name.

(** [build_index_entry] *)
Definition build_index_entry (category : string) (item : Dict.t yaml)
  : option (Dict.t yaml) :=
  lex_id ← Dict.get "lex_id" item;
  let entry := [("lex_id", lex_id); ("category", YStr category); ("text", text_of item)] in
  entry ←
    (if is_category category "noun" then
       text ← str_or_empty (text_of item);
       let '(art, core) := parse_noun_text text in
       let entry :=
         match art with
         | Some a => if nonempty a then Dict.set "article" (YStr a) entry else entry
         | None => entry
         end in
       Some (Dict.set "lemma"
               (if nonempty core then YStr (strip core) else text_of item) entry)
     else Some entry);
  entry ←
    (if is_category category "verb" then
       text ← as_str (text_of item);
       Some (Dict.set "lemma" (YStr (strip text)) entry)
     else Some entry);
  Some (match Dict.get "sources" item with
        | Some srcs => Dict.set "sources" srcs entry
        | None => entry
        end).

(** State of the loop over the items of one file. *)
Record items_state : Type := ItemsState {
  items_done : list yaml;
  used_counts : gmap string nat;
  index_items : list (Dict.t yaml);
  file_changed : bool
}.

(** Body of [for i, item in enumerate(items)]. *)
Definition item_step (category : string) (st : items_state) (item : yaml)
  : option items_state :=
  match item with
  | YDict fields =>
      '(fields', used', changed') ←
        match existing_lex_id fields with
        | None =>
            text ← str_or_empty (text_of fields);
            let proposed := make_lex_id category text in
            let '(final_id, used') := ensure_unique_id proposed (used_counts st) in
            Some (Dict.set "lex_id" (YStr final_id) fields, used', true)
        | Some stripped =>
            Some (Dict.set "lex_id" (YStr stripped) fields, used_counts st,
                  file_changed st)
        end;
      entry ← build_index_entry category fields';
      Some (ItemsState (items_done st ++ [YDict fields']) used'
              (index_items st ++ [entry]) changed')
  | _ =>
      Some (ItemsState (items_done st ++ [item]) (used_counts st)
              (index_items st) (file_changed st))
  end.

Fixpoint items_loop (category : string) (items : list yaml) (st : items_state)
  : option items_state :=
  match items with
  | [] => Some st
  | item :: rest =>
      match item_step category st item with
      | Some st' => items_loop category rest st'
      | None => None
      end
  end.

(** State of the loop over the files. *)
Record run_state : Type := RunState {
  run_used : gmap string nat;
  run_index : list (Dict.t yaml);
  run_changed : list string;
  run_effects : list effect
}.

Definition path_of (fname : string) : string := LEXICON_DIR ++ "/" ++ fname.

(** [for fname, data in files_data.items()]: either the loop ends early with
    an outcome, or it runs to its end. *)
Fixpoint files_loop (files_data : list (string * Dict.t yaml)) (st : run_state)
  : option outcome * run_state :=
  match files_data with
  | [] => (None, st)
  | (fname, data) :: rest =>
      match as_str (default (YStr "") (Dict.get "category" data)) with
      | None => (Some Raise, st)
      | Some label =>
          let category := strip label in
          let items := default (YList []) (Dict.get "items" data) in
          if negb (nonempty category) then (Some (Return 2), st)
          else
            match items with
            | YList items =>
                match items_loop category items
                        (ItemsState [] (run_used st) (run_index st) false) with
                | None => (Some Raise, st)
                | Some ist =>
                    let st' :=
                      if file_changed ist then
                        RunState (used_counts ist) (index_items ist)
                          (run_changed st ++ [fname])
                          (run_effects st ++
                             [Backup (path_of fname);
                              Dump (path_of fname)
                                (Dict.set "items" (YList (items_done ist)) data)])
                      else
                        RunState (used_counts ist) (index_items ist)
                          (run_changed st) (run_effects st) in
                    files_loop rest st'
                end
            | _ => (Some (Return 2), st)
            end
      end
  end.

(** The files of [MANAGED_FILES] that exist, loaded, in that order. *)
Fixpoint load_managed (names : list string) (files : Dict.t yaml)
  : option (list (string * Dict.t yaml)) :=
  match names with
  | [] => Some []
  | fname :: rest =>
      match Dict.get fname files with
      | None => load_managed rest files
      | Some v =>
          data ← load_yaml v;
          others ← load_managed rest files;
          Some ((fname, data) :: others)
      end
  end.

(** Key of the final sort: [(category, lex_id)]. *)
Definition sort_key (e : Dict.t yaml) : option (string * string) :=
  c ← as_str (default (YStr "") (Dict.get "category" e));
  l ← as_str (default (YStr "") (Dict.get "lex_id" e));
  Some (c, l).

Definition index_payload (items : list (Dict.t yaml)) : Dict.t yaml :=
  [("schema_version", YStr "0.2");
   ("rule_type", YStr "lexicon");
   ("language", YStr "de");
   ("description", YStr "Master lexicon index with stable lex_id keys for linking grammar/morphology rules to lexical items.");
   ("items", YList (map YDict items))].

Definition seed_used (seen : gmap string string) : gmap string nat :=
  (fun _ => 1) <$> seen.

Definition main (w : world) : outcome * list effect :=
  if negb (lexicon_dir_exists w) then (Return 2, [])
  else
    match load_managed MANAGED_FILES (lexicon_files w) with
    | None => (Raise, [])
    | Some [] => (Return 2, [])
    | Some files_data =>
        let used := seed_used (collect_all_existing_ids files_data) in
        match files_loop files_data (RunState used [] [] []) with
        | (Some out, st) => (out, run_effects st)
        | (None, st) =>
            match mapM (fun e => k ← sort_key e; Some (k, e)) (run_index st) with
            | None => (Raise, run_effects st)
            | Some keyed =>
                let payload := index_payload (map snd (sorted_by fst keyed)) in
                (Return 0,
                 (run_effects st ++
                    (if index_exists w then [Backup INDEX_PATH] else []) ++
                    [Dump INDEX_PATH payload])%list)
            end
        end
    end.

(** The identifiers of the index a run writes, in the order of the index. *)
Definition lex_ids_of_payload (payload : Dict.t yaml) : list yaml :=
  match Dict.get "items" payload with
  | Some (YList items) =>
      omap (fun it => match it with YDict e => Dict.get "lex_id" e | _ => None end) items
  | _ => []
  end.

Definition written_index (effs : list effect) : option (Dict.t yaml) :=
  last (omap (fun e => match e with
                       | Dump path data =>
                           if String.eqb path INDEX_PATH then Some data else None
                       | _ => None
                       end) effs).

End IndexBuilder.

(** ** tools/conjugation/extract_conjugation_tables.py *)
Module Extractor.
Import Py.

Definition PRONOUN_ORDER : list string :=
  ["ich"; "du"; "Sie"; "er"; "sie_sg"; "es"; "wir"; "ihr"; "sie_pl"].

(** The alternatives of the first group of [RE_PRONOUN_PAIR], as written. *)
Definition PRONOUN_ALTERNATIVES : list string :=
  ["ich"; "du"; "er"; "sie"; "es"; "wir"; "ihr"; "Sie"].

(** The line feed, the one character a dot does not read. *)
Definition is_newline (k : string) : bool := String.eqb k (String (ascii_of_nat 10) "").

Definition all_space (ks : list string) : bool := forallb isspace ks.

(** [p] read off the front of [s]: what is left of [s] after it. *)
Fixpoint drop_prefix (p s : string) : option string :=
  match p, s with
  | EmptyString, _ => Some s
  | String a p', String b s' => if Ascii.eqb a b then drop_prefix p' s' else None
  | String _ _, EmptyString => None
  end.

(** The alternation: the first alternative that is a prefix of [s]. No
    alternative is a prefix of another, so no other one can match when what
    follows does not. *)
Fixpoint match_alternatives (alts : list string) (s : string)
  : option (string * string) :=
  match alts with
  | [] => None
  | a :: others =>
      match drop_prefix a s with
      | Some rest => Some (a, rest)
      | None => match_alternatives others s
      end
  end.

(** [(.+?)\s*$] on the characters left, once the group holds a character:
    the group grows, lazily, until only blanks are left; a dot does not read
    a line feed. *)
Fixpoint lazy_more (r : list string) : option (list string) :=
  if all_space r then Some []
  else
    match r with
    | [] => None
    | k :: r' =>
        if is_newline k then None
        else option_map (cons k) (lazy_more r')
    end.

Definition lazy_group (r : list string) : option (list string) :=
  match r with
  | [] => None
  | k :: r' =>
      if is_newline k then None else option_map (cons k) (lazy_more r')
  end.

(** [\s+], greedy, one blank being read already: it reads on while it can,
    and gives blanks back when the rest does not match. *)
Fixpoint after_space (r : list string) : option (list string) :=
  match r with
  | [] => lazy_group r
  | k :: r' =>
      if isspace k then
        match after_space r' with
        | Some g => Some g
        | None => lazy_group r
        end
      else lazy_group r
  end.

(** [RE_PRONOUN_PAIR.match(s)]: groups 1 and 2. *)
Definition RE_PRONOUN_PAIR (s : string) : option (string * string) :=
  match match_alternatives PRONOUN_ALTERNATIVES s with
  | Some (p, rest) =>
      match chars rest with
      | k :: r =>
          if isspace k then option_map (fun g => (p, unchars g)) (after_space r)
          else None
      | [] => None
      end
  | None => None
  end.

Definition normalize_pronoun (p : string) : string :=
  if String.eqb p "Sie" then "Sie" else lower p.

Definition looks_like_pronoun_line (text : string) : bool :=
  match RE_PRONOUN_PAIR (strip text) with Some _ => true | None => false end.

(** A slot map, and the state of the scan: the tables kept so far and the
    map being filled. *)
Abbreviation table := (Dict.t string).

Definition flush (tables : list table) (current : table)
  : list table * table :=
  if (4 <=? length current)%nat then ((tables ++ [current])%list, [])
  else (tables, []).

(** The branch for [sie]. *)
Definition sie_step (current : table) (form : string) : table :=
  let er_form := lower (strip (default "" (Dict.get "er" current))) in
  let form_low := lower form in
  if negb (Dict.mem "sie_sg" current)
     && ((nonempty er_form && String.eqb form_low er_form) || endswith form_low "t")
  then Dict.set "sie_sg" form current
  else if negb (Dict.mem "sie_pl" current) then Dict.set "sie_pl" form current
  else Dict.set "sie_pl" form current.

(** Body of [for line in lines]. *)
Definition line_step (st : list table * table) (line : string)
  : list table * table :=
  let '(tables, current) := st in
  match RE_PRONOUN_PAIR (strip line) with
  | None => flush tables current
  | Some (p_raw, g2) =>
      let form := strip g2 in
      let p := normalize_pronoun p_raw in
      if negb (String.eqb p "sie") then (tables, Dict.set p form current)
      else (tables, sie_step current form)
  end.

Definition scan (lines : list string) : list table * table :=
  fold_left line_step lines ([], []).

(** [tuple(sorted(t.items()))] *)
Definition items_key (t : table) : list (string * string) :=
  sorted_by (fun kv => kv) t.

Definition key_eqb (a b : list (string * string)) : bool :=
  bool_decide (a = b).

(** The final pass that drops a table equal to an earlier one. *)
Fixpoint unique_tables (seen : list (list (string * string))) (tables : list table)
  : list table :=
  match tables with
  | [] => []
  | t :: rest =>
      let key := items_key t in
      if existsb (key_eqb key) seen then unique_tables seen rest
      else t :: unique_tables (key :: seen) rest
  end.

Definition extract_tables_from_group (lines : list string) : list table :=
  let '(tables, current) := scan lines in
  unique_tables [] (fst (flush tables current)).

(** [ordered_forms]: the slots of [PRONOUN_ORDER] first, then the keys that
    are left, as they come. *)
Definition ordered_forms (t : table) : table :=
  let out :=
    fold_left (fun out p =>
                 match Dict.get p t with
                 | Some v => Dict.set p v out
                 | None => out
                 end) PRONOUN_ORDER [] in
  fold_left (fun out kv =>
               if Dict.mem (fst kv) out then out
               else Dict.set (fst kv) (snd kv) out) t out.

(** A table of the output document. [lemma_guess] and [pattern_guess] are
    computed from the slot map alone and are not part of the record here;
    the slide number is kept as the text the CSV gives. *)
Record out_table : Type := OutTable {
  table_id : string;
  forms : table;
  source : string * string
}.

(** Body of the loop of [main] for one (presentation, slide) group. *)
Definition pronoun_lines (lines : list string) : list string :=
  filter (fun ln => looks_like_pronoun_line ln = true) lines.

Definition slide_tables (ppt slide : string) (lines : list string)
  : list out_table :=
  let pls := pronoun_lines lines in
  if (length pls <? 4)%nat then []
  else
    map (fun t => OutTable (ppt ++ "__slide" ++ slide) (ordered_forms t) (ppt, slide))
        (extract_tables_from_group pls).

(** [out_tables] of [main] for the grouped rows. *)
Definition main_tables (grouped : list ((string * string) * list string))
  : list out_table :=
  flat_map (fun g => slide_tables (fst (fst g)) (snd (fst g)) (snd g)) grouped.

(** [IRREGULAR_MARKERS] *)
Definition IRREGULAR_MARKERS : list string :=
  ["bin"; "bist"; "ist"; "sind"; "seid";
   "habe"; "hast"; "hat"; "haben";
   "werde"; "wirst"; "wird"; "werden"].

(** [a & b] is not empty, for sets of texts. *)
Definition meets (a b : list string) : bool :=
  existsb (fun x => existsb (String.eqb x) b) a.

(** [table.get(p) or ""] *)
Definition form_or_empty (p : string) (t : table) : string :=
  default "" (Dict.get p t).

Definition blank : ascii := " "%char.

(** The values of the table that are not blank, in the order of the table. *)
Definition spoken (t : table) : list string :=
  filter (fun v => nonempty (strip v) = true) (map snd t).

(** [guess_lemma] *)
Definition guess_lemma (t : table) : string :=
  let forms := map (fun v => lower (strip v)) (spoken t) in
  if meets ["bin"; "bist"; "ist"; "sind"; "seid"] forms then "sein"
  else if meets ["habe"; "hast"; "hat"; "haben"] forms then "haben"
  else if meets ["werde"; "wirst"; "wird"; "werden"] forms then "werden"
  else
    let wir := strip (form_or_empty "wir" t) in
    if nonempty wir && negb (contains_char blank wir) then wir
    else
      let sie_form := strip (form_or_empty "Sie" t) in
      if nonempty sie_form && negb (contains_char blank sie_form) then sie_form
      else
        let ich := strip (form_or_empty "ich" t) in
        if nonempty ich then ich
        else
          match spoken t with
          | v :: _ => strip v
          | [] => ""
          end.

(** A byte that continues a character of more than one byte. *)
Definition is_continuation (c : ascii) : bool := between 128 191 c.

(** [s[:n]]: the first [n] characters, each with the bytes that continue
    it. *)
Fixpoint take_chars (n : nat) (s : string) : string :=
  match s with
  | EmptyString => EmptyString
  | String c rest =>
      if is_continuation c then String c (take_chars n rest)
      else
        match n with
        | O => EmptyString
        | S n' => String c (take_chars n' rest)
        end
  end.

(** The two bytes [a b] stand somewhere in [s]. *)
Fixpoint contains_pair (a b : ascii) (s : string) : bool :=
  match s with
  | String c (String d _ as rest) =>
      (Ascii.eqb a c && Ascii.eqb b d) || contains_pair a b rest
  | _ => false
  end.

(** [any(ch in s for ch in "äöü")], the three small umlauts being the bytes
    0xC3 0xA4, 0xC3 0xB6 and 0xC3 0xBC. *)
Definition has_umlaut (s : string) : bool :=
  contains_pair (ascii_of_nat 195) (ascii_of_nat 164) s
  || contains_pair (ascii_of_nat 195) (ascii_of_nat 182) s
  || contains_pair (ascii_of_nat 195) (ascii_of_nat 188) s.

(** [detect_pattern] *)
Definition detect_pattern (t : table) : string :=
  let forms := map lower (filter (fun v => nonempty v = true) (map snd t)) in
  if meets forms IRREGULAR_MARKERS then "irregular"
  else
    let wir := lower (form_or_empty "wir" t) in
    let du := lower (form_or_empty "du" t) in
    let er := lower (form_or_empty "er" t) in
    if negb (nonempty wir) then "unknown"
    else
      let wir4 := take_chars 4 wir in
      if nonempty du && negb (String.eqb (take_chars 4 du) wir4) then "stem_change"
      else if nonempty er && negb (String.eqb (take_chars 4 er) wir4) then "stem_change"
      else if has_umlaut (du ++ er) && negb (has_umlaut wir) then "stem_change"
      else "regular".

(** A row of [items.csv]: a column the line has no cell for reads as
    [None]. *)
Abbreviation csv_row := (Dict.t (option string)).

(** [r.get(col, "")] and [r.get(col) or ""], as far as the truth value and
    the text go. *)
Definition cell (col : string) (r : csv_row) : string :=
  match Dict.get col r with
  | Some (Some v) => v
  | _ => ""
  end.

Abbreviation slide_key := (string * string)%type.

(** [grouped.setdefault(key, []).append(line)] *)
Fixpoint append_line (key : slide_key) (line : string)
    (grouped : list (slide_key * list string)) : list (slide_key * list string) :=
  match grouped with
  | [] => [(key, [line])]
  | (k, ls) :: rest =>
      if bool_decide (k = key) then (k, (ls ++ [line])%list) :: rest
      else (k, ls) :: append_line key line rest
  end.

(** Body of the loop of [group_by_ppt_slide]. *)
Definition row_step (grouped : list (slide_key * list string)) (r : csv_row)
  : list (slide_key * list string) :=
  let ppt := cell "ppt_file" r in
  let slide := cell "slide_number" r in
  let t := strip (cell "norm_text" r) in
  if negb (nonempty ppt) || negb (nonempty slide) || negb (nonempty t) then grouped
  else append_line (ppt, slide) t grouped.

Definition group_by_ppt_slide (rows : list csv_row) : list (slide_key * list string) :=
  fold_left row_step rows [].

End Extractor.

(** ** tools/conjugation/dedupe_conjugation_tables.py *)
Module Deduper.
Import Py Yaml.

Abbreviation signature := (string * list (string * string))%type.

(** [(k, (v or "").strip())] for every item of [forms]. *)
Definition trimmed_items (forms : Dict.t yaml) : option (list (string * string)) :=
  mapM (fun kv => v ← str_or_empty (snd kv); Some (fst kv, strip v)) forms.

Definition forms_signature (forms : Dict.t yaml) : option (list (string * string)) :=
  pairs ← trimmed_items forms;
  Some (sorted_by (fun kv => kv) pairs).

(** [t.get("forms") or {}], read as a mapping. *)
Definition forms_of (t : Dict.t yaml) : option (Dict.t yaml) :=
  let v := default YNull (Dict.get "forms" t) in
  if truthy v then match v with YDict d => Some d | _ => None end
  else Some [].

(** [sig = (lemma, forms_signature(forms))] *)
Definition sig_of (t : Dict.t yaml) : option signature :=
  lemma ← str_or_empty (default YNull (Dict.get "lemma_guess" t));
  forms ← forms_of t;
  fsig ← forms_signature forms;
  Some (strip lemma, fsig).

(** The list [sources] of a table: its [sources] when that is a list, else
    its single [source] when that is a mapping, else nothing. *)
Definition sources_of (t : Dict.t yaml) : list yaml :=
  match Dict.get "sources" t with
  | Some (YList l) => l
  | _ =>
      match Dict.get "source" t with
      | Some (YDict src) => [YDict src]
      | _ => []
      end
  end.

(** The table after [t.pop("source", None); t["sources"] = sources]. *)
Definition normalize_sources (t : Dict.t yaml) : Dict.t yaml :=
  Dict.set "sources" (YList (sources_of t)) (Dict.pop "source" t).

(** A value that can be a member of a set; [None] for one that cannot be
    hashed. *)
Definition hashable (v : yaml) : option yaml :=
  match v with
  | YList _ | YDict _ => None
  | _ => Some v
  end.

(** [a == b] on hashable values: [True] and [False] are the integers 1 and
    0. *)
Definition scalar_eqb (a b : yaml) : bool :=
  match a, b with
  | YNull, YNull => true
  | YStr x, YStr y => String.eqb x y
  | YInt x, YInt y => (x =? y)%Z
  | YBool x, YBool y => Bool.eqb x y
  | YBool x, YInt y | YInt y, YBool x => (y =? (if x then 1 else 0))%Z
  | _, _ => false
  end.

(** [(s.get("ppt"), s.get("slide"))] as a member of [seen]. *)
Definition source_key (s : Dict.t yaml) : option (yaml * yaml) :=
  ppt ← hashable (default YNull (Dict.get "ppt" s));
  slide ← hashable (default YNull (Dict.get "slide" s));
  Some (ppt, slide).

Definition key_eqb (a b : yaml * yaml) : bool :=
  scalar_eqb (fst a) (fst b) && scalar_eqb (snd a) (snd b).

Definition key_in (key : yaml * yaml) (seen : list (yaml * yaml)) : bool :=
  existsb (key_eqb key) seen.

(** The set comprehension that starts [seen]. *)
Fixpoint seen_of (existing_sources : list yaml) : option (list (yaml * yaml)) :=
  match existing_sources with
  | [] => Some []
  | YDict s :: rest =>
      key ← source_key s;
      seen ← seen_of rest;
      Some (key :: seen)
  | _ :: rest => seen_of rest
  end.

(** [for s in sources]: the sources of the kept table grow by those whose
    key is not seen yet. *)
Fixpoint merge_loop (sources : list yaml) (existing_sources : list yaml)
    (seen : list (yaml * yaml)) : option (list yaml) :=
  match sources with
  | [] => Some existing_sources
  | YDict s :: rest =>
      key ← source_key s;
      if key_in key seen then merge_loop rest existing_sources seen
      else merge_loop rest (existing_sources ++ [YDict s])%list (key :: seen)
  | _ :: rest => merge_loop rest existing_sources seen
  end.

Definition merge_sources (existing_sources sources : list yaml)
  : option (list yaml) :=
  seen ← seen_of existing_sources;
  merge_loop sources existing_sources seen.

(** [merged], a dictionary from signatures to tables, in insertion order. *)
Abbreviation merged_map := (list (signature * Dict.t yaml)).

Definition sig_eqb (a b : signature) : bool := bool_decide (a = b).

Fixpoint lookup_sig (sg : signature) (merged : merged_map) : option (Dict.t yaml) :=
  match merged with
  | [] => None
  | (sg', t) :: rest => if sig_eqb sg sg' then Some t else lookup_sig sg rest
  end.

Fixpoint replace_sig (sg : signature) (t : Dict.t yaml) (merged : merged_map)
  : merged_map :=
  match merged with
  | [] => []
  | (sg', t') :: rest =>
      if sig_eqb sg sg' then (sg', t) :: rest else (sg', t') :: replace_sig sg t rest
  end.

(** Body of [for t in tables]. The kept table holds a list under [sources]
    since the pass stored one there. *)
Definition table_step (merged : merged_map) (t : yaml) : option merged_map :=
  match t with
  | YDict t =>
      sg ← sig_of t;
      let sources := sources_of t in
      let t := normalize_sources t in
      match lookup_sig sg merged with
      | None => Some (merged ++ [(sg, t)])%list
      | Some existing =>
          match default (YList []) (Dict.get "sources" existing) with
          | YList existing_sources =>
              merged_sources ← merge_sources existing_sources sources;
              Some (replace_sig sg
                      (Dict.set "sources" (YList merged_sources) existing) merged)
          | _ => None
          end
      end
  | _ => None
  end.

Fixpoint tables_loop (tables : list yaml) (merged : merged_map)
  : option merged_map :=
  match tables with
  | [] => Some merged
  | t :: rest =>
      match table_step merged t with
      | Some merged' => tables_loop rest merged'
      | None => None
      end
  end.

(** [deduped_tables = list(merged.values())] *)
Definition dedupe_tables (tables : list yaml) : option (list yaml) :=
  merged ← tables_loop tables [];
  Some (map (fun st => YDict (snd st)) merged).

(** [main] on the loaded document: the document written back. *)
Definition main (data : yaml) : option (Dict.t yaml) :=
  match data with
  | YDict d =>
      tables ← iterate (default (YList []) (Dict.get "tables" d));
      deduped ← dedupe_tables tables;
      Some (Dict.set "tables" (YList deduped) d)
  | _ => None
  end.

End Deduper.

(** ** tools/validate_ruleset_integrity.py *)
Module Validator.
Import Py Yaml Process.

Definition is_newline (c : ascii) : bool := (code c =? 10)%nat.

(** [_lex_id$]: the suffix stands at the end, or before a line feed that ends
    the text. *)
Definition suffix_at_end (s : string) : bool :=
  String.eqb s "_lex_id" || String.eqb s ("_lex_id" ++ String (ascii_of_nat 10) "").

(** [LEX_ID_KEY_RE.match(k)] for [.*_lex_id$]: the dot reads any character
    but a line feed. *)
Fixpoint LEX_ID_KEY_RE (k : string) : bool :=
  suffix_at_end k
  || match k with
     | EmptyString => false
     | String c rest => negb (is_newline c) && LEX_ID_KEY_RE rest
     end.

Fixpoint collect_loop (items : list yaml) (ids : gset string) : option (gset string) :=
  match items with
  | [] => Some ids
  | YDict it :: rest =>
      let lex_id := default YNull (Dict.get "lex_id" it) in
      collect_loop rest (if truthy lex_id then {[ py_str lex_id ]} ∪ ids else ids)
  | _ :: _ => None
  end.

Definition collect_lex_ids (index_data : yaml) : option (gset string) :=
  match index_data with
  | YDict d =>
      items ← iterate (default (YList []) (Dict.get "items" d));
      collect_loop items ∅
  | _ => None
  end.

Definition subpath_key (path k : string) : string :=
  if nonempty path then path ++ "." ++ k else k.

Definition subpath_index (path : string) (i : nat) : string :=
  path ++ "[" ++ str_of_nat i ++ "]".

(** The two loops of [find_lex_id_refs], over the items of a mapping and
    over the elements of a list; [refs] is the recursive call. *)
Definition fields_refs (refs : yaml → string → list (string * string)) (path : string)
  : list (string * yaml) → list (string * string) :=
  fix fields d :=
    match d with
    | [] => []
    | (k, v) :: rest =>
        let subpath := subpath_key path k in
        ((if LEX_ID_KEY_RE k && negb (is_null v) then [(subpath, py_str v)] else [])
         ++ refs v subpath ++ fields rest)%list
    end.

Definition elements_refs (refs : yaml → string → list (string * string)) (path : string)
  : nat → list yaml → list (string * string) :=
  fix elements i l :=
    match l with
    | [] => []
    | v :: rest => (refs v (subpath_index path i) ++ elements (S i) rest)%list
    end.

Fixpoint find_lex_id_refs (obj : yaml) (path : string) : list (string * string) :=
  match obj with
  | YDict d => fields_refs find_lex_id_refs path d
  | YList l => elements_refs find_lex_id_refs path 0 l
  | _ => []
  end.

(** What the run finds: the index document if the file exists, and the YAML
    files under [SCAN_DIRS] in scan order, each with the value it loads to,
    or [None] when loading it raises. *)
Record world : Type := World {
  lex_index : option yaml;
  yaml_files : list (string * option yaml)
}.

(** Lines the run prints. *)
Inductive message : Type :=
| MissingIndex
| EmptyIndex
| NoYamlFiles
| ParseFailed (ypath : string)
| Unresolved (ypath field_path ref_id : string)
| Summary (lex_ids files checked errors : nat)
| FixHint
| AllResolved.

(** The references of one file that are not in the index, as reported. *)
Definition unresolved_in (lex_ids : gset string) (ypath : string)
    (refs : list (string * string)) : list message :=
  omap (fun r => if bool_decide (snd r ∈ lex_ids) then None
                 else Some (Unresolved ypath (fst r) (snd r))) refs.

Record scan_state : Type := ScanState {
  errors : nat;
  checked : nat;
  printed : list message
}.

(** Body of [for ypath in yaml_files]. *)
Definition file_step (lex_ids : gset string) (st : scan_state)
    (f : string * option yaml) : scan_state :=
  match snd f with
  | None =>
      ScanState (S (errors st)) (checked st) (printed st ++ [ParseFailed (fst f)])
  | Some data =>
      match find_lex_id_refs data "" with
      | [] => st
      | refs =>
          let bad := unresolved_in lex_ids (fst f) refs in
          ScanState (errors st + length bad) (S (checked st)) (printed st ++ bad)
      end
  end.

Definition main (w : world) : outcome * list message :=
  match lex_index w with
  | None => (Return 2, [MissingIndex])
  | Some index =>
      match collect_lex_ids index with
      | None => (Raise, [])
      | Some lex_ids =>
          if bool_decide (lex_ids = ∅) then (Return 2, [EmptyIndex])
          else
            match yaml_files w with
            | [] => (Return 0, [NoYamlFiles])
            | files =>
                let st := fold_left (file_step lex_ids) files (ScanState 0 0 []) in
                let summary :=
                  Summary (size lex_ids) (length files) (checked st) (errors st) in
                if (0 <? errors st)%nat
                then (Return 1, (printed st ++ [summary; FixHint])%list)
                else (Return 0, (printed st ++ [summary; AllResolved])%list)
            end
      end
  end.

End Validator.

(** ** tools/link_conjugation_tables_to_lexicon.py *)
Module Linker.
Import Py Yaml Process.

(** [re.sub(r"\s+", " ", s)]: every run of blanks becomes one blank.
    [in_run] says that the character before was a blank. *)
Fixpoint collapse_space (in_run : bool) (ks : list string) : string :=
  match ks with
  | [] => EmptyString
  | k :: rest =>
      if isspace k then
        if in_run then collapse_space true rest
        else String " "%char (collapse_space true rest)
      else k ++ collapse_space false rest
  end.

(** [norm] *)
Definition norm (s : string) : string :=
  lower (collapse_space false (chars (strip s))).

(** Body of the loop of [build_verb_lookup]: the entry to store, if the item
    is a verb with a text and an identifier. *)
Definition verb_entry (item : Dict.t yaml) : option (option (string * yaml)) :=
  match Dict.get "category" item with
  | Some (YStr category) =>
      if String.eqb category "verb" then
        let text := default (YStr "") (Dict.get "text" item) in
        let lex_id := default (YStr "") (Dict.get "lex_id" item) in
        if truthy text && truthy lex_id then
          s ← as_str text;
          Some (Some (norm s, lex_id))
        else Some None
      else Some None
  | _ => Some None
  end.

Fixpoint lookup_loop (items : list yaml) (lookup : gmap string yaml)
  : option (gmap string yaml) :=
  match items with
  | [] => Some lookup
  | YDict item :: rest =>
      entry ← verb_entry item;
      lookup_loop rest
        (match entry with
         | Some (key, lex_id) => <[key := lex_id]> lookup
         | None => lookup
         end)
  | _ :: _ => None
  end.

Definition build_verb_lookup (index_data : yaml) : option (gmap string yaml) :=
  match index_data with
  | YDict d =>
      items ← iterate (default (YList []) (Dict.get "items" d));
      lookup_loop items ∅
  | _ => None
  end.

(** A table for which no identifier was found: its lemma, or none, and its
    [table_id]. *)
Inductive missing_match : Type :=
| NoLemma (table_id : yaml)
| NoMatch (lemma table_id : yaml).

(** State of the loop over the tables. *)
Record link_state : Type := LinkState {
  linked : list yaml;
  updated : nat;
  missing : list missing_match
}.

Definition table_id_of (t : Dict.t yaml) : yaml :=
  default (YStr "") (Dict.get "table_id" t).

(** Body of [for t in tables]. *)
Definition link_step (lookup : gmap string yaml) (st : link_state) (t : yaml)
  : option link_state :=
  match t with
  | YDict t =>
      let lemma := default (YStr "") (Dict.get "lemma_guess" t) in
      if negb (truthy lemma) then
        Some (LinkState (linked st ++ [YDict t]) (updated st)
                (missing st ++ [NoLemma (table_id_of t)]))
      else if truthy (default YNull (Dict.get "lemma_lex_id" t)) then
        Some (LinkState (linked st ++ [YDict t]) (updated st) (missing st))
      else
        s ← as_str lemma;
        let lid := default YNull (lookup !! norm s) in
        if truthy lid then
          Some (LinkState (linked st ++ [YDict (Dict.set "lemma_lex_id" lid t)])
                  (S (updated st)) (missing st))
        else
          Some (LinkState (linked st ++ [YDict t]) (updated st)
                  (missing st ++ [NoMatch lemma (table_id_of t)]))
  | _ => None
  end.

Fixpoint link_loop (lookup : gmap string yaml) (tables : list yaml) (st : link_state)
  : option link_state :=
  match tables with
  | [] => Some st
  | t :: rest =>
      match link_step lookup st t with
      | Some st' => link_loop lookup rest st'
      | None => None
      end
  end.

(** What the run finds: the index and the table document, each as the value
    it loads to, if the file exists. *)
Record world : Type := World {
  index_file : option yaml;
  tables_file : option yaml
}.

(** What a run that reaches its end saves and counts. *)
Record report : Type := Report {
  saved : Dict.t yaml;
  updated_count : nat;
  missing_matches : list missing_match
}.

Definition main (w : world) : outcome * option report :=
  match index_file w, tables_file w with
  | None, _ | _, None => (Return 2, None)
  | Some index_data, Some tables_data =>
      match build_verb_lookup index_data, tables_data with
      | Some lookup, YDict d =>
          match iterate (default (YList []) (Dict.get "tables" d)) with
          | Some tables =>
              match link_loop lookup tables (LinkState [] 0 []) with
              | Some st =>
                  let data :=
                    match Dict.get "tables" d with
                    | Some (YList _) => Dict.set "tables" (YList (linked st)) d
                    | _ => d
                    end in
                  (Return 0, Some (Report data (updated st) (missing st)))
              | None => (Raise, None)
              end
          | None => (Raise, None)
          end
      | _, _ => (Raise, None)
      end
  end.

End Linker.

(** ** Notions used to state the properties of texts *)
Module TextNotions.
Import Py.

(** The bytes belong to one character: every byte but the first continues
    the one before it, which is not ASCII. *)
Fixpoint glued (k : string) : bool :=
  match k with
  | String a (String b _ as rest) => negb (is_ascii a) && continues b && glued rest
  | _ => true
  end.

Fixpoint ends_ascii (k : string) : bool :=
  match k with
  | EmptyString => false
  | String a EmptyString => is_ascii a
  | String _ rest => ends_ascii rest
  end.

Definition starts_continuing (k : string) : bool :=
  match k with
  | String b _ => continues b
  | EmptyString => false
  end.

(** A character ends where [k] ends when [k2] follows it. *)
Definition apart (k k2 : string) : bool :=
  ends_ascii k || negb (starts_continuing k2).

(** The list is a text cut into its characters. *)
Fixpoint well_cut (ks : list string) : bool :=
  match ks with
  | [] => true
  | k :: rest =>
      negb (String.eqb k "") && glued k
      && match rest with
         | [] => true
         | k2 :: _ => apart k k2
         end
      && well_cut rest
  end.

(** No character of the list is a blank. *)
Definition no_blank (ks : list string) : bool := forallb (fun k => negb (isspace k)) ks.

End TextNotions.

(** ** Notions used to state the properties *)
Module Notions.
Import Py Yaml Extractor.

(** A slot map as the extractor keeps it: at least four slots, no slot
    twice. *)
Definition paradigm (t : table) : Prop :=
  (4 <= length t)%nat ∧ NoDup (Dict.keys t).

(** Every slot of the map holds a form that is not empty. *)
Definition filled (t : table) : Prop := Forall (fun kv => snd kv ≠ "") t.

(** The text has a last character, and it is not one that [p] strips. *)
Fixpoint ends_outside (p : ascii → bool) (s : string) : bool :=
  match s with
  | EmptyString => false
  | String c EmptyString => negb (p c)
  | String _ rest => ends_outside p rest
  end.

(** What the scan keeps true of its state: the tables kept are paradigms,
    the map being filled has no slot twice. *)
Definition scan_inv (st : list table * table) : Prop :=
  Forall paradigm (fst st) ∧ NoDup (Dict.keys (snd st)).

(** The slot map alone, through one line. *)
Definition slot_step (current : table) (line : string) : table :=
  snd (line_step ([], current) line).

Definition slots_of (lines : list string) : table :=
  fold_left slot_step lines [].

(** The rule for a repeated pronoun as the specification words it: a line
    whose pronoun is not [sie] and whose slot is filled flushes the map and
    starts a fresh one (empty, or holding the new form alone). *)
Definition repeat_starts_new_cluster : Prop :=
  ∀ (tables : list table) (current : table) (line p g : string),
    RE_PRONOUN_PAIR (strip line) = Some (p, g) →
    normalize_pronoun p ≠ "sie" →
    Dict.mem (normalize_pronoun p) current = true →
    fst (line_step (tables, current) line) = fst (flush tables current)
    ∧ (snd (line_step (tables, current) line) = []
       ∨ snd (line_step (tables, current) line) = [(normalize_pronoun p, strip g)]).

(** The form looks singular, as the specification words it: the lowercased
    form is the form stored for [er], or it ends in [t]. *)
Definition singular_as_stated (current : table) (form : string) : Prop :=
  Dict.get "er" current = Some (lower form) ∨ endswith (lower form) "t" = true.

(** The rule for [sie] as the specification words it. *)
Definition sie_rule_as_stated : Prop :=
  ∀ (tables : list table) (current : table) (line p g : string),
    RE_PRONOUN_PAIR (strip line) = Some (p, g) →
    normalize_pronoun p = "sie" →
    (Dict.get "sie_sg" current = None ∧ singular_as_stated current (strip g) →
       line_step (tables, current) line
       = (tables, Dict.set "sie_sg" (strip g) current))
    ∧ (¬ (Dict.get "sie_sg" current = None ∧ singular_as_stated current (strip g)) →
       line_step (tables, current) line
       = (tables, Dict.set "sie_pl" (strip g) current)).

(** The form looks singular, up to the case of the form stored for [er]:
    the two are the same once lowercased (and the stored one trimmed), or the
    lowercased form ends in [t]. *)
Definition singular_like (current : table) (form : string) : Prop :=
  (∃ er, Dict.get "er" current = Some er
         ∧ lower (strip er) ≠ ""
         ∧ lower form = lower (strip er))
  ∨ endswith (lower form) "t" = true.

(** A line with a pronoun other than [sie] that does not store [sprechen]
    as the form of [er]. *)
Definition plain_line (ln : string) : Prop :=
  ∃ p g, RE_PRONOUN_PAIR (strip ln) = Some (p, g)
         ∧ normalize_pronoun p ≠ "sie"
         ∧ (normalize_pronoun p = "er" → lower (strip (strip g)) ≠ "sprechen").

(** The form stored for [er], as the rule for [sie] reads it, is not
    [sprechen]. *)
Definition er_settled (current : table) : Prop :=
  lower (strip (default "" (Dict.get "er" current))) ≠ "sprechen".

Definition gehen_four : table :=
  [("ich", "gehe"); ("du", "gehst"); ("er", "geht"); ("wir", "gehen")].

End Notions.

(** ** Notions used to state the properties of the index builder *)
Module IndexNotions.
Import Py Yaml Process IndexBuilder.

(** The partition has no top-level [category]. *)
Definition missing_category (data : Dict.t yaml) : Prop :=
  Dict.get "category" data = None.

(** The partition has an [items] field that is not a list. *)
Definition malformed_items (data : Dict.t yaml) : Prop :=
  ∃ v, Dict.get "items" data = Some v ∧ is_list v = false.

Definition offending (data : Dict.t yaml) : Prop :=
  missing_category data ∨ malformed_items data.

(** The file an effect is about: the file a backup copies, the file a dump
    writes. *)
Definition effect_path (e : effect) : string :=
  match e with
  | Backup path => path
  | Dump path _ => path
  end.

(** The paths of the partitions in a list of loaded files. *)
Definition partition_paths (files_data : list (string * Dict.t yaml)) : list string :=
  map (fun fd => path_of (fst fd)) files_data.

(** The label of the partition, if it has one, is a text. *)
Definition label_is_text (data : Dict.t yaml) : bool :=
  match Dict.get "category" data with
  | None | Some (YStr _) => true
  | _ => false
  end.

(** The [text] of the item, if it has one, is a text. *)
Definition text_is_string (item : yaml) : bool :=
  match item with
  | YDict fields =>
      match Dict.get "text" fields with
      | None | Some (YStr _) => true
      | _ => false
      end
  | _ => true
  end.

(** Labels and texts have the type the schema gives them, so that no string
    method is called on a value that has none. *)
Definition well_typed (fd : string * Dict.t yaml) : bool :=
  label_is_text (snd fd)
  && match Dict.get "items" (snd fd) with
     | Some (YList items) => forallb text_is_string items
     | _ => true
     end.

(** The effect writes a partition or the index. *)
Definition writes_file (e : effect) : Prop :=
  match e with
  | Dump _ _ => True
  | Backup _ => False
  end.

(** No partial output, as the specification words it: a run over partitions
    one of which offends ends with code 2 and has written no file. *)
Definition no_partial_output : Prop :=
  ∀ (w : world) (files_data : list (string * Dict.t yaml)),
    lexicon_dir_exists w = true →
    load_managed MANAGED_FILES (lexicon_files w) = Some files_data →
    Exists (fun fd => offending (snd fd)) files_data →
    fst (main w) = Return 2 ∧ Forall (fun e => ¬ writes_file e) (snd (main w)).

End IndexNotions.

(** ** Notions used to state the properties of the deduplicator *)
Module DedupeNotions.
Import Py Yaml Deduper.

(** A table as the pass leaves it: a list under [sources], no [source]. *)
Definition normalized (t : Dict.t yaml) : Prop :=
  (∃ l, Dict.get "sources" t = Some (YList l)) ∧ Dict.get "source" t = None.

(** What the pass keeps true of [merged]: every signature once, and under it
    a normalized table with that signature. *)
Definition merged_inv (merged : merged_map) : Prop :=
  NoDup (map fst merged)
  ∧ Forall (fun st => sig_of (snd st) = Some (fst st) ∧ normalized (snd st)) merged.

(** The (document, slide) pairs of the sources that are mappings. *)
Definition keys_of (srcs : list yaml) : list (yaml * yaml) :=
  omap (fun s => match s with YDict d => source_key d | _ => None end) srcs.

(** Each source of [added] is a mapping whose pair is not among the pairs
    of the sources before it, those of [existing] included. *)
Definition appended_fresh (existing added : list yaml) : Prop :=
  ∀ before s after,
    added = (before ++ s :: after)%list →
    ∃ d key, s = YDict d ∧ source_key d = Some key
             ∧ key_in key (keys_of (existing ++ before)) = false.

(** The shape the table document gives its values: [lemma_guess] and the
    forms are texts (or left empty), [forms] is a mapping, and the document
    and slide of a source are scalars. *)
Definition text_or_empty (v : yaml) : bool :=
  negb (truthy v) || match v with YStr _ => true | _ => false end.

Definition forms_typed (t : Dict.t yaml) : bool :=
  match default YNull (Dict.get "forms" t) with
  | YDict d => forallb (fun kv => text_or_empty (snd kv)) d
  | v => negb (truthy v)
  end.

Definition scalar (v : yaml) : bool :=
  match v with
  | YList _ | YDict _ => false
  | _ => true
  end.

Definition source_typed (s : yaml) : bool :=
  match s with
  | YDict d =>
      scalar (default YNull (Dict.get "ppt" d))
      && scalar (default YNull (Dict.get "slide" d))
  | _ => true
  end.

Definition table_typed (t : yaml) : bool :=
  match t with
  | YDict t =>
      text_or_empty (default YNull (Dict.get "lemma_guess" t))
      && forms_typed t
      && forallb source_typed (sources_of t)
  | _ => false
  end.

(** Every table of [merged] holds sources of that shape. *)
Definition merged_typed (merged : merged_map) : Prop :=
  Forall (fun st => ∃ l, Dict.get "sources" (snd st) = Some (YList l)
                         ∧ forallb source_typed l = true) merged.

End DedupeNotions.

(** ** Notions used to state the properties of the validator *)
Module ValidatorNotions.
Import Py Yaml Validator.

(** The document holds, at some depth, a field named [k] with value [v]. *)
Inductive field_in : yaml → string → yaml → Prop :=
| field_here d k v :
    (k, v) ∈ d → field_in (YDict d) k v
| field_under d k' v' k v :
    (k', v') ∈ d → field_in v' k v → field_in (YDict d) k v
| field_inside l x k v :
    x ∈ l → field_in x k v → field_in (YList l) k v.

Definition line_feed : ascii := ascii_of_nat 10.

(** The name has the reference suffix, and the name is written on one
    line. *)
Definition has_reference_suffix (k : string) : bool := endswith k "_lex_id".
Definition single_line (k : string) : bool := negb (contains_char line_feed k).

(** What one file adds to the error count, and what it has printed. *)
Definition file_messages (lex_ids : gset string) (f : string * option yaml)
  : list message :=
  match snd f with
  | None => [ParseFailed (fst f)]
  | Some data => unresolved_in lex_ids (fst f) (find_lex_id_refs data "")
  end.

End ValidatorNotions.

(** ** Inputs of the examples *)
Module Samples.
Import Yaml IndexBuilder.

Definition noun_partition (items : list yaml) : yaml :=
  YDict [("category", YStr "noun"); ("items", YList items)].

Definition entry (text : string) : yaml := YDict [("text", YStr text)].

Definition entry_with_id (text lex_id : string) : yaml :=
  YDict [("text", YStr text); ("lex_id", YStr lex_id)].

(** A lexicon whose only partition holds the given nouns; no index yet. *)
Definition nouns_world (items : list yaml) : world :=
  World true [("nouns.yaml", noun_partition items)] false.

Definition schuhe_world : world :=
  nouns_world [entry "die Schuhe"; entry "die Schuhe"].

(** Three entries without identifier. *)
Definition katze_world : world :=
  nouns_world [entry "Katze"; entry "Katze"; entry "Katze 2"].

(** One entry that carries its identifier, two that carry none. *)
Definition katze_assigned_world : world :=
  nouns_world [entry_with_id "Katze 2" "LEX.NOUN.KATZE.2"; entry "Katze"; entry "Katze"].

(** A noun partition that needs an identifier, and a verb partition without
    [category]. *)
Definition unlabelled_verbs_world : world :=
  World true
    [("nouns.yaml", noun_partition [entry "Katze"]);
     ("verbs.yaml", YDict [("items", YList [entry "gehen"])])]
    false.

(** Two tables of the verb [gehen] with the same forms, seen on slides that
    overlap, and the table their merge leaves. *)
Definition provenance (ppt : string) (slide : Z) : yaml :=
  YDict [("ppt", YStr ppt); ("slide", YInt slide)].

Definition gehen_forms : yaml :=
  YDict [("ich", YStr "gehe"); ("du", YStr "gehst"); ("er", YStr "geht");
         ("wir", YStr "gehen")].

Definition gehen_first : Dict.t yaml :=
  [("table_id", YStr "a.pptx__slide1"); ("lemma_guess", YStr "gehen");
   ("pattern_guess", YStr "regular"); ("forms", gehen_forms);
   ("source", provenance "a.pptx" 1)].

Definition gehen_second : Dict.t yaml :=
  [("table_id", YStr "b.pptx__slide2"); ("lemma_guess", YStr "gehen");
   ("pattern_guess", YStr "regular"); ("forms", gehen_forms);
   ("sources", YList [provenance "a.pptx" 1; provenance "b.pptx" 2;
                      provenance "b.pptx" 2])].

Definition gehen_merged : Dict.t yaml :=
  [("table_id", YStr "a.pptx__slide1"); ("lemma_guess", YStr "gehen");
   ("pattern_guess", YStr "regular"); ("forms", gehen_forms);
   ("sources", YList [provenance "a.pptx" 1; provenance "b.pptx" 2])].

(** An index with one verb, and a rule document whose only field has a name
    of two lines that ends in the reference suffix, with a value the index
    does not hold. *)
Definition gehen_index : yaml :=
  YDict [("schema_version", YStr "0.2");
         ("items", YList [YDict [("lex_id", YStr "LEX.VERB.GEHEN");
                                 ("category", YStr "verb");
                                 ("text", YStr "gehen")]])].

Definition two_line_key : string :=
  "note" ++ String ValidatorNotions.line_feed "lemma_lex_id".

Definition two_line_document : yaml :=
  YDict [(two_line_key, YStr "LEX.VERB.MISSING")].

Definition two_line_world : Validator.world :=
  Validator.World (Some gehen_index)
    [("linguistic_rules/morphology/notes.yaml", Some two_line_document)].

(** The same value under a name of one line. *)
Definition one_line_world : Validator.world :=
  Validator.World (Some gehen_index)
    [("linguistic_rules/morphology/notes.yaml",
      Some (YDict [("lemma_lex_id", YStr "LEX.VERB.MISSING")]))].

(** The identifiers of the index the run writes. *)
Definition index_lex_ids (w : world) : option (list yaml) :=
  option_map lex_ids_of_payload (written_index (snd (main w))).

End Samples.

(** ** Notions used to state the properties of the identifiers *)
Module TokenNotions.
Import Py LexId.

Fixpoint all_chars (p : ascii → bool) (s : string) : bool :=
  match s with
  | EmptyString => true
  | String c rest => p c && all_chars p rest
  end.

(** A character of an identifier: a capital, a digit or the dot. *)
Definition token_char (c : ascii) : bool := id_char c || is_dot c.

Definition starts_with (p : ascii → bool) (s : string) : bool :=
  match s with
  | EmptyString => false
  | String c _ => p c
  end.

Fixpoint ends_with (p : ascii → bool) (s : string) : bool :=
  match s with
  | EmptyString => false
  | String c EmptyString => p c
  | String _ rest => ends_with p rest
  end.

(** No dot next to a dot. *)
Fixpoint no_double_dot (s : string) : bool :=
  match s with
  | EmptyString => true
  | String c rest => negb (is_dot c && starts_with is_dot rest) && no_double_dot rest
  end.

(** An ID-safe token: capitals, digits and dots, with no dot at either end
    and no dot next to a dot (no empty segment). The empty text is one. *)
Definition id_token (s : string) : bool :=
  all_chars token_char s
  && no_double_dot s
  && negb (starts_with is_dot s)
  && negb (ends_with is_dot s).

(** The identifiers that [n] calls in a row give for the same proposal. *)
Fixpoint repeat_assign (proposed : string) (n : nat) (used : gmap string nat)
  : list string :=
  match n with
  | O => []
  | S n' =>
      let '(final_id, used') := ensure_unique_id proposed used in
      final_id :: repeat_assign proposed n' used'
  end.

End TokenNotions.

(** ** Notions used to state what a run of the index builder leaves *)
Module RunNotions.
Import Py Yaml LexId Process IndexBuilder.

(** The item carries an identifier already (a text under [lex_id] that is
    not blank), or it is not a mapping and the run passes over it. *)
Definition assigned (item : yaml) : Prop :=
  match item with
  | YDict fields => is_Some (existing_lex_id fields)
  | _ => True
  end.

(** What a run makes of an item: a mapping gets or keeps an identifier under
    [lex_id], trimmed and not empty, and nothing else in it changes; an
    identifier it carried is the one it keeps; any other item is left
    alone. *)
Definition item_result (item out : yaml) : Prop :=
  match item with
  | YDict fields =>
      ∃ id, out = YDict (Dict.set "lex_id" (YStr id) fields)
            ∧ id ≠ "" ∧ strip id = id
            ∧ (∀ x, existing_lex_id fields = Some x → id = x)
  | _ => out = item
  end.

(** What the last dump to the partition [fname] wrote, if there was one. *)
Definition written_partition (effs : list effect) (fname : string)
  : option (Dict.t yaml) :=
  last (omap (fun e => match e with
                       | Dump path data =>
                           if String.eqb path (path_of fname) then Some data else None
                       | _ => None
                       end) effs).

(** A partition as the run loads it and as a run after it loads it: the same
    file, holding what was dumped to it, or what it held when it was not
    written. *)
Definition reread (effs : list effect) (fd fd2 : string * Dict.t yaml) : Prop :=
  fst fd2 = fst fd
  ∧ ((written_partition effs (fst fd) = Some (snd fd2) ∧ snd fd2 ≠ [])
     ∨ (written_partition effs (fst fd) = None ∧ snd fd2 = snd fd)).

(** A file of the lexicon after the run: what was dumped to it, if it was
    written, read back as the value dumped. *)
Definition file_after (effs : list effect) (fname : string) (v : yaml) : yaml :=
  match written_partition effs fname with
  | Some data => YDict data
  | None => v
  end.

(** The lexicon after a run. *)
Definition world_after (w : world) (effs : list effect) : world :=
  World (lexicon_dir_exists w)
        (map (fun fv => (fst fv, file_after effs (fst fv) (snd fv))) (lexicon_files w))
        (index_exists w || bool_decide (is_Some (written_index effs))).

(** The file an effect writes: a dump writes its file, a backup writes the
    copy. *)
Definition written_path (e : effect) : string :=
  match e with
  | Backup path => backup_file path
  | Dump path _ => path
  end.

(** The files a run works on, and the files it may write: these and their
    backups. *)
Definition tracked_paths : list string := (map path_of MANAGED_FILES ++ [INDEX_PATH])%list.

Definition with_backup (path : string) : list string := [backup_file path; path].

Definition written_files : list string := flat_map with_backup tracked_paths.

(** What the files hold, by path, and what an effect makes of it: a backup
    copies what the file holds to the backup, a dump writes the document. *)
Definition disk : Type := string → option yaml.

Definition write (path : string) (content : option yaml) (fs : disk) : disk :=
  fun q => if String.eqb q path then content else fs q.

Definition apply_effect (fs : disk) (e : effect) : disk :=
  match e with
  | Backup path => write (backup_file path) (fs path) fs
  | Dump path data => write path (Some (YDict data)) fs
  end.

Definition disk_after (fs : disk) (effs : list effect) : disk :=
  fold_left apply_effect effs fs.

(** The writes come in pairs: a backup of a file, then a dump to that
    file. *)
Fixpoint backed_up (effs : list effect) : bool :=
  match effs with
  | [] => true
  | Backup path :: Dump path' _ :: rest => String.eqb path path' && backed_up rest
  | _ => false
  end.

(** The keys are in order: no key is smaller than the one before it. *)
Fixpoint in_order (keys : list (string * string)) : bool :=
  match keys with
  | a :: (b :: _) as rest => negb (pair_ltb b a) && in_order rest
  | _ => true
  end.

(** The entries of the index a payload holds. *)
Definition payload_entries (payload : Dict.t yaml) : list yaml :=
  match Dict.get "items" payload with
  | Some (YList items) => items
  | _ => []
  end.

(** [(category, lex_id)] of an entry of the index, both texts. *)
Definition entry_key (e : yaml) : option (string * string) :=
  match e with
  | YDict fields => sort_key fields
  | _ => None
  end.

(** The mappings among the items of the loaded partitions. *)
Definition lexical_items (files_data : list (string * Dict.t yaml)) : list yaml :=
  flat_map (fun fd => match Dict.get "items" (snd fd) with
                      | Some (YList items) => filter (fun it => is_dict it = true) items
                      | _ => []
                      end) files_data.

End RunNotions.

(** ** Notions used to state the properties of the extracted tables *)
Module TableNotions.
Import Py Extractor.

(** The clusters of a slide that are kept as tables, before equal tables are
    dropped. *)
Definition clusters (lines : list string) : list table :=
  let '(tables, current) := scan lines in fst (flush tables current).

(** Every form of the table is trimmed and not empty. *)
Definition trimmed (t : table) : Prop :=
  Forall (fun kv => snd kv ≠ "" ∧ strip (snd kv) = snd kv) t.

(** The rows [group_by_ppt_slide] keeps, each as its key and its line. *)
Definition kept_rows (rows : list csv_row) : list (slide_key * string) :=
  omap (fun r =>
          let ppt := cell "ppt_file" r in
          let slide := cell "slide_number" r in
          let t := strip (cell "norm_text" r) in
          if nonempty ppt && nonempty slide && nonempty t then Some ((ppt, slide), t)
          else None) rows.

(** The lines kept for a key, in the order of the rows. *)
Definition lines_of (key : slide_key) (kept : list (slide_key * string)) : list string :=
  map snd (filter (fun r => fst r = key) kept).

(** The keys in the order in which they are first seen. *)
Fixpoint first_seen {A} `{EqDecision A} (l : list A) : list A :=
  match l with
  | [] => []
  | x :: rest => x :: filter (fun y => y ≠ x) (first_seen rest)
  end.

(** Lookup in a dictionary with pairs as keys. *)
Fixpoint group_of (key : slide_key) (grouped : list (slide_key * list string))
  : option (list string) :=
  match grouped with
  | [] => None
  | (k, ls) :: rest => if bool_decide (k = key) then Some ls else group_of key rest
  end.

End TableNotions.

(** ** Notions used to state what the deduplicator keeps *)
Module MergeNotions.
Import Py Yaml Deduper DedupeNotions.

(** The signature of a table of the document. *)
Definition table_sig (t : yaml) : option signature :=
  match t with
  | YDict d => sig_of d
  | _ => None
  end.


End MergeNotions.

(** ** Notions used to state what the validator reports *)
Module ReferenceNotions.
Import Py Yaml Validator ValidatorNotions.

(** Something is wrong with the rule files: one of them cannot be loaded, or
    one of them holds a field whose name the pattern matches and whose value,
    not null, is not an identifier of the index. *)
Definition broken (lex_ids : gset string) (w : world) : Prop :=
  (∃ ypath, (ypath, None) ∈ yaml_files w)
  ∨ (∃ ypath doc k v,
       (ypath, Some doc) ∈ yaml_files w ∧ field_in doc k v
       ∧ LEX_ID_KEY_RE k = true ∧ v ≠ YNull ∧ py_str v ∉ lex_ids).

(** The index is there and it loads to the identifiers [lex_ids], which are
    not none. *)
Definition index_loaded (w : world) (lex_ids : gset string) : Prop :=
  ∃ index, lex_index w = Some index ∧ collect_lex_ids index = Some lex_ids
           ∧ lex_ids ≠ ∅.

End ReferenceNotions.

(** ** Notions used to state how the tools fit together *)
Module PipelineNotions.
Import Py Yaml.

(** A table before and after the linker: left as it is, or, having no
    reference yet, given one that is an identifier of the index. *)
Definition linked_or_kept (lex_ids : gset string) (t t' : yaml) : Prop :=
  t' = t
  ∨ ∃ d lid,
      t = YDict d ∧ truthy (default YNull (Dict.get "lemma_lex_id" d)) = false
      ∧ t' = YDict (Dict.set "lemma_lex_id" lid d)
      ∧ truthy lid = true ∧ py_str lid ∈ lex_ids.

(** An index with the verb [gehen], and a table document with one table for
    it that has no reference yet. *)
Definition gehen_tables : Dict.t yaml :=
  [("schema_version", YStr "0.1"); ("tables", YList [YDict Samples.gehen_merged])].

Definition gehen_linked : Dict.t yaml :=
  [("schema_version", YStr "0.1");
   ("tables",
    YList [YDict (Dict.set "lemma_lex_id" (YStr "LEX.VERB.GEHEN") Samples.gehen_merged)])].

Definition gehen_link_world : Linker.world :=
  Linker.World (Some Samples.gehen_index) (Some (YDict gehen_tables)).

End PipelineNotions.

(** * Properties *)

(** ** Texts and their characters *)
Module TextFacts.
Import Py TextNotions.

Lemma string_app_nil_r (a : string) : a ++ "" = a.
Proof.
  induction a as [|x a IH]; [done|].
  change (String x (a ++ "") = String x a). by rewrite IH.
Qed.

Lemma string_app_assoc (a b c : string) : (a ++ b) ++ c = a ++ b ++ c.
Proof.
  induction a as [|x a IH]; [done|].
  change (String x ((a ++ b) ++ c) = String x (a ++ b ++ c)). by rewrite IH.
Qed.

Lemma unchars_push c ks : unchars (push c ks) = String c (unchars ks).
Proof.
  destruct ks as [|k0 more]; [done|]. destruct k0 as [|d k]; [done|].
  unfold push. by destruct (negb (is_ascii c) && continues d).
Qed.

Lemma unchars_chars s : unchars (chars s) = s.
Proof.
  induction s as [|c s IH]; [done|]. cbn [chars]. by rewrite unchars_push, IH.
Qed.

Lemma unchars_app a b : unchars (a ++ b) = unchars a ++ unchars b.
Proof.
  induction a as [|k a IH]; [done|]. cbn [app unchars].
  by rewrite IH, string_app_assoc.
Qed.

Lemma chars_ascii c s : is_ascii c = true → chars (String c s) = String c "" :: chars s.
Proof.
  intros Hc. cbn [chars]. unfold push. rewrite Hc.
  destruct (chars s) as [|k0 more]; [done|]. by destruct k0.
Qed.

Lemma well_cut_eq k rest :
  well_cut (k :: rest) = true
  ↔ k ≠ "" ∧ glued k = true
    ∧ match rest with [] => True | k2 :: _ => apart k k2 = true end
    ∧ well_cut rest = true.
Proof.
  cbn [well_cut]. rewrite !andb_true_iff, negb_true_iff.
  destruct (String.eqb_spec k "") as [->|Hk].
  - split; [intros [[[? _] _] _]; done|intros [? _]; done].
  - destruct rest as [|k2 rest]; split; intros H; destruct_and?; split_and?; done.
Qed.

Lemma push_well_cut c ks : well_cut ks = true → well_cut (push c ks) = true.
Proof.
  destruct ks as [|k0 more]; [done|]. destruct k0 as [|d k]; [done|].
  intros (_ & Hg & Hap & Hw)%well_cut_eq.
  unfold push. destruct (negb (is_ascii c) && continues d) eqn:Hj.
  - apply well_cut_eq. split; [done|]. split.
    + change (glued (String c (String d k)))
        with (negb (is_ascii c) && continues d && glued (String d k)).
      by rewrite Hj, Hg.
    + split; [|done]. destruct more as [|k2 more]; [done|]. exact Hap.
  - apply well_cut_eq. split; [done|]. split; [done|]. split.
    + unfold apart. cbn [ends_ascii starts_continuing].
      destruct (is_ascii c); [done|]. cbn [negb andb orb] in *. by rewrite Hj.
    + apply well_cut_eq. done.
Qed.

Lemma chars_well_cut s : well_cut (chars s) = true.
Proof. induction s as [|c s IH]; [done|]. cbn [chars]. by apply push_well_cut. Qed.

Lemma well_cut_cons k ks : well_cut (k :: ks) = true → well_cut ks = true.
Proof. by intros (_ & _ & _ & ?)%well_cut_eq. Qed.

Lemma well_cut_app a b : well_cut (a ++ b) = true → well_cut a = true ∧ well_cut b = true.
Proof.
  induction a as [|k a IH]; [done|]. cbn [app]. intros H.
  destruct (IH (well_cut_cons _ _ H)) as [Ha Hb]. split; [|done].
  apply well_cut_eq in H as (Hk & Hg & Hap & _). apply well_cut_eq.
  split; [done|]. split; [done|]. split; [|done].
  destruct a as [|k2 a]; [done|]. exact Hap.
Qed.

Lemma ends_ascii_cons a b k : ends_ascii (String a (String b k)) = ends_ascii (String b k).
Proof. done. Qed.

(** One character in front of characters gives one character more. *)
Lemma chars_app_char k u :
  k ≠ "" → glued k = true →
  match chars u with [] => True | k2 :: _ => k2 ≠ "" ∧ apart k k2 = true end →
  chars (k ++ u) = k :: chars u.
Proof.
  intros Hk Hg Hrest. induction k as [|a k IH]; [done|].
  change (String a k ++ u) with (String a (k ++ u)). cbn [chars].
  destruct k as [|b k].
  - change ("" ++ u) with u. unfold push.
    destruct (chars u) as [|k0 more]; [done|]. destruct k0 as [|d k2].
    + by destruct Hrest.
    + destruct Hrest as [_ Hap]. unfold apart in Hap.
      cbn [ends_ascii starts_continuing] in Hap.
      destruct (is_ascii a), (continues d); done.
  - change (glued (String a (String b k)))
      with (negb (is_ascii a) && continues b && glued (String b k)) in Hg.
    rewrite !andb_true_iff in Hg. destruct Hg as [[Ha Hb] Hg].
    rewrite IH; [|done|done|].
    + unfold push. by rewrite Ha, Hb.
    + destruct (chars u) as [|k2 more]; [done|]. destruct Hrest as [? Hap].
      split; [done|]. unfold apart in *. by rewrite ends_ascii_cons in Hap.
Qed.

Lemma chars_unchars ks : well_cut ks = true → chars (unchars ks) = ks.
Proof.
  induction ks as [|k ks IH]; [done|]. intros H.
  pose proof (well_cut_cons _ _ H) as Hks.
  apply well_cut_eq in H as (Hk & Hg & Hap & _).
  cbn [unchars]. rewrite <- (IH Hks) at 2. apply chars_app_char; [done|done|].
  rewrite (IH Hks). destruct ks as [|k2 ks]; [done|]. split; [|done].
  by apply well_cut_eq in Hks as (? & _).
Qed.

Lemma chars_app_ascii c u : is_ascii c = true → ∀ s, chars ((s ++ String c "") ++ u)
  = (chars (s ++ String c "") ++ chars u)%list.
Proof.
  intros Hc s. induction s as [|a s IH].
  - change (("" ++ String c "") ++ u) with (String c u).
    change ("" ++ String c "") with (String c ""). by rewrite !chars_ascii.
  - change ((String a s ++ String c "") ++ u) with (String a ((s ++ String c "") ++ u)).
    change (String a s ++ String c "") with (String a (s ++ String c "")).
    cbn [chars]. rewrite IH.
    destruct (chars (s ++ String c "")) as [|k more] eqn:Hch.
    + exfalso. apply (f_equal unchars) in Hch. rewrite unchars_chars in Hch.
      by destruct s.
    + cbn [app]. unfold push. destruct k as [|d k]; [done|].
      by destruct (negb (is_ascii a) && continues d).
Qed.

(** Stripping the characters. *)
Lemma lstrip_chars_spec ks :
  ∃ pre, ks = (pre ++ lstrip_chars ks)%list ∧ forallb isspace pre = true.
Proof.
  induction ks as [|k ks IH]; [by exists []|]. cbn [lstrip_chars].
  destruct (isspace k) eqn:Hk; [|by exists []].
  destruct IH as (pre & Heq & Hpre). exists (k :: pre). cbn [app forallb].
  rewrite Hk, Hpre. split; [by f_equal|done].
Qed.

Lemma rstrip_chars_spec ks :
  ∃ post, ks = (rstrip_chars ks ++ post)%list ∧ forallb isspace post = true.
Proof.
  induction ks as [|k ks IH]; [by exists []|]. cbn [rstrip_chars].
  destruct IH as (post & Heq & Hpost).
  destruct (rstrip_chars ks) as [|k2 r] eqn:Hr.
  - cbn [app] in Heq. subst post. destruct (isspace k) eqn:Hk.
    + exists (k :: ks). cbn [app forallb]. by rewrite Hk, Hpost.
    + by exists ks.
  - exists post. split; [|done]. cbn [app]. by f_equal.
Qed.

Lemma rstrip_chars_last ks k : last (rstrip_chars ks) = Some k → isspace k = false.
Proof.
  induction ks as [|k0 ks IH]; [done|]. cbn [rstrip_chars].
  destruct (rstrip_chars ks) as [|k2 r] eqn:Hr.
  - destruct (isspace k0) eqn:Hk; [done|]. by intros [= <-].
  - intros H. by apply IH.
Qed.

Lemma lstrip_chars_no_blank ks : no_blank ks = true → lstrip_chars ks = ks.
Proof.
  destruct ks as [|k ks]; [done|]. cbn [no_blank forallb lstrip_chars].
  intros [Hk _]%andb_prop. by destruct (isspace k).
Qed.

Lemma rstrip_chars_id ks :
  match last ks with Some k => isspace k = false | None => True end →
  rstrip_chars ks = ks.
Proof.
  induction ks as [|k ks IH]; [done|]. cbn [rstrip_chars].
  destruct ks as [|k2 ks].
  - cbn. by intros ->.
  - intros H. rewrite IH; [done|]. exact H.
Qed.

Lemma rstrip_chars_no_blank ks : no_blank ks = true → rstrip_chars ks = ks.
Proof.
  intros H. apply rstrip_chars_id. destruct (last ks) as [k|] eqn:Hl; [|done].
  apply last_Some in Hl as (pre & ->). unfold no_blank in H.
  rewrite forallb_app in H. cbn in H. rewrite !andb_true_iff in H.
  destruct H as [_ [H _]]. by destruct (isspace k).
Qed.

Lemma lstrip_chars_head ks :
  match lstrip_chars ks with k :: _ => isspace k = false | [] => True end.
Proof.
  induction ks as [|k ks IH]; [done|]. cbn [lstrip_chars].
  by destruct (isspace k) eqn:Hk.
Qed.

Lemma rstrip_chars_head ks :
  match ks with k :: _ => isspace k = false | [] => True end →
  match rstrip_chars ks with k :: _ => isspace k = false | [] => True end.
Proof.
  destruct ks as [|k ks]; [done|]. cbn [rstrip_chars]. intros Hk.
  destruct (rstrip_chars ks); [by rewrite Hk|done].
Qed.

Lemma lstrip_chars_id ks :
  match ks with k :: _ => isspace k = false | [] => True end → lstrip_chars ks = ks.
Proof. destruct ks as [|k ks]; [done|]. cbn [lstrip_chars]. by intros ->. Qed.

Lemma strip_chars_well_cut ks :
  well_cut ks = true → well_cut (rstrip_chars (lstrip_chars ks)) = true.
Proof.
  intros H. destruct (lstrip_chars_spec ks) as (pre & Heq & _).
  rewrite Heq in H. apply well_cut_app in H as [_ H].
  destruct (rstrip_chars_spec (lstrip_chars ks)) as (post & Heq' & _).
  rewrite Heq' in H. by apply well_cut_app in H as [H _].
Qed.

(** The characters of a stripped text. *)
Lemma chars_strip s : chars (strip s) = rstrip_chars (lstrip_chars (chars s)).
Proof. unfold strip. apply chars_unchars, strip_chars_well_cut, chars_well_cut. Qed.

Lemma strip_chars_idem ks :
  rstrip_chars (lstrip_chars (rstrip_chars (lstrip_chars ks)))
  = rstrip_chars (lstrip_chars ks).
Proof.
  rewrite (lstrip_chars_id (rstrip_chars _)).
  - apply rstrip_chars_id.
    destruct (last (rstrip_chars (lstrip_chars ks))) as [k|] eqn:Hl; [|done].
    by apply rstrip_chars_last in Hl.
  - apply rstrip_chars_head, lstrip_chars_head.
Qed.

Lemma strip_idem s : strip (strip s) = strip s.
Proof. unfold strip at 1. by rewrite chars_strip, strip_chars_idem. Qed.

Lemma strip_no_blank s : no_blank (chars s) = true → strip s = s.
Proof.
  intros H. unfold strip.
  by rewrite lstrip_chars_no_blank, rstrip_chars_no_blank, unchars_chars.
Qed.

Lemma strip_empty : strip "" = "".
Proof. done. Qed.

Lemma unchars_empty ks : well_cut ks = true → unchars ks = "" → ks = [].
Proof.
  destruct ks as [|k ks]; [done|]. cbn [unchars].
  intros (Hk & _)%well_cut_eq. by destruct k.
Qed.

(** A text that is trimmed and not empty ends in a character that is no
    blank. *)
Lemma strip_last s :
  strip s ≠ "" → ∃ pre k, chars (strip s) = (pre ++ [k])%list ∧ isspace k = false.
Proof.
  intros Hne. destruct (last (chars (strip s))) as [k|] eqn:Hl.
  - pose proof Hl as Hl'. apply last_Some in Hl as (pre & Heq).
    exists pre, k. split; [done|]. rewrite chars_strip in Hl'.
    by apply rstrip_chars_last in Hl'.
  - apply last_None in Hl. apply (f_equal unchars) in Hl.
    by rewrite unchars_chars in Hl.
Qed.

Lemma lstrip_chars_last ks k :
  last ks = Some k → isspace k = false → last (lstrip_chars ks) = Some k.
Proof.
  intros Hl Hk. induction ks as [|k0 ks IH]; [done|]. cbn [lstrip_chars].
  destruct (isspace k0) eqn:Hk0; [|done].
  destruct ks as [|k1 ks]; [|by apply IH].
  cbn in Hl. injection Hl as ->. congruence.
Qed.

(** Characters that end in one that is no blank are not stripped away. *)
Lemma strip_unchars_nonempty ks k :
  well_cut (ks ++ [k]) = true → isspace k = false → strip (unchars (ks ++ [k])) ≠ "".
Proof.
  intros Hw Hk. unfold strip. rewrite chars_unchars by done.
  assert (Hl : last (lstrip_chars (ks ++ [k])) = Some k).
  { apply lstrip_chars_last; [by rewrite last_snoc|done]. }
  rewrite rstrip_chars_id by by rewrite Hl.
  intros He. apply unchars_empty in He.
  - by rewrite He in Hl.
  - destruct (lstrip_chars_spec (ks ++ [k])) as (pre & Heq & _).
    rewrite Heq in Hw. by apply well_cut_app in Hw as [_ ?].
Qed.

Lemma all_blank_last ks k : forallb isspace (ks ++ [k]) = true → isspace k = true.
Proof.
  rewrite forallb_app. cbn [forallb]. rewrite !andb_true_iff. by intros [_ [? _]].
Qed.

Lemma well_cut_nonempty ks : well_cut ks = true → Forall (fun k => k ≠ "") ks.
Proof.
  induction ks as [|k ks IH]; [by constructor|].
  intros (Hk & _ & _ & Hw)%well_cut_eq. constructor; [done|by apply IH].
Qed.

Lemma chars_nonempty s : Forall (fun k => k ≠ "") (chars s).
Proof. apply well_cut_nonempty, chars_well_cut. Qed.

Lemma unchars_nonempty ks : ks ≠ [] → Forall (fun k => k ≠ "") ks → unchars ks ≠ "".
Proof.
  destruct ks as [|k ks]; [done|]. intros _ [Hk _]%Forall_cons. cbn [unchars].
  by destruct k.
Qed.

End TextFacts.

(** ** Dictionaries *)
Module DictFacts.
Section DictFacts.
Context {V : Type}.
Implicit Types (d : Dict.t V) (k : string) (v : V).

Lemma get_set_eq k v d : Dict.get k (Dict.set k v d) = Some v.
Proof.
  induction d as [|[k' v'] d IH]; simpl.
  - by rewrite String.eqb_refl.
  - destruct (String.eqb_spec k k') as [->|Hne]; simpl.
    + by rewrite String.eqb_refl.
    + destruct (String.eqb_spec k k'); [done|exact IH].
Qed.

Lemma get_set_ne k k' v d : k ≠ k' → Dict.get k' (Dict.set k v d) = Dict.get k' d.
Proof.
  intros Hne. induction d as [|[k0 v0] d IH]; simpl.
  - destruct (String.eqb_spec k' k); [congruence|done].
  - destruct (String.eqb_spec k k0) as [->|Hk]; simpl.
    + destruct (String.eqb_spec k' k0); [congruence|done].
    + destruct (String.eqb_spec k' k0); [done|exact IH].
Qed.

Lemma mem_keys k d : Dict.mem k d = true ↔ k ∈ Dict.keys d.
Proof.
  unfold Dict.mem, Dict.keys. induction d as [|[k' v'] d IH]; simpl.
  - split; [done|]. intros H. by apply elem_of_nil in H.
  - destruct (String.eqb_spec k k') as [->|Hne].
    + split; [intros _; apply elem_of_cons; by left|done].
    + rewrite IH, elem_of_cons. split; [by right|by intros [?|?]].
Qed.

Lemma not_mem_keys k d : Dict.mem k d = false ↔ k ∉ Dict.keys d.
Proof. rewrite <- mem_keys. by destruct (Dict.mem k d). Qed.

Lemma get_None_keys k d : Dict.get k d = None ↔ k ∉ Dict.keys d.
Proof.
  rewrite <- not_mem_keys. unfold Dict.mem. by destruct (Dict.get k d).
Qed.

Lemma keys_set_mem k v d : Dict.mem k d = true → Dict.keys (Dict.set k v d) = Dict.keys d.
Proof.
  unfold Dict.mem, Dict.keys. induction d as [|[k' v'] d IH]; simpl; [done|].
  destruct (String.eqb_spec k k') as [->|Hne]; simpl; [done|].
  intros H. by rewrite IH.
Qed.

Lemma keys_set_new k v d :
  Dict.mem k d = false → Dict.keys (Dict.set k v d) = (Dict.keys d ++ [k])%list.
Proof.
  unfold Dict.mem, Dict.keys. induction d as [|[k' v'] d IH]; simpl; [done|].
  destruct (String.eqb_spec k k') as [->|Hne]; simpl; [done|].
  intros H. by rewrite IH.
Qed.

Lemma elem_of_keys_set x k v d :
  x ∈ Dict.keys (Dict.set k v d) ↔ x = k ∨ x ∈ Dict.keys d.
Proof.
  destruct (Dict.mem k d) eqn:Hm.
  - rewrite keys_set_mem by done. apply mem_keys in Hm.
    split; [by right|by intros [->|?]].
  - rewrite keys_set_new by done. rewrite elem_of_app, list_elem_of_singleton.
    tauto.
Qed.

Lemma NoDup_keys_set k v d : NoDup (Dict.keys d) → NoDup (Dict.keys (Dict.set k v d)).
Proof.
  intros Hnd. destruct (Dict.mem k d) eqn:Hm.
  - by rewrite keys_set_mem.
  - rewrite keys_set_new by done. apply NoDup_app. split; [done|].
    split; [|apply NoDup_singleton].
    intros x Hx Hk. apply list_elem_of_singleton in Hk as ->.
    by apply not_mem_keys in Hm.
Qed.

Lemma length_keys d : length (Dict.keys d) = length d.
Proof. unfold Dict.keys. by rewrite length_map. Qed.

Lemma length_set_mem k v d : Dict.mem k d = true → length (Dict.set k v d) = length d.
Proof. intros H. by rewrite <- !length_keys, keys_set_mem. Qed.

Lemma length_set_ge k v d : (length d <= length (Dict.set k v d))%nat.
Proof.
  rewrite <- !length_keys. destruct (Dict.mem k d) eqn:Hm.
  - by rewrite keys_set_mem.
  - rewrite keys_set_new, length_app by done. lia.
Qed.

Lemma set_get_same k v d : Dict.get k d = Some v → Dict.set k v d = d.
Proof.
  induction d as [|[k' v'] d IH]; simpl; [done|].
  destruct (String.eqb_spec k k') as [->|Hne]; [congruence|].
  intros H. by rewrite IH.
Qed.

Lemma get_pop_eq k d : Dict.get k (Dict.pop k d) = None.
Proof.
  induction d as [|[k' v'] d IH]; simpl; [done|].
  destruct (String.eqb_spec k k') as [->|Hne]; [done|].
  simpl. by destruct (String.eqb_spec k k').
Qed.

Lemma get_pop_ne k k' d : k ≠ k' → Dict.get k' (Dict.pop k d) = Dict.get k' d.
Proof.
  intros Hne. induction d as [|[k0 v0] d IH]; simpl; [done|].
  destruct (String.eqb_spec k k0) as [->|Hk]; simpl.
  - destruct (String.eqb_spec k' k0); [congruence|done].
  - destruct (String.eqb_spec k' k0); [done|exact IH].
Qed.

Lemma pop_absent k d : Dict.get k d = None → Dict.pop k d = d.
Proof.
  induction d as [|[k' v'] d IH]; simpl; [done|].
  destruct (String.eqb_spec k k') as [->|Hne]; [done|].
  intros H. by rewrite IH.
Qed.

End DictFacts.
End DictFacts.

(** ** The conjugation table extractor *)
Module ExtractorFacts.
Import Py Extractor TextNotions Notions DictFacts TextFacts.

Lemma sie_step_NoDup current form :
  NoDup (Dict.keys current) → NoDup (Dict.keys (sie_step current form)).
Proof.
  intros H. unfold sie_step.
  repeat match goal with |- context [if ?b then _ else _] => destruct b end;
    by apply NoDup_keys_set.
Qed.

Lemma flush_inv tables current : scan_inv (tables, current) → scan_inv (flush tables current).
Proof.
  intros [Ht Hc]. unfold flush. cbn [fst snd] in *.
  destruct (4 <=? length current)%nat eqn:Hlen; split; cbn [fst snd];
    try apply NoDup_nil_2; try done.
  apply Forall_app. split; [done|]. apply Forall_singleton.
  split; [by apply Nat.leb_le|done].
Qed.

Lemma line_step_inv st line : scan_inv st → scan_inv (line_step st line).
Proof.
  destruct st as [tables current]. intros Hinv. unfold line_step.
  destruct (RE_PRONOUN_PAIR (strip line)) as [[p g]|]; [|by apply flush_inv].
  destruct Hinv as [Ht Hc]. simpl in *.
  destruct (negb _); split; simpl; try done.
  - by apply NoDup_keys_set.
  - by apply sie_step_NoDup.
Qed.

Lemma fold_line_step_inv lines st :
  scan_inv st → scan_inv (fold_left line_step lines st).
Proof.
  revert st. induction lines as [|line lines IH]; intros st Hst; simpl; [done|].
  apply IH. by apply line_step_inv.
Qed.

Lemma scan_keeps_paradigms lines : scan_inv (scan lines).
Proof.
  apply fold_line_step_inv. split; simpl; [apply Forall_nil_2|apply NoDup_nil_2].
Qed.

Lemma unique_tables_Forall (P : table → Prop) seen tables :
  Forall P tables → Forall P (unique_tables seen tables).
Proof.
  revert seen. induction tables as [|t tables IH]; intros seen Hall; simpl; [done|].
  apply Forall_cons in Hall as [Ht Hall].
  destruct (existsb _ seen); [by apply IH|].
  apply Forall_cons. split; [done|by apply IH].
Qed.

Lemma extract_tables_paradigms lines :
  Forall paradigm (extract_tables_from_group lines).
Proof.
  unfold extract_tables_from_group.
  pose proof (scan_keeps_paradigms lines) as Hinv.
  destruct (scan lines) as [tables current].
  apply unique_tables_Forall. by apply flush_inv in Hinv as [? _].
Qed.

(** [ordered_forms] keeps the slots: it only puts them in another order. *)
Lemma ordered_first_pass (t : table) ps out :
  NoDup (Dict.keys out) →
  (∀ x, x ∈ Dict.keys out → x ∈ Dict.keys t) →
  let out' := fold_left (fun out p =>
                 match Dict.get p t with
                 | Some v => Dict.set p v out
                 | None => out
                 end) ps out in
  NoDup (Dict.keys out') ∧ (∀ x, x ∈ Dict.keys out' → x ∈ Dict.keys t).
Proof.
  revert out. induction ps as [|p ps IH]; intros out Hnd Hsub; simpl; [done|].
  cbv zeta in IH. apply IH.
  - destruct (Dict.get p t); [by apply NoDup_keys_set|done].
  - intros x. destruct (Dict.get p t) eqn:Hp; [|by apply Hsub].
    rewrite elem_of_keys_set. intros [->|Hx]; [|by apply Hsub].
    destruct (decide (p ∈ Dict.keys t)) as [|Hn]; [done|].
    apply get_None_keys in Hn. congruence.
Qed.

Lemma ordered_second_pass (l : table) out :
  NoDup (Dict.keys out) →
  let out' := fold_left (fun out kv =>
                 if Dict.mem (fst kv) out then out
                 else Dict.set (fst kv) (snd kv) out) l out in
  NoDup (Dict.keys out')
  ∧ (∀ x, x ∈ Dict.keys out' ↔ x ∈ Dict.keys out ∨ x ∈ Dict.keys l).
Proof.
  revert out. induction l as [|[k v] l IH]; intros out Hnd; simpl.
  - split; [done|]. intros x. split; [by left|]. intros [H|H]; [done|].
    by apply elem_of_nil in H.
  - destruct (Dict.mem k out) eqn:Hm.
    + destruct (IH out Hnd) as [H1 H2]. split; [done|].
      intros x. rewrite H2, elem_of_cons. apply mem_keys in Hm.
      split; [intros [?|?]; auto|]. intros [?|[->|?]]; auto.
    + destruct (IH (Dict.set k v out) (NoDup_keys_set k v out Hnd)) as [H1 H2].
      split; [done|]. intros x. rewrite H2, elem_of_keys_set, elem_of_cons.
      split; [intros [[?|?]|?]; auto|]. intros [?|[?|?]]; auto.
Qed.

Lemma ordered_forms_keys (t : table) :
  NoDup (Dict.keys t) →
  NoDup (Dict.keys (ordered_forms t))
  ∧ (∀ x, x ∈ Dict.keys (ordered_forms t) ↔ x ∈ Dict.keys t).
Proof.
  intros Hnd. unfold ordered_forms.
  destruct (ordered_first_pass t PRONOUN_ORDER []) as [H1 H2].
  { apply NoDup_nil_2. }
  { intros x Hx. by apply elem_of_nil in Hx. }
  cbv zeta in H1, H2.
  match type of H1 with NoDup (Dict.keys ?o) => set (out := o) in * end.
  destruct (ordered_second_pass t out H1) as [H3 H4]. cbv zeta in H3, H4.
  split; [exact H3|]. intros x. rewrite H4. split; [intros [?|?]; auto|auto].
Qed.

Lemma ordered_forms_paradigm (t : table) : paradigm t → paradigm (ordered_forms t).
Proof.
  intros [Hlen Hnd]. destruct (ordered_forms_keys t Hnd) as [H1 H2].
  split; [|done].
  rewrite <- length_keys in *.
  by rewrite (Permutation_length (NoDup_Permutation _ _ H1 Hnd H2)).
Qed.

Lemma slide_tables_paradigms ppt slide lines :
  Forall (fun t => paradigm (forms t)) (slide_tables ppt slide lines).
Proof.
  unfold slide_tables. destruct (_ <? 4)%nat; [apply Forall_nil_2|].
  apply Forall_forall. intros t Ht.
  apply list_elem_of_In, in_map_iff in Ht as (t0 & <- & Ht0). simpl.
  apply ordered_forms_paradigm.
  pose proof (extract_tables_paradigms (pronoun_lines lines)) as Hall.
  rewrite Forall_forall in Hall. by apply Hall, list_elem_of_In.
Qed.

(** The second group of a match is not empty, and only blanks follow it. *)
Lemma lazy_more_spec r m :
  lazy_more r = Some m → ∃ post, r = (m ++ post)%list ∧ all_space post = true.
Proof.
  revert m. induction r as [|k r IH]; intros m.
  - cbn. intros [= <-]. by exists [].
  - cbn [lazy_more]. destruct (all_space (k :: r)) eqn:Hall.
    + intros [= <-]. by exists (k :: r).
    + destruct (is_newline k); [done|].
      destruct (lazy_more r) as [m'|]; [|done]. cbn [option_map].
      intros [= <-]. destruct (IH m' eq_refl) as (post & -> & Hpost).
      by exists post.
Qed.

Lemma lazy_group_spec r g :
  lazy_group r = Some g → g ≠ [] ∧ ∃ post, r = (g ++ post)%list ∧ all_space post = true.
Proof.
  destruct r as [|k r]; [done|]. cbn [lazy_group].
  destruct (is_newline k); [done|].
  destruct (lazy_more r) as [m|] eqn:Hm; [|done]. cbn [option_map].
  intros [= <-]. split; [done|].
  destruct (lazy_more_spec r m Hm) as (post & -> & Hpost). by exists post.
Qed.

Lemma after_space_spec r g :
  after_space r = Some g →
  g ≠ [] ∧ ∃ pre post, r = (pre ++ g ++ post)%list ∧ all_space post = true.
Proof.
  assert (Hgroup : ∀ r, lazy_group r = Some g →
            g ≠ [] ∧ ∃ pre post, r = (pre ++ g ++ post)%list ∧ all_space post = true).
  { intros r' [Hg (post & -> & Hpost)]%lazy_group_spec. split; [done|].
    by exists [], post. }
  induction r as [|k r IH]; [apply Hgroup|]. cbn [after_space].
  destruct (isspace k); [|apply Hgroup].
  destruct (after_space r) as [g'|]; [|apply Hgroup].
  intros [= ->]. destruct (IH eq_refl) as [Hg (pre & post & -> & Hpost)].
  split; [done|]. by exists (k :: pre), post.
Qed.

Lemma drop_prefix_spec p s rest : drop_prefix p s = Some rest → s = p ++ rest.
Proof.
  revert s. induction p as [|a p IH]; intros s; cbn [drop_prefix].
  - by intros [= ->].
  - destruct s as [|b s]; [done|].
    destruct (Ascii.eqb_spec a b) as [->|]; [|done].
    intros H. by rewrite (IH s H).
Qed.

Lemma match_alternatives_spec alts s p rest :
  match_alternatives alts s = Some (p, rest) → s = p ++ rest.
Proof.
  induction alts as [|a alts IH]; cbn [match_alternatives]; [done|].
  destruct (drop_prefix a s) as [r|] eqn:Hd; [|exact IH].
  intros [= <- <-]. by apply drop_prefix_spec.
Qed.

(** The pronoun of a matching line is one of the alternatives of the
    pattern. *)
Lemma match_alternatives_In alts s p rest :
  match_alternatives alts s = Some (p, rest) → p ∈ alts.
Proof.
  induction alts as [|a alts IH]; simpl; [done|].
  destruct (drop_prefix a s).
  - intros [= <- _]. apply elem_of_cons. by left.
  - intros H. apply elem_of_cons. right. by apply IH.
Qed.

(** The characters of a pronoun are the first characters of the text it
    starts. *)
Lemma chars_pronoun_app p rest :
  p ∈ PRONOUN_ALTERNATIVES → chars (p ++ rest) = (chars p ++ chars rest)%list.
Proof.
  unfold PRONOUN_ALTERNATIVES. rewrite !elem_of_cons.
  intros H. repeat (destruct H as [->|H]); try by apply elem_of_nil in H.
  all: match goal with
       | |- chars (?lit ++ _) = _ =>
           let cs := eval vm_compute in (chars lit) in
           change (chars lit) with cs
       end.
  all: match goal with
       | |- chars (?lit ++ ?r) = _ =>
           let t := eval cbv [String.append] in (lit ++ r) in change (lit ++ r) with t
       end.
  all: rewrite !chars_ascii by reflexivity; reflexivity.
Qed.

Lemma RE_PRONOUN_PAIR_spec s p g :
  RE_PRONOUN_PAIR s = Some (p, g) →
  p ∈ PRONOUN_ALTERNATIVES
  ∧ ∃ pre gs post,
      chars s = (chars p ++ pre ++ gs ++ post)%list
      ∧ g = unchars gs ∧ gs ≠ [] ∧ all_space post = true.
Proof.
  unfold RE_PRONOUN_PAIR.
  destruct (match_alternatives _ s) as [[p' rest]|] eqn:Hm; [|done].
  destruct (chars rest) as [|k r] eqn:Hrest; [done|].
  destruct (isspace k); [|done].
  destruct (after_space r) as [g'|] eqn:Hg; [|done]. cbn [option_map].
  intros [= <- <-]. pose proof (match_alternatives_In _ _ _ _ Hm) as Hp.
  split; [done|]. apply match_alternatives_spec in Hm as ->.
  destruct (after_space_spec r g' Hg) as [Hne (pre & post & -> & Hpost)].
  exists (k :: pre), g', post. by rewrite chars_pronoun_app, Hrest.
Qed.

(** The form a matching line gives is not empty. *)
Lemma form_nonempty line p g :
  RE_PRONOUN_PAIR (strip line) = Some (p, g) → strip g ≠ "".
Proof.
  intros [Hp (pre & gs & post & Hs & -> & Hgs & Hpost)]%RE_PRONOUN_PAIR_spec.
  destruct (strip_last line) as (front & k & Hlast & Hk).
  { intros He. rewrite He in Hs. cbn in Hs. symmetry in Hs.
    apply app_eq_nil in Hs as [Hs _].
    apply (f_equal unchars) in Hs. rewrite unchars_chars in Hs. cbn in Hs.
    subst p. revert Hp. unfold PRONOUN_ALTERNATIVES. rewrite !elem_of_cons.
    intros H. repeat (destruct H as [H|H]; [done|]). by apply elem_of_nil in H. }
  pose proof (chars_well_cut (strip line)) as Hw. rewrite Hs in Hw, Hlast.
  destruct post as [|k0 post _] using rev_ind.
  - rewrite app_nil_r in Hlast, Hw.
    destruct gs as [|k1 gs _] using rev_ind; [done|].
    rewrite !app_assoc in Hlast. apply app_inj_tail in Hlast as [_ ->].
    apply strip_unchars_nonempty; [|done].
    apply well_cut_app in Hw as [_ Hw]. by apply well_cut_app in Hw as [_ Hw].
  - rewrite !app_assoc in Hlast. apply app_inj_tail in Hlast as [_ ->].
    apply all_blank_last in Hpost. congruence.
Qed.

Lemma get_Some_elem {V} k (v : V) (d : Dict.t V) : Dict.get k d = Some v → (k, v) ∈ d.
Proof.
  induction d as [|[k' v'] d IH]; cbn [Dict.get]; [done|].
  destruct (String.eqb_spec k k') as [->|].
  - intros [= ->]. apply elem_of_cons. by left.
  - intros H. apply elem_of_cons. right. by apply IH.
Qed.

Lemma filled_set k v (t : table) : v ≠ "" → filled t → filled (Dict.set k v t).
Proof.
  intros Hv. unfold filled. induction t as [|[k' v'] t IH]; cbn [Dict.set].
  - intros _. by apply Forall_singleton.
  - intros [Hhd Htl]%Forall_cons. destruct (String.eqb k k').
    + by apply Forall_cons.
    + apply Forall_cons. split; [done|by apply IH].
Qed.

Lemma sie_step_filled current form :
  form ≠ "" → filled current → filled (sie_step current form).
Proof.
  intros Hf H. unfold sie_step.
  repeat match goal with |- context [if ?b then _ else _] => destruct b end;
    by apply filled_set.
Qed.

Lemma line_step_filled st line :
  Forall filled (fst st) ∧ filled (snd st) →
  Forall filled (fst (line_step st line)) ∧ filled (snd (line_step st line)).
Proof.
  destruct st as [tables current]. cbn [fst snd]. intros [Ht Hc]. unfold line_step.
  destruct (RE_PRONOUN_PAIR (strip line)) as [[p g]|] eqn:Hre.
  - pose proof (form_nonempty line p g Hre) as Hform.
    destruct (negb _); cbn [fst snd]; split; try done.
    + by apply filled_set.
    + by apply sie_step_filled.
  - unfold flush. destruct (4 <=? length current)%nat; cbn [fst snd];
      split; try done; try apply Forall_nil_2.
    apply Forall_app. split; [done|]. by apply Forall_singleton.
Qed.

Lemma fold_line_step_filled lines st :
  Forall filled (fst st) ∧ filled (snd st) →
  Forall filled (fst (fold_left line_step lines st))
  ∧ filled (snd (fold_left line_step lines st)).
Proof.
  revert st. induction lines as [|line lines IH]; intros st Hst; cbn [fold_left]; [done|].
  apply IH. by apply line_step_filled.
Qed.

Lemma extract_tables_filled lines : Forall filled (extract_tables_from_group lines).
Proof.
  unfold extract_tables_from_group.
  destruct (fold_line_step_filled lines ([], [])) as [Ht Hc].
  { split; cbn [fst snd]; apply Forall_nil_2. }
  fold (scan lines) in Ht, Hc. destruct (scan lines) as [tables current].
  cbn [fst snd] in Ht, Hc. apply unique_tables_Forall. unfold flush.
  destruct (4 <=? length current)%nat; cbn [fst]; [|done].
  apply Forall_app. split; [done|]. by apply Forall_singleton.
Qed.

Lemma ordered_forms_filled (t : table) : filled t → filled (ordered_forms t).
Proof.
  intros Ht. unfold ordered_forms.
  assert (Hval : ∀ k v, (k, v) ∈ t → v ≠ "").
  { intros k v Hin. unfold filled in Ht. rewrite Forall_forall in Ht.
    exact (Ht (k, v) Hin). }
  assert (H1 : ∀ ps out, filled out →
            filled (fold_left (fun out p =>
                      match Dict.get p t with
                      | Some v => Dict.set p v out
                      | None => out
                      end) ps out)).
  { induction ps as [|p ps IH]; intros out Hout; cbn [fold_left]; [done|].
    apply IH. destruct (Dict.get p t) as [v|] eqn:Hp; [|done].
    apply filled_set; [|done]. eapply Hval. by apply get_Some_elem. }
  assert (H2 : ∀ (l : table) out, (∀ k v, (k, v) ∈ l → v ≠ "") → filled out →
            filled (fold_left (fun out kv =>
                      if Dict.mem (fst kv) out then out
                      else Dict.set (fst kv) (snd kv) out) l out)).
  { induction l as [|[k v] l IH]; intros out Hl Hout; cbn [fold_left]; [done|].
    apply IH.
    - intros k' v' Hin. eapply Hl. apply elem_of_cons. by right.
    - cbn [fst snd]. destruct (Dict.mem k out); [done|].
      apply filled_set; [|done]. apply (Hl k v). apply elem_of_cons. by left. }
  apply H2; [done|]. apply H1. apply Forall_nil_2.
Qed.

(** C5. Every table the extractor puts out, for any grouped line sequences,
    has at least four pronoun slots, all distinct, each holding a form that
    is not empty; so has every table the clustering function returns: a slot
    map with fewer than four slots is never kept. *)
Theorem C5_minimum_slot_invariant :
  (∀ lines : list string,
     Forall (fun t => paradigm t ∧ filled t) (extract_tables_from_group lines))
  ∧ (∀ grouped : list ((string * string) * list string),
       Forall (fun t => (4 <= length (forms t))%nat
                        ∧ NoDup (Dict.keys (forms t))
                        ∧ filled (forms t))
              (main_tables grouped)).
Proof.
  split.
  { intros lines. apply Forall_and. split;
      [apply extract_tables_paradigms|apply extract_tables_filled]. }
  intros grouped. unfold main_tables. apply Forall_forall. intros t Ht.
  apply list_elem_of_In, in_flat_map in Ht as (g & _ & Ht).
  pose proof (slide_tables_paradigms (fst (fst g)) (snd (fst g)) (snd g)) as Hall.
  rewrite Forall_forall in Hall. destruct (Hall t (proj2 (list_elem_of_In _ _) Ht)) as [? ?].
  split; [done|]. split; [done|].
  unfold slide_tables in Ht. destruct (_ <? 4)%nat; [done|].
  apply in_map_iff in Ht as (t0 & <- & Ht0). cbn [forms].
  apply ordered_forms_filled.
  pose proof (extract_tables_filled (pronoun_lines (snd g))) as Hfilled.
  rewrite Forall_forall in Hfilled. by apply Hfilled, list_elem_of_In.
Qed.

Lemma line_step_plain tables current line p g :
  RE_PRONOUN_PAIR (strip line) = Some (p, g) →
  normalize_pronoun p ≠ "sie" →
  line_step (tables, current) line
  = (tables, Dict.set (normalize_pronoun p) (strip g) current).
Proof.
  intros Hre Hp. unfold line_step. rewrite Hre.
  by destruct (String.eqb_spec (normalize_pronoun p) "sie").
Qed.

Lemma line_step_no_match tables current line :
  RE_PRONOUN_PAIR (strip line) = None →
  line_step (tables, current) line = flush tables current.
Proof. intros Hre. unfold line_step. by rewrite Hre. Qed.

(** C2, as the extractor does it. A line with a pronoun other than [sie]
    writes its form into that pronoun's slot whether the slot is filled or
    not: the tables kept so far stay as they are (no flush), the slot holds
    the new form, every other slot keeps its form, and a filled slot keeps its
    place in the map. *)
Theorem C2_repeated_pronoun_overwrites_slot
    (tables : list table) (current : table) (line p g : string) :
  RE_PRONOUN_PAIR (strip line) = Some (p, g) →
  normalize_pronoun p ≠ "sie" →
  fst (line_step (tables, current) line) = tables
  ∧ Dict.get (normalize_pronoun p) (snd (line_step (tables, current) line))
    = Some (strip g)
  ∧ (∀ q, q ≠ normalize_pronoun p →
       Dict.get q (snd (line_step (tables, current) line)) = Dict.get q current)
  ∧ (Dict.mem (normalize_pronoun p) current = true →
       Dict.keys (snd (line_step (tables, current) line)) = Dict.keys current).
Proof.
  intros Hre Hp. rewrite (line_step_plain _ _ _ _ _ Hre Hp). cbn [fst snd].
  split; [done|]. split; [apply get_set_eq|]. split.
  - intros q Hq. apply get_set_ne. congruence.
  - apply keys_set_mem.
Qed.

Lemma C2_repeated_pronoun_overwrites_slot_witness :
  RE_PRONOUN_PAIR (strip "ich laufe") = Some ("ich", "laufe")
  ∧ fst (line_step ([], gehen_four) "ich laufe") = []
  ∧ Dict.get "ich" (snd (line_step ([], gehen_four) "ich laufe")) = Some "laufe".
Proof.
  split; [reflexivity|].
  destruct (C2_repeated_pronoun_overwrites_slot [] gehen_four "ich laufe" "ich" "laufe")
    as (H1 & H2 & _).
  - reflexivity.
  - vm_compute. discriminate.
  - split; [exact H1|exact H2].
Defined.

(** C2, as the specification words it, fails: with four slots filled, the
    line [ich laufe] retains no table and leaves the other three slots in the
    map. *)
Lemma C2_no_flush_on_repeated_pronoun : ¬ repeat_starts_new_cluster.
Proof.
  intros H.
  destruct (H [] gehen_four "ich laufe" "ich" "laufe") as [Hflush _].
  - reflexivity.
  - vm_compute. discriminate.
  - reflexivity.
  - vm_compute in Hflush. discriminate.
Qed.

(** A line that passes the filter is one the clustering loop matches. *)
Lemma pronoun_line_matches ln :
  looks_like_pronoun_line ln = true → RE_PRONOUN_PAIR (strip ln) ≠ None.
Proof. unfold looks_like_pronoun_line. by destruct (RE_PRONOUN_PAIR (strip ln)). Qed.

Lemma line_step_match tables current line :
  RE_PRONOUN_PAIR (strip line) ≠ None →
  line_step (tables, current) line = (tables, slot_step current line).
Proof.
  intros Hre. unfold slot_step, line_step.
  destruct (RE_PRONOUN_PAIR (strip line)) as [[p g]|]; [|done].
  by destruct (negb _).
Qed.

Lemma fold_matching_lines lines tables current :
  Forall (fun ln => RE_PRONOUN_PAIR (strip ln) ≠ None) lines →
  fold_left line_step lines (tables, current)
  = (tables, fold_left slot_step lines current).
Proof.
  revert current. induction lines as [|ln lines IH]; intros current Hall;
    cbn [fold_left]; [done|].
  apply Forall_cons in Hall as [Hln Hall].
  rewrite line_step_match by done. by apply IH.
Qed.

Lemma pronoun_lines_match lines :
  Forall (fun ln => RE_PRONOUN_PAIR (strip ln) ≠ None) (pronoun_lines lines).
Proof.
  apply Forall_forall. intros ln Hln. apply pronoun_line_matches.
  unfold pronoun_lines in Hln. by apply list_elem_of_filter in Hln as [? _].
Qed.

Lemma pronoun_lines_skip a b x :
  looks_like_pronoun_line x = false → pronoun_lines (a ++ x :: b) = pronoun_lines (a ++ b).
Proof.
  intros Hx. unfold pronoun_lines. rewrite !filter_app, filter_cons.
  destruct (decide (looks_like_pronoun_line x = true)); [congruence|done].
Qed.

(** C10. In the pipeline the lines of a slide are filtered to those that
    match the pronoun pattern and a slide with fewer than four of them gives
    no table; every line the clustering function then receives matches, so
    the scan never flushes and all the lines of the slide fill one slot map:
    a line that does not match changes nothing, where the clustering function
    alone would cut the run in two. *)
Theorem C10_pipeline_filters_before_clustering (ppt slide : string) (lines : list string) :
  (∀ ln, ln ∈ pronoun_lines lines ↔ looks_like_pronoun_line ln = true ∧ ln ∈ lines)
  ∧ Forall (fun ln => RE_PRONOUN_PAIR (strip ln) ≠ None) (pronoun_lines lines)
  ∧ ((length (pronoun_lines lines) < 4)%nat → slide_tables ppt slide lines = [])
  ∧ scan (pronoun_lines lines) = ([], slots_of (pronoun_lines lines))
  ∧ extract_tables_from_group (pronoun_lines lines)
    = (if (4 <=? length (slots_of (pronoun_lines lines)))%nat
       then [slots_of (pronoun_lines lines)] else [])
  ∧ (∀ a b x, lines = (a ++ x :: b)%list → looks_like_pronoun_line x = false →
       slide_tables ppt slide lines = slide_tables ppt slide (a ++ b))
  ∧ extract_tables_from_group ["ich gehe"; "du gehst"; "Verb"; "er geht"; "wir gehen"] = []
  ∧ map forms (slide_tables ppt slide ["ich gehe"; "du gehst"; "Verb"; "er geht"; "wir gehen"])
    = [gehen_four].
Proof.
  assert (Hscan : scan (pronoun_lines lines) = ([], slots_of (pronoun_lines lines))).
  { unfold scan, slots_of. apply fold_matching_lines, pronoun_lines_match. }
  split.
  { intros ln.
    exact (list_elem_of_filter (fun ln => looks_like_pronoun_line ln = true) lines ln). }
  split; [apply pronoun_lines_match|]. split.
  { intros Hlt. unfold slide_tables. apply Nat.ltb_lt in Hlt. by rewrite Hlt. }
  split; [exact Hscan|]. split.
  { unfold extract_tables_from_group. rewrite Hscan. unfold flush.
    destruct (4 <=? _)%nat; cbn [fst]; [|done].
    cbn [app unique_tables existsb]. done. }
  split.
  { intros a b x -> Hx. unfold slide_tables. by rewrite pronoun_lines_skip. }
  split; reflexivity.
Qed.

Lemma RE_PRONOUN_PAIR_pronoun s p g :
  RE_PRONOUN_PAIR s = Some (p, g) → p ∈ PRONOUN_ALTERNATIVES.
Proof. by intros [? _]%RE_PRONOUN_PAIR_spec. Qed.

Lemma normalize_pronoun_slot p :
  p ∈ PRONOUN_ALTERNATIVES →
  normalize_pronoun p ≠ "sie_sg" ∧ normalize_pronoun p ≠ "sie_pl".
Proof.
  unfold PRONOUN_ALTERNATIVES. rewrite !elem_of_cons.
  intros H.
  repeat (destruct H as [->|H]); [split; vm_compute; discriminate..|].
  by apply elem_of_nil in H.
Qed.

Lemma sie_step_cases current form :
  (Dict.get "sie_sg" current = None ∧ singular_like current form →
     sie_step current form = Dict.set "sie_sg" form current)
  ∧ (¬ (Dict.get "sie_sg" current = None ∧ singular_like current form) →
     sie_step current form = Dict.set "sie_pl" form current).
Proof.
  assert (Hpl : ∀ b : bool,
            (if b then Dict.set "sie_pl" form current
             else Dict.set "sie_pl" form current) = Dict.set "sie_pl" form current).
  { by intros []. }
  unfold sie_step, singular_like, Dict.mem, nonempty.
  destruct (Dict.get "sie_sg" current) as [sg|] eqn:Hsg; cbn [negb andb].
  { split; [intros [? _]; done|]. intros _. apply Hpl. }
  destruct (Dict.get "er" current) as [er|] eqn:Her; cbn [from_option id].
  - destruct (String.eqb_spec (lower (strip er)) "") as [He|He];
      destruct (String.eqb_spec (lower form) (lower (strip er))) as [Heq|Hneq];
      destruct (endswith (lower form) "t") eqn:Ht; cbn [negb andb orb];
      rewrite ?Hpl;
      (split; [first [done | intros [_ [(er' & [= <-] & ? & ?)|?]]; done]
              |first [done | intros Hn; exfalso; apply Hn; split; [done|];
                             first [by right | left; by exists er]]]).
  - change (lower (strip "")) with "". rewrite String.eqb_refl.
    destruct (endswith (lower form) "t") eqn:Ht; cbn [negb andb orb]; rewrite ?Hpl.
    + split; [done|]. intros Hn. exfalso. apply Hn. split; [done|by right].
    + split; [|done]. intros [_ [(er' & ? & _)|?]]; done.
Qed.

Lemma line_step_sie tables current line p g :
  RE_PRONOUN_PAIR (strip line) = Some (p, g) →
  normalize_pronoun p = "sie" →
  line_step (tables, current) line = (tables, sie_step current (strip g)).
Proof. intros Hre Hp. unfold line_step. by rewrite Hre, Hp. Qed.

Lemma plain_lines_keep_sie lines tables current :
  Forall plain_line lines → er_settled current →
  ∃ current',
    fold_left line_step lines (tables, current) = (tables, current')
    ∧ er_settled current'
    ∧ Dict.get "sie_sg" current' = Dict.get "sie_sg" current
    ∧ Dict.get "sie_pl" current' = Dict.get "sie_pl" current.
Proof.
  revert current. induction lines as [|ln lines IH]; intros current Hall Her;
    cbn [fold_left].
  { by exists current. }
  apply Forall_cons in Hall as [(p & g & Hre & Hp & Hsp) Hall].
  rewrite (line_step_plain _ _ _ _ _ Hre Hp).
  destruct (normalize_pronoun_slot p (RE_PRONOUN_PAIR_pronoun _ _ _ Hre)) as [Hsg Hpl].
  destruct (IH (Dict.set (normalize_pronoun p) (strip g) current) Hall)
    as (current' & Hfold & Her' & Hsg' & Hpl').
  { unfold er_settled.
    destruct (decide (normalize_pronoun p = "er")) as [Heq|Hne].
    - rewrite Heq, get_set_eq. cbn [from_option id]. by apply Hsp.
    - by rewrite get_set_ne. }
  exists current'. split; [done|]. split; [done|].
  rewrite Hsg', Hpl', !get_set_ne by done. done.
Qed.

(** What the two lines of the example do to a map. *)
Lemma sie_spricht_step tables current :
  Dict.get "sie_sg" current = None →
  line_step (tables, current) "sie spricht"
  = (tables, Dict.set "sie_sg" "spricht" current).
Proof.
  intros Hsg. rewrite (line_step_sie _ _ _ "sie" "spricht") by reflexivity.
  change (strip "spricht") with "spricht".
  destruct (sie_step_cases current "spricht") as [H _].
  rewrite H; [done|]. split; [done|]. by right.
Qed.

Lemma sie_sprechen_step tables current :
  er_settled current →
  line_step (tables, current) "sie sprechen"
  = (tables, Dict.set "sie_pl" "sprechen" current).
Proof.
  intros Her. rewrite (line_step_sie _ _ _ "sie" "sprechen") by reflexivity.
  change (strip "sprechen") with "sprechen".
  destruct (sie_step_cases current "sprechen") as [_ H].
  rewrite H; [done|].
  intros [_ [(er & Hget & _ & Heq)|Ht]]; [|done].
  unfold er_settled in Her. rewrite Hget in Her. cbn [from_option id] in Her.
  apply Her. by rewrite <- Heq.
Qed.

Lemma er_settled_set k v current :
  k ≠ "er" → er_settled current → er_settled (Dict.set k v current).
Proof. intros Hk. unfold er_settled. by rewrite get_set_ne. Qed.

Lemma example_sie_slots A B C x y :
  Forall plain_line A → Forall plain_line B → Forall plain_line C →
  (x = "sie spricht" ∧ y = "sie sprechen") ∨ (x = "sie sprechen" ∧ y = "sie spricht") →
  ∃ current,
    scan (A ++ x :: B ++ y :: C) = ([], current)
    ∧ Dict.get "sie_sg" current = Some "spricht"
    ∧ Dict.get "sie_pl" current = Some "sprechen".
Proof.
  intros HA HB HC Hxy. unfold scan.
  destruct (plain_lines_keep_sie A [] [] HA) as (c1 & H1 & He1 & Hs1 & Hp1).
  { vm_compute. discriminate. }
  rewrite fold_left_app. rewrite H1. cbn [fold_left]. cbn [Dict.get] in Hs1, Hp1.
  destruct Hxy as [[-> ->]|[-> ->]].
  - rewrite sie_spricht_step by done.
    destruct (plain_lines_keep_sie B [] (Dict.set "sie_sg" "spricht" c1) HB)
      as (c2 & H2 & He2 & Hs2 & Hp2).
    { by apply er_settled_set. }
    rewrite fold_left_app. rewrite H2. cbn [fold_left].
    rewrite sie_sprechen_step by done.
    destruct (plain_lines_keep_sie C [] (Dict.set "sie_pl" "sprechen" c2) HC)
      as (c3 & H3 & He3 & Hs3 & Hp3).
    { by apply er_settled_set. }
    exists c3. split; [done|].
    rewrite Hs3, Hp3, get_set_eq, get_set_ne, Hs2, get_set_eq by done. done.
  - rewrite sie_sprechen_step by done.
    destruct (plain_lines_keep_sie B [] (Dict.set "sie_pl" "sprechen" c1) HB)
      as (c2 & H2 & He2 & Hs2 & Hp2).
    { by apply er_settled_set. }
    rewrite fold_left_app. rewrite H2. cbn [fold_left].
    rewrite sie_spricht_step by (by rewrite Hs2, get_set_ne).
    destruct (plain_lines_keep_sie C [] (Dict.set "sie_sg" "spricht" c2) HC)
      as (c3 & H3 & He3 & Hs3 & Hp3).
    { by apply er_settled_set. }
    exists c3. split; [done|].
    rewrite Hs3, Hp3, get_set_eq, get_set_ne, Hp2, get_set_eq by done. done.
Qed.

(** C4, as the extractor does it. For a line with the pronoun [sie]: when
    the slot [sie_sg] is empty and the lowercased form either is the form
    stored for [er] once that is lowercased too, or ends in [t], the form goes
    to [sie_sg]; in every other case it goes to [sie_pl], filled or not. So a
    group of matching lines in which [sie spricht] and [sie sprechen] are the
    two lines with [sie], in either order, and no line stores [sprechen] for
    [er] (the line [er spricht] may stand anywhere) ends with [sie_sg] holding
    [spricht] and [sie_pl] holding [sprechen]. *)
Theorem C4_sie_goes_to_singular_or_plural :
  (∀ (tables : list table) (current : table) (line p g : string),
     RE_PRONOUN_PAIR (strip line) = Some (p, g) →
     normalize_pronoun p = "sie" →
     (Dict.get "sie_sg" current = None ∧ singular_like current (strip g) →
        line_step (tables, current) line
        = (tables, Dict.set "sie_sg" (strip g) current))
     ∧ (¬ (Dict.get "sie_sg" current = None ∧ singular_like current (strip g)) →
        line_step (tables, current) line
        = (tables, Dict.set "sie_pl" (strip g) current)))
  ∧ (∀ (A B C : list string) (x y : string),
       Forall plain_line A → Forall plain_line B → Forall plain_line C →
       (x = "sie spricht" ∧ y = "sie sprechen")
       ∨ (x = "sie sprechen" ∧ y = "sie spricht") →
       ∃ current,
         scan (A ++ x :: B ++ y :: C) = ([], current)
         ∧ Dict.get "sie_sg" current = Some "spricht"
         ∧ Dict.get "sie_pl" current = Some "sprechen").
Proof.
  split; [|exact example_sie_slots].
  intros tables current line p g Hre Hp.
  rewrite (line_step_sie _ _ _ _ _ Hre Hp).
  destruct (sie_step_cases current (strip g)) as [H1 H2].
  split; intros H; f_equal; auto.
Qed.

Lemma C4_sie_goes_to_singular_or_plural_witness :
  ∃ current,
    scan ["er spricht"; "sie sprechen"; "ich spreche"; "sie spricht"; "wir sprechen"]
    = ([], current)
    ∧ Dict.get "sie_sg" current = Some "spricht"
    ∧ Dict.get "sie_pl" current = Some "sprechen".
Proof.
  apply (proj2 C4_sie_goes_to_singular_or_plural
           ["er spricht"] ["ich spreche"] ["wir sprechen"] "sie sprechen" "sie spricht").
  - apply Forall_singleton. exists "er", "spricht".
    split; [reflexivity|]. split; vm_compute; discriminate.
  - apply Forall_singleton. exists "ich", "spreche".
    split; [reflexivity|]. split; vm_compute; discriminate.
  - apply Forall_singleton. exists "wir", "sprechen".
    split; [reflexivity|]. split; vm_compute; discriminate.
  - right. split; reflexivity.
Defined.

(** C4, as the specification words it, fails: the form stored for [er] is
    lowercased before the comparison. With [Kann] stored for [er], the line
    [sie kann] fills [sie_sg], though [kann] is not [Kann] and does not end in
    [t]. *)
Lemma C4_stored_er_form_compared_lowercased : ¬ sie_rule_as_stated.
Proof.
  intros H.
  destruct (H [] [("er", "Kann")] "sie kann" "sie" "kann" eq_refl eq_refl) as [_ Hpl].
  assert (Hstep : line_step ([], [("er", "Kann")]) "sie kann"
                  = ([], [("er", "Kann"); ("sie_sg", "kann")])) by reflexivity.
  rewrite Hstep in Hpl.
  assert (Hno : ¬ (Dict.get "sie_sg" [("er", "Kann")] = None
                   ∧ singular_as_stated [("er", "Kann")] (strip "kann"))).
  { intros [_ [Heq|Ht]]; [vm_compute in Heq|vm_compute in Ht]; discriminate. }
  specialize (Hpl Hno). vm_compute in Hpl. discriminate.
Qed.

End ExtractorFacts.

(** ** Identifiers and the index builder *)
Module IndexBuilderFacts.
Import Py Yaml LexId Process IndexBuilder IndexNotions Samples DictFacts.

(** The loop over the files ends early only with code 2 or an exception. *)
Lemma files_loop_outcome files_data st :
  fst (files_loop files_data st) = None
  ∨ fst (files_loop files_data st) = Some (Return 2)
  ∨ fst (files_loop files_data st) = Some Raise.
Proof.
  revert st. induction files_data as [|[fname data] rest IH]; intros st;
    cbn [files_loop]; [by left|].
  destruct (as_str _) as [label|]; [|by right; right].
  destruct (negb _); [by right; left|].
  destruct (default _ _); try (by right; left).
  destruct (items_loop _ _ _) as [ist|]; [|by right; right].
  apply IH.
Qed.

(** What the loop writes: backups and dumps of the files it runs over. *)
Lemma files_loop_effects files_data st :
  ∃ extra,
    run_effects (snd (files_loop files_data st)) = (run_effects st ++ extra)%list
    ∧ Forall (fun e => effect_path e ∈ partition_paths files_data) extra.
Proof.
  revert st. induction files_data as [|[fname data] rest IH]; intros st;
    cbn [files_loop].
  { exists []. split; [by rewrite app_nil_r|apply Forall_nil_2]. }
  assert (Hstop : ∀ o : option outcome, ∃ extra,
            run_effects (snd (o, st)) = (run_effects st ++ extra)%list
            ∧ Forall (fun e => effect_path e ∈ partition_paths ((fname, data) :: rest))
                     extra).
  { intros o. exists []. split; [by rewrite app_nil_r|apply Forall_nil_2]. }
  destruct (as_str _) as [label|]; [|apply Hstop].
  destruct (negb _); [apply Hstop|].
  destruct (default _ _); try apply Hstop.
  destruct (items_loop _ _ _) as [ist|]; [|apply Hstop].
  match goal with |- context [files_loop rest ?s] => destruct (IH s) as (extra & Heq & Hall) end.
  assert (Hweak : Forall (fun e => effect_path e ∈ partition_paths ((fname, data) :: rest))
                         extra).
  { eapply Forall_impl; [exact Hall|]. intros e He. unfold partition_paths.
    cbn [map]. apply elem_of_cons. by right. }
  destruct (file_changed ist); cbn [run_effects] in Heq.
  - exists ([Backup (path_of fname);
             Dump (path_of fname) (Dict.set "items" (YList (items_done ist)) data)]
            ++ extra)%list.
    split; [by rewrite Heq, <- app_assoc|].
    apply Forall_app. split; [|done].
    repeat apply Forall_cons_2; try apply Forall_nil_2;
      unfold partition_paths; cbn [map effect_path fst]; apply elem_of_cons; by left.
  - by exists extra.
Qed.

Lemma files_loop_app pre rest st :
  files_loop (pre ++ rest) st
  = match files_loop pre st with
    | (Some out, st') => (Some out, st')
    | (None, st') => files_loop rest st'
    end.
Proof.
  revert st. induction pre as [|[fname data] pre IH]; intros st;
    cbn [files_loop app]; [done|].
  destruct (as_str _) as [label|]; [|done].
  destruct (negb _); [done|].
  destruct (default _ _); try done.
  destruct (items_loop _ _ _) as [ist|]; [|done].
  apply IH.
Qed.

(** An offending partition stops the loop where it stands. *)
Lemma files_loop_offending fname data post st :
  offending data →
  files_loop ((fname, data) :: post) st = (Some (Return 2), st)
  ∨ files_loop ((fname, data) :: post) st = (Some Raise, st).
Proof.
  intros [Hcat|(v & Hitems & Hv)]; cbn [files_loop].
  - unfold missing_category in Hcat. rewrite Hcat. cbn. by left.
  - rewrite Hitems. cbn [default from_option id].
    destruct (as_str _) as [label|]; [|by right].
    destruct (negb _); [by left|].
    by destruct v; try (by left).
Qed.

Lemma files_loop_offending_typed fname data post st :
  offending data → label_is_text data = true →
  files_loop ((fname, data) :: post) st = (Some (Return 2), st).
Proof.
  intros Hoff Hlabel. cbn [files_loop]. unfold label_is_text in Hlabel.
  destruct (Dict.get "category" data) as [v|] eqn:Hc; [|done].
  destruct v; try discriminate. cbn [default from_option id as_str].
  destruct (negb _); [done|].
  destruct Hoff as [Hm|(v & Hitems & Hv)].
  - unfold missing_category in Hm. congruence.
  - rewrite Hitems. cbn [from_option id]. by destruct v.
Qed.

(** With texts where the schema wants them, no item raises. *)
Lemma text_of_set_lex_id v fields : text_of (Dict.set "lex_id" v fields) = text_of fields.
Proof. unfold text_of. by rewrite get_set_ne. Qed.

Lemma str_or_empty_str s : str_or_empty (YStr s) = Some s.
Proof. by destruct s. Qed.

Lemma build_index_entry_typed category fields lex_id s :
  Dict.get "lex_id" fields = Some lex_id → text_of fields = YStr s →
  ∃ entry, build_index_entry category fields = Some entry.
Proof.
  intros Hid Htext. unfold build_index_entry.
  rewrite Hid, Htext, str_or_empty_str. cbn [as_str mbind option_bind].
  destruct (is_category category "noun"), (is_category category "verb");
    cbn [mbind option_bind];
    try destruct (parse_noun_text s) as [art core]; cbn [mbind option_bind]; eauto.
Qed.

Lemma item_step_typed category st item :
  text_is_string item = true → ∃ st', item_step category st item = Some st'.
Proof.
  intros Htyped. destruct item; cbn [item_step]; eauto.
  assert (∃ s, text_of fields = YStr s) as [s Htext].
  { unfold text_of. cbn [text_is_string] in Htyped.
    destruct (Dict.get "text" fields) as [[]|]; try discriminate; eauto. }
  destruct (existing_lex_id fields) as [stripped|].
  - cbn [mbind option_bind].
    destruct (build_index_entry_typed category
                (Dict.set "lex_id" (YStr stripped) fields) (YStr stripped) s)
      as [entry ->]; [apply get_set_eq|by rewrite text_of_set_lex_id|].
    cbn [mbind option_bind]. eauto.
  - rewrite Htext, str_or_empty_str. cbn [mbind option_bind].
    destruct (ensure_unique_id _ _) as [final_id used'].
    cbn [mbind option_bind].
    destruct (build_index_entry_typed category
                (Dict.set "lex_id" (YStr final_id) fields) (YStr final_id) s)
      as [entry ->]; [apply get_set_eq|by rewrite text_of_set_lex_id|].
    cbn [mbind option_bind]. eauto.
Qed.

Lemma items_loop_typed category items st :
  forallb text_is_string items = true →
  ∃ st', items_loop category items st = Some st'.
Proof.
  revert st. induction items as [|item items IH]; intros st Hall; cbn [items_loop]; eauto.
  cbn [forallb] in Hall. apply andb_prop in Hall as [Hitem Hall].
  destruct (item_step_typed category st item Hitem) as [st' ->]. by apply IH.
Qed.

Lemma files_loop_typed files_data st :
  Forall (fun fd => well_typed fd = true) files_data →
  fst (files_loop files_data st) ≠ Some Raise.
Proof.
  revert st. induction files_data as [|[fname data] rest IH]; intros st Hall;
    cbn [files_loop]; [done|].
  apply Forall_cons in Hall as [Hfd Hall]. unfold well_typed in Hfd.
  cbn [snd] in Hfd. apply andb_prop in Hfd as [Hlabel Hitems].
  unfold label_is_text in Hlabel.
  destruct (Dict.get "category" data) as [[]|]; try discriminate;
    cbn [default from_option id as_str].
  all: destruct (negb _); [done|].
  all: destruct (Dict.get "items" data) as [[]|]; cbn [from_option id]; try done.
  all: try (destruct (items_loop_typed (strip s) items
                        (ItemsState [] (run_used st) (run_index st) false) Hitems)
              as [ist ->]; by apply IH).
  all: try (destruct (items_loop_typed (strip "") items
                        (ItemsState [] (run_used st) (run_index st) false) Hitems)
              as [ist ->]; by apply IH).
  all: by apply IH.
Qed.

(** The partitions a run loads are managed files, each once. *)
Lemma load_managed_names names files files_data :
  load_managed names files = Some files_data →
  sublist (map fst files_data) names.
Proof.
  revert files_data. induction names as [|fname names IH]; intros files_data;
    cbn [load_managed].
  { intros [= <-]. constructor. }
  destruct (Dict.get fname files) as [v|].
  - destruct (load_yaml v) as [data|]; cbn [mbind option_bind]; [|done].
    destruct (load_managed names files) as [others|]; cbn [mbind option_bind]; [|done].
    intros [= <-]. cbn [map fst]. apply sublist_skip. by apply IH.
  - intros H. apply sublist_cons. by apply IH.
Qed.

Lemma append_inv_head (p a b : string) : p ++ a = p ++ b → a = b.
Proof. induction p as [|c p IH]; cbn [String.append]; [done|]. intros [= H]. by apply IH. Qed.

Lemma path_of_inj a b : path_of a = path_of b → a = b.
Proof. unfold path_of. intros H. by do 2 apply append_inv_head in H. Qed.

Lemma index_path_not_managed fname : fname ∈ MANAGED_FILES → path_of fname ≠ INDEX_PATH.
Proof.
  unfold MANAGED_FILES. rewrite !elem_of_cons.
  intros H. repeat (destruct H as [->|H]); try (vm_compute; discriminate).
  by apply elem_of_nil in H.
Qed.

Lemma written_index_None effs :
  Forall (fun e => effect_path e ≠ INDEX_PATH) effs → written_index effs = None.
Proof.
  intros Hall. unfold written_index. apply last_None.
  induction effs as [|e effs IH]; [done|].
  apply Forall_cons in Hall as [He Hall].
  destruct e as [path|path data]; cbn -[INDEX_PATH String.eqb]; [by apply IH|].
  cbn [effect_path] in He.
  destruct (String.eqb_spec path INDEX_PATH); [done|by apply IH].
Qed.


Lemma files_loop_stops pre fname data post st :
  offending data →
  ∃ out st',
    files_loop (pre ++ (fname, data) :: post) st = (Some out, st')
    ∧ (out = Return 2 ∨ out = Raise)
    ∧ (∃ extra, run_effects st' = (run_effects st ++ extra)%list
                ∧ Forall (fun e => effect_path e ∈ partition_paths pre) extra)
    ∧ (Forall (fun fd => well_typed fd = true) pre → label_is_text data = true →
       out = Return 2).
Proof.
  intros Hoff. rewrite files_loop_app.
  pose proof (files_loop_outcome pre st) as Hout.
  pose proof (files_loop_effects pre st) as Heff.
  pose proof (files_loop_typed pre st) as Htyped.
  destruct (files_loop pre st) as [[out|] st']; cbn [fst snd] in *.
  - exists out, st'. split; [done|].
    destruct Hout as [?|[[= ->]|[= ->]]]; [done| |].
    + split; [by left|]. split; [done|]. done.
    + split; [by right|]. split; [done|]. intros Hall _. by destruct (Htyped Hall).
  - destruct (files_loop_offending fname data post st' Hoff) as [Hstep|Hstep].
    + exists (Return 2), st'. split; [done|]. split; [by left|]. split; done.
    + exists Raise, st'. split; [done|]. split; [by right|]. split; [done|].
      intros _ Hlabel.
      rewrite (files_loop_offending_typed fname data post st' Hoff Hlabel) in Hstep.
      by injection Hstep.
Qed.

Lemma managed_files_NoDup : NoDup MANAGED_FILES.
Proof. apply (bool_decide_unpack (NoDup MANAGED_FILES)). by vm_compute. Qed.

(** C3, as the index builder does it. When a managed partition has no
    [category] or an [items] field that is not a list, the run does not end
    with code 0: it ends with code 2, or with an exception when a label or a
    text before that point is not a text; the index document is not written,
    and neither that partition nor a later one is written. Only partitions
    that come before it in the managed order may have been written back. *)
Theorem C3_offending_partition_stops_run
    (w : world) (pre post : list (string * Dict.t yaml))
    (fname : string) (data : Dict.t yaml) :
  lexicon_dir_exists w = true →
  load_managed MANAGED_FILES (lexicon_files w) = Some (pre ++ (fname, data) :: post)%list →
  offending data →
  (fst (main w) = Return 2 ∨ fst (main w) = Raise)
  ∧ exit_status (fst (main w)) ≠ 0%Z
  ∧ written_index (snd (main w)) = None
  ∧ Forall (fun e => effect_path e ∈ partition_paths pre) (snd (main w))
  ∧ (∀ fd, fd ∈ (fname, data) :: post →
       path_of (fst fd) ∉ map effect_path (snd (main w)))
  ∧ (Forall (fun fd => well_typed fd = true) pre → label_is_text data = true →
     fst (main w) = Return 2).
Proof.
  intros Hdir Hload Hoff.
  pose proof (load_managed_names _ _ _ Hload) as Hsub.
  assert (Hnd : NoDup (map fst (pre ++ (fname, data) :: post))).
  { exact (sublist_NoDup _ _ managed_files_NoDup Hsub). }
  set (st0 := RunState
                (seed_used (collect_all_existing_ids (pre ++ (fname, data) :: post)))
                [] [] []).
  destruct (files_loop_stops pre fname data post st0 Hoff)
    as (out & st' & Hloop & Hout & (extra & Heff & Hpaths) & Htyped).
  assert (Hmain : main w = (out, run_effects st')).
  { unfold main. rewrite Hdir, Hload. cbn [negb].
    destruct (pre ++ (fname, data) :: post)%list as [|fd files] eqn:Hfiles.
    { by destruct pre. }
    fold st0. by rewrite Hloop. }
  rewrite Hmain. cbn [fst snd]. cbn [run_effects st0 app] in Heff. rewrite Heff.
  assert (Hpre : ∀ e, e ∈ extra → ∃ f, f ∈ map fst pre ∧ effect_path e = path_of f).
  { intros e He. rewrite Forall_forall in Hpaths. specialize (Hpaths e He).
    unfold partition_paths in Hpaths.
    apply list_elem_of_In, in_map_iff in Hpaths as (fd & Hfd & Hin).
    exists (fst fd). split; [|done]. apply list_elem_of_In, in_map. done. }
  split; [done|]. split; [by destruct Hout as [->| ->]|].
  split.
  { apply written_index_None, Forall_forall. intros e He.
    destruct (Hpre e He) as (f & Hf & ->). apply index_path_not_managed.
    eapply elem_of_sublist; [|exact Hsub].
    rewrite map_app. apply elem_of_app. by left. }
  split; [done|]. split; [|done].
  intros fd Hfd Hin.
  apply list_elem_of_In, in_map_iff in Hin as (e & He & Hin).
  apply list_elem_of_In in Hin. destruct (Hpre e Hin) as (f & Hf & Hpath).
  rewrite Hpath in He. apply path_of_inj in He. subst f.
  rewrite map_app in Hnd. apply NoDup_app in Hnd as (_ & Hdisj & _).
  apply (Hdisj (fst fd) Hf).
  change (fst fd ∈ map fst ((fname, data) :: post)).
  by apply list_elem_of_In, in_map, list_elem_of_In.
Qed.

Lemma C3_offending_partition_stops_run_witness :
  fst (main unlabelled_verbs_world) = Return 2
  ∧ written_index (snd (main unlabelled_verbs_world)) = None.
Proof.
  destruct (C3_offending_partition_stops_run unlabelled_verbs_world
              [("nouns.yaml", [("category", YStr "noun"); ("items", YList [entry "Katze"])])]
              [] "verbs.yaml" [("items", YList [entry "gehen"])])
    as (_ & _ & Hindex & _ & _ & Hcode).
  - reflexivity.
  - reflexivity.
  - left. reflexivity.
  - split; [|exact Hindex]. apply Hcode; [|reflexivity].
    apply Forall_singleton. reflexivity.
Defined.

(** C3, as the specification words it, fails: the noun partition gets its
    identifier and is written back before the verb partition is found to
    have no [category]. *)
Lemma C3_earlier_partition_already_written : ¬ no_partial_output.
Proof.
  intros H.
  destruct (H unlabelled_verbs_world
              [("nouns.yaml", [("category", YStr "noun"); ("items", YList [entry "Katze"])]);
               ("verbs.yaml", [("items", YList [entry "gehen"])])])
    as [_ Hnone].
  - reflexivity.
  - reflexivity.
  - apply Exists_cons_tl, Exists_cons_hd. left. reflexivity.
  - assert (Hrun : snd (main unlabelled_verbs_world)
                   = [Backup "linguistic_rules/lexicon/nouns.yaml";
                      Dump "linguistic_rules/lexicon/nouns.yaml"
                        [("category", YStr "noun");
                         ("items", YList [entry_with_id "Katze" "LEX.NOUN.KATZE"])]])
      by (vm_compute; reflexivity).
    rewrite Hrun in Hnone.
    apply Forall_cons in Hnone as [_ Hnone]. apply Forall_cons in Hnone as [Hdump _].
    by apply Hdump.
Qed.

(** C9. For the noun category the text [die Schuhe] splits into the article
    [die] and the core [Schuhe] and gives [LEX.NOUN.SCHUHE.DIE]; with no
    identifier assigned before, the first entry gets that identifier and a
    second entry with the same text gets [LEX.NOUN.SCHUHE.DIE.2], in the
    assignment function and in the index a run writes. *)
Theorem C9_die_Schuhe_identifiers :
  parse_noun_text "die Schuhe" = (Some "die", "Schuhe")
  ∧ make_lex_id "noun" "die Schuhe" = "LEX.NOUN.SCHUHE.DIE"
  ∧ fst (ensure_unique_id (make_lex_id "noun" "die Schuhe") ∅) = "LEX.NOUN.SCHUHE.DIE"
  ∧ fst (ensure_unique_id (make_lex_id "noun" "die Schuhe")
           (snd (ensure_unique_id (make_lex_id "noun" "die Schuhe") ∅)))
    = "LEX.NOUN.SCHUHE.DIE.2"
  ∧ fst (main schuhe_world) = Return 0
  ∧ index_lex_ids schuhe_world
    = Some [YStr "LEX.NOUN.SCHUHE.DIE"; YStr "LEX.NOUN.SCHUHE.DIE.2"].
Proof. repeat split; vm_compute; reflexivity. Qed.

(** C1, where the index builder breaks it. The counter of a proposed
    identifier does not know the identifiers that end in a number: with the
    nouns [Katze], [Katze], [Katze 2] the second entry gets
    [LEX.NOUN.KATZE.2] from the counter and the third gets the same
    identifier from its text, and the index holds it twice; and an entry that
    already carries [LEX.NOUN.KATZE.2] does not keep the counter from handing
    it out again. *)
Theorem C1_identifier_assigned_twice :
  fst (main katze_world) = Return 0
  ∧ index_lex_ids katze_world
    = Some [YStr "LEX.NOUN.KATZE"; YStr "LEX.NOUN.KATZE.2"; YStr "LEX.NOUN.KATZE.2"]
  ∧ fst (main katze_assigned_world) = Return 0
  ∧ index_lex_ids katze_assigned_world
    = Some [YStr "LEX.NOUN.KATZE"; YStr "LEX.NOUN.KATZE.2"; YStr "LEX.NOUN.KATZE.2"]
  ∧ (let '(id1, used1) := ensure_unique_id (make_lex_id "noun" "Katze") ∅ in
     let '(id2, used2) := ensure_unique_id (make_lex_id "noun" "Katze") used1 in
     let '(id3, _) := ensure_unique_id (make_lex_id "noun" "Katze 2") used2 in
     id2 = "LEX.NOUN.KATZE.2" ∧ id3 = id2).
Proof. repeat split; vm_compute; reflexivity. Qed.

End IndexBuilderFacts.

(** ** The table deduplicator *)
Module DeduperFacts.
Import Py Yaml Deduper DedupeNotions DictFacts.

Lemma sig_eqb_eq a b : sig_eqb a b = true ↔ a = b.
Proof. unfold sig_eqb. apply bool_decide_eq_true. Qed.

Lemma lookup_sig_None sg merged :
  lookup_sig sg merged = None ↔ sg ∉ map fst merged.
Proof.
  induction merged as [|[sg' t] merged IH]; cbn [lookup_sig map fst].
  - split; [intros _ H; by apply elem_of_nil in H|done].
  - rewrite not_elem_of_cons. destruct (sig_eqb sg sg') eqn:Heq.
    + apply sig_eqb_eq in Heq. split; [done|]. by intros [? _].
    + rewrite IH. split; [|by intros [_ ?]]. intros H. split; [|done].
      intros ->. assert (sig_eqb sg' sg' = true) by by apply sig_eqb_eq. congruence.
Qed.

Lemma lookup_sig_Some sg merged t :
  lookup_sig sg merged = Some t → (sg, t) ∈ merged.
Proof.
  induction merged as [|[sg' t'] merged IH]; cbn [lookup_sig]; [done|].
  destruct (sig_eqb sg sg') eqn:Heq.
  - apply sig_eqb_eq in Heq as ->. intros [= ->]. apply elem_of_cons. by left.
  - intros H. apply elem_of_cons. right. by apply IH.
Qed.

Lemma replace_sig_keys sg t merged : map fst (replace_sig sg t merged) = map fst merged.
Proof.
  induction merged as [|[sg' t'] merged IH]; cbn [replace_sig map fst]; [done|].
  destruct (sig_eqb sg sg'); cbn [map fst]; [done|]. by rewrite IH.
Qed.

Lemma replace_sig_Forall (P : signature * Dict.t yaml → Prop) sg t merged :
  Forall P merged → (∀ sg', sg = sg' → P (sg', t)) → Forall P (replace_sig sg t merged).
Proof.
  intros Hall Ht. induction Hall as [|[sg' t'] merged Hx Hall IH];
    cbn [replace_sig]; [constructor|].
  destruct (sig_eqb sg sg') eqn:Heq.
  - apply sig_eqb_eq in Heq. constructor; [by apply Ht|done].
  - by constructor.
Qed.

(** The signature reads [lemma_guess] and [forms] only. *)
Lemma sig_of_ext t t' :
  Dict.get "lemma_guess" t' = Dict.get "lemma_guess" t →
  Dict.get "forms" t' = Dict.get "forms" t →
  sig_of t' = sig_of t.
Proof. intros H1 H2. unfold sig_of, forms_of. by rewrite H1, H2. Qed.

Lemma sig_of_set_sources v t : sig_of (Dict.set "sources" v t) = sig_of t.
Proof. apply sig_of_ext; by rewrite get_set_ne. Qed.

Lemma sig_of_normalize t : sig_of (normalize_sources t) = sig_of t.
Proof.
  unfold normalize_sources. rewrite sig_of_set_sources.
  apply sig_of_ext; by rewrite get_pop_ne.
Qed.

Lemma normalized_normalize t : normalized (normalize_sources t).
Proof.
  unfold normalized, normalize_sources. split.
  - eexists. apply get_set_eq.
  - rewrite get_set_ne by done. apply get_pop_eq.
Qed.

Lemma normalized_set_sources l t : normalized t → normalized (Dict.set "sources" (YList l) t).
Proof.
  intros [_ Hsrc]. split; [eexists; apply get_set_eq|]. by rewrite get_set_ne.
Qed.

Lemma normalize_normalized t : normalized t → normalize_sources t = t.
Proof.
  intros [[l Hl] Hsrc]. unfold normalize_sources, sources_of. rewrite Hl.
  rewrite pop_absent by done. by apply set_get_same.
Qed.

Lemma table_step_inv merged t merged' :
  merged_inv merged → table_step merged t = Some merged' → merged_inv merged'.
Proof.
  intros [Hnd Hall]. destruct t; try done. cbn [table_step].
  destruct (sig_of fields) as [sg|] eqn:Hsig; cbn [mbind option_bind]; [|done].
  destruct (lookup_sig sg merged) as [existing|] eqn:Hlook.
  - apply lookup_sig_Some in Hlook. rewrite Forall_forall in Hall.
    destruct (Hall _ Hlook) as [Hsg Hnorm]. cbn [fst snd] in Hsg, Hnorm.
    destruct (default _ _); try done.
    destruct (merge_sources _ _) as [merged_sources|]; cbn [mbind option_bind]; [|done].
    intros [= <-]. split; [by rewrite replace_sig_keys|].
    apply replace_sig_Forall; [by apply Forall_forall|].
    intros sg' <-. cbn [fst snd]. split; [by rewrite sig_of_set_sources|].
    by apply normalized_set_sources.
  - apply lookup_sig_None in Hlook. intros [= <-]. split.
    + rewrite map_app. cbn [map fst]. apply NoDup_app. split; [done|].
      split; [|apply NoDup_singleton].
      intros x Hx Hx'. apply list_elem_of_singleton in Hx' as ->. done.
    + apply Forall_app. split; [done|]. apply Forall_singleton. cbn [fst snd].
      split; [by rewrite sig_of_normalize|apply normalized_normalize].
Qed.

Lemma tables_loop_inv tables merged merged' :
  merged_inv merged → tables_loop tables merged = Some merged' → merged_inv merged'.
Proof.
  revert merged. induction tables as [|t tables IH]; intros merged Hinv;
    cbn [tables_loop]; [by intros [= <-]|].
  destruct (table_step merged t) as [m|] eqn:Hstep; [|done].
  apply IH. by eapply table_step_inv.
Qed.

(** A second pass finds every table new and leaves it as it is. *)
Lemma second_pass done rest :
  merged_inv (done ++ rest) →
  tables_loop (map (fun st => YDict (snd st)) rest) done = Some (done ++ rest)%list.
Proof.
  revert done. induction rest as [|[sg t] rest IH]; intros done Hinv;
    cbn [map tables_loop snd].
  { by rewrite app_nil_r. }
  destruct Hinv as [Hnd Hall].
  pose proof Hall as Hall'. apply Forall_app in Hall' as [_ Hrest].
  apply Forall_cons in Hrest as [[Hsig Hnorm] _]. cbn [fst snd] in Hsig, Hnorm.
  cbn [table_step]. rewrite Hsig. cbn [mbind option_bind].
  assert (Hnew : lookup_sig sg done = None).
  { apply lookup_sig_None. rewrite map_app in Hnd. cbn [map fst] in Hnd.
    apply NoDup_app in Hnd as (_ & Hdisj & _). intros Hin.
    apply (Hdisj sg Hin). apply elem_of_cons. by left. }
  rewrite Hnew, normalize_normalized by done.
  rewrite (IH (done ++ [(sg, t)])%list); rewrite <- app_assoc; [done|].
  by split.
Qed.

Lemma dedupe_tables_idempotent tables deduped :
  dedupe_tables tables = Some deduped → dedupe_tables deduped = Some deduped.
Proof.
  unfold dedupe_tables.
  destruct (tables_loop tables []) as [merged|] eqn:Hloop; cbn [mbind option_bind];
    [|done].
  intros [= <-].
  assert (Hinv : merged_inv merged).
  { eapply tables_loop_inv; [|exact Hloop].
    split; cbn [map]; [apply NoDup_nil_2|apply Forall_nil_2]. }
  by rewrite (second_pass [] merged Hinv).
Qed.

(** On tables of the documented shape the pass raises nothing. *)
Lemma str_or_empty_typed v : text_or_empty v = true → ∃ s, str_or_empty v = Some s.
Proof.
  unfold text_or_empty, str_or_empty. destruct (truthy v); [|by eexists].
  destruct v; try done. by eexists.
Qed.

Lemma trimmed_items_typed forms :
  forallb (fun kv => text_or_empty (snd kv)) forms = true →
  ∃ pairs, trimmed_items forms = Some pairs.
Proof.
  unfold trimmed_items. induction forms as [|[k v] forms IH]; [by eexists|].
  cbn [forallb snd]. intros [Hv Hrest]%andb_prop.
  destruct (str_or_empty_typed v Hv) as [sv Hsv]. destruct (IH Hrest) as [pairs Hpairs].
  exists ((k, strip sv) :: pairs). cbn [mapM fst snd]. rewrite Hsv.
  cbn [mbind option_bind]. rewrite Hpairs. done.
Qed.

Lemma sig_of_typed t :
  text_or_empty (default YNull (Dict.get "lemma_guess" t)) = true →
  forms_typed t = true →
  ∃ sg, sig_of t = Some sg.
Proof.
  intros Hlemma Hforms. unfold sig_of.
  destruct (str_or_empty_typed _ Hlemma) as [lemma ->]. cbn [mbind option_bind].
  unfold forms_typed in Hforms. unfold forms_of.
  assert (∃ forms, (if truthy (default YNull (Dict.get "forms" t))
                    then match default YNull (Dict.get "forms" t) with
                         | YDict d => Some d
                         | _ => None
                         end
                    else Some [])
                   = Some forms
                   ∧ forallb (fun kv => text_or_empty (snd kv)) forms = true)
    as (forms & -> & Hall).
  { destruct (default YNull (Dict.get "forms" t)) as [| | | | |d];
      try (apply negb_true_iff in Hforms; rewrite Hforms; by eexists).
    destruct (truthy (YDict d)) eqn:Ht; [by eexists|].
    destruct d; [by eexists|done]. }
  cbn [mbind option_bind]. unfold forms_signature.
  destruct (trimmed_items_typed forms Hall) as [pairs ->]. by eexists.
Qed.

Lemma source_key_typed d :
  source_typed (YDict d) = true → ∃ key, source_key d = Some key.
Proof.
  cbn [source_typed]. intros [Hppt Hslide]%andb_prop. unfold source_key.
  destruct (default YNull (Dict.get "ppt" d)); try done;
    destruct (default YNull (Dict.get "slide" d)); try done; by eexists.
Qed.

Lemma seen_of_typed existing :
  forallb source_typed existing = true → ∃ seen, seen_of existing = Some seen.
Proof.
  induction existing as [|s existing IH]; [by eexists|].
  cbn [forallb]. intros [Hs Hrest]%andb_prop. destruct (IH Hrest) as [seen Hseen].
  destruct s; cbn [seen_of]; try by eexists.
  destruct (source_key_typed fields Hs) as [key ->]. cbn [mbind option_bind].
  rewrite Hseen. by eexists.
Qed.

Lemma merge_loop_typed sources existing seen :
  forallb source_typed sources = true → forallb source_typed existing = true →
  ∃ out, merge_loop sources existing seen = Some out
         ∧ forallb source_typed out = true.
Proof.
  revert existing seen. induction sources as [|s sources IH]; intros existing seen;
    cbn [merge_loop forallb]; [by eexists|].
  intros [Hs Hrest]%andb_prop Hex.
  destruct s; try (by apply IH).
  destruct (source_key_typed fields Hs) as [key ->]. cbn [mbind option_bind].
  destruct (key_in key seen); [by apply IH|].
  apply IH; [done|]. rewrite forallb_app, Hex. cbn [forallb]. by rewrite Hs.
Qed.

Lemma table_step_typed merged t :
  merged_typed merged → table_typed t = true →
  ∃ merged', table_step merged t = Some merged' ∧ merged_typed merged'.
Proof.
  intros Hinv Ht. destruct t as [| | | | |t]; try done.
  cbn [table_typed] in Ht.
  apply andb_prop in Ht as [[Hlemma Hforms]%andb_prop Hsources].
  cbn [table_step]. destruct (sig_of_typed t Hlemma Hforms) as [sg ->].
  cbn [mbind option_bind].
  destruct (lookup_sig sg merged) as [existing|] eqn:Hlook.
  - pose proof Hinv as Hall. unfold merged_typed in Hall. rewrite Forall_forall in Hall.
    destruct (Hall _ (lookup_sig_Some _ _ _ Hlook)) as (l & Hl & Htyped).
    cbn [snd] in Hl. rewrite Hl. cbn [from_option id]. unfold merge_sources.
    destruct (seen_of_typed l Htyped) as [seen ->]. cbn [mbind option_bind].
    destruct (merge_loop_typed (sources_of t) l seen Hsources Htyped)
      as (out & -> & Hout).
    cbn [mbind option_bind]. eexists. split; [done|].
    apply replace_sig_Forall; [done|]. intros sg' _. cbn [snd].
    exists out. split; [apply get_set_eq|done].
  - eexists. split; [done|]. apply Forall_app. split; [done|].
    apply Forall_singleton. cbn [snd]. exists (sources_of t).
    split; [|done]. unfold normalize_sources. apply get_set_eq.
Qed.

Lemma tables_loop_typed tables merged :
  merged_typed merged → forallb table_typed tables = true →
  ∃ merged', tables_loop tables merged = Some merged'.
Proof.
  revert merged. induction tables as [|t tables IH]; intros merged Hinv;
    cbn [tables_loop forallb]; [by eexists|].
  intros [Ht Hrest]%andb_prop.
  destruct (table_step_typed merged t Hinv Ht) as (merged' & -> & Hinv').
  by apply IH.
Qed.

Lemma dedupe_tables_typed tables :
  forallb table_typed tables = true → ∃ deduped, dedupe_tables tables = Some deduped.
Proof.
  intros Htyped. unfold dedupe_tables.
  destruct (tables_loop_typed tables [] (Forall_nil_2 _) Htyped) as [merged ->].
  by eexists.
Qed.

(** C7. The deduplicator is idempotent: the table list one pass gives is
    left as it is by a second pass (same tables, same order, same sources),
    and so is the document that [main] writes back; and a pass does give a
    table list for every list of tables of the documented shape. *)
Theorem C7_dedupe_idempotent :
  (∀ tables deduped : list yaml,
     dedupe_tables tables = Some deduped → dedupe_tables deduped = Some deduped)
  ∧ (∀ (data : yaml) (written : Dict.t yaml),
       Deduper.main data = Some written →
       Deduper.main (YDict written) = Some written)
  ∧ (∀ tables : list yaml,
       forallb table_typed tables = true →
       ∃ deduped, dedupe_tables tables = Some deduped).
Proof.
  split; [exact dedupe_tables_idempotent|]. split; [|exact dedupe_tables_typed].
  intros data written. destruct data as [| | | | |d]; try done. cbn [Deduper.main].
  destruct (iterate _) as [tables|]; cbn [mbind option_bind]; [|done].
  destruct (dedupe_tables tables) as [deduped|] eqn:Hpass; cbn [mbind option_bind];
    [|done].
  intros [= <-]. rewrite get_set_eq. cbn [from_option id iterate mbind option_bind].
  rewrite (dedupe_tables_idempotent _ _ Hpass). cbn [mbind option_bind]. f_equal.
  apply set_get_same, get_set_eq.
Qed.

Lemma C7_dedupe_idempotent_witness :
  dedupe_tables [YDict Samples.gehen_first; YDict Samples.gehen_second]
  = Some [YDict Samples.gehen_merged]
  ∧ dedupe_tables [YDict Samples.gehen_merged] = Some [YDict Samples.gehen_merged].
Proof.
  assert (Hpass : dedupe_tables [YDict Samples.gehen_first; YDict Samples.gehen_second]
                  = Some [YDict Samples.gehen_merged]) by reflexivity.
  split; [exact Hpass|].
  exact (proj1 C7_dedupe_idempotent _ _ Hpass).
Defined.

(** The pairs the merge has seen are those of the sources it holds. *)
Lemma seen_of_keys existing seen :
  seen_of existing = Some seen → seen = keys_of existing.
Proof.
  revert seen. unfold keys_of.
  induction existing as [|s existing IH]; intros seen; cbn [seen_of omap list_omap].
  { by intros [= <-]. }
  destruct s; try (by apply IH).
  destruct (source_key fields) as [key|]; cbn [mbind option_bind]; [|done].
  destruct (seen_of existing) as [seen'|]; cbn [mbind option_bind]; [|done].
  intros [= <-]. f_equal. by apply IH.
Qed.

Lemma keys_of_app a b : keys_of (a ++ b) = (keys_of a ++ keys_of b)%list.
Proof. unfold keys_of. apply omap_app. Qed.

Lemma key_in_app key a b : key_in key (a ++ b) = key_in key a || key_in key b.
Proof. unfold key_in. apply existsb_app. Qed.

Lemma merge_loop_spec sources existing seen out :
  (∀ key, key_in key seen = key_in key (keys_of existing)) →
  merge_loop sources existing seen = Some out →
  ∃ added,
    out = (existing ++ added)%list
    ∧ sublist added (filter (fun s => is_dict s = true) sources)
    ∧ appended_fresh existing added.
Proof.
  revert existing seen. induction sources as [|s sources IH]; intros existing seen Hseen;
    cbn [merge_loop].
  { intros [= <-]. exists []. split; [by rewrite app_nil_r|]. split; [constructor|].
    intros before s after H. by destruct before. }
  assert (Hskip : is_dict s = false →
            merge_loop sources existing seen = Some out →
            ∃ added, out = (existing ++ added)%list
              ∧ sublist added (filter (fun s => is_dict s = true) (s :: sources))
              ∧ appended_fresh existing added).
  { intros Hs Hloop. destruct (IH existing seen Hseen Hloop) as (added & ? & ? & ?).
    exists added. split; [done|]. split; [|done].
    rewrite filter_cons. destruct (decide (is_dict s = true)); [congruence|done]. }
  destruct s; try (by apply Hskip).
  destruct (source_key fields) as [key|] eqn:Hkey; cbn [mbind option_bind]; [|done].
  destruct (key_in key seen) eqn:Hin.
  - intros Hloop. destruct (IH existing seen Hseen Hloop) as (added & ? & ? & ?).
    exists added. split; [done|]. split; [|done].
    rewrite filter_cons. cbn [is_dict]. destruct (decide (true = true)); [|done].
    by apply sublist_cons.
  - intros Hloop.
    destruct (IH (existing ++ [YDict fields])%list (key :: seen)) with (2 := Hloop)
      as (added & Hout & Hsub & Hfresh).
    { intros k. rewrite keys_of_app, key_in_app. unfold keys_of at 2.
      cbn [omap list_omap]. rewrite Hkey. unfold key_in at 1 3.
      cbn [existsb]. rewrite orb_false_r, orb_comm. f_equal. apply Hseen. }
    exists (YDict fields :: added). split; [by rewrite Hout, <- app_assoc|]. split.
    + rewrite filter_cons. cbn [is_dict]. destruct (decide (true = true)); [|done].
      by apply sublist_skip.
    + intros before s after Heq. destruct before as [|b before]; cbn [app] in Heq.
      * injection Heq as <- <-. exists fields, key. split; [done|]. split; [done|].
        by rewrite app_nil_r, <- Hseen.
      * injection Heq as <- ->.
        destruct (Hfresh before s after eq_refl) as (d & k & ? & ? & Hk).
        exists d, k. split; [done|]. split; [done|].
        by rewrite <- app_assoc in Hk.
Qed.

Lemma merge_sources_spec existing sources out :
  merge_sources existing sources = Some out →
  ∃ added,
    out = (existing ++ added)%list
    ∧ sublist added (filter (fun s => is_dict s = true) sources)
    ∧ appended_fresh existing added.
Proof.
  unfold merge_sources.
  destruct (seen_of existing) as [seen|] eqn:Hseen; cbn [mbind option_bind]; [|done].
  apply seen_of_keys in Hseen as ->. by apply merge_loop_spec.
Qed.

Lemma set_set k (v v' : yaml) (d : Dict.t yaml) :
  Dict.set k v' (Dict.set k v d) = Dict.set k v' d.
Proof.
  induction d as [|[k' w] d IH]; cbn [Dict.set].
  - by rewrite String.eqb_refl.
  - destruct (String.eqb_spec k k') as [->|Hne]; cbn [Dict.set].
    + by rewrite String.eqb_refl.
    + destruct (String.eqb_spec k k'); [done|]. by rewrite IH.
Qed.

(** C8. When two tables with the same signature are merged, one table is
    left: the first one, with every field other than its provenance as it was
    (so its [table_id] and metadata), and with its sources followed by
    sources of the second table, in their order, each of which is a mapping
    whose (document, slide) pair is not among the pairs of the sources before
    it. *)
Theorem C8_merge_keeps_first_and_adds_new_sources
    (first second : Dict.t yaml) (deduped : list yaml) :
  sig_of first = sig_of second →
  dedupe_tables [YDict first; YDict second] = Some deduped →
  ∃ added survivor,
    deduped = [YDict survivor]
    ∧ survivor
      = Dict.set "sources" (YList (sources_of first ++ added)) (Dict.pop "source" first)
    ∧ (∀ k, k ≠ "sources" → k ≠ "source" → Dict.get k survivor = Dict.get k first)
    ∧ Dict.get "sources" survivor = Some (YList (sources_of first ++ added))
    ∧ sublist added (filter (fun s => is_dict s = true) (sources_of second))
    ∧ appended_fresh (sources_of first) added.
Proof.
  intros Hsig. unfold dedupe_tables. cbn [tables_loop table_step].
  destruct (sig_of first) as [sg|]; cbn [mbind option_bind lookup_sig app]; [|done].
  rewrite <- Hsig. cbn [mbind option_bind lookup_sig].
  assert (Heq : sig_eqb sg sg = true) by by apply sig_eqb_eq.
  rewrite Heq. unfold normalize_sources at 1. rewrite get_set_eq. cbn [from_option id].
  destruct (merge_sources _ _) as [out|] eqn:Hmerge; cbn [mbind option_bind]; [|done].
  cbn [replace_sig]. rewrite Heq. cbn [map snd]. intros [= <-].
  destruct (merge_sources_spec _ _ _ Hmerge) as (added & -> & Hsub & Hfresh).
  exists added. eexists. split; [reflexivity|].
  unfold normalize_sources. rewrite set_set. split; [done|]. split.
  - intros k Hk Hk'. rewrite get_set_ne by done. by rewrite get_pop_ne.
  - split; [apply get_set_eq|]. by split.
Qed.

Lemma C8_merge_keeps_first_and_adds_new_sources_witness :
  ∃ added survivor,
    [YDict Samples.gehen_merged] = [YDict survivor]
    ∧ survivor
      = Dict.set "sources" (YList (sources_of Samples.gehen_first ++ added))
          (Dict.pop "source" Samples.gehen_first)
    ∧ (∀ k, k ≠ "sources" → k ≠ "source" →
         Dict.get k survivor = Dict.get k Samples.gehen_first)
    ∧ Dict.get "sources" survivor
      = Some (YList (sources_of Samples.gehen_first ++ added))
    ∧ sublist added (filter (fun s => is_dict s = true) (sources_of Samples.gehen_second))
    ∧ appended_fresh (sources_of Samples.gehen_first) added.
Proof.
  apply (C8_merge_keeps_first_and_adds_new_sources
           Samples.gehen_first Samples.gehen_second); reflexivity.
Defined.

End DeduperFacts.

(** ** The integrity validator *)
Module ValidatorFacts.
Import Py Yaml Process Validator ValidatorNotions.

(** On a name of one line the pattern asks for the suffix and nothing
    else. *)
Lemma suffix_at_end_single_line k :
  single_line k = true → suffix_at_end k = String.eqb k "_lex_id".
Proof.
  unfold suffix_at_end, single_line. intros Hk.
  destruct (String.eqb_spec k ("_lex_id" ++ String (ascii_of_nat 10) "")) as [->|];
    [discriminate|]. apply orb_false_r.
Qed.

Lemma LEX_ID_KEY_RE_single_line k :
  single_line k = true → LEX_ID_KEY_RE k = has_reference_suffix k.
Proof.
  unfold has_reference_suffix.
  induction k as [|c k IH]; intros Hk.
  { reflexivity. }
  cbn [LEX_ID_KEY_RE endswith]. rewrite suffix_at_end_single_line by done.
  unfold single_line in *. cbn [contains_char] in Hk.
  apply negb_true_iff, orb_false_iff in Hk as [Hc Hk].
  destruct (String.eqb (String c k) "_lex_id"); [done|]. cbn [orb].
  rewrite IH by by rewrite Hk.
  assert (is_newline c = false) as ->; [|done].
  unfold is_newline, code, line_feed in *. apply Nat.eqb_neq. intros Hn.
  apply (f_equal ascii_of_nat) in Hn. rewrite ascii_nat_embedding in Hn.
  subst c. by rewrite Ascii.eqb_refl in Hc.
Qed.

Lemma fields_refs_own refs path d k v :
  (k, v) ∈ d → LEX_ID_KEY_RE k = true → v ≠ YNull →
  (subpath_key path k, py_str v) ∈ fields_refs refs path d.
Proof.
  intros Hin Hk Hv. induction d as [|[k' v'] d IH]; [by apply elem_of_nil in Hin|].
  cbn [fields_refs]. apply elem_of_cons in Hin as [[= <- <-]|Hin].
  - rewrite Hk. assert (is_null v = false) as -> by by destruct v.
    cbn [andb negb app]. apply elem_of_cons. by left.
  - rewrite !elem_of_app. right. right. by apply IH.
Qed.

Lemma fields_refs_under refs path d k v x :
  (k, v) ∈ d → x ∈ refs v (subpath_key path k) → x ∈ fields_refs refs path d.
Proof.
  intros Hin Hx. induction d as [|[k' v'] d IH]; [by apply elem_of_nil in Hin|].
  cbn [fields_refs]. rewrite !elem_of_app.
  apply elem_of_cons in Hin as [[= <- <-]|Hin]; [right; by left|].
  right. right. by apply IH.
Qed.

Lemma elements_refs_inside refs path l v i0 :
  v ∈ l →
  ∃ i, ∀ x, x ∈ refs v (subpath_index path i) → x ∈ elements_refs refs path i0 l.
Proof.
  revert i0. induction l as [|w l IH]; intros i0 Hin; [by apply elem_of_nil in Hin|].
  cbn [elements_refs]. apply elem_of_cons in Hin as [->|Hin].
  - exists i0. intros x Hx. apply elem_of_app. by left.
  - destruct (IH (S i0) Hin) as [i Hi]. exists i. intros x Hx.
    apply elem_of_app. right. by apply Hi.
Qed.

(** Every field whose name the pattern matches and whose value is not null
    is among the references found, with its value as text. *)
Lemma find_lex_id_refs_field doc k v :
  field_in doc k v → LEX_ID_KEY_RE k = true → v ≠ YNull →
  ∀ path, ∃ field_path, (field_path, py_str v) ∈ find_lex_id_refs doc path.
Proof.
  induction 1 as [d k v Hin|d k' v' k v Hin Hfield IH|l x k v Hin Hfield IH];
    intros Hk Hv path; cbn [find_lex_id_refs].
  - eexists. by apply fields_refs_own.
  - destruct (IH Hk Hv (subpath_key path k')) as [fp Hfp].
    exists fp. by eapply fields_refs_under.
  - destruct (elements_refs_inside find_lex_id_refs path l x 0 Hin) as [i Hi].
    destruct (IH Hk Hv (subpath_index path i)) as [fp Hfp].
    exists fp. by apply Hi.
Qed.

Lemma unresolved_in_spec lex_ids ypath refs field_path ref_id :
  Unresolved ypath field_path ref_id ∈ unresolved_in lex_ids ypath refs
  ↔ (field_path, ref_id) ∈ refs ∧ ref_id ∉ lex_ids.
Proof.
  unfold unresolved_in. rewrite list_elem_of_omap. split.
  - intros ([fp r] & Hin & Hsome). cbn [fst snd] in Hsome.
    destruct (bool_decide (r ∈ lex_ids)) eqn:Hd; [done|].
    injection Hsome as <- <-. split; [done|]. by apply bool_decide_eq_false in Hd.
  - intros [Hin Hnot]. exists (field_path, ref_id). split; [done|]. cbn [fst snd].
    by rewrite bool_decide_eq_false_2.
Qed.

Lemma file_step_spec lex_ids st f :
  errors (file_step lex_ids st f) = (errors st + length (file_messages lex_ids f))%nat
  ∧ printed (file_step lex_ids st f) = (printed st ++ file_messages lex_ids f)%list.
Proof.
  unfold file_step, file_messages. destruct (snd f) as [data|]; cbn [errors printed].
  - destruct (find_lex_id_refs data "") as [|r refs]; cbn [errors printed]; [|done].
    cbn. by rewrite Nat.add_0_r, app_nil_r.
  - cbn [length]. split; [lia|done].
Qed.

Lemma scan_spec lex_ids files st :
  errors (fold_left (file_step lex_ids) files st)
  = (errors st + length (flat_map (file_messages lex_ids) files))%nat
  ∧ printed (fold_left (file_step lex_ids) files st)
    = (printed st ++ flat_map (file_messages lex_ids) files)%list.
Proof.
  revert st. induction files as [|f files IH]; intros st; cbn [fold_left flat_map].
  { by rewrite Nat.add_0_r, app_nil_r. }
  destruct (IH (file_step lex_ids st f)) as [-> ->].
  destruct (file_step_spec lex_ids st f) as [-> ->].
  rewrite length_app, <- app_assoc. split; [lia|done].
Qed.

(** What the run returns once the index is loaded and holds identifiers:
    0 when no file reports anything, 1 otherwise; it prints what the files
    report. *)
Lemma main_scan w index lex_ids :
  lex_index w = Some index → collect_lex_ids index = Some lex_ids → lex_ids ≠ ∅ →
  let reported := flat_map (file_messages lex_ids) (yaml_files w) in
  fst (main w) = Return (if decide (reported = []) then 0 else 1)
  ∧ ∀ m, m ∈ reported → m ∈ snd (main w).
Proof.
  intros Hindex Hids Hne. cbv zeta. unfold main. rewrite Hindex, Hids.
  rewrite bool_decide_eq_false_2 by done.
  destruct (yaml_files w) as [|f files] eqn:Hfiles.
  { cbn. split; [done|]. intros m Hm. by apply elem_of_nil in Hm. }
  destruct (scan_spec lex_ids (f :: files) (ScanState 0 0 [])) as [Herr Hprinted].
  cbn [errors printed app] in Herr, Hprinted. rewrite Herr, Hprinted.
  destruct (flat_map _ _) as [|m ms] eqn:Hflat.
  - cbn. split; [done|]. intros m Hm. by apply elem_of_nil in Hm.
  - cbn [length Nat.ltb Nat.leb fst snd]. rewrite decide_False by done.
    split; [done|]. intros m' Hm'. apply elem_of_app. by left.
Qed.

(** Referential closure, for the names the pattern matches: a run that
    returns 0 has loaded every file, and in every file every field whose name
    matches and whose value is not null has a value the index holds. *)
Lemma exit_zero_references_resolve w :
  fst (main w) = Return 0 →
  ∃ index lex_ids,
    lex_index w = Some index ∧ collect_lex_ids index = Some lex_ids
    ∧ ∀ ypath loaded, (ypath, loaded) ∈ yaml_files w →
        ∃ doc, loaded = Some doc
               ∧ ∀ k v, field_in doc k v → LEX_ID_KEY_RE k = true → v ≠ YNull →
                        py_str v ∈ lex_ids.
Proof.
  intros Hzero.
  destruct (lex_index w) as [index|] eqn:Hindex; [|by unfold main in Hzero; rewrite Hindex in Hzero].
  destruct (collect_lex_ids index) as [lex_ids|] eqn:Hids;
    [|by unfold main in Hzero; rewrite Hindex, Hids in Hzero].
  destruct (decide (lex_ids = ∅)) as [Hempty|Hne].
  { unfold main in Hzero. rewrite Hindex, Hids in Hzero.
    by rewrite bool_decide_eq_true_2 in Hzero. }
  exists index, lex_ids. split; [done|]. split; [done|].
  destruct (main_scan w index lex_ids Hindex Hids Hne) as [Hcode _].
  cbv zeta in Hcode. rewrite Hzero in Hcode.
  destruct (decide (flat_map _ _ = [])) as [Hnone|]; [|done].
  intros ypath loaded Hin.
  assert (Hfile : file_messages lex_ids (ypath, loaded) = []).
  { destruct (file_messages lex_ids (ypath, loaded)) as [|m ms] eqn:Hm; [done|].
    assert (m ∈ flat_map (file_messages lex_ids) (yaml_files w)) as Hbad.
    { apply list_elem_of_In, in_flat_map. exists (ypath, loaded).
      split; [by apply list_elem_of_In|]. rewrite Hm. by left. }
    rewrite Hnone in Hbad. by apply elem_of_nil in Hbad. }
  unfold file_messages in Hfile. cbn [fst snd] in Hfile.
  destruct loaded as [doc|]; [|done]. exists doc. split; [done|].
  intros k v Hfield Hk Hv.
  destruct (find_lex_id_refs_field doc k v Hfield Hk Hv "") as [fp Hfp].
  destruct (decide (py_str v ∈ lex_ids)) as [|Hnot]; [done|].
  assert (Unresolved ypath fp (py_str v) ∈ unresolved_in lex_ids ypath (find_lex_id_refs doc ""))
    as Hbad by by apply unresolved_in_spec.
  rewrite Hfile in Hbad. by apply elem_of_nil in Hbad.
Qed.

(** Every reference that does not resolve is reported with its path and its
    file, and the run returns 1. *)
Lemma unresolved_reference_reported w index lex_ids ypath doc field_path ref_id :
  lex_index w = Some index → collect_lex_ids index = Some lex_ids → lex_ids ≠ ∅ →
  (ypath, Some doc) ∈ yaml_files w →
  (field_path, ref_id) ∈ find_lex_id_refs doc "" → ref_id ∉ lex_ids →
  fst (main w) = Return 1 ∧ Unresolved ypath field_path ref_id ∈ snd (main w).
Proof.
  intros Hindex Hids Hne Hfile Href Hnot.
  destruct (main_scan w index lex_ids Hindex Hids Hne) as [Hcode Hprinted].
  cbv zeta in Hcode, Hprinted.
  assert (Hm : Unresolved ypath field_path ref_id
               ∈ flat_map (file_messages lex_ids) (yaml_files w)).
  { apply list_elem_of_In, in_flat_map. exists (ypath, Some doc).
    split; [by apply list_elem_of_In|]. apply list_elem_of_In.
    unfold file_messages. cbn [fst snd]. by apply unresolved_in_spec. }
  split; [|by apply Hprinted].
  rewrite Hcode. destruct (decide (flat_map _ _ = [])) as [Hnone|]; [|done].
  rewrite Hnone in Hm. by apply elem_of_nil in Hm.
Qed.

(** C6, where the validator breaks it. The pattern for the names reads no
    line feed, so a field whose name has two lines and ends in [_lex_id] is
    not a reference for it: with a value the index does not hold, the run
    finds nothing and returns 0, where the same value under a name of one
    line is reported and gives 1. *)
Theorem C6_two_line_name_not_checked :
  has_reference_suffix Samples.two_line_key = true
  ∧ field_in Samples.two_line_document Samples.two_line_key (YStr "LEX.VERB.MISSING")
  ∧ option_map (fun ids => bool_decide ("LEX.VERB.MISSING" ∈ ids))
      (collect_lex_ids Samples.gehen_index) = Some false
  ∧ LEX_ID_KEY_RE Samples.two_line_key = false
  ∧ find_lex_id_refs Samples.two_line_document "" = []
  ∧ main Samples.two_line_world = (Return 0, [Summary 1 1 0 0; AllResolved])
  ∧ main Samples.one_line_world
    = (Return 1,
       [Unresolved "linguistic_rules/morphology/notes.yaml" "lemma_lex_id"
          "LEX.VERB.MISSING";
        Summary 1 1 1 1; FixHint]).
Proof.
  split; [reflexivity|]. split.
  { apply field_here. apply elem_of_cons. by left. }
  repeat split; vm_compute; reflexivity.
Qed.

End ValidatorFacts.

(** ** Identifier tokens *)
Module TokenFacts.
Import Py LexId TextNotions TokenNotions TextFacts.

Lemma all_chars_app p a b : all_chars p (a ++ b) = all_chars p a && all_chars p b.
Proof.
  induction a as [|c a IH]; [done|].
  change (String c a ++ b) with (String c (a ++ b)). cbn [all_chars].
  by rewrite IH, andb_assoc.
Qed.

(** What [NON_ID_CHARS.sub] leaves: token characters, no dot next to a dot,
    and no dot first when the text before ended in a run. *)
Lemma sub_non_id_shape in_run s :
  all_chars token_char (sub_non_id in_run s) = true
  ∧ no_double_dot (sub_non_id in_run s) = true
  ∧ (in_run = true → starts_with is_dot (sub_non_id in_run s) = false).
Proof.
  revert in_run. induction s as [|c s IH]; intros in_run; [done|].
  cbn [sub_non_id]. destruct (id_char c) eqn:Hc.
  - destruct (IH false) as (Ha & Hd & _). cbn [all_chars no_double_dot starts_with].
    unfold token_char at 1. rewrite Hc, Ha, Hd. cbn [orb andb].
    assert (is_dot c = false) as Hdot.
    { unfold is_dot. destruct (Ascii.eqb_spec c "."%char) as [->|]; [|done].
      by vm_compute in Hc. }
    by rewrite Hdot.
  - destruct in_run.
    + destruct (IH true) as (Ha & Hd & Hs). split; [done|]. split; [done|].
      intros _. by apply Hs.
    + destruct (IH true) as (Ha & Hd & Hs). cbn [all_chars no_double_dot starts_with].
      rewrite Ha, Hd, (Hs eq_refl). split; [done|]. split; [|done].
      by rewrite andb_false_r.
Qed.

Lemma lstrip_by_all_chars q p s :
  all_chars q s = true → all_chars q (lstrip_by p s) = true.
Proof.
  induction s as [|c s IH]; [done|]. cbn [lstrip_by all_chars].
  intros [Hc Hs]%andb_prop. destruct (p c); [by apply IH|].
  cbn [all_chars]. by rewrite Hc, Hs.
Qed.

Lemma rstrip_by_all_chars q p s :
  all_chars q s = true → all_chars q (rstrip_by p s) = true.
Proof.
  induction s as [|c s IH]; [done|]. cbn [rstrip_by all_chars].
  intros [Hc Hs]%andb_prop. specialize (IH Hs).
  destruct (rstrip_by p s) as [|d r].
  - destruct (p c); [done|]. cbn [all_chars]. by rewrite Hc.
  - cbn [all_chars] in *. by rewrite Hc, IH.
Qed.

Lemma no_double_dot_cons c s :
  no_double_dot (String c s)
  = negb (is_dot c && starts_with is_dot s) && no_double_dot s.
Proof. done. Qed.

Lemma no_double_dot_tail c s : no_double_dot (String c s) = true → no_double_dot s = true.
Proof. cbn [no_double_dot]. by intros [_ ?]%andb_prop. Qed.

Lemma lstrip_by_no_double_dot p s :
  no_double_dot s = true → no_double_dot (lstrip_by p s) = true.
Proof.
  induction s as [|c s IH]; [done|]. cbn [lstrip_by]. intros H.
  destruct (p c); [|done]. apply IH. by eapply no_double_dot_tail.
Qed.

Lemma rstrip_by_starts p q s :
  rstrip_by p s ≠ "" → starts_with q (rstrip_by p s) = starts_with q s.
Proof.
  destruct s as [|c s]; [done|]. cbn [rstrip_by].
  destruct (rstrip_by p s); [|done]. by destruct (p c).
Qed.

Lemma rstrip_by_no_double_dot p s :
  no_double_dot s = true → no_double_dot (rstrip_by p s) = true.
Proof.
  induction s as [|c s IH]; [done|]. intros H.
  pose proof (no_double_dot_tail _ _ H) as Hs. specialize (IH Hs).
  cbn [rstrip_by]. destruct (rstrip_by p s) as [|d r] eqn:Hr.
  - destruct (p c); [done|]. cbn. by rewrite andb_false_r.
  - rewrite no_double_dot_cons in H. apply andb_prop in H as [Hc _].
    assert (Hst : starts_with is_dot (String d r) = starts_with is_dot s).
    { rewrite <- Hr. apply rstrip_by_starts. by rewrite Hr. }
    by rewrite no_double_dot_cons, Hst, Hc, IH.
Qed.

Lemma lstrip_by_starts p s : starts_with p (lstrip_by p s) = false.
Proof.
  induction s as [|c s IH]; [done|]. cbn [lstrip_by].
  destruct (p c) eqn:Hc; [done|]. cbn. done.
Qed.

Lemma rstrip_by_ends_with p s : ends_with p (rstrip_by p s) = false.
Proof.
  induction s as [|c s IH]; [done|]. cbn [rstrip_by].
  destruct (rstrip_by p s) as [|d r] eqn:Hr.
  - destruct (p c) eqn:Hc; [done|]. cbn. done.
  - done.
Qed.

Lemma strip_by_shape p s :
  starts_with p (strip_by p s) = false ∧ ends_with p (strip_by p s) = false.
Proof.
  unfold strip_by. split; [|apply rstrip_by_ends_with].
  destruct (rstrip_by p (lstrip_by p s)) as [|c r] eqn:Hr; [done|].
  rewrite <- Hr, rstrip_by_starts by by rewrite Hr. apply lstrip_by_starts.
Qed.

(** Without a dot next to a dot there is nothing to collapse. *)
Lemma collapse_dots_id in_run s :
  no_double_dot s = true → (in_run = true → starts_with is_dot s = false) →
  collapse_dots in_run s = s.
Proof.
  revert in_run. induction s as [|c s IH]; intros in_run Hd Hs; [done|].
  cbn [collapse_dots]. cbn [no_double_dot] in Hd. apply andb_prop in Hd as [Hc Hd].
  destruct (is_dot c) eqn:Hdot.
  - destruct in_run; [specialize (Hs eq_refl); cbn [starts_with] in Hs; congruence|].
    rewrite IH; [done|done|]. intros _. cbn [andb] in Hc. by apply negb_true_iff in Hc.
  - rewrite IH; [done|done|done].
Qed.

Lemma to_id_token_shape (s : string) : id_token (to_id_token s) = true.
Proof.
  unfold to_id_token. destruct (negb (nonempty s)); [done|].
  set (t := upper (translate_umlauts (strip s))).
  destruct (sub_non_id_shape false t) as (Ha & Hd & _).
  destruct (strip_by_shape is_dot (sub_non_id false t)) as [Hs He].
  assert (Hd' : no_double_dot (strip_by is_dot (sub_non_id false t)) = true).
  { unfold strip_by. by apply rstrip_by_no_double_dot, lstrip_by_no_double_dot. }
  assert (Ha' : all_chars token_char (strip_by is_dot (sub_non_id false t)) = true).
  { unfold strip_by. by apply rstrip_by_all_chars, lstrip_by_all_chars. }
  rewrite collapse_dots_id by done.
  unfold id_token. by rewrite Ha', Hd', Hs, He.
Qed.

(** A character of an identifier is ASCII, no blank, no small letter and no
    part of an umlaut. *)
Lemma token_char_plain c :
  token_char c = true →
  is_ascii c = true ∧ isspace (String c "") = false
  ∧ map_char UPPER_SPECIAL UPPER (String c "") = String c "" ∧ lead_C3 c = false.
Proof. destruct c as [[] [] [] [] [] [] [] []]; vm_compute; intros; done. Qed.

Lemma token_no_blank s : all_chars token_char s = true → no_blank (chars s) = true.
Proof.
  induction s as [|c s IH]; [done|]. cbn [all_chars].
  intros [Hc Hs]%andb_prop. destruct (token_char_plain c Hc) as (Ha & Hb & _).
  rewrite chars_ascii by done. unfold no_blank. cbn [forallb]. rewrite Hb.
  by apply IH.
Qed.

Lemma strip_token s : all_chars token_char s = true → strip s = s.
Proof. intros H. by apply strip_no_blank, token_no_blank. Qed.

Lemma is_dot_eq c : is_dot c = true → c = "."%char.
Proof. unfold is_dot. by destruct (Ascii.eqb_spec c "."%char). Qed.

Lemma lstrip_by_id p s : starts_with p s = false → lstrip_by p s = s.
Proof. destruct s as [|c s]; [done|]. cbn. by intros ->. Qed.

Lemma rstrip_by_keep p s : ends_with p s = false → rstrip_by p s = s.
Proof.
  induction s as [|c s IH]; [done|]. cbn [rstrip_by].
  destruct s as [|d s].
  - cbn. by intros ->.
  - intros H. by rewrite (IH H).
Qed.

Lemma all_chars_starts q p s :
  (∀ c, q c = true → p c = false) → all_chars q s = true → starts_with p s = false.
Proof.
  intros Hqp. destruct s as [|c s]; [done|]. cbn. intros [Hc _]%andb_prop. by apply Hqp.
Qed.

Lemma all_chars_ends q p s :
  (∀ c, q c = true → p c = false) → all_chars q s = true → ends_with p s = false.
Proof.
  intros Hqp. induction s as [|c s IH]; [done|]. cbn [all_chars].
  intros [Hc Hs]%andb_prop. destruct s as [|d s]; [by apply Hqp|by apply IH].
Qed.

Lemma strip_by_id p s :
  starts_with p s = false → ends_with p s = false → strip_by p s = s.
Proof. intros Hs He. unfold strip_by. by rewrite lstrip_by_id, rstrip_by_keep. Qed.

Lemma translate_umlauts_id s :
  all_chars token_char s = true → translate_umlauts s = s.
Proof.
  induction s as [|c s IH]; [done|]. cbn [all_chars translate_umlauts].
  intros [Hc Hs]%andb_prop. destruct (token_char_plain c Hc) as (_ & _ & _ & ->).
  by rewrite IH.
Qed.

Lemma upper_id s : all_chars token_char s = true → upper s = s.
Proof.
  induction s as [|c s IH]; [done|]. cbn [all_chars].
  intros [Hc Hs]%andb_prop. destruct (token_char_plain c Hc) as (Ha & _ & Hu & _).
  unfold upper. rewrite chars_ascii by done. cbn [upper_chars]. rewrite Hu.
  change (String c "" ++ upper_chars (chars s)) with (String c (upper s)).
  by rewrite IH.
Qed.

Lemma sub_non_id_id in_run s :
  all_chars token_char s = true → no_double_dot s = true →
  (in_run = true → starts_with is_dot s = false) →
  sub_non_id in_run s = s.
Proof.
  revert in_run. induction s as [|c s IH]; intros in_run Ha Hd Hs; [done|].
  cbn [all_chars] in Ha. apply andb_prop in Ha as [Hc Ha].
  rewrite no_double_dot_cons in Hd. apply andb_prop in Hd as [Hcd Hd].
  cbn [sub_non_id]. destruct (id_char c) eqn:Hid.
  - by rewrite IH.
  - unfold token_char in Hc. rewrite Hid in Hc. cbn [orb] in Hc.
    destruct in_run; [specialize (Hs eq_refl); cbn [starts_with] in Hs; congruence|].
    rewrite Hc in Hcd. cbn [andb] in Hcd. apply negb_true_iff in Hcd.
    rewrite IH by done. by rewrite (is_dot_eq c Hc).
Qed.

Lemma to_id_token_fix s : id_token s = true → to_id_token s = s.
Proof.
  revert s.
  assert (Hfix : ∀ s, id_token s = true → to_id_token s = s).
  { intros s. unfold id_token.
    intros [[[Ha Hd]%andb_prop Hs%negb_true_iff]%andb_prop He%negb_true_iff]%andb_prop.
    unfold to_id_token. destruct s as [|c s]; [done|]. cbn [nonempty negb String.eqb].
    rewrite strip_token by done.
    rewrite translate_umlauts_id, upper_id, sub_non_id_id, strip_by_id,
      collapse_dots_id; done. }
  exact Hfix.
Qed.

Lemma starts_with_app p a b : a ≠ "" → starts_with p (a ++ b) = starts_with p a.
Proof. by destruct a. Qed.

Lemma ends_with_cons p c s : s ≠ "" → ends_with p (String c s) = ends_with p s.
Proof. by destruct s. Qed.

Lemma ends_with_app p a b : b ≠ "" → ends_with p (a ++ b) = ends_with p b.
Proof.
  intros Hb. induction a as [|c a IH]; [done|].
  change (String c a ++ b) with (String c (a ++ b)).
  rewrite ends_with_cons; [done|]. by destruct a, b.
Qed.

Lemma no_double_dot_app a b :
  no_double_dot (a ++ b)
  = no_double_dot a && no_double_dot b
    && negb (ends_with is_dot a && starts_with is_dot b).
Proof.
  induction a as [|c a IH].
  { cbn. by rewrite andb_true_r. }
  change (String c a ++ b) with (String c (a ++ b)).
  rewrite !no_double_dot_cons, IH. destruct a as [|d a].
  - change ("" ++ b) with b. cbn [starts_with ends_with no_double_dot].
    destruct (is_dot c), (starts_with is_dot b), (no_double_dot b); done.
  - rewrite starts_with_app, (ends_with_cons _ c (String d a)) by done.
    destruct (negb (is_dot c && starts_with is_dot (String d a))),
      (no_double_dot (String d a)), (no_double_dot b); done.
Qed.

(** Two tokens joined by a dot make a token. *)
Lemma id_token_join a b :
  id_token a = true → a ≠ "" → id_token b = true → b ≠ "" →
  id_token (a ++ "." ++ b) = true.
Proof.
  unfold id_token.
  intros [[[Ha Hd]%andb_prop Hs%negb_true_iff]%andb_prop He%negb_true_iff]%andb_prop Hna.
  intros [[[Ha' Hd']%andb_prop Hs'%negb_true_iff]%andb_prop He'%negb_true_iff]%andb_prop Hnb.
  assert (H1 : all_chars token_char (a ++ "." ++ b) = true).
  { by rewrite !all_chars_app, Ha, Ha'. }
  assert (H2 : no_double_dot (a ++ "." ++ b) = true).
  { rewrite (no_double_dot_app a), (no_double_dot_app "." b), Hd, Hd', He.
    rewrite (starts_with_app _ "." b) by done. cbn [ends_with starts_with].
    rewrite Hs'. done. }
  assert (H3 : starts_with is_dot (a ++ "." ++ b) = false).
  { by rewrite starts_with_app. }
  assert (H4 : ends_with is_dot (a ++ "." ++ b) = false).
  { rewrite (ends_with_app _ a) by done. by rewrite (ends_with_app _ "." b). }
  by rewrite H1, H2, H3, H4.
Qed.

Lemma or_else_token tok fallback :
  id_token tok = true → id_token fallback = true → fallback ≠ "" →
  id_token (or_else tok fallback) = true ∧ or_else tok fallback ≠ "".
Proof.
  intros Ht Hf Hn. unfold or_else, nonempty.
  destruct (String.eqb_spec tok ""); cbn [negb]; done.
Qed.

Lemma category_prefix_shape category :
  id_token (category_prefix category) = true
  ∧ ∃ rest, category_prefix category = "LEX." ++ rest ∧ rest ≠ "".
Proof.
  unfold category_prefix.
  repeat match goal with
         | |- context [if ?b then _ else _] =>
             destruct b; [split; [done|eexists; split; [reflexivity|done]]|]
         end.
  destruct (or_else_token (to_id_token (strip (lower category))) "ITEM")
    as [Htok Hne]; [apply to_id_token_shape|done|done|].
  split.
  - change ("LEX." ++ ?x) with ("LEX" ++ "." ++ x). by apply id_token_join.
  - by eexists.
Qed.

Lemma article_token a : in_articles a = true → to_id_token a ≠ "" .
Proof.
  unfold in_articles, ARTICLES. cbn [existsb]. rewrite !orb_true_iff.
  intros [H|[H|[H|H]]]; [apply String.eqb_eq in H as ->; by vm_compute..|done].
Qed.

Lemma parse_noun_text_article text a core :
  parse_noun_text text = (Some a, core) → in_articles a = true.
Proof.
  unfold parse_noun_text. destruct (negb _); [done|].
  destruct (split (strip text)) as [|first [|second others]]; try done.
  destruct (in_articles (lower first)) eqn:Hin; [|done]. by intros [= <- _].
Qed.

Lemma make_lex_id_shape (category text : string) :
  id_token (make_lex_id category text) = true
  ∧ ∃ rest, make_lex_id category text = "LEX." ++ rest ∧ rest ≠ "".
Proof.
  destruct (category_prefix_shape category) as [Hprefix (rest & Hrest & Hne)].
  assert (Hpne : category_prefix category ≠ "") by by rewrite Hrest.
  assert (Hjoin : ∀ tail, id_token tail = true → tail ≠ "" →
            id_token (category_prefix category ++ "." ++ tail) = true
            ∧ ∃ rest', category_prefix category ++ "." ++ tail = "LEX." ++ rest'
                       ∧ rest' ≠ "").
  { intros tail Ht Hn. split; [by apply id_token_join|].
    exists (rest ++ "." ++ tail). rewrite Hrest. split; [|by destruct rest].
    by rewrite TextFacts.string_app_assoc. }
  unfold make_lex_id. destruct (String.eqb _ "noun").
  - destruct (parse_noun_text text) as [art core] eqn:Hparse.
    destruct (or_else_token (to_id_token core) "UNKNOWN") as [Hcore Hcne];
      [apply to_id_token_shape|done|done|].
    destruct art as [a|]; [|by apply Hjoin].
    destruct (nonempty a); [|by apply Hjoin].
    apply Hjoin.
    + apply id_token_join; [done|done|apply to_id_token_shape|].
      eapply article_token, parse_noun_text_article, Hparse.
    + by destruct (or_else (to_id_token core) "UNKNOWN").
  - destruct (or_else_token (to_id_token text) "UNKNOWN") as [Htok Hne'];
      [apply to_id_token_shape|done|done|].
    by apply Hjoin.
Qed.

(** X1. The token [to_id_token] gives is ID-safe: it holds only capitals,
    digits and dots, no dot at either end and no dot next to a dot. *)
Theorem to_id_token_is_id_token (s : string) : id_token (to_id_token s) = true.
Proof. apply to_id_token_shape. Qed.

(** X2. [to_id_token] leaves an ID-safe token as it is, so normalizing twice
    is normalizing once. *)
Theorem to_id_token_idempotent :
  (∀ s, id_token s = true → to_id_token s = s)
  ∧ (∀ s, to_id_token (to_id_token s) = to_id_token s).
Proof.
  split; [apply to_id_token_fix|]. intros s. apply to_id_token_fix, to_id_token_shape.
Qed.

(** X3. Every identifier [make_lex_id] proposes is well formed: it starts
    with [LEX.] and is made of segments of capitals and digits joined by
    single dots, whatever the category and the text are. *)
Theorem make_lex_id_well_formed (category text : string) :
  id_token (make_lex_id category text) = true
  ∧ ∃ rest, make_lex_id category text = "LEX." ++ rest ∧ rest ≠ "".
Proof. apply make_lex_id_shape. Qed.

(** The words [str.split] gives are not empty. *)
Lemma split_go_words word ks :
  Forall (fun k => k ≠ "") word → Forall (fun k => k ≠ "") ks →
  Forall (fun w => w ≠ "") (split_go word ks).
Proof.
  assert (Hemit : ∀ (word : list string) out,
            Forall (fun k => k ≠ "") word →
            Forall (fun w : string => w ≠ "") out →
            Forall (fun w : string => w ≠ "")
              (match word with
               | [] => out
               | _ => unchars (rev word) :: out
               end)).
  { intros [|k w] out Hw Hout; [done|]. constructor; [|done].
    apply unchars_nonempty; [|by apply List.Forall_rev].
    cbn [rev]. by destruct (rev w). }
  revert word. induction ks as [|k ks IH]; intros word Hword Hks; cbn [split_go].
  - by apply Hemit.
  - apply Forall_cons in Hks as [Hk Hks].
    destruct (isspace k); [apply Hemit; [done|]; by apply IH|].
    apply IH; [by constructor|done].
Qed.

Lemma split_words s : Forall (fun w => w ≠ "") (split s).
Proof. apply split_go_words; [by constructor|apply chars_nonempty]. Qed.

Lemma join_nonempty sep w ws : w ≠ "" → join sep (w :: ws) ≠ "".
Proof. intros Hw. cbn [join]. destruct ws; [done|]. by destruct w. Qed.

(** X4. What [parse_noun_text] returns: an article only when the trimmed
    text has at least two words and the first, in small letters, is [der],
    [die] or [das]; the core is then the other words joined by single blanks,
    and it is not empty; without an article the core is the trimmed text. *)
Theorem parse_noun_text_cases (text : string) :
  match parse_noun_text text with
  | (Some a, core) =>
      a ∈ ARTICLES ∧ core ≠ ""
      ∧ ∃ first second others,
          split (strip text) = first :: second :: others
          ∧ a = lower first ∧ core = join " " (second :: others)
  | (None, core) => core = strip text
  end.
Proof.
  unfold parse_noun_text. unfold nonempty.
  destruct (String.eqb_spec (strip text) "") as [->|Hne]; cbn [negb]; [done|].
  pose proof (split_words (strip text)) as Hwords.
  destruct (split (strip text)) as [|first [|second others]]; try done.
  destruct (in_articles (lower first)) eqn:Hin; [|done].
  apply Forall_cons in Hwords as [_ [Hsecond _]%Forall_cons].
  split_and!.
  - unfold in_articles in Hin. apply existsb_exists in Hin as (x & Hx & ->%String.eqb_eq).
    by apply list_elem_of_In.
  - by apply join_nonempty.
  - by exists first, second, others.
Qed.

End TokenFacts.

(** ** Identifiers handed out by the counter *)
Module UniqueIdFacts.
Import Py LexId TokenNotions.

Lemma str_of_nat_inj n m : str_of_nat n = str_of_nat m → n = m.
Proof.
  unfold str_of_nat. intros H.
  assert (Hnn : ∀ k, Nat.to_uint k ≠ Decimal.Nil).
  { intros k. rewrite <- (DecimalNat.Unsigned.of_to k), DecimalNat.Unsigned.to_of.
    apply DecimalFacts.unorm_nonnil. }
  apply (f_equal NilZero.uint_of_string) in H.
  rewrite !NilZero.usu in H by done.
  injection H. apply DecimalNat.Unsigned.to_uint_inj.
Qed.

Lemma append_length (a b : string) :
  String.length (a ++ b) = (String.length a + String.length b)%nat.
Proof. induction a as [|c a IH]; [done|]. cbn. by rewrite <- IH. Qed.

Lemma numbered_not_plain (proposed suffix : string) : proposed ++ "." ++ suffix ≠ proposed.
Proof.
  intros H. apply (f_equal String.length) in H.
  rewrite append_length in H.
  change ("." ++ suffix) with (String "."%char suffix) in H. cbn [String.length] in H. lia.
Qed.

(** With the counter at [k], the next [n] calls hand out the numbers
    [k + 1], ..., [k + n]. *)
Lemma repeat_assign_counted proposed n used k :
  used !! proposed = Some k →
  repeat_assign proposed n used
  = map (fun i => proposed ++ "." ++ str_of_nat i) (seq (S k) n).
Proof.
  revert used k. induction n as [|n IH]; intros used k Hk; [done|].
  cbn [repeat_assign seq map]. unfold ensure_unique_id. rewrite Hk.
  f_equal. apply IH. by rewrite lookup_insert_eq.
Qed.

Lemma repeat_assign_fresh proposed n used :
  used !! proposed = None →
  repeat_assign proposed (S n) used
  = proposed :: map (fun i => proposed ++ "." ++ str_of_nat i) (seq 2 n).
Proof.
  intros Hk. cbn [repeat_assign]. unfold ensure_unique_id. rewrite Hk.
  f_equal. apply repeat_assign_counted. by rewrite lookup_insert_eq.
Qed.

Lemma numbered_NoDup proposed k n :
  NoDup (map (fun i => proposed ++ "." ++ str_of_nat i) (seq k n)).
Proof.
  apply NoDup_fmap_2; [|apply NoDup_seq].
  intros i j H. by apply IndexBuilderFacts.append_inv_head, IndexBuilderFacts.append_inv_head,
    str_of_nat_inj in H.
Qed.

(** X5. [ensure_unique_id] called again and again with one proposal never
    hands out the same identifier twice, whatever the counters hold at the
    start; with no counter for the proposal, the first call hands out the
    proposal itself and the calls after it number from 2; and a call leaves
    the counters of the other proposals alone. *)
Theorem ensure_unique_id_never_repeats (proposed : string) (used : gmap string nat) :
  (∀ n, NoDup (repeat_assign proposed n used))
  ∧ (used !! proposed = None →
     ∀ n, repeat_assign proposed (S n) used
          = proposed :: map (fun i => proposed ++ "." ++ str_of_nat i) (seq 2 n))
  ∧ (∀ other, other ≠ proposed →
       snd (ensure_unique_id proposed used) !! other = used !! other).
Proof.
  split; [|split].
  - intros n. destruct (used !! proposed) as [k|] eqn:Hk.
    + rewrite (repeat_assign_counted _ _ _ k) by done. apply numbered_NoDup.
    + destruct n as [|n]; [constructor|].
      rewrite repeat_assign_fresh by done. constructor; [|apply numbered_NoDup].
      intros (i & Hi & _)%list_elem_of_fmap.
      by apply (numbered_not_plain proposed (str_of_nat i)).
  - intros Hk n. by apply repeat_assign_fresh.
  - intros other Hne. unfold ensure_unique_id.
    destruct (used !! proposed); cbn [snd]; by rewrite lookup_insert_ne.
Qed.

End UniqueIdFacts.

(** ** What a run of the index builder leaves *)
Module IndexRunFacts.
Import Py Yaml LexId Process IndexBuilder IndexNotions RunNotions TokenNotions.
Import DictFacts TokenFacts.

Lemma id_token_strip s : id_token s = true → strip s = s.
Proof.
  unfold id_token. intros [[[Ha _]%andb_prop _]%andb_prop _]%andb_prop.
  by apply strip_token.
Qed.

Lemma all_chars_impl (p q : ascii → bool) s :
  (∀ c, p c = true → q c = true) → all_chars p s = true → all_chars q s = true.
Proof.
  intros Hpq. induction s as [|c s IH]; [done|]. cbn [all_chars].
  intros [Hc Hs]%andb_prop. by rewrite (Hpq c Hc), IH.
Qed.

Lemma id_char_not_dot c : id_char c = true → is_dot c = false.
Proof. destruct c as [[] [] [] [] [] [] [] []]; vm_compute; intros; done. Qed.

Lemma all_id_chars_token s : all_chars id_char s = true → id_token s = true.
Proof.
  intros Ha. unfold id_token.
  assert (Hd : no_double_dot s = true).
  { induction s as [|c s IH]; [done|]. cbn [all_chars] in Ha.
    apply andb_prop in Ha as [Hc Hs]. rewrite no_double_dot_cons, (id_char_not_dot c Hc).
    by rewrite IH. }
  rewrite (all_chars_impl id_char token_char), Hd; [| |done].
  - rewrite (all_chars_starts id_char is_dot), (all_chars_ends id_char is_dot);
      auto using id_char_not_dot.
  - intros c Hc. unfold token_char. by rewrite Hc.
Qed.

Lemma digits_of_uint d : all_chars id_char (NilEmpty.string_of_uint d) = true.
Proof. induction d; cbn [NilEmpty.string_of_uint all_chars]; [done|by rewrite IHd..]. Qed.

Lemma str_of_nat_token n : id_token (str_of_nat n) = true ∧ str_of_nat n ≠ "".
Proof.
  unfold str_of_nat, NilZero.string_of_uint.
  destruct (Nat.to_uint n) eqn:Hd; try done.
  all: split; [apply all_id_chars_token; apply digits_of_uint|done].
Qed.

(** The identifier the counter hands out for a well-formed proposal is well
    formed. *)
Lemma ensure_unique_id_token proposed used :
  id_token proposed = true → proposed ≠ "" →
  id_token (fst (ensure_unique_id proposed used)) = true
  ∧ fst (ensure_unique_id proposed used) ≠ "".
Proof.
  intros Ht Hne. unfold ensure_unique_id.
  destruct (used !! proposed) as [n|]; cbn [fst]; [|done].
  destruct (str_of_nat_token (S n)) as [Hn Hnn].
  split; [by apply id_token_join|]. by destruct proposed.
Qed.

Lemma make_lex_id_nonempty category text : make_lex_id category text ≠ "".
Proof. destruct (make_lex_id_shape category text) as (_ & rest & -> & _). done. Qed.

Lemma existing_lex_id_set id fields :
  id ≠ "" → strip id = id →
  existing_lex_id (Dict.set "lex_id" (YStr id) fields) = Some id.
Proof.
  intros Hne Hs. unfold existing_lex_id. rewrite get_set_eq, Hs.
  unfold nonempty. by destruct (String.eqb_spec id "").
Qed.

Lemma existing_lex_id_trimmed fields x :
  existing_lex_id fields = Some x → x ≠ "" ∧ strip x = x.
Proof.
  unfold existing_lex_id. destruct (Dict.get "lex_id" fields) as [[]|]; try done.
  unfold nonempty. destruct (String.eqb_spec (strip s) ""); cbn [negb]; [done|].
  intros [= <-]. split; [done|apply TextFacts.strip_idem].
Qed.

(** One item: what the step appends, and what a later step makes of the item
    it leaves. *)
Lemma item_step_result category st item st' :
  item_step category st item = Some st' →
  ∃ out new,
    items_done st' = (items_done st ++ [out])%list
    ∧ index_items st' = (index_items st ++ new)%list
    ∧ item_result item out
    ∧ length new = length (filter (fun it => is_dict it = true) [item])
    ∧ (assigned item →
       used_counts st' = used_counts st ∧ file_changed st' = file_changed st)
    ∧ (file_changed st = true → file_changed st' = true)
    ∧ (file_changed st' = false → assigned item)
    ∧ ∀ st2, item_step category st2 out
             = Some (ItemsState (items_done st2 ++ [out]) (used_counts st2)
                       (index_items st2 ++ new) (file_changed st2)).
Proof.
  destruct item as [| | | | |fields]; cbn [item_step].
  1-5: intros [= <-]; eexists _, []; cbn [items_done index_items used_counts file_changed];
    rewrite !app_nil_r; split_and!; try done; intros st2; cbn [item_step];
    by rewrite app_nil_r.
  destruct (existing_lex_id fields) as [stripped|] eqn:Hex; cbn [mbind option_bind].
  - destruct (existing_lex_id_trimmed fields stripped Hex) as [Hne Hs].
    destruct (build_index_entry category (Dict.set "lex_id" (YStr stripped) fields))
      as [entry|] eqn:Hentry; cbn [mbind option_bind]; [|done].
    intros [= <-]. exists (YDict (Dict.set "lex_id" (YStr stripped) fields)), [entry].
    cbn [items_done index_items used_counts file_changed].
    split_and!; try done.
    + exists stripped. split_and!; try done. congruence.
    + intros _. cbn [assigned]. by rewrite Hex.
    + intros st2. cbn [item_step]. rewrite existing_lex_id_set by done.
      cbn [mbind option_bind]. rewrite DeduperFacts.set_set, Hentry. done.
  - destruct (str_or_empty (text_of fields)) as [text|]; cbn [mbind option_bind]; [|done].
    pose proof (ensure_unique_id_token (make_lex_id category text) (used_counts st)
                  (proj1 (make_lex_id_shape category text))
                  (make_lex_id_nonempty category text)) as [Htok Hne].
    destruct (ensure_unique_id _ _) as [final_id used']. cbn [fst] in Htok, Hne.
    cbn [mbind option_bind].
    destruct (build_index_entry category (Dict.set "lex_id" (YStr final_id) fields))
      as [entry|] eqn:Hentry; cbn [mbind option_bind]; [|done].
    intros [= <-]. exists (YDict (Dict.set "lex_id" (YStr final_id) fields)), [entry].
    cbn [items_done index_items used_counts file_changed].
    pose proof (id_token_strip final_id Htok) as Hs.
    split_and!; try done.
    + exists final_id. split_and!; try done. by rewrite Hex.
    + cbn [assigned]. rewrite Hex. by intros [? ?].
    + intros st2. cbn [item_step]. rewrite existing_lex_id_set by done.
      cbn [mbind option_bind]. rewrite DeduperFacts.set_set, Hentry. done.
Qed.

Lemma items_loop_result category items st st' :
  items_loop category items st = Some st' →
  ∃ outs new,
    items_done st' = (items_done st ++ outs)%list
    ∧ index_items st' = (index_items st ++ new)%list
    ∧ Forall2 item_result items outs
    ∧ length new = length (filter (fun it => is_dict it = true) items)
    ∧ (Forall assigned items →
       used_counts st' = used_counts st ∧ file_changed st' = file_changed st)
    ∧ (file_changed st = true → file_changed st' = true)
    ∧ (file_changed st' = false → Forall assigned items)
    ∧ ∀ st2, items_loop category outs st2
             = Some (ItemsState (items_done st2 ++ outs) (used_counts st2)
                       (index_items st2 ++ new) (file_changed st2)).
Proof.
  revert st. induction items as [|item items IH]; intros st; cbn [items_loop].
  { intros [= <-]. exists [], []. rewrite !app_nil_r. split_and!; try done.
    intros [? ? ? ?]. cbn. by rewrite !app_nil_r. }
  destruct (item_step category st item) as [st1|] eqn:Hstep; [|done].
  intros Hloop.
  destruct (item_step_result _ _ _ _ Hstep)
    as (out & new1 & Hd1 & Hi1 & Hr1 & Hl1 & Ha1 & Hm1 & Hc1 & Hre1).
  destruct (IH _ Hloop) as (outs & new2 & Hd2 & Hi2 & Hr2 & Hl2 & Ha2 & Hm2 & Hc2 & Hre2).
  exists (out :: outs), (new1 ++ new2)%list.
  split; [by rewrite Hd2, Hd1, <- app_assoc|].
  split; [by rewrite Hi2, Hi1, <- app_assoc|].
  split; [by constructor|].
  split.
  { by rewrite length_app, Hl1, Hl2, <- length_app, <- filter_app. }
  split.
  { intros [Hitem Hall]%Forall_cons. destruct (Ha1 Hitem) as [Hu Hf].
    destruct (Ha2 Hall) as [Hu' Hf']. split; congruence. }
  split; [by intros H; apply Hm2, Hm1|].
  split.
  { intros Hf. constructor; [|by apply Hc2]. apply Hc1.
    destruct (file_changed st1) eqn:H1; [|done]. by rewrite Hm2 in Hf. }
  intros st2. cbn [items_loop]. rewrite Hre1, Hre2.
  cbn [items_done index_items used_counts file_changed].
  by rewrite <- !app_assoc.
Qed.

(** An item that carries its identifier is handled the same way whatever
    the state of the loop is. *)
Lemma item_step_assigned category st item st' out new :
  assigned item → item_step category st item = Some st' →
  items_done st' = (items_done st ++ [out])%list →
  index_items st' = (index_items st ++ new)%list →
  ∀ st2, item_step category st2 item
         = Some (ItemsState (items_done st2 ++ [out]) (used_counts st2)
                   (index_items st2 ++ new) (file_changed st2)).
Proof.
  destruct item as [| | | | |fields]; cbn [item_step assigned].
  1-5: intros _ [= <-]; cbn [items_done index_items];
    intros [= <-]%app_inv_head Hnew st2;
    rewrite <- (app_nil_r (index_items st)) in Hnew at 1;
    apply app_inv_head in Hnew as <-; by rewrite app_nil_r.
  intros [stripped Hex]. rewrite Hex. cbn [mbind option_bind].
  destruct (build_index_entry _ _) as [entry|]; cbn [mbind option_bind]; [|done].
  intros [= <-]. cbn [items_done index_items].
  by intros [= <-]%app_inv_head <-%app_inv_head st2.
Qed.

Lemma items_loop_assigned category items st st' outs new :
  Forall assigned items → items_loop category items st = Some st' →
  items_done st' = (items_done st ++ outs)%list →
  index_items st' = (index_items st ++ new)%list →
  ∀ st2, items_loop category items st2
         = Some (ItemsState (items_done st2 ++ outs) (used_counts st2)
                   (index_items st2 ++ new) (file_changed st2)).
Proof.
  revert st outs new. induction items as [|item items IH]; intros st outs new Hall;
    cbn [items_loop].
  { intros [= <-] Hd Hi [? ? ? ?].
    rewrite <- (app_nil_r (items_done st)) in Hd at 1. apply app_inv_head in Hd as <-.
    rewrite <- (app_nil_r (index_items st)) in Hi at 1. apply app_inv_head in Hi as <-.
    cbn. by rewrite !app_nil_r. }
  apply Forall_cons in Hall as [Hitem Hall].
  destruct (item_step category st item) as [st1|] eqn:Hstep; [|done].
  intros Hloop Hd Hi st2.
  destruct (item_step_result _ _ _ _ Hstep) as (out & new1 & Hd1 & Hi1 & _).
  destruct (items_loop_result _ _ _ _ Hloop) as (outs2 & new2 & Hd2 & Hi2 & _).
  rewrite Hd2, Hd1, <- app_assoc in Hd. apply app_inv_head in Hd as <-.
  rewrite Hi2, Hi1, <- app_assoc in Hi. apply app_inv_head in Hi as <-.
  rewrite (item_step_assigned _ _ _ _ _ _ Hitem Hstep Hd1 Hi1 st2).
  rewrite (IH _ _ _ Hall Hloop Hd2 Hi2).
  cbn [items_done index_items used_counts file_changed]. by rewrite <- !app_assoc.
Qed.

(** Reading what was dumped to a partition. *)
Lemma written_partition_untouched effs fname :
  Forall (fun e => effect_path e ≠ path_of fname) effs →
  omap (fun e => match e with
                 | Dump path data =>
                     if String.eqb path (path_of fname) then Some data else None
                 | _ => None
                 end) effs = [].
Proof.
  induction effs as [|e effs IH]; [done|]. intros [He Hall]%Forall_cons.
  destruct e as [path|path data]; cbn -[path_of String.eqb]; [by apply IH|].
  cbn [effect_path] in He. destruct (String.eqb_spec path (path_of fname)); [done|].
  by apply IH.
Qed.

Lemma written_partition_frame pre effs post fname :
  Forall (fun e => effect_path e ≠ path_of fname) pre →
  Forall (fun e => effect_path e ≠ path_of fname) post →
  written_partition (pre ++ effs ++ post) fname = written_partition effs fname.
Proof.
  intros Hpre Hpost. unfold written_partition.
  rewrite !omap_app, (written_partition_untouched pre), (written_partition_untouched post)
    by done.
  by rewrite app_nil_r.
Qed.

Lemma set_not_nil {V} k (v : V) (d : Dict.t V) : Dict.set k v d ≠ [].
Proof. destruct d as [|[k' v'] d]; cbn; [done|]. by destruct (String.eqb k k'). Qed.

Lemma reread_frame pre effs post fd fd2 :
  Forall (fun e => effect_path e ≠ path_of (fst fd)) pre →
  Forall (fun e => effect_path e ≠ path_of (fst fd)) post →
  reread effs fd fd2 → reread (pre ++ effs ++ post) fd fd2.
Proof.
  intros Hpre Hpost [Hname H]. split; [done|]. by rewrite written_partition_frame.
Qed.

Lemma other_partition_paths files_data fname effs :
  fname ∉ map fst files_data →
  Forall (fun e => effect_path e ∈ partition_paths files_data) effs →
  Forall (fun e => effect_path e ≠ path_of fname) effs.
Proof.
  intros Hnot Hall. eapply Forall_impl; [exact Hall|]. intros e He Heq. apply Hnot.
  unfold partition_paths in He.
  apply list_elem_of_fmap in He as (fd & Hpath & Hfd).
  rewrite Heq in Hpath. apply IndexBuilderFacts.path_of_inj in Hpath as ->.
  by apply list_elem_of_fmap_2.
Qed.

(** The loop over the files, and the loop over what it leaves. *)
Lemma files_loop_rerun files_data st st' :
  NoDup (map fst files_data) →
  files_loop files_data st = (None, st') →
  ∃ files2 new extra,
    run_index st' = (run_index st ++ new)%list
    ∧ run_effects st' = (run_effects st ++ extra)%list
    ∧ Forall (fun e => effect_path e ∈ partition_paths files_data) extra
    ∧ Forall2 (reread extra) files_data files2
    ∧ ∀ st2, files_loop files2 st2
             = (None, RunState (run_used st2) (run_index st2 ++ new)
                        (run_changed st2) (run_effects st2)).
Proof.
  revert st. induction files_data as [|[fname data] rest IH]; intros st Hnd;
    cbn [files_loop].
  { intros [= <-]. exists [], [], []. rewrite !app_nil_r. split_and!; try done.
    intros [? ? ? ?]. cbn. by rewrite app_nil_r. }
  cbn [map fst] in Hnd. apply NoDup_cons in Hnd as [Hfresh Hnd].
  destruct (as_str (default (YStr "") (Dict.get "category" data))) as [label|] eqn:Hlabel;
    [|done].
  destruct (negb (nonempty (strip label))) eqn:Hcat; [done|].
  destruct (default (YList []) (Dict.get "items" data)) as [| | | |items|] eqn:Hitems;
    try done.
  destruct (items_loop (strip label) items
              (ItemsState [] (run_used st) (run_index st) false)) as [ist|] eqn:Hloop;
    [|done].
  intros Hrest.
  destruct (items_loop_result _ _ _ _ Hloop)
    as (outs & new1 & Hd & Hi & _ & _ & _ & _ & Hassigned & Hagain).
  cbn [items_done index_items app] in Hd, Hi.
  apply IH in Hrest as (files2 & new2 & extra & Hindex & Heff & Hpaths & Hre & Hsecond);
    [|done].
  pose proof (other_partition_paths rest fname extra Hfresh Hpaths) as Hother.
  assert (Hweak : ∀ effs,
            Forall (fun e => effect_path e ∈ partition_paths rest) effs →
            Forall (fun e => effect_path e ∈ partition_paths ((fname, data) :: rest)) effs).
  { intros effs Hall. eapply Forall_impl; [exact Hall|].
    intros e He. unfold partition_paths. cbn [map]. apply elem_of_cons. by right. }
  destruct (file_changed ist) eqn:Hchanged.
  - set (data2 := Dict.set "items" (YList outs) data).
    set (this := [Backup (path_of fname); Dump (path_of fname) data2]).
    exists ((fname, data2) :: files2), (new1 ++ new2)%list, (this ++ extra)%list.
    cbn [run_index run_effects] in Hindex, Heff. rewrite Hd in Heff. fold data2 this in Heff.
    split_and!.
    + by rewrite Hindex, Hi, <- app_assoc.
    + by rewrite Heff, <- app_assoc.
    + apply Forall_app. split; [|by apply Hweak].
      repeat apply Forall_cons_2; try apply Forall_nil_2;
        unfold partition_paths; cbn [map effect_path fst]; apply elem_of_cons; by left.
    + constructor.
      * split; [done|]. left. cbn [fst snd]. split; [|apply set_not_nil].
        unfold written_partition. rewrite omap_app, (written_partition_untouched extra) by done.
        unfold this. cbn -[path_of String.eqb]. by rewrite String.eqb_refl.
      * apply Forall2_same_length_lookup in Hre as [Hlen Hre].
        apply Forall2_same_length_lookup. split; [done|]. intros i fd fd2 Hfd Hfd2.
        rewrite <- (app_nil_r (this ++ extra)), <- app_assoc.
        apply reread_frame; [| |by eapply Hre]; [|done].
        assert (Hne : fst fd ≠ fname).
        { intros <-. apply Hfresh. apply list_elem_of_fmap_2.
          by eapply list_elem_of_lookup_2. }
        unfold this. repeat apply Forall_cons_2; try apply Forall_nil_2;
          cbn [effect_path]; intros Heq%IndexBuilderFacts.path_of_inj; by apply Hne.
    + intros st2. cbn [files_loop]. unfold data2.
      rewrite get_set_ne by done. rewrite Hlabel, Hcat, get_set_eq.
      cbn [default from_option id]. rewrite Hagain.
      cbn [items_done index_items used_counts file_changed app]. rewrite Hsecond.
      cbn [run_used run_index run_changed run_effects]. by rewrite <- app_assoc.
  - exists ((fname, data) :: files2), (new1 ++ new2)%list, extra.
    cbn [run_index run_effects] in Hindex, Heff.
    split_and!.
    + by rewrite Hindex, Hi, <- app_assoc.
    + done.
    + by apply Hweak.
    + constructor.
      * split; [done|]. right. cbn [fst snd]. split; [|done].
        unfold written_partition. by rewrite (written_partition_untouched extra).
      * done.
    + intros st2. cbn [files_loop]. rewrite Hlabel, Hcat, Hitems.
      rewrite (items_loop_assigned _ _ _ _ outs new1 (Hassigned eq_refl) Hloop) by done.
      cbn [items_done index_items used_counts file_changed app]. rewrite Hsecond.
      cbn [run_used run_index run_changed run_effects]. by rewrite <- app_assoc.
Qed.

Lemma get_map_value {V} (f : string → V → V) k (d : Dict.t V) :
  Dict.get k (map (fun fv => (fst fv, f (fst fv) (snd fv))) d)
  = option_map (f k) (Dict.get k d).
Proof.
  induction d as [|[k' v] d IH]; [done|]. cbn [map Dict.get fst snd].
  destruct (String.eqb_spec k k') as [->|]; [done|apply IH].
Qed.

Lemma load_managed_after names files files_data effs files2 :
  load_managed names files = Some files_data →
  Forall2 (reread effs) files_data files2 →
  load_managed names (map (fun fv => (fst fv, file_after effs (fst fv) (snd fv))) files)
  = Some files2.
Proof.
  revert files_data files2. induction names as [|fname names IH];
    intros files_data files2; cbn [load_managed].
  { intros [= <-] Hre. by apply Forall2_nil_inv_l in Hre as ->. }
  rewrite get_map_value. destruct (Dict.get fname files) as [v|]; cbn [option_map]; [|apply IH].
  destruct (load_yaml v) as [data|] eqn:Hv; cbn [mbind option_bind]; [|done].
  destruct (load_managed names files) as [others|]; cbn [mbind option_bind]; [|done].
  intros [= <-] Hre.
  apply Forall2_cons_inv_l in Hre as ([f2 d2] & others2 & [Hname Hdata] & Hre & ->).
  cbn [fst snd] in Hname, Hdata. subst f2.
  rewrite (IH others others2) by done. unfold file_after.
  destruct Hdata as [[-> Hne]|[-> ->]].
  - unfold load_yaml. cbn [truthy]. by destruct d2.
  - by rewrite Hv.
Qed.

(** A run that ends with code 0, taken apart. *)
Lemma main_Return_0 w effs :
  main w = (Return 0, effs) →
  ∃ files_data st' keyed,
    lexicon_dir_exists w = true
    ∧ load_managed MANAGED_FILES (lexicon_files w) = Some files_data
    ∧ files_data ≠ []
    ∧ files_loop files_data
        (RunState (seed_used (collect_all_existing_ids files_data)) [] [] [])
      = (None, st')
    ∧ mapM (fun e => k ← sort_key e; Some (k, e)) (run_index st') = Some keyed
    ∧ effs = (run_effects st' ++ (if index_exists w then [Backup INDEX_PATH] else [])
                ++ [Dump INDEX_PATH (index_payload (map snd (sorted_by fst keyed)))])%list.
Proof.
  unfold main. destruct (lexicon_dir_exists w); cbn [negb]; [|done].
  destruct (load_managed MANAGED_FILES (lexicon_files w)) as [[|fd files]|]; [done| |done].
  destruct (files_loop _ _) as [[out|] st'] eqn:Hloop.
  { pose proof (IndexBuilderFacts.files_loop_outcome (fd :: files)
                  (RunState (seed_used (collect_all_existing_ids (fd :: files))) [] [] []))
      as Hout.
    rewrite Hloop in Hout. cbn [fst] in Hout.
    destruct Hout as [?|[[= ->]|[= ->]]]; done. }
  destruct (mapM _ (run_index st')) as [keyed|] eqn:Hkeys; [|done].
  intros [= <-]. by exists (fd :: files), st', keyed.
Qed.

Lemma written_index_last effs payload :
  written_index (effs ++ [Dump INDEX_PATH payload]) = Some payload.
Proof.
  unfold written_index. rewrite omap_app. cbn -[INDEX_PATH String.eqb].
  rewrite String.eqb_refl. apply last_snoc.
Qed.

(** X6. Running the index builder a second time changes nothing: after a run
    that ends with code 0, a run over the lexicon it leaves (every written
    file read back as dumped) ends with code 0 too, writes no partition, and
    writes the very index the first run wrote, after backing it up. *)
Theorem second_run_changes_nothing (w : world) (effs : list effect) :
  main w = (Return 0, effs) →
  ∃ payload,
    written_index effs = Some payload
    ∧ main (world_after w effs)
      = (Return 0, [Backup INDEX_PATH; Dump INDEX_PATH payload]).
Proof.
  intros (files_data & st' & keyed & Hdir & Hload & Hne & Hloop & Hkeys & ->)%main_Return_0.
  set (payload := index_payload (map snd (sorted_by fst keyed))).
  set (backup := if index_exists w then [Backup INDEX_PATH] else []).
  exists payload.
  assert (Hwritten : written_index (run_effects st' ++ backup ++ [Dump INDEX_PATH payload])
                     = Some payload).
  { rewrite app_assoc. apply written_index_last. }
  split; [done|].
  pose proof (IndexBuilderFacts.load_managed_names _ _ _ Hload) as Hsub.
  pose proof (sublist_NoDup _ _ IndexBuilderFacts.managed_files_NoDup Hsub) as Hnd.
  destruct (files_loop_rerun _ _ _ Hnd Hloop)
    as (files2 & new & extra & Hindex & Heff & Hpaths & Hre & Hsecond).
  cbn [run_index run_effects app] in Hindex, Heff.
  assert (Hre' : Forall2 (reread (run_effects st' ++ backup ++ [Dump INDEX_PATH payload]))
                   files_data files2).
  { rewrite Heff. apply Forall2_same_length_lookup in Hre as [Hlen Hre].
    apply Forall2_same_length_lookup. split; [done|]. intros i fd fd2 Hfd Hfd2.
    apply (reread_frame [] extra); [done| |by eapply Hre].
    assert (Hmanaged : path_of (fst fd) ≠ INDEX_PATH).
    { apply IndexBuilderFacts.index_path_not_managed.
      eapply elem_of_sublist; [|exact Hsub].
      apply list_elem_of_fmap_2. by eapply list_elem_of_lookup_2. }
    apply Forall_app. split.
    - unfold backup. destruct (index_exists w); [|done].
      apply Forall_singleton. cbn [effect_path]. congruence.
    - apply Forall_singleton. cbn [effect_path]. congruence. }
  pose proof (load_managed_after _ _ _ _ _ Hload Hre') as Hload2.
  unfold main, world_after. cbn [lexicon_dir_exists lexicon_files index_exists].
  rewrite Hdir, Hload2, Hwritten. cbn [negb].
  destruct files2 as [|fd2 files2].
  { apply Forall2_nil_inv_r in Hre. done. }
  rewrite Hsecond. cbn [run_index run_effects app]. rewrite <- Hindex, Hkeys.
  by rewrite orb_true_r.
Qed.

Lemma second_run_changes_nothing_witness :
  ∃ payload,
    written_index (snd (main Samples.schuhe_world)) = Some payload
    ∧ main (world_after Samples.schuhe_world (snd (main Samples.schuhe_world)))
      = (Return 0, [Backup INDEX_PATH; Dump INDEX_PATH payload]).
Proof.
  apply (second_run_changes_nothing Samples.schuhe_world). vm_compute. reflexivity.
Defined.

(** What an entry of the index holds. *)
Lemma build_index_entry_fields category item entry :
  build_index_entry category item = Some entry →
  Dict.get "lex_id" entry = Dict.get "lex_id" item
  ∧ Dict.get "category" entry = Some (YStr category)
  ∧ Dict.get "text" entry = Some (text_of item)
  ∧ Dict.get "sources" entry = Dict.get "sources" item
  ∧ Dict.mem "lemma" entry = is_category category "noun" || is_category category "verb"
  ∧ (∀ v, Dict.get "article" entry = Some v →
       is_category category "noun" = true ∧ ∃ a, v = YStr a ∧ a ∈ ARTICLES).
Proof.
  unfold build_index_entry.
  destruct (Dict.get "lex_id" item) as [lex_id|]; cbn [mbind option_bind]; [|done].
  set (base := [("lex_id", lex_id); ("category", YStr category); ("text", text_of item)]).
  assert (Hsources : ∀ e : Dict.t yaml,
            Dict.get "sources" e = None →
            ∀ k, k ≠ "sources" →
              Dict.get k (match Dict.get "sources" item with
                          | Some srcs => Dict.set "sources" srcs e
                          | None => e
                          end) = Dict.get k e).
  { intros e _ k Hk. destruct (Dict.get "sources" item); [by rewrite get_set_ne|done]. }
  assert (Hsrc : ∀ e : Dict.t yaml,
            Dict.get "sources" e = None →
            Dict.get "sources" (match Dict.get "sources" item with
                                | Some srcs => Dict.set "sources" srcs e
                                | None => e
                                end) = Dict.get "sources" item).
  { intros e He. destruct (Dict.get "sources" item); [by rewrite get_set_eq|done]. }
  destruct (is_category category "noun") eqn:Hnoun.
  - destruct (str_or_empty (text_of item)) as [text|]; cbn [mbind option_bind]; [|done].
    destruct (parse_noun_text text) as [art core] eqn:Hparse.
    set (lemma := if nonempty core then YStr (strip core) else text_of item).
    assert (Hart : match art with
                   | Some a => in_articles a = true
                   | None => True
                   end).
    { destruct art; [|done]. by eapply parse_noun_text_article. }
    assert (Hverb : is_category category "verb" = false).
    { unfold is_category in *. apply String.eqb_eq in Hnoun. rewrite Hnoun. done. }
    rewrite Hverb. cbn [mbind option_bind orb]. intros [= <-].
    unfold Dict.mem.
    destruct art as [a|]; [destruct (nonempty a)|];
      rewrite ?Hsrc, !Hsources by done; split_and!; try done.
    intros v [= <-]. split; [done|]. exists a. split; [done|].
    unfold in_articles in Hart. apply existsb_exists in Hart as (x & Hx & ->%String.eqb_eq).
    by apply list_elem_of_In.
  - cbn [mbind option_bind orb].
    destruct (is_category category "verb") eqn:Hverb.
    + destruct (as_str (text_of item)) as [text|]; cbn [mbind option_bind]; [|done].
      intros [= <-]. unfold Dict.mem.
      destruct (Dict.get "sources" item); split_and!; done.
    + cbn [mbind option_bind]. intros [= <-]. unfold Dict.mem.
      destruct (Dict.get "sources" item); split_and!; done.
Qed.

(** Every entry the loops add to the index has a key to sort by. *)
Lemma item_step_keys category st item st' :
  item_step category st item = Some st' →
  Forall (fun e => is_Some (sort_key e)) (index_items st) →
  Forall (fun e => is_Some (sort_key e)) (index_items st').
Proof.
  assert (Hentry : ∀ id fields entry,
            build_index_entry category (Dict.set "lex_id" (YStr id) fields) = Some entry →
            is_Some (sort_key entry)).
  { intros id fields entry (Hid & Hcat & _)%build_index_entry_fields.
    rewrite get_set_eq in Hid. unfold sort_key. rewrite Hid, Hcat. by eexists. }
  destruct item as [| | | | |fields]; cbn [item_step]; try by intros [= <-].
  destruct (existing_lex_id fields) as [stripped|]; cbn [mbind option_bind].
  - destruct (build_index_entry _ _) as [entry|] eqn:He; cbn [mbind option_bind]; [|done].
    intros [= <-] Hall. cbn [index_items]. apply Forall_app. split; [done|].
    apply Forall_singleton. by eapply Hentry.
  - destruct (str_or_empty _) as [text|]; cbn [mbind option_bind]; [|done].
    destruct (ensure_unique_id _ _) as [final_id used']. cbn [mbind option_bind].
    destruct (build_index_entry _ _) as [entry|] eqn:He; cbn [mbind option_bind]; [|done].
    intros [= <-] Hall. cbn [index_items]. apply Forall_app. split; [done|].
    apply Forall_singleton. by eapply Hentry.
Qed.

Lemma items_loop_keys category items st st' :
  items_loop category items st = Some st' →
  Forall (fun e => is_Some (sort_key e)) (index_items st) →
  Forall (fun e => is_Some (sort_key e)) (index_items st').
Proof.
  revert st. induction items as [|item items IH]; intros st; cbn [items_loop].
  { by intros [= <-]. }
  destruct (item_step category st item) as [st1|] eqn:Hstep; [|done].
  intros Hloop Hall. eapply IH; [exact Hloop|]. by eapply item_step_keys.
Qed.

Lemma files_loop_keys files_data st :
  Forall (fun e => is_Some (sort_key e)) (run_index st) →
  Forall (fun e => is_Some (sort_key e)) (run_index (snd (files_loop files_data st))).
Proof.
  revert st. induction files_data as [|[fname data] rest IH]; intros st Hall;
    cbn [files_loop]; [done|].
  destruct (as_str _) as [label|]; [|done].
  destruct (negb _); [done|].
  destruct (default _ _); try done.
  destruct (items_loop _ _ _) as [ist|] eqn:Hloop; [|done].
  apply IH. apply items_loop_keys in Hloop; [|done].
  by destruct (file_changed ist).
Qed.

(** X7. With labels and texts of the type the schema gives them, a run of the
    index builder raises no exception: it ends with code 0 or with code 2. *)
Theorem typed_lexicon_never_raises (w : world) (files_data : list (string * Dict.t yaml)) :
  load_managed MANAGED_FILES (lexicon_files w) = Some files_data →
  Forall (fun fd => well_typed fd = true) files_data →
  fst (main w) = Return 0 ∨ fst (main w) = Return 2.
Proof.
  intros Hload Htyped. unfold main. destruct (lexicon_dir_exists w); cbn [negb]; [|by right].
  rewrite Hload. destruct files_data as [|fd files]; [by right|].
  set (st0 := RunState (seed_used (collect_all_existing_ids (fd :: files))) [] [] []).
  pose proof (IndexBuilderFacts.files_loop_outcome (fd :: files) st0) as Hout.
  pose proof (IndexBuilderFacts.files_loop_typed (fd :: files) st0 Htyped) as Hraise.
  pose proof (files_loop_keys (fd :: files) st0 (Forall_nil_2 _)) as Hkeys.
  destruct (files_loop (fd :: files) st0) as [[out|] st']; cbn [fst snd] in *.
  - destruct Hout as [?|[[= ->]|?]]; [done|by right|done].
  - destruct (mapM_is_Some_2 (fun e => k ← sort_key e; Some (k, e)) (run_index st'))
      as [keyed ->]; [|by left].
    eapply Forall_impl; [exact Hkeys|]. intros e [k Hk]. cbn. rewrite Hk. by eexists.
Qed.

Lemma typed_lexicon_never_raises_witness :
  fst (main Samples.katze_world) = Return 0 ∨ fst (main Samples.katze_world) = Return 2.
Proof.
  apply (typed_lexicon_never_raises Samples.katze_world
           [("nouns.yaml",
             [("category", YStr "noun");
              ("items", YList [Samples.entry "Katze"; Samples.entry "Katze";
                               Samples.entry "Katze 2"])])]).
  - reflexivity.
  - apply Forall_singleton. reflexivity.
Defined.

Lemma backed_up_app a b :
  backed_up a = true → backed_up b = true → backed_up (a ++ b) = true.
Proof.
  revert a. fix IH 1. intros [|[path|path data] [|[path'|path' data'] a]]; try done.
  cbn [backed_up app]. intros [-> Ha]%andb_prop Hb. cbn [andb]. by apply IH.
Qed.

Lemma files_loop_backed_up files_data st :
  backed_up (run_effects st) = true →
  backed_up (run_effects (snd (files_loop files_data st))) = true.
Proof.
  revert st. induction files_data as [|[fname data] rest IH]; intros st Hall;
    cbn [files_loop]; [done|].
  destruct (as_str _) as [label|]; [|done].
  destruct (negb _); [done|].
  destruct (default _ _); try done.
  destruct (items_loop _ _ _) as [ist|] eqn:Hloop; [|done].
  apply IH. destruct (file_changed ist); cbn [run_effects]; [|done].
  apply backed_up_app; [done|]. cbn [backed_up]. by rewrite String.eqb_refl.
Qed.

Lemma managed_paths files_data extra :
  sublist (map fst files_data) MANAGED_FILES →
  Forall (fun e => effect_path e ∈ partition_paths files_data) extra →
  Forall (fun e => ∃ fname, fname ∈ MANAGED_FILES ∧ effect_path e = path_of fname) extra.
Proof.
  intros Hsub Hall. eapply Forall_impl; [exact Hall|]. intros e He.
  unfold partition_paths in He. apply list_elem_of_fmap in He as (fd & Hpath & Hfd).
  exists (fst fd). split; [|done]. eapply elem_of_sublist; [|exact Hsub].
  by apply list_elem_of_fmap_2.
Qed.

(** A run, whatever its outcome: the effects of the loop over the
    partitions, then those of the index when the loop ran to its end and the
    entries could be sorted. *)
Lemma main_cases w :
  (main w = (Return 2, []) ∨ main w = (Raise, []))
  ∨ ∃ files_data st' o,
      load_managed MANAGED_FILES (lexicon_files w) = Some files_data
      ∧ files_loop files_data
          (RunState (seed_used (collect_all_existing_ids files_data)) [] [] [])
        = (o, st')
      ∧ ((main w = (Return 2, run_effects st') ∨ main w = (Raise, run_effects st'))
         ∨ ∃ payload,
             o = None
             ∧ main w = (Return 0,
                         (run_effects st'
                            ++ (if index_exists w then [Backup INDEX_PATH] else [])
                            ++ [Dump INDEX_PATH payload])%list)).
Proof.
  unfold main. destruct (lexicon_dir_exists w); cbn [negb]; [|by left; left].
  destruct (load_managed MANAGED_FILES (lexicon_files w)) as [[|fd files]|] eqn:Hload;
    [by left; left| |by left; right].
  right. set (st0 := RunState _ [] [] []).
  pose proof (IndexBuilderFacts.files_loop_outcome (fd :: files) st0) as Hout.
  destruct (files_loop (fd :: files) st0) as [o st'] eqn:Hloop. cbn [fst] in Hout.
  exists (fd :: files), st', o. split; [done|]. split; [done|].
  destruct Hout as [->|[->| ->]]; [|by left; left|by left; right].
  destruct (mapM _ (run_index st')) as [keyed|]; [|by left; right].
  right. by eexists.
Qed.

(** The files the loop over the partitions writes, in order: for some of
    the partitions, the backup and then the partition. *)
Lemma sublist_flat_map {A B} (f : A → list B) (l1 l2 : list A) :
  sublist l1 l2 → sublist (flat_map f l1) (flat_map f l2).
Proof.
  induction 1 as [|x l1 l2 _ IH|x l1 l2 _ IH]; cbn [flat_map].
  - constructor.
  - by apply sublist_app.
  - by apply sublist_inserts_l.
Qed.

Lemma files_loop_written files_data st :
  ∃ extra,
    run_effects (snd (files_loop files_data st)) = (run_effects st ++ extra)%list
    ∧ sublist (map written_path extra)
        (flat_map with_backup (map (fun fd => path_of (fst fd)) files_data)).
Proof.
  revert st. induction files_data as [|[fname data] rest IH]; intros st;
    cbn [files_loop].
  { exists []. split; [by rewrite app_nil_r|constructor]. }
  assert (Hstop : ∀ o : option outcome, ∃ extra,
            run_effects (snd (o, st)) = (run_effects st ++ extra)%list
            ∧ sublist (map written_path extra)
                (flat_map with_backup
                   (map (fun fd => path_of (fst fd)) ((fname, data) :: rest)))).
  { intros o. exists []. split; [by rewrite app_nil_r|apply sublist_nil_l]. }
  destruct (as_str _) as [label|]; [|apply Hstop].
  destruct (negb _); [apply Hstop|].
  destruct (default _ _); try apply Hstop.
  destruct (items_loop _ _ _) as [ist|]; [|apply Hstop].
  match goal with |- context [files_loop rest ?s] => destruct (IH s) as (extra & Heq & Hsub) end.
  cbn [map flat_map fst with_backup].
  destruct (file_changed ist); cbn [run_effects] in Heq.
  - exists ([Backup (path_of fname);
             Dump (path_of fname) (Dict.set "items" (YList (items_done ist)) data)]
            ++ extra)%list.
    split; [by rewrite Heq, <- app_assoc|].
    cbn [app map written_path]. by do 2 apply sublist_skip.
  - exists extra. split; [done|]. by do 2 apply sublist_cons.
Qed.

Lemma written_files_NoDup : NoDup written_files.
Proof. apply (bool_decide_unpack (NoDup written_files)). by vm_compute. Qed.

(** A run writes each file at most once, and only files of
    [written_files]. *)
Lemma main_written w : sublist (map written_path (snd (main w))) written_files.
Proof.
  destruct (main_cases w) as [[-> | ->]|(files_data & st' & o & Hload & Hloop & Hmain)];
    [apply sublist_nil_l..|].
  pose proof (IndexBuilderFacts.load_managed_names _ _ _ Hload) as Hnames.
  pose proof (files_loop_written files_data
                (RunState (seed_used (collect_all_existing_ids files_data)) [] [] []))
    as (extra & Heff & Hsub).
  rewrite Hloop in Heff. cbn [snd run_effects app] in Heff.
  assert (Hloop_paths : sublist (map written_path (run_effects st'))
                          (flat_map with_backup (map path_of MANAGED_FILES))).
  { rewrite Heff. etrans; [exact Hsub|]. apply sublist_flat_map.
    rewrite <- (map_map fst path_of). exact (fmap_sublist path_of _ _ Hnames). }
  unfold written_files, tracked_paths. rewrite flat_map_app.
  destruct Hmain as [[-> | ->]|(payload & -> & ->)]; cbn [snd].
  1-2: by apply sublist_inserts_r.
  rewrite map_app. apply sublist_app; [done|].
  cbn [flat_map with_backup app]. destruct (index_exists w); cbn [app map written_path].
  - done.
  - by apply sublist_cons.
Qed.

(** A file that the effects do not write holds what it held. *)
Lemma disk_after_other fs effs q :
  q ∉ map written_path effs → disk_after fs effs q = fs q.
Proof.
  revert fs. induction effs as [|e effs IH]; intros fs Hq; [done|].
  cbn [map] in Hq. apply not_elem_of_cons in Hq as [Hne Hq].
  unfold disk_after in *. cbn [fold_left]. rewrite IH by done.
  destruct e as [path|path data]; cbn [apply_effect written_path] in *; unfold write.
  - by destruct (String.eqb_spec q (backup_file path)).
  - by destruct (String.eqb_spec q path).
Qed.

Lemma disk_after_app fs a b : disk_after fs (a ++ b) = disk_after (disk_after fs a) b.
Proof. unfold disk_after. by rewrite fold_left_app. Qed.

(** In writes that come in pairs, a dump stands right after the backup of
    its file. *)
Lemma backed_up_dump effs path data :
  backed_up effs = true → Dump path data ∈ effs →
  ∃ pre post, effs = (pre ++ Backup path :: Dump path data :: post)%list.
Proof.
  revert effs. fix IH 1. intros [|[p|p d] [|[p'|p' d'] effs]]; try done.
  { intros _ H. by apply elem_of_nil in H. }
  cbn [backed_up]. intros [->%String.eqb_eq Hrest]%andb_prop Hin.
  apply elem_of_cons in Hin as [[=]|Hin].
  apply elem_of_cons in Hin as [[= <- <-]|Hin].
  - by exists [], effs.
  - destruct (IH effs Hrest Hin) as (pre & post & ->).
    by exists (Backup p' :: Dump p' d' :: pre), post.
Qed.

(** The writes of a run are pairs of a backup of a file and a dump to that
    file, but for the dump of the index when there was no index. *)
Lemma main_backed_up w :
  backed_up (snd (main w)) = true
  ∨ (index_exists w = false
     ∧ ∃ effs payload,
         snd (main w) = (effs ++ [Dump INDEX_PATH payload])%list
         ∧ backed_up effs = true).
Proof.
  destruct (main_cases w) as [[-> | ->]|(files_data & st' & o & Hload & Hloop & Hmain)];
    [by left..|].
  pose proof (files_loop_backed_up files_data
                (RunState (seed_used (collect_all_existing_ids files_data)) [] [] [])
                eq_refl) as Hpairs.
  rewrite Hloop in Hpairs. cbn [snd] in Hpairs.
  destruct Hmain as [[-> | ->]|(payload & -> & ->)]; cbn [fst snd]; [by left..|].
  destruct (index_exists w).
  - left. apply backed_up_app; [done|]. cbn -[INDEX_PATH]. by rewrite String.eqb_refl.
  - right. split; [done|]. exists (run_effects st'), payload. done.
Qed.

(** What a dump and the backup before it leave on the disk, when no other
    effect writes the two files. *)
Lemma disk_after_dump fs pre post path data :
  NoDup (map written_path (pre ++ Dump path data :: post)) →
  disk_after fs (pre ++ Dump path data :: post) path = Some (YDict data).
Proof.
  intros Hnd. rewrite map_app in Hnd. apply NoDup_app in Hnd as (_ & _ & Hnd).
  cbn [map written_path] in Hnd. apply NoDup_cons in Hnd as [Hpost _].
  rewrite disk_after_app. unfold disk_after at 1. cbn [fold_left].
  fold (disk_after (apply_effect (disk_after fs pre) (Dump path data)) post).
  rewrite disk_after_other by done. cbn [apply_effect]. unfold write.
  by rewrite String.eqb_refl.
Qed.

Lemma disk_after_backup fs pre post path :
  NoDup (map written_path (pre ++ Backup path :: post)) →
  path ∉ map written_path pre →
  disk_after fs (pre ++ Backup path :: post) (backup_file path) = fs path.
Proof.
  intros Hnd Hpre. rewrite map_app in Hnd. apply NoDup_app in Hnd as (_ & _ & Hnd).
  cbn [map written_path] in Hnd. apply NoDup_cons in Hnd as [Hpost _].
  rewrite disk_after_app. unfold disk_after at 1. cbn [fold_left].
  fold (disk_after (apply_effect (disk_after fs pre) (Backup path)) post).
  rewrite disk_after_other by done. cbn [apply_effect]. unfold write.
  rewrite String.eqb_refl. by apply disk_after_other.
Qed.

(** X8. How a run of the index builder ends and what it touches: it ends
    with code 0, with code 2 or with an exception; the index is written
    exactly when it ends with code 0; every backup and every dump is that of
    a managed partition or of the index, so the files a run writes are these
    and their backups (the path with [.bak] added), and no file is written
    twice. *)
Theorem index_written_iff_success (w : world) :
  (fst (main w) = Return 0 ∨ fst (main w) = Return 2 ∨ fst (main w) = Raise)
  ∧ (is_Some (written_index (snd (main w))) ↔ fst (main w) = Return 0)
  ∧ Forall (fun e => effect_path e ∈ tracked_paths ∧ written_path e ∈ written_files)
           (snd (main w))
  ∧ NoDup (map written_path (snd (main w))).
Proof.
  assert (Hwritten : Forall (fun e => written_path e ∈ written_files) (snd (main w))).
  { apply Forall_forall. intros e He.
    eapply elem_of_sublist; [|apply main_written]. by apply list_elem_of_fmap_2. }
  assert (Hnd : NoDup (map written_path (snd (main w)))).
  { exact (sublist_NoDup _ _ written_files_NoDup (main_written w)). }
  assert (Hboth : ∀ effs,
            Forall (fun e => effect_path e ∈ tracked_paths) effs →
            Forall (fun e => written_path e ∈ written_files) effs →
            Forall (fun e => effect_path e ∈ tracked_paths
                             ∧ written_path e ∈ written_files) effs).
  { intros effs H1 H2. by apply Forall_and. }
  assert (Hindex : INDEX_PATH ∈ tracked_paths).
  { unfold tracked_paths. apply elem_of_app. right. by apply list_elem_of_singleton. }
  split_and!; [| |apply Hboth; [|done]|done]; revert Hwritten Hnd.
  all: destruct (main_cases w)
         as [[-> | ->]|(files_data & st' & o & Hload & Hloop & Hmain)].
  all: try (cbn [fst snd]; intros _ _; first [tauto | done | by split; [intros [? [=]]|]]).
  all: pose proof (IndexBuilderFacts.load_managed_names _ _ _ Hload) as Hsub.
  all: pose proof (IndexBuilderFacts.files_loop_effects files_data
                (RunState (seed_used (collect_all_existing_ids files_data)) [] [] []))
    as (extra & Heff & Hpaths).
  all: rewrite Hloop in Heff; cbn [snd run_effects app] in Heff.
  all: pose proof (managed_paths _ _ Hsub Hpaths) as Hmanaged; rewrite <- Heff in Hmanaged.
  all: assert (Hnone : written_index (run_effects st') = None)
         by (apply IndexBuilderFacts.written_index_None;
             eapply Forall_impl; [exact Hmanaged|]; intros e (fname & Hf & ->);
             by apply IndexBuilderFacts.index_path_not_managed).
  all: assert (Hweak : Forall (fun e => effect_path e ∈ tracked_paths) (run_effects st'))
         by (eapply Forall_impl; [exact Hmanaged|]; intros e (fname & Hf & ->);
             unfold tracked_paths; apply elem_of_app; left;
             by apply list_elem_of_fmap_2).
  all: intros _ _.
  all: destruct Hmain as [[-> | ->]|(payload & -> & ->)]; cbn [fst snd].
  all: rewrite ?Hnone; try tauto; try done.
  all: try (split; [by intros [? [=]]|done]).
  - split; [done|]. intros _. rewrite app_assoc, written_index_last. by eexists.
  - apply Forall_app. split; [done|]. apply Forall_app. split.
    + destruct (index_exists w); [|done]. by apply Forall_singleton.
    + by apply Forall_singleton.
Qed.

(** X9. The backup of a run holds what the file held before the run. A file
    the run dumps to ends up holding the document dumped; and, but for the
    index when there was no index, the backup of that file, whatever it held
    before, then holds what the file held when the run started. *)
Theorem backup_holds_previous_content
    (w : world) (fs : disk) (path : string) (data : Dict.t yaml) :
  Dump path data ∈ snd (main w) →
  disk_after fs (snd (main w)) path = Some (YDict data)
  ∧ ((path = INDEX_PATH ∧ index_exists w = false)
     ∨ disk_after fs (snd (main w)) (backup_file path) = fs path).
Proof.
  intros Hin.
  assert (Hnd : NoDup (map written_path (snd (main w)))).
  { exact (sublist_NoDup _ _ written_files_NoDup (main_written w)). }
  split.
  { apply list_elem_of_split in Hin as (pre & post & Heq). rewrite Heq in Hnd |- *.
    by apply disk_after_dump. }
  assert (Hpaired : ∀ effs, backed_up effs = true → Dump path data ∈ effs →
            ∀ tail, snd (main w) = (effs ++ tail)%list →
            disk_after fs (snd (main w)) (backup_file path) = fs path).
  { intros effs Hpairs Hd tail Heq.
    destruct (backed_up_dump effs path data Hpairs Hd) as (pre & post & ->).
    rewrite Heq in Hnd |- *. rewrite <- app_assoc in Hnd |- *.
    cbn [app] in Hnd |- *. apply disk_after_backup; [done|].
    rewrite map_app in Hnd. apply NoDup_app in Hnd as (_ & Hdisj & _).
    intros Hpre. apply (Hdisj path Hpre). cbn [map written_path].
    apply elem_of_cons. right. apply elem_of_cons. by left. }
  destruct (main_backed_up w) as [Hpairs|(Hno & effs & payload & Heq & Hpairs)].
  - right. apply (Hpaired _ Hpairs Hin []). by rewrite app_nil_r.
  - rewrite Heq in Hin. apply elem_of_app in Hin as [Hin|Hin].
    + right. by apply (Hpaired _ Hpairs Hin [Dump INDEX_PATH payload]).
    + left. apply list_elem_of_singleton in Hin. by injection Hin as -> _.
Qed.

(** The order on keys. *)
Lemma compare_refl (a : string) : String.compare a a = Eq.
Proof.
  pose proof (String.compare_antisym a a) as H. by destruct (String.compare a a).
Qed.

Lemma pair_ltb_asym a b : pair_ltb a b = true → pair_ltb b a = false.
Proof.
  unfold pair_ltb, str_ltb. destruct a as [a1 a2], b as [b1 b2]. cbn [fst snd].
  rewrite (String.compare_antisym a1 b1), (String.compare_antisym a2 b2).
  destruct (String.eqb_spec a1 b1) as [->|Hne].
  - rewrite compare_refl, String.eqb_refl. cbn. by destruct (String.compare b2 a2).
  - destruct (String.eqb_spec b1 a1) as [->|_]; [done|].
    destruct (String.compare b1 a1) eqn:Hc; cbn; try done.
Qed.

Lemma in_order_cons a b keys :
  in_order (a :: b :: keys) = negb (pair_ltb b a) && in_order (b :: keys).
Proof. done. Qed.

Lemma insert_sorted_in_order {A} (key : A → string * string) x l :
  in_order (map key l) = true → in_order (map key (insert_sorted key x l)) = true.
Proof.
  induction l as [|y l IH]; [done|]. cbn [insert_sorted].
  destruct (pair_ltb (key x) (key y)) eqn:Hlt.
  - intros Hl. cbn [map]. rewrite in_order_cons, (pair_ltb_asym _ _ Hlt). done.
  - intros Hl. destruct l as [|z l].
    + cbn [map insert_sorted]. by rewrite in_order_cons, Hlt.
    + cbn [map] in Hl. rewrite in_order_cons in Hl. apply andb_prop in Hl as [Hyz Hzl].
      specialize (IH Hzl). cbn [insert_sorted] in *.
      destruct (pair_ltb (key x) (key z)); cbn [map] in *.
      * by rewrite in_order_cons, Hlt, IH.
      * by rewrite in_order_cons, Hyz, IH.
Qed.

Lemma insert_sorted_Permutation {A} (key : A → string * string) x l :
  insert_sorted key x l ≡ₚ x :: l.
Proof.
  induction l as [|y l IH]; [done|]. cbn [insert_sorted].
  destruct (pair_ltb (key x) (key y)); [done|]. by rewrite IH, Permutation_swap.
Qed.

Lemma sorted_by_spec {A} (key : A → string * string) l :
  in_order (map key (sorted_by key l)) = true ∧ sorted_by key l ≡ₚ l.
Proof.
  unfold sorted_by.
  assert (H : ∀ acc, in_order (map key acc) = true →
            in_order (map key (fold_left (fun acc x => insert_sorted key x acc) l acc)) = true
            ∧ fold_left (fun acc x => insert_sorted key x acc) l acc ≡ₚ acc ++ l).
  { induction l as [|x l IH]; intros acc Hacc; cbn [fold_left].
    { by rewrite app_nil_r. }
    destruct (IH (insert_sorted key x acc)) as [Ho Hp];
      [by apply insert_sorted_in_order|].
    split; [done|]. rewrite Hp, insert_sorted_Permutation.
    cbn [app]. apply Permutation_middle. }
  destruct (H [] eq_refl) as [Ho Hp]. done.
Qed.

(** The index gets one entry for each mapping among the items. *)
Lemma files_loop_count files_data st st' :
  files_loop files_data st = (None, st') →
  length (run_index st') = (length (run_index st) + length (lexical_items files_data))%nat.
Proof.
  revert st. induction files_data as [|[fname data] rest IH]; intros st;
    cbn [files_loop lexical_items flat_map].
  { intros [= <-]. cbn. lia. }
  destruct (as_str _) as [label|]; [|done].
  destruct (negb _); [done|].
  cbn [snd].
  destruct (Dict.get "items" data) as [v|]; cbn [default from_option id].
  - destruct v as [| | | |items|]; try done.
    destruct (items_loop _ _ _) as [ist|] eqn:Hloop; [|done].
    intros Hrest%IH.
    destruct (items_loop_result _ _ _ _ Hloop) as (outs & new & _ & Hi & _ & Hlen & _).
    cbn [index_items] in Hi. rewrite length_app.
    assert (Hrun : length (index_items ist) = (length (run_index st) + length new)%nat)
      by by rewrite Hi, length_app.
    fold (lexical_items rest).
    destruct (file_changed ist); cbn [run_index] in Hrest; lia.
  - cbn [items_loop]. intros Hrest%IH. cbn [file_changed run_index index_items] in Hrest.
    cbn [app length]. fold (lexical_items rest). lia.
Qed.

Lemma keyed_entries (l : list ((string * string) * Dict.t yaml)) :
  Forall (fun ke => sort_key (snd ke) = Some (fst ke)) l →
  mapM entry_key (map YDict (map snd l)) = Some (map fst l).
Proof.
  induction l as [|[k e] l IH]; [done|]. intros [Hk Hl]%Forall_cons.
  cbn [map fst snd] in *. cbn [mapM entry_key]. rewrite Hk, (IH Hl). done.
Qed.

(** X10. The index a run writes is sorted and complete: its entries are in
    the order of their keys (category, then identifier), every entry has
    such a key, and there is one entry for each mapping among the items of
    the partitions. *)
Theorem index_sorted_and_complete
    (w : world) (effs : list effect) (files_data : list (string * Dict.t yaml)) :
  main w = (Return 0, effs) →
  load_managed MANAGED_FILES (lexicon_files w) = Some files_data →
  ∃ payload keys,
    written_index effs = Some payload
    ∧ mapM entry_key (payload_entries payload) = Some keys
    ∧ in_order keys = true
    ∧ length (payload_entries payload) = length (lexical_items files_data).
Proof.
  intros (files & st' & keyed & Hdir & Hload & Hne & Hloop & Hkeys & ->)%main_Return_0.
  rewrite Hload. intros [= <-].
  destruct (sorted_by_spec fst keyed) as [Horder Hperm].
  set (sorted := sorted_by fst keyed) in *.
  exists (index_payload (map snd sorted)), (map fst sorted).
  assert (Hkeyed : Forall (fun ke => sort_key (snd ke) = Some (fst ke)) keyed).
  { apply mapM_Some_1 in Hkeys. clear -Hkeys.
    induction Hkeys as [|e ke l k He _ IH]; constructor; [|done].
    destruct (sort_key e) as [key|] eqn:Hk; cbn in He; [|done]. by injection He as <-. }
  split_and!.
  - rewrite app_assoc. apply written_index_last.
  - apply keyed_entries. by rewrite Hperm.
  - done.
  - apply files_loop_count in Hloop. cbn [run_index length] in Hloop.
    change (payload_entries (index_payload (map snd sorted)))
      with (map YDict (map snd sorted)).
    rewrite !length_map, Hperm, <- (length_mapM _ _ _ Hkeys). lia.
Qed.

Lemma index_sorted_and_complete_witness :
  ∃ payload keys,
    written_index (snd (main Samples.katze_world)) = Some payload
    ∧ mapM entry_key (payload_entries payload) = Some keys
    ∧ in_order keys = true
    ∧ length (payload_entries payload) = 3%nat.
Proof.
  apply (index_sorted_and_complete Samples.katze_world (snd (main Samples.katze_world))
           [("nouns.yaml",
             [("category", YStr "noun");
              ("items", YList [Samples.entry "Katze"; Samples.entry "Katze";
                               Samples.entry "Katze 2"])])]);
    vm_compute; reflexivity.
Defined.

(** What the loop over the files dumps. *)
Lemma files_loop_dumps files_data st path data2 :
  Dump path data2 ∈ run_effects (snd (files_loop files_data st)) →
  Dump path data2 ∈ run_effects st
  ∨ ∃ fname data items outs,
      (fname, data) ∈ files_data ∧ path = path_of fname
      ∧ Dict.get "items" data = Some (YList items)
      ∧ data2 = Dict.set "items" (YList outs) data
      ∧ Forall2 item_result items outs
      ∧ ¬ Forall assigned items.
Proof.
  revert st. induction files_data as [|[fname data] rest IH]; intros st;
    cbn [files_loop]; [by left|].
  destruct (as_str _) as [label|]; [|by left].
  destruct (negb _); [by left|].
  destruct (default (YList []) (Dict.get "items" data)) as [| | | |items|] eqn:Hitems;
    try by left.
  destruct (items_loop _ _ _) as [ist|] eqn:Hloop; [|by left].
  intros [Hin|(f & d & its & outs & Hfd & Hrest)]%IH.
  - destruct (items_loop_result _ _ _ _ Hloop)
      as (outs & new & Hd & _ & Hres & _ & Hassigned & _).
    cbn [items_done file_changed app] in Hd, Hassigned.
    destruct (file_changed ist) eqn:Hchanged; cbn [run_effects] in Hin; [|by left].
    apply elem_of_app in Hin as [Hin|Hin]; [by left|]. right.
    apply elem_of_cons in Hin as [[=]|Hin].
    apply list_elem_of_singleton in Hin as [= -> ->].
    exists fname, data, items, outs. split_and!; try done.
    + apply elem_of_cons. by left.
    + destruct (Dict.get "items" data) as [v|]; cbn [default from_option id] in Hitems;
        [by subst v|].
      injection Hitems as <-. cbn [items_loop] in Hloop. injection Hloop as <-. done.
    + by rewrite Hd.
    + intros Hall. destruct (Hassigned Hall) as [_ Hf]. congruence.
  - right. exists f, d, its, outs. split; [|done]. apply elem_of_cons. by right.
Qed.

Lemma load_managed_elem names files files_data fname data :
  load_managed names files = Some files_data → (fname, data) ∈ files_data →
  fname ∈ names ∧ ∃ v, Dict.get fname files = Some v ∧ load_yaml v = Some data.
Proof.
  revert files_data. induction names as [|name names IH]; intros files_data;
    cbn [load_managed].
  { intros [= <-] Hin. by apply elem_of_nil in Hin. }
  destruct (Dict.get name files) as [v|] eqn:Hget.
  - destruct (load_yaml v) as [d|] eqn:Hv; cbn [mbind option_bind]; [|done].
    destruct (load_managed names files) as [others|]; cbn [mbind option_bind]; [|done].
    intros [= <-] [[= -> ->]|Hin]%elem_of_cons.
    + split; [apply elem_of_cons; by left|]. by exists v.
    + destruct (IH others eq_refl Hin) as [Hn Hv']. split; [|done].
      apply elem_of_cons. by right.
  - intros Hload Hin. destruct (IH _ Hload Hin) as [Hn Hv']. split; [|done].
    apply elem_of_cons. by right.
Qed.

(** X11. A run only adds identifiers. What it dumps to a partition is the
    partition it loaded with the items replaced one for one: a mapping gets
    or keeps its identifier (trimmed, not empty, the one it carried if it
    carried one) and is otherwise unchanged, any other item is left as it is;
    and a partition is dumped only when one of its mappings carried no
    identifier. *)
Theorem run_only_adds_identifiers (w : world) (path : string) (data2 : Dict.t yaml) :
  Dump path data2 ∈ snd (main w) → path ≠ INDEX_PATH →
  ∃ fname v data items outs,
    fname ∈ MANAGED_FILES ∧ path = path_of fname
    ∧ Dict.get fname (lexicon_files w) = Some v ∧ load_yaml v = Some data
    ∧ Dict.get "items" data = Some (YList items)
    ∧ data2 = Dict.set "items" (YList outs) data
    ∧ Forall2 item_result items outs
    ∧ ¬ Forall assigned items.
Proof.
  intros Hin Hpath.
  destruct (main_cases w) as [[Hmain|Hmain]|(files_data & st' & o & Hload & Hloop & Hmain)].
  1-2: rewrite Hmain in Hin; by apply elem_of_nil in Hin.
  assert (Hrun : Dump path data2 ∈ run_effects st').
  { destruct Hmain as [[Hmain|Hmain]|(payload & -> & Hmain)]; rewrite Hmain in Hin;
      cbn [snd] in Hin; try done.
    apply elem_of_app in Hin as [Hin|Hin]; [done|].
    apply elem_of_app in Hin as [Hin|Hin].
    - destruct (index_exists w); [|by apply elem_of_nil in Hin].
      by apply list_elem_of_singleton in Hin.
    - apply list_elem_of_singleton in Hin as [= -> _]. done. }
  pose proof (files_loop_dumps files_data
                (RunState (seed_used (collect_all_existing_ids files_data)) [] [] [])
                path data2) as Hdumps.
  rewrite Hloop in Hdumps. cbn [snd run_effects] in Hdumps.
  destruct (Hdumps Hrun) as [Hnil|(fname & data & items & outs & Hfd & -> & Hrest)].
  { by apply elem_of_nil in Hnil. }
  destruct (load_managed_elem _ _ _ _ _ Hload Hfd) as [Hname (v & Hv & Hdata)].
  by exists fname, v, data, items, outs.
Qed.

Lemma run_only_adds_identifiers_witness :
  ∃ fname v data items outs,
    fname ∈ MANAGED_FILES ∧ path_of "nouns.yaml" = path_of fname
    ∧ Dict.get fname (lexicon_files Samples.unlabelled_verbs_world) = Some v
    ∧ load_yaml v = Some data
    ∧ Dict.get "items" data = Some (YList items)
    ∧ [("category", YStr "noun");
       ("items", YList [Samples.entry_with_id "Katze" "LEX.NOUN.KATZE"])]
      = Dict.set "items" (YList outs) data
    ∧ Forall2 item_result items outs
    ∧ ¬ Forall assigned items.
Proof.
  apply (run_only_adds_identifiers Samples.unlabelled_verbs_world).
  - assert (Hrun : snd (main Samples.unlabelled_verbs_world)
                   = [Backup (path_of "nouns.yaml");
                      Dump (path_of "nouns.yaml")
                        [("category", YStr "noun");
                         ("items", YList [Samples.entry_with_id "Katze" "LEX.NOUN.KATZE"])]])
      by (vm_compute; reflexivity).
    rewrite Hrun. apply elem_of_cons. right. apply elem_of_cons. by left.
  - vm_compute. discriminate.
Defined.

(** The identifiers collected before the loop. *)
Lemma collect_items_seen fname i items seen k :
  is_Some (collect_items fname i items seen !! k)
  ↔ is_Some (seen !! k)
    ∨ ∃ fields, YDict fields ∈ items ∧ existing_lex_id fields = Some k.
Proof.
  revert i seen. induction items as [|item items IH]; intros i seen; cbn [collect_items].
  { split; [by left|]. intros [?|(fields & Hin & _)]; [done|]. by apply elem_of_nil in Hin. }
  assert (Hskip : (∃ fields, YDict fields ∈ items ∧ existing_lex_id fields = Some k)
                  → ∃ fields, YDict fields ∈ item :: items ∧ existing_lex_id fields = Some k).
  { intros (fields & Hin & Hex). exists fields. split; [|done]. apply elem_of_cons. by right. }
  destruct item as [| | | | |fields0];
    try (rewrite IH; split; [intros [?|?]; [by left|by right; apply Hskip]|];
         intros [?|(fields & [[=]|Hin]%elem_of_cons & Hex)]; [by left|];
         right; by exists fields).
  rewrite IH. destruct (existing_lex_id fields0) as [key|] eqn:Hkey.
  - destruct (seen !! key) as [place|] eqn:Hseen.
    + split; [intros [?|?]; [by left|by right; apply Hskip]|].
      intros [?|(fields & [[= <-]|Hin]%elem_of_cons & Hex)]; [by left| |].
      * left. rewrite Hkey in Hex. injection Hex as <-. by rewrite Hseen.
      * right. by exists fields.
    + split.
      * intros [Hk|?]; [|by right; apply Hskip].
        destruct (decide (key = k)) as [<-|Hne].
        -- right. exists fields0. split; [apply elem_of_cons; by left|done].
        -- left. by rewrite lookup_insert_ne in Hk.
      * intros [Hk|(fields & [[= <-]|Hin]%elem_of_cons & Hex)].
        -- left. destruct (decide (key = k)) as [<-|Hne];
             [by rewrite lookup_insert_eq|by rewrite lookup_insert_ne].
        -- left. rewrite Hkey in Hex. injection Hex as <-. by rewrite lookup_insert_eq.
        -- right. by exists fields.
  - split; [intros [?|?]; [by left|by right; apply Hskip]|].
    intros [?|(fields & [[= <-]|Hin]%elem_of_cons & Hex)]; [by left|congruence|].
    right. by exists fields.
Qed.

Lemma collect_files_seen files_data seen k :
  is_Some (collect_files files_data seen !! k)
  ↔ is_Some (seen !! k)
    ∨ ∃ fname data items fields,
        (fname, data) ∈ files_data ∧ Dict.get "items" data = Some (YList items)
        ∧ YDict fields ∈ items ∧ existing_lex_id fields = Some k.
Proof.
  revert seen. induction files_data as [|[fname data] rest IH]; intros seen;
    cbn [collect_files].
  { split; [by left|]. intros [?|(? & ? & ? & ? & Hin & _)]; [done|].
    by apply elem_of_nil in Hin. }
  assert (Hskip : (∃ f d items fields,
                     (f, d) ∈ rest ∧ Dict.get "items" d = Some (YList items)
                     ∧ YDict fields ∈ items ∧ existing_lex_id fields = Some k)
                  → ∃ f d items fields,
                      (f, d) ∈ (fname, data) :: rest
                      ∧ Dict.get "items" d = Some (YList items)
                      ∧ YDict fields ∈ items ∧ existing_lex_id fields = Some k).
  { intros (f & d & items & fields & Hin & Hrest). exists f, d, items, fields.
    split; [|done]. apply elem_of_cons. by right. }
  destruct (Dict.get "items" data) as [v|] eqn:Hitems.
  - destruct v as [| | | |items|submap];
      try (rewrite IH; split; [intros [?|?]; [by left|by right; apply Hskip]|];
           intros [?|(f & d & its & fields & [[= -> ->]|Hin]%elem_of_cons & Hget & Hrest)];
           [by left|congruence|]; right; by exists f, d, its, fields).
    rewrite IH, collect_items_seen. split.
    + intros [[?|(fields & Hin & Hex)]|?]; [by left| |by right; apply Hskip].
      right. exists fname, data, items, fields. split; [apply elem_of_cons; by left|done].
    + intros [?|(f & d & its & fields & [[= -> ->]|Hin]%elem_of_cons & Hget & Hin' & Hex)].
      * by left; left.
      * left. right. rewrite Hitems in Hget. injection Hget as <-. by exists fields.
      * right. by exists f, d, its, fields.
  - rewrite IH. split; [intros [?|?]; [by left|by right; apply Hskip]|].
    intros [?|(f & d & its & fields & [[= -> ->]|Hin]%elem_of_cons & Hget & Hrest)];
      [by left|congruence|]. right. by exists f, d, its, fields.
Qed.

(** X12. The counters a run starts from: an identifier has a counter exactly
    when some mapping among the items of a partition carries it (trimmed), the
    counter is 1 then, and a proposal equal to such an identifier is handed
    out with the suffix [.2]. *)
Theorem existing_ids_seed_counters (files_data : list (string * Dict.t yaml)) (k : string) :
  let used := seed_used (collect_all_existing_ids files_data) in
  (used !! k = Some 1%nat
   ↔ ∃ fname data items fields,
       (fname, data) ∈ files_data ∧ Dict.get "items" data = Some (YList items)
       ∧ YDict fields ∈ items ∧ existing_lex_id fields = Some k)
  ∧ (used !! k = None ∨ used !! k = Some 1%nat)
  ∧ (is_Some (used !! k) → fst (ensure_unique_id k used) = k ++ ".2").
Proof.
  cbn zeta. unfold seed_used, collect_all_existing_ids.
  pose proof (collect_files_seen files_data ∅ k) as Hseen.
  rewrite lookup_fmap.
  destruct (collect_files files_data ∅ !! k) as [place|] eqn:Hk; cbn [fmap option_fmap option_map].
  - split_and!; [|by right|].
    + split; [intros _|done].
      destruct (proj1 Hseen) as [Hempty|?]; [by eexists| |done].
      rewrite lookup_empty in Hempty. by destruct Hempty.
    + intros _. unfold ensure_unique_id. rewrite lookup_fmap, Hk. done.
  - split_and!; [|by left|by intros [? [=]]].
    split; [done|]. intros Hex. destruct (proj2 Hseen) as [? [=]]. by right.
Qed.

(** X13. What [build_index_entry] puts in an entry: the identifier, the
    category and the text of the item, and its sources when it has some; a
    lemma exactly for nouns and verbs; an article only for nouns, and then
    [der], [die] or [das]. *)
Theorem index_entry_mirrors_item
    (category : string) (item entry : Dict.t yaml) :
  build_index_entry category item = Some entry →
  Dict.get "lex_id" entry = Dict.get "lex_id" item
  ∧ Dict.get "category" entry = Some (YStr category)
  ∧ Dict.get "text" entry = Some (text_of item)
  ∧ Dict.get "sources" entry = Dict.get "sources" item
  ∧ Dict.mem "lemma" entry = is_category category "noun" || is_category category "verb"
  ∧ (∀ v, Dict.get "article" entry = Some v →
       is_category category "noun" = true ∧ ∃ a, v = YStr a ∧ a ∈ ARTICLES).
Proof. apply build_index_entry_fields. Qed.

Lemma index_entry_mirrors_item_witness :
  Dict.get "lex_id"
    [("lex_id", YStr "LEX.NOUN.KATZE.DIE"); ("category", YStr "noun");
     ("text", YStr "die Katze"); ("article", YStr "die"); ("lemma", YStr "Katze")]
  = Dict.get "lex_id" [("text", YStr "die Katze"); ("lex_id", YStr "LEX.NOUN.KATZE.DIE")]
  ∧ Dict.mem "lemma"
      [("lex_id", YStr "LEX.NOUN.KATZE.DIE"); ("category", YStr "noun");
       ("text", YStr "die Katze"); ("article", YStr "die"); ("lemma", YStr "Katze")]
    = true.
Proof.
  destruct (index_entry_mirrors_item "noun"
              [("text", YStr "die Katze"); ("lex_id", YStr "LEX.NOUN.KATZE.DIE")]
              [("lex_id", YStr "LEX.NOUN.KATZE.DIE"); ("category", YStr "noun");
               ("text", YStr "die Katze"); ("article", YStr "die");
               ("lemma", YStr "Katze")])
    as (Hid & _ & _ & _ & Hlemma & _).
  - vm_compute. reflexivity.
  - split; [exact Hid|exact Hlemma].
Defined.

(** X14. The identifier a run assigns to an item, [make_lex_id] then
    [ensure_unique_id], is well formed whatever the counters hold: segments of
    capitals and digits joined by single dots, not empty, and trimming leaves
    it as it is, so that a later run reads it back as the identifier of the
    item. *)
Theorem assigned_identifier_well_formed
    (category text : string) (used : gmap string nat) (fields : Dict.t yaml) :
  id_token (fst (ensure_unique_id (make_lex_id category text) used)) = true
  ∧ fst (ensure_unique_id (make_lex_id category text) used) ≠ ""
  ∧ strip (fst (ensure_unique_id (make_lex_id category text) used))
    = fst (ensure_unique_id (make_lex_id category text) used)
  ∧ existing_lex_id
      (Dict.set "lex_id"
         (YStr (fst (ensure_unique_id (make_lex_id category text) used))) fields)
    = Some (fst (ensure_unique_id (make_lex_id category text) used)).
Proof.
  destruct (ensure_unique_id_token (make_lex_id category text) used
              (proj1 (make_lex_id_shape category text))
              (make_lex_id_nonempty category text)) as [Htok Hne].
  pose proof (id_token_strip _ Htok) as Hs.
  split_and!; try done. by apply existing_lex_id_set.
Qed.

(** Every entry the loops add to the index carries an identifier, a text
    that is not empty. *)
Lemma item_step_ids category st item st' :
  item_step category st item = Some st' →
  Forall (fun e => ∃ id, Dict.get "lex_id" e = Some (YStr id) ∧ id ≠ "") (index_items st) →
  Forall (fun e => ∃ id, Dict.get "lex_id" e = Some (YStr id) ∧ id ≠ "") (index_items st').
Proof.
  assert (Hentry : ∀ id fields entry,
            id ≠ "" →
            build_index_entry category (Dict.set "lex_id" (YStr id) fields) = Some entry →
            ∃ id, Dict.get "lex_id" entry = Some (YStr id) ∧ id ≠ "").
  { intros id fields entry Hne (Hid & _)%build_index_entry_fields.
    rewrite get_set_eq in Hid. by exists id. }
  destruct item as [| | | | |fields]; cbn [item_step]; try by intros [= <-].
  destruct (existing_lex_id fields) as [stripped|] eqn:Hex; cbn [mbind option_bind].
  - destruct (build_index_entry _ _) as [entry|] eqn:He; cbn [mbind option_bind]; [|done].
    intros [= <-] Hall. cbn [index_items]. apply Forall_app. split; [done|].
    apply Forall_singleton. eapply Hentry; [|exact He].
    by apply existing_lex_id_trimmed in Hex as [? _].
  - destruct (str_or_empty _) as [text|]; cbn [mbind option_bind]; [|done].
    pose proof (ensure_unique_id_token (make_lex_id category text) (used_counts st)
                  (proj1 (make_lex_id_shape category text))
                  (make_lex_id_nonempty category text)) as [_ Hne].
    destruct (ensure_unique_id _ _) as [final_id used']. cbn [fst] in Hne.
    cbn [mbind option_bind].
    destruct (build_index_entry _ _) as [entry|] eqn:He; cbn [mbind option_bind]; [|done].
    intros [= <-] Hall. cbn [index_items]. apply Forall_app. split; [done|].
    apply Forall_singleton. by eapply Hentry.
Qed.

Lemma items_loop_ids category items st st' :
  items_loop category items st = Some st' →
  Forall (fun e => ∃ id, Dict.get "lex_id" e = Some (YStr id) ∧ id ≠ "") (index_items st) →
  Forall (fun e => ∃ id, Dict.get "lex_id" e = Some (YStr id) ∧ id ≠ "") (index_items st').
Proof.
  revert st. induction items as [|item items IH]; intros st; cbn [items_loop].
  { by intros [= <-]. }
  destruct (item_step category st item) as [st1|] eqn:Hstep; [|done].
  intros Hloop Hall. eapply IH; [exact Hloop|]. by eapply item_step_ids.
Qed.

Lemma files_loop_ids files_data st :
  Forall (fun e => ∃ id, Dict.get "lex_id" e = Some (YStr id) ∧ id ≠ "") (run_index st) →
  Forall (fun e => ∃ id, Dict.get "lex_id" e = Some (YStr id) ∧ id ≠ "")
         (run_index (snd (files_loop files_data st))).
Proof.
  revert st. induction files_data as [|[fname data] rest IH]; intros st Hall;
    cbn [files_loop]; [done|].
  destruct (as_str _) as [label|]; [|done].
  destruct (negb _); [done|].
  destruct (default _ _); try done.
  destruct (items_loop _ _ _) as [ist|] eqn:Hloop; [|done].
  apply IH. apply items_loop_ids in Hloop; [|done].
  by destruct (file_changed ist).
Qed.

(** The entries of the index a run writes. *)
Lemma written_index_entries w effs :
  main w = (Return 0, effs) →
  ∃ entries,
    written_index effs = Some (index_payload entries)
    ∧ Forall (fun e => ∃ id, Dict.get "lex_id" e = Some (YStr id) ∧ id ≠ "") entries.
Proof.
  intros (files_data & st' & keyed & Hdir & Hload & Hne & Hloop & Hkeys & ->)%main_Return_0.
  exists (map snd (sorted_by fst keyed)). split.
  { rewrite app_assoc. apply written_index_last. }
  pose proof (files_loop_ids files_data
                (RunState (seed_used (collect_all_existing_ids files_data)) [] [] [])
                (Forall_nil_2 _)) as Hids.
  rewrite Hloop in Hids. cbn [snd] in Hids.
  destruct (sorted_by_spec fst keyed) as [_ Hperm]. rewrite Hperm.
  apply mapM_Some_1 in Hkeys. clear -Hkeys Hids.
  induction Hkeys as [|e ke l k He _ IH]; [constructor|].
  apply Forall_cons in Hids as [He' Hl]. cbn [map]. constructor; [|by apply IH].
  destruct (sort_key e); cbn in He; [|done]. by injection He as <-.
Qed.

End IndexRunFacts.

(** ** Tables of the extractor *)
Module TableFacts.
Import Py Extractor Notions TableNotions DictFacts.

Lemma filter_ext_elem {A} (P Q : A → Prop)
    {HP : ∀ x, Decision (P x)} {HQ : ∀ x, Decision (Q x)} (l : list A) :
  (∀ x, x ∈ l → P x ↔ Q x) → filter P l = filter Q l.
Proof.
  induction l as [|x l IH]; [done|]. intros Hext.
  rewrite !filter_cons.
  assert (Hl : filter P l = filter Q l).
  { apply IH. intros y Hy. apply Hext, elem_of_cons. by right. }
  assert (Hx : P x ↔ Q x) by (apply Hext, elem_of_cons; by left).
  destruct (decide (P x)), (decide (Q x)); rewrite ?Hl; tauto.
Qed.

(** The loop over [PRONOUN_ORDER]. *)
Lemma first_pass_spec (t : table) ps out :
  NoDup ps → (∀ p, p ∈ ps → Dict.mem p out = false) →
  let out' := fold_left (fun out p =>
                 match Dict.get p t with
                 | Some v => Dict.set p v out
                 | None => out
                 end) ps out in
  Dict.keys out' = (Dict.keys out ++ filter (fun p => p ∈ Dict.keys t) ps)%list
  ∧ ∀ k, Dict.get k out'
         = match Dict.get k out with
           | Some v => Some v
           | None => if bool_decide (k ∈ ps) then Dict.get k t else None
           end.
Proof.
  cbn zeta. revert out. induction ps as [|p ps IH]; intros out Hnd Hfresh; cbn [fold_left].
  { rewrite filter_nil, app_nil_r. split; [done|]. intros k. by destruct (Dict.get k out). }
  apply NoDup_cons in Hnd as [Hp Hnd].
  assert (Hpout : Dict.mem p out = false) by (apply Hfresh, elem_of_cons; by left).
  assert (Hpget : Dict.get p out = None).
  { unfold Dict.mem in Hpout. by destruct (Dict.get p out). }
  rewrite filter_cons.
  destruct (Dict.get p t) as [v|] eqn:Hpt.
  - destruct (IH (Dict.set p v out) Hnd) as [Hkeys Hget].
    { intros q Hq. unfold Dict.mem. rewrite get_set_ne by (by intros ->).
      apply (Hfresh q). apply elem_of_cons. by right. }
    assert (Hin : p ∈ Dict.keys t) by (apply mem_keys; unfold Dict.mem; by rewrite Hpt).
    destruct (decide (p ∈ Dict.keys t)); [|done].
    split.
    + by rewrite Hkeys, keys_set_new, <- app_assoc.
    + intros k. rewrite Hget. destruct (String.eqb_spec p k) as [<-|Hne].
      * rewrite get_set_eq, Hpget. rewrite bool_decide_eq_true_2; [done|].
        apply elem_of_cons. by left.
      * rewrite get_set_ne by done. destruct (Dict.get k out); [done|].
        destruct (decide (k ∈ ps)) as [Hk|Hk].
        -- rewrite !bool_decide_eq_true_2; [done|apply elem_of_cons; by right|done].
        -- rewrite !bool_decide_eq_false_2; [done| |done].
           intros [?|?]%elem_of_cons; [by apply Hne|done].
  - destruct (IH out Hnd) as [Hkeys Hget].
    { intros q Hq. apply Hfresh, elem_of_cons. by right. }
    assert (Hin : p ∉ Dict.keys t) by by apply get_None_keys.
    destruct (decide (p ∈ Dict.keys t)); [done|].
    split; [done|]. intros k. rewrite Hget. destruct (Dict.get k out); [done|].
    destruct (String.eqb_spec p k) as [<-|Hne].
    + rewrite bool_decide_eq_false_2 by done.
      rewrite bool_decide_eq_true_2 by (apply elem_of_cons; by left). done.
    + destruct (decide (k ∈ ps)) as [Hk|Hk].
      * rewrite !bool_decide_eq_true_2; [done|apply elem_of_cons; by right|done].
      * rewrite !bool_decide_eq_false_2; [done| |done].
        intros [?|?]%elem_of_cons; [by apply Hne|done].
Qed.

(** The loop over the keys that are left. *)
Lemma second_pass_spec (l : table) out :
  NoDup (Dict.keys l) →
  let out' := fold_left (fun out kv =>
                 if Dict.mem (fst kv) out then out
                 else Dict.set (fst kv) (snd kv) out) l out in
  Dict.keys out' = (Dict.keys out ++ filter (fun k => k ∉ Dict.keys out) (Dict.keys l))%list
  ∧ ∀ k, Dict.get k out'
         = match Dict.get k out with
           | Some v => Some v
           | None => Dict.get k l
           end.
Proof.
  cbn zeta. revert out. induction l as [|[k0 v0] l IH]; intros out Hnd; cbn [fold_left fst snd].
  { cbn. rewrite app_nil_r. split; [done|]. intros k. by destruct (Dict.get k out). }
  cbn [Dict.keys map fst] in Hnd. apply NoDup_cons in Hnd as [Hk0 Hnd].
  change (Dict.keys ((k0, v0) :: l)) with (k0 :: Dict.keys l). rewrite filter_cons.
  destruct (Dict.mem k0 out) eqn:Hmem.
  - destruct (IH out Hnd) as [Hkeys Hget].
    assert (Hin : k0 ∈ Dict.keys out) by by apply mem_keys.
    destruct (decide (k0 ∉ Dict.keys out)); [done|].
    split; [done|]. intros k. rewrite Hget. destruct (Dict.get k out) eqn:Hk; [done|].
    cbn [Dict.get]. destruct (String.eqb_spec k k0) as [->|]; [|done].
    unfold Dict.mem in Hmem. by rewrite Hk in Hmem.
  - destruct (IH (Dict.set k0 v0 out) Hnd) as [Hkeys Hget].
    assert (Hin : k0 ∉ Dict.keys out) by by apply not_mem_keys.
    destruct (decide (k0 ∉ Dict.keys out)); [|done].
    split.
    + rewrite Hkeys, keys_set_new, <- app_assoc by done. cbn [app]. do 2 f_equal.
      apply filter_ext_elem. intros x Hx. rewrite elem_of_app, list_elem_of_singleton.
      split; [tauto|]. intros Hout [?| ->]; done.
    + intros k. rewrite Hget. cbn [Dict.get].
      destruct (String.eqb_spec k k0) as [->|Hne].
      * rewrite get_set_eq. unfold Dict.mem in Hmem. by destruct (Dict.get k0 out).
      * rewrite get_set_ne by (by intros ->). done.
Qed.

Lemma pronoun_order_NoDup : NoDup PRONOUN_ORDER.
Proof. apply (bool_decide_unpack (NoDup PRONOUN_ORDER)). by vm_compute. Qed.

Lemma dict_ext {V} (a b : Dict.t V) :
  NoDup (Dict.keys a) → Dict.keys a = Dict.keys b →
  (∀ k, Dict.get k a = Dict.get k b) → a = b.
Proof.
  revert b. induction a as [|[k v] a IH]; intros [|[k' v'] b]; try done.
  cbn [Dict.keys map fst]. intros [Hk Hnd]%NoDup_cons [= <- Hkeys] Hget.
  pose proof (Hget k) as Hv. cbn [Dict.get] in Hv. rewrite String.eqb_refl in Hv.
  injection Hv as <-. f_equal. apply IH; [done|done|].
  intros x. specialize (Hget x). cbn [Dict.get] in Hget.
  destruct (String.eqb_spec x k) as [Heq|]; [subst x|done].
  rewrite (proj2 (get_None_keys k a)) by done.
  symmetry. apply get_None_keys. unfold Dict.keys at 1. by rewrite <- Hkeys.
Qed.

Lemma ordered_forms_spec (t : table) :
  NoDup (Dict.keys t) →
  (∀ k, Dict.get k (ordered_forms t) = Dict.get k t)
  ∧ Dict.keys (ordered_forms t)
    = (filter (fun p => p ∈ Dict.keys t) PRONOUN_ORDER
         ++ filter (fun k => k ∉ PRONOUN_ORDER) (Dict.keys t))%list.
Proof.
  intros Hnd. unfold ordered_forms.
  destruct (first_pass_spec t PRONOUN_ORDER [] pronoun_order_NoDup) as [Hkeys1 Hget1]; [done|].
  cbn zeta in Hkeys1, Hget1.
  set (out := fold_left _ PRONOUN_ORDER []) in *.
  destruct (second_pass_spec t out Hnd) as [Hkeys2 Hget2]. cbn zeta in Hkeys2, Hget2.
  cbn [Dict.keys map app] in Hkeys1. cbn [Dict.get] in Hget1.
  split.
  - intros k. rewrite Hget2, Hget1. destruct (bool_decide (k ∈ PRONOUN_ORDER)); [|done].
    by destruct (Dict.get k t).
  - rewrite Hkeys2. change (map fst out) with (Dict.keys out). rewrite Hkeys1. f_equal.
    apply filter_ext_elem. intros x Hx. rewrite list_elem_of_filter. tauto.
Qed.

Lemma filter_none {A} (P : A → Prop) {HP : ∀ x, Decision (P x)} (l : list A) :
  (∀ x, x ∈ l → ¬ P x) → filter P l = [].
Proof.
  induction l as [|x l IH]; [done|]. intros Hl. rewrite filter_cons.
  destruct (decide (P x)) as [Hx|_].
  - destruct (Hl x); [apply elem_of_cons; by left|done].
  - apply IH. intros y Hy. apply Hl, elem_of_cons. by right.
Qed.

Lemma filter_all {A} (P : A → Prop) {HP : ∀ x, Decision (P x)} (l : list A) :
  (∀ x, x ∈ l → P x) → filter P l = l.
Proof.
  induction l as [|x l IH]; [done|]. intros Hl. rewrite filter_cons.
  destruct (decide (P x)) as [_|Hx].
  - f_equal. apply IH. intros y Hy. apply Hl, elem_of_cons. by right.
  - destruct Hx. apply Hl, elem_of_cons. by left.
Qed.

(** X15. [ordered_forms] only reorders: every slot keeps its form; the slots
    of [PRONOUN_ORDER] come first, in that order, and the other keys follow
    in the order they had; and ordering an ordered table changes nothing. *)
Theorem ordered_forms_canonical (t : table) :
  NoDup (Dict.keys t) →
  (∀ k, Dict.get k (ordered_forms t) = Dict.get k t)
  ∧ Dict.keys (ordered_forms t)
    = (filter (fun p => p ∈ Dict.keys t) PRONOUN_ORDER
         ++ filter (fun k => k ∉ PRONOUN_ORDER) (Dict.keys t))%list
  ∧ ordered_forms (ordered_forms t) = ordered_forms t.
Proof.
  intros Hnd. destruct (ordered_forms_spec t Hnd) as [Hget Hkeys].
  destruct (ExtractorFacts.ordered_forms_keys t Hnd) as [Hnd' Hsame].
  destruct (ordered_forms_spec (ordered_forms t) Hnd') as [Hget2 Hkeys2].
  split; [done|]. split; [done|].
  apply dict_ext.
  - by apply ExtractorFacts.ordered_forms_keys.
  - rewrite Hkeys2.
    rewrite (filter_ext_elem (fun p => p ∈ Dict.keys (ordered_forms t))
               (fun p => p ∈ Dict.keys t) PRONOUN_ORDER) by (intros x _; apply Hsame).
    rewrite Hkeys. f_equal. rewrite filter_app.
    rewrite (filter_none (fun k => k ∉ PRONOUN_ORDER)
               (filter (fun p => p ∈ Dict.keys t) PRONOUN_ORDER)).
    + apply (filter_all (fun k => k ∉ PRONOUN_ORDER)).
      by intros x [? _]%list_elem_of_filter.
    + intros x [_ Hx]%list_elem_of_filter Hnot. by apply Hnot.
  - done.
Qed.

Lemma ordered_forms_canonical_witness :
  Dict.keys (ordered_forms [("wir", "gehen"); ("extra", "x"); ("du", "gehst"); ("ich", "gehe")])
  = ["ich"; "du"; "wir"; "extra"]
  ∧ ordered_forms (ordered_forms [("wir", "gehen"); ("extra", "x"); ("du", "gehst"); ("ich", "gehe")])
    = ordered_forms [("wir", "gehen"); ("extra", "x"); ("du", "gehst"); ("ich", "gehe")].
Proof.
  destruct (ordered_forms_canonical
              [("wir", "gehen"); ("extra", "x"); ("du", "gehst"); ("ich", "gehe")])
    as (_ & Hkeys & Hidem).
  - apply (bool_decide_unpack _). by vm_compute.
  - split; [|exact Hidem]. rewrite Hkeys. vm_compute. reflexivity.
Defined.

(** A property of slot maps that the empty map has and that storing the form
    of a line keeps holds of every table that is extracted. *)
Lemma extract_tables_ind (P : table → Prop) :
  P [] →
  (∀ current line p g,
     P current → RE_PRONOUN_PAIR (strip line) = Some (p, g) →
     normalize_pronoun p ≠ "sie" →
     P (Dict.set (normalize_pronoun p) (strip g) current)) →
  (∀ current line p g,
     P current → RE_PRONOUN_PAIR (strip line) = Some (p, g) →
     P (Dict.set "sie_sg" (strip g) current) ∧ P (Dict.set "sie_pl" (strip g) current)) →
  ∀ lines, Forall P (extract_tables_from_group lines).
Proof.
  intros Hnil Hset Hsie lines. unfold extract_tables_from_group, scan.
  assert (Hfold : ∀ st, Forall P (fst st) ∧ P (snd st) →
            Forall P (fst (fold_left line_step lines st))
            ∧ P (snd (fold_left line_step lines st))).
  { induction lines as [|line lines IH]; intros st Hst; [done|]. cbn [fold_left].
    apply IH. destruct st as [tables current]. destruct Hst as [Ht Hc].
    cbn [fst snd] in Ht, Hc. unfold line_step.
    destruct (RE_PRONOUN_PAIR (strip line)) as [[p g]|] eqn:Hm.
    - destruct (negb (String.eqb (normalize_pronoun p) "sie")) eqn:Hp; cbn [fst snd].
      + split; [done|]. eapply Hset; [done|exact Hm|].
        apply negb_true_iff in Hp. by destruct (String.eqb_spec (normalize_pronoun p) "sie").
      + split; [done|]. destruct (Hsie current line p g Hc Hm) as [Hsg Hpl].
        unfold sie_step.
        repeat match goal with |- context [if ?b then _ else _] => destruct b end; done.
    - unfold flush. destruct (4 <=? length current)%nat; cbn [fst snd]; [|done].
      split; [|done]. apply Forall_app. split; [done|]. by apply Forall_singleton. }
  destruct (Hfold ([], [])) as [Ht Hc]; [by split|].
  destruct (fold_left line_step lines ([], [])) as [tables current].
  cbn [fst snd] in Ht, Hc. apply ExtractorFacts.unique_tables_Forall.
  unfold flush. destruct (4 <=? length current)%nat; cbn [fst]; [|done].
  apply Forall_app. split; [done|]. by apply Forall_singleton.
Qed.

Lemma normalize_pronoun_order p :
  p ∈ PRONOUN_ALTERNATIVES → normalize_pronoun p ≠ "sie" →
  normalize_pronoun p ∈ PRONOUN_ORDER.
Proof.
  unfold PRONOUN_ALTERNATIVES. rewrite !elem_of_cons.
  intros H. repeat (destruct H as [->|H]); try (by apply elem_of_nil in H).
  all: match goal with
       | |- normalize_pronoun ?p ≠ _ → _ =>
           let v := eval vm_compute in (normalize_pronoun p) in
           change (normalize_pronoun p) with v
       end.
  all: intros Hne; try done; apply (bool_decide_unpack _); by vm_compute.
Qed.

(** Every extracted table has its slots among those of [PRONOUN_ORDER]. *)
Lemma extract_tables_slots lines :
  Forall (fun t => ∀ k, k ∈ Dict.keys t → k ∈ PRONOUN_ORDER)
         (extract_tables_from_group lines).
Proof.
  apply extract_tables_ind.
  - intros k Hk. by apply elem_of_nil in Hk.
  - intros current line p g Hc Hm Hp k [->|Hk]%elem_of_keys_set; [|by apply Hc].
    apply normalize_pronoun_order; [|done]. by eapply ExtractorFacts.RE_PRONOUN_PAIR_pronoun.
  - intros current line p g Hc Hm.
    split; intros k [->|Hk]%elem_of_keys_set; try (by apply Hc);
      apply (bool_decide_unpack _); by vm_compute.
Qed.

(** X16. The tables the extractor writes have their forms in canonical order:
    every slot is one of [PRONOUN_ORDER], the slots stand in that order, and
    so a table has at most nine of them; the loop of [ordered_forms] for
    unexpected keys adds nothing. *)
Theorem written_forms_in_canonical_order (grouped : list ((string * string) * list string)) :
  Forall (fun t => sublist (Dict.keys (forms t)) PRONOUN_ORDER
                   ∧ (length (forms t) <= 9)%nat)
         (main_tables grouped).
Proof.
  unfold main_tables. apply Forall_flat_map, Forall_forall. intros [[ppt slide] lines] _.
  cbn [fst snd]. unfold slide_tables. destruct (_ <? 4)%nat; [done|].
  apply Forall_map. cbn [forms].
  pose proof (extract_tables_slots (pronoun_lines lines)) as Hslots.
  pose proof (ExtractorFacts.extract_tables_paradigms (pronoun_lines lines)) as Hpar.
  rewrite Forall_forall in Hslots, Hpar. apply Forall_forall. intros t Ht.
  destruct (Hpar t Ht) as [_ Hnd]. specialize (Hslots t Ht).
  destruct (ordered_forms_spec t Hnd) as [_ Hkeys].
  assert (Hsub : sublist (Dict.keys (ordered_forms t)) PRONOUN_ORDER).
  { rewrite Hkeys, (filter_none (fun k => k ∉ PRONOUN_ORDER) (Dict.keys t)), app_nil_r.
    - apply sublist_filter.
    - intros k Hk Hnot. by apply Hnot, Hslots. }
  split; [done|]. apply sublist_length in Hsub. by rewrite length_keys in Hsub.
Qed.

(** The pass that drops equal tables. *)
Lemma unique_tables_spec seen tables :
  NoDup (map items_key (unique_tables seen tables))
  ∧ sublist (unique_tables seen tables) tables
  ∧ (∀ t, t ∈ unique_tables seen tables → items_key t ∉ seen)
  ∧ (∀ t, t ∈ tables →
       items_key t ∈ seen ∨ items_key t ∈ map items_key (unique_tables seen tables)).
Proof.
  revert seen. induction tables as [|t tables IH]; intros seen; cbn [unique_tables].
  { split_and!; [constructor|done|by intros t Ht; apply elem_of_nil in Ht|].
    intros t Ht. by apply elem_of_nil in Ht. }
  assert (Hseen : existsb (Extractor.key_eqb (items_key t)) seen = true
                  ↔ items_key t ∈ seen).
  { rewrite existsb_exists. unfold Extractor.key_eqb. split.
    - intros (k & Hk & Heq). apply bool_decide_eq_true in Heq as ->.
      by apply list_elem_of_In.
    - intros Hin. exists (items_key t). split; [by apply list_elem_of_In|].
      by apply bool_decide_eq_true. }
  destruct (existsb _ seen) eqn:Hex.
  - destruct (IH seen) as (Hnd & Hsub & Hfresh & Hall). split_and!; try done.
    + by apply sublist_cons.
    + intros t' [->|Ht']%elem_of_cons; [left; by apply Hseen|by apply Hall].
  - destruct (IH (items_key t :: seen)) as (Hnd & Hsub & Hfresh & Hall).
    assert (Hnot : items_key t ∉ seen).
    { intros Hin. apply Hseen in Hin. congruence. }
    split_and!.
    + cbn [map]. constructor; [|done].
      intros (t' & Heq & Ht')%list_elem_of_fmap. apply (Hfresh t' Ht').
      rewrite <- Heq. apply elem_of_cons. by left.
    + by apply sublist_skip.
    + intros t' [->|Ht']%elem_of_cons; [done|].
      intros Hin. apply (Hfresh t' Ht'). apply elem_of_cons. by right.
    + intros t' [->|Ht']%elem_of_cons.
      * right. cbn [map]. apply elem_of_cons. by left.
      * destruct (Hall t' Ht') as [[Heq|Hin]%elem_of_cons|Hin].
        -- right. cbn [map]. apply elem_of_cons. by left.
        -- by left.
        -- right. cbn [map]. apply elem_of_cons. by right.
Qed.

Lemma extract_tables_clusters lines :
  extract_tables_from_group lines = unique_tables [] (clusters lines).
Proof. unfold extract_tables_from_group, clusters. by destruct (scan lines). Qed.

(** X17. [extract_tables_from_group] returns no table twice: the tables it
    returns are clusters of the slide in the order they were found, no two of
    them have the same slots with the same forms, and every cluster has its
    content among them. *)
Theorem extracted_tables_distinct (lines : list string) :
  NoDup (map items_key (extract_tables_from_group lines))
  ∧ sublist (extract_tables_from_group lines) (clusters lines)
  ∧ (∀ t, t ∈ clusters lines →
       items_key t ∈ map items_key (extract_tables_from_group lines)).
Proof.
  rewrite extract_tables_clusters.
  destruct (unique_tables_spec [] (clusters lines)) as (Hnd & Hsub & _ & Hall).
  split_and!; try done. intros t Ht. destruct (Hall t Ht) as [Hin|Hin]; [|done].
  by apply elem_of_nil in Hin.
Qed.

(** The tables kept so far only go along with the scan. *)
Lemma fold_line_step_prefix lines tables current :
  fold_left line_step lines (tables, current)
  = ((tables ++ fst (fold_left line_step lines ([], current)))%list,
     snd (fold_left line_step lines ([], current))).
Proof.
  revert tables current. induction lines as [|line lines IH]; intros tables current;
    cbn [fold_left].
  { cbn [fst snd]. by rewrite app_nil_r. }
  assert (Hstep : line_step (tables, current) line
                  = ((tables ++ fst (line_step ([], current) line))%list,
                     snd (line_step ([], current) line))).
  { unfold line_step. destruct (RE_PRONOUN_PAIR (strip line)) as [[p g]|].
    - destruct (negb _); cbn [fst snd]; by rewrite app_nil_r.
    - unfold flush. destruct (4 <=? length current)%nat; cbn [fst snd app]; [done|].
      by rewrite app_nil_r. }
  rewrite Hstep. destruct (line_step ([], current) line) as [t1 c1]. cbn [fst snd].
  rewrite (IH (tables ++ t1)%list c1), (IH t1 c1). cbn [fst snd]. by rewrite app_assoc.
Qed.

(** X18. A line that is no pronoun line ends the cluster before it: the
    clusters of a slide with such a line are those of the lines before it
    followed by those of the lines after it, and the tables extracted are
    these, equal tables dropped. *)
Theorem separator_splits_clusters (before after : list string) (x : string) :
  RE_PRONOUN_PAIR (strip x) = None →
  clusters (before ++ x :: after) = (clusters before ++ clusters after)%list
  ∧ extract_tables_from_group (before ++ x :: after)
    = unique_tables [] (clusters before ++ clusters after).
Proof.
  intros Hx.
  assert (Hc : clusters (before ++ x :: after) = (clusters before ++ clusters after)%list).
  { unfold clusters, scan. rewrite fold_left_app. cbn [fold_left].
    destruct (fold_left line_step before ([], [])) as [tables current].
    rewrite (ExtractorFacts.line_step_no_match _ _ _ Hx).
    destruct (flush tables current) as [kept fresh] eqn:Hflush.
    assert (Hfresh : fresh = []).
    { unfold flush in Hflush. by destruct (4 <=? length current)%nat; injection Hflush. }
    subst fresh. rewrite fold_line_step_prefix. cbn [fst].
    destruct (fold_left line_step after ([], [])) as [tables' current'].
    cbn [fst snd]. unfold flush.
    destruct (4 <=? length current')%nat; cbn [fst]; [by rewrite app_assoc|done]. }
  split; [done|]. by rewrite extract_tables_clusters, Hc.
Qed.

Lemma separator_splits_clusters_witness :
  clusters (["ich gehe"; "du gehst"; "er geht"; "wir gehen"] ++ "Verben" ::
            ["ich bin"; "du bist"; "er ist"; "wir sind"])
  = (clusters ["ich gehe"; "du gehst"; "er geht"; "wir gehen"]
       ++ clusters ["ich bin"; "du bist"; "er ist"; "wir sind"])%list.
Proof.
  apply (separator_splits_clusters ["ich gehe"; "du gehst"; "er geht"; "wir gehen"]
           ["ich bin"; "du bist"; "er ist"; "wir sind"] "Verben").
  vm_compute. reflexivity.
Defined.

(** The forms of the extracted tables are trimmed. *)
Lemma trimmed_set k v (t : table) :
  v ≠ "" → strip v = v → trimmed t → trimmed (Dict.set k v t).
Proof.
  intros Hv Hs. unfold trimmed. induction t as [|[k' v'] t IH]; cbn [Dict.set].
  { intros _. by apply Forall_singleton. }
  intros [Hkv Ht]%Forall_cons. destruct (String.eqb k k'); constructor; try done.
  by apply IH.
Qed.

Lemma extract_tables_trimmed lines : Forall trimmed (extract_tables_from_group lines).
Proof.
  apply extract_tables_ind.
  - constructor.
  - intros current line p g Hc Hm _. apply trimmed_set; [|apply TextFacts.strip_idem|done].
    by eapply ExtractorFacts.form_nonempty.
  - intros current line p g Hc Hm.
    split; (apply trimmed_set; [|apply TextFacts.strip_idem|done]);
      by eapply ExtractorFacts.form_nonempty.
Qed.

Lemma nonempty_true s : nonempty s = true ↔ s ≠ "".
Proof. unfold nonempty. by destruct (String.eqb_spec s ""). Qed.

Lemma spoken_trimmed (t : table) : trimmed t → spoken t = map snd t.
Proof.
  unfold trimmed, spoken. intros Ht. apply filter_all. intros v Hv.
  apply list_elem_of_fmap in Hv as (kv & -> & Hkv).
  rewrite Forall_forall in Ht. destruct (Ht kv Hkv) as [Hne Hs].
  rewrite Hs. by apply nonempty_true.
Qed.

Lemma guess_lemma_nonempty (t : table) : spoken t ≠ [] → guess_lemma t ≠ "".
Proof.
  intros Hsp. unfold guess_lemma.
  repeat match goal with
         | |- context [if meets ?a ?b then _ else _] => destruct (meets a b); [done|]
         end.
  destruct (nonempty (strip (form_or_empty "wir" t)) && _) eqn:Hwir.
  { apply andb_prop in Hwir as [Hw _]. by apply nonempty_true. }
  destruct (nonempty (strip (form_or_empty "Sie" t)) && _) eqn:Hsie.
  { apply andb_prop in Hsie as [Hs _]. by apply nonempty_true. }
  destruct (nonempty (strip (form_or_empty "ich" t))) eqn:Hich.
  { by apply nonempty_true. }
  destruct (spoken t) as [|v vs] eqn:Hspoken; [done|].
  assert (Hv : v ∈ spoken t) by (rewrite Hspoken; apply elem_of_cons; by left).
  unfold spoken in Hv. apply list_elem_of_filter in Hv as [Hv _]. by apply nonempty_true.
Qed.

(** X19. Every table the extractor finds gets a lemma: its forms are trimmed
    and not empty, and [guess_lemma] gives a text that is not empty for it,
    so that its last [return ""] is never reached. *)
Theorem extracted_tables_have_lemma (lines : list string) :
  Forall (fun t => trimmed t ∧ guess_lemma t ≠ "") (extract_tables_from_group lines).
Proof.
  pose proof (extract_tables_trimmed lines) as Htrim.
  pose proof (ExtractorFacts.extract_tables_paradigms lines) as Hpar.
  rewrite Forall_forall in Htrim, Hpar. apply Forall_forall. intros t Ht.
  split; [by apply Htrim|]. apply guess_lemma_nonempty.
  rewrite spoken_trimmed by by apply Htrim.
  destruct (Hpar t Ht) as [Hlen _]. destruct t; [cbn in Hlen; lia|done].
Qed.

Lemma meets_app a b forms : meets (a ++ b) forms = meets a forms || meets b forms.
Proof. unfold meets. apply existsb_app. Qed.

Lemma meets_sym a b : meets a b = meets b a.
Proof.
  unfold meets. apply eq_true_iff_eq. rewrite !existsb_exists. split.
  - intros (x & Hx & (y & Hy & Heq)%existsb_exists). apply String.eqb_eq in Heq as ->.
    exists y. split; [done|]. apply existsb_exists. exists y. split; [done|].
    apply String.eqb_refl.
  - intros (x & Hx & (y & Hy & Heq)%existsb_exists). apply String.eqb_eq in Heq as ->.
    exists y. split; [done|]. apply existsb_exists. exists y. split; [done|].
    apply String.eqb_refl.
Qed.

(** X20. The two guesses agree on the irregular verbs. For a table with
    trimmed forms, [detect_pattern] says [irregular] exactly when a form, in
    small letters, is one of [IRREGULAR_MARKERS], and [guess_lemma] then
    gives [sein], [haben] or [werden]. *)
Theorem irregular_pattern_has_irregular_lemma (t : table) :
  trimmed t →
  (detect_pattern t = "irregular"
   ↔ meets (map lower (map snd t)) IRREGULAR_MARKERS = true)
  ∧ (detect_pattern t = "irregular" →
     guess_lemma t = "sein" ∨ guess_lemma t = "haben" ∨ guess_lemma t = "werden").
Proof.
  intros Ht.
  assert (Hforms : map (fun v => lower (strip v)) (spoken t) = map lower (map snd t)).
  { rewrite spoken_trimmed by done. apply map_ext_in. intros v Hv.
    apply in_map_iff in Hv as (kv & <- & Hkv). unfold trimmed in Ht.
    rewrite Forall_forall in Ht. apply list_elem_of_In in Hkv.
    destruct (Ht kv Hkv) as [_ Hs]. by rewrite Hs. }
  assert (Hforms' : filter (fun v => nonempty v = true) (map snd t) = map snd t).
  { apply filter_all. intros v Hv. apply list_elem_of_fmap in Hv as (kv & -> & Hkv).
    unfold trimmed in Ht. rewrite Forall_forall in Ht. destruct (Ht kv Hkv) as [Hne _].
    by apply nonempty_true. }
  assert (Hiff : detect_pattern t = "irregular"
                 ↔ meets (map lower (map snd t)) IRREGULAR_MARKERS = true).
  { unfold detect_pattern. rewrite Hforms'.
    destruct (meets (map lower (map snd t)) IRREGULAR_MARKERS); [done|].
    split; [|done].
    repeat match goal with |- context [if ?b then _ else _] => destruct b end; done. }
  split; [done|]. intros Hirr%Hiff.
  rewrite meets_sym in Hirr.
  change IRREGULAR_MARKERS
    with (["bin"; "bist"; "ist"; "sind"; "seid"] ++ ["habe"; "hast"; "hat"; "haben"]
          ++ ["werde"; "wirst"; "wird"; "werden"])%list in Hirr.
  rewrite !meets_app in Hirr. unfold guess_lemma. rewrite Hforms.
  destruct (meets ["bin"; "bist"; "ist"; "sind"; "seid"] _); [by left|].
  destruct (meets ["habe"; "hast"; "hat"; "haben"] _); [by right; left|].
  destruct (meets ["werde"; "wirst"; "wird"; "werden"] _); [by right; right|done].
Qed.

Lemma irregular_pattern_has_irregular_lemma_witness :
  guess_lemma [("ich", "bin"); ("du", "bist"); ("er", "ist"); ("wir", "sind")] = "sein"
  ∨ guess_lemma [("ich", "bin"); ("du", "bist"); ("er", "ist"); ("wir", "sind")] = "haben"
  ∨ guess_lemma [("ich", "bin"); ("du", "bist"); ("er", "ist"); ("wir", "sind")] = "werden".
Proof.
  apply (irregular_pattern_has_irregular_lemma
           [("ich", "bin"); ("du", "bist"); ("er", "ist"); ("wir", "sind")]).
  - repeat constructor; vm_compute; congruence.
  - vm_compute. reflexivity.
Defined.

(** Keys in the order of first appearance. *)
Lemma elem_of_first_seen {A} `{EqDecision A} (x : A) l : x ∈ first_seen l ↔ x ∈ l.
Proof.
  induction l as [|y l IH]; [done|]. cbn [first_seen].
  rewrite !elem_of_cons, list_elem_of_filter, IH.
  destruct (decide (x = y)); tauto.
Qed.

Lemma first_seen_NoDup {A} `{EqDecision A} (l : list A) : NoDup (first_seen l).
Proof.
  induction l as [|y l IH]; [constructor|]. cbn [first_seen]. constructor.
  - by intros [? _]%list_elem_of_filter.
  - by apply NoDup_filter.
Qed.

Lemma first_seen_snoc {A} `{EqDecision A} (l : list A) x :
  first_seen (l ++ [x])
  = if decide (x ∈ l) then first_seen l else (first_seen l ++ [x])%list.
Proof.
  induction l as [|y l IH]; [done|]. cbn [app first_seen]. rewrite IH.
  destruct (decide (x ∈ l)) as [Hin|Hin].
  { by rewrite (decide_True (P := x ∈ y :: l)) by (apply elem_of_cons; by right). }
  rewrite filter_app, filter_cons, filter_nil.
  destruct (decide (x = y)) as [->|Hne].
  - rewrite (decide_True (P := y ∈ y :: l)) by (apply elem_of_cons; by left).
    destruct (decide (y ≠ y)); [done|]. by rewrite app_nil_r.
  - rewrite (decide_False (P := x ∈ y :: l)) by (intros [?|?]%elem_of_cons; done).
    by destruct (decide (x ≠ y)).
Qed.

(** Appending a line to its group. *)
Lemma append_line_keys key line grouped :
  map fst (append_line key line grouped)
  = if decide (key ∈ map fst grouped) then map fst grouped
    else (map fst grouped ++ [key])%list.
Proof.
  induction grouped as [|[k ls] grouped IH]; [done|]. cbn [append_line map fst].
  destruct (decide (k = key)) as [->|Hne].
  - rewrite bool_decide_eq_true_2 by done.
    by rewrite (decide_True (P := key ∈ key :: map fst grouped))
      by (apply elem_of_cons; by left).
  - rewrite bool_decide_eq_false_2 by done. cbn [map fst]. rewrite IH.
    destruct (decide (key ∈ map fst grouped)) as [Hin|Hin].
    + by rewrite (decide_True (P := key ∈ k :: map fst grouped))
        by (apply elem_of_cons; by right).
    + by rewrite (decide_False (P := key ∈ k :: map fst grouped))
        by (intros [?|?]%elem_of_cons; done).
Qed.

Lemma append_line_group key line grouped key' :
  group_of key' (append_line key line grouped)
  = if decide (key' = key) then Some (default [] (group_of key grouped) ++ [line])%list
    else group_of key' grouped.
Proof.
  induction grouped as [|[k ls] grouped IH]; cbn [append_line group_of].
  { destruct (decide (key' = key)) as [->|Hne].
    - by rewrite bool_decide_eq_true_2.
    - rewrite bool_decide_eq_false_2; [done|]. by intros ->. }
  destruct (decide (k = key)) as [->|Hne].
  - rewrite bool_decide_eq_true_2 by done. cbn [group_of].
    destruct (decide (key' = key)) as [->|Hne'].
    + by rewrite bool_decide_eq_true_2.
    + rewrite bool_decide_eq_false_2; [done|]. by intros ->.
  - rewrite bool_decide_eq_false_2 by done. cbn [group_of]. rewrite IH.
    destruct (decide (key' = key)) as [->|Hne'].
    + rewrite bool_decide_eq_false_2; done.
    + done.
Qed.

Lemma group_by_kept rows :
  group_by_ppt_slide rows
  = fold_left (fun g kl => append_line (fst kl) (snd kl) g) (kept_rows rows) [].
Proof.
  unfold group_by_ppt_slide. generalize (@nil (slide_key * list string)).
  induction rows as [|r rows IH]; intros g; [done|]. cbn [fold_left].
  rewrite IH. unfold row_step, kept_rows. cbn -[nonempty strip cell append_line].
  destruct (nonempty (cell "ppt_file" r)), (nonempty (cell "slide_number" r)),
    (nonempty (strip (cell "norm_text" r))); done.
Qed.

Lemma kept_rows_lines rows :
  Forall (fun kl => snd kl ≠ "" ∧ strip (snd kl) = snd kl) (kept_rows rows).
Proof.
  induction rows as [|r rows IH]; [constructor|].
  unfold kept_rows in *. cbn -[nonempty strip cell].
  destruct (nonempty (cell "ppt_file" r) && nonempty (cell "slide_number" r)
            && nonempty (strip (cell "norm_text" r))) eqn:Hkeep; [|done].
  constructor; [|done]. cbn [snd].
  apply andb_prop in Hkeep as [_ Ht]. split; [by apply nonempty_true|].
  apply TextFacts.strip_idem.
Qed.

Lemma fold_append_spec (kept : list (slide_key * string)) :
  let grouped := fold_left (fun g kl => append_line (fst kl) (snd kl) g) kept [] in
  map fst grouped = first_seen (map fst kept)
  ∧ ∀ key, group_of key grouped
           = if decide (key ∈ map fst kept) then Some (lines_of key kept) else None.
Proof.
  cbn zeta. induction kept as [|[k line] kept IH] using rev_ind.
  { split; [done|]. intros key. rewrite decide_False; [done|]. by intros ?%elem_of_nil. }
  destruct IH as [Hkeys Hgroup]. rewrite fold_left_app. cbn [fold_left fst snd].
  set (grouped := fold_left _ kept []) in *. split.
  - rewrite append_line_keys, map_app. cbn [map fst]. rewrite first_seen_snoc, Hkeys.
    destruct (decide (k ∈ map fst kept)) as [Hin|Hin].
    + by rewrite (decide_True (P := k ∈ first_seen (map fst kept)))
        by by apply elem_of_first_seen.
    + by rewrite (decide_False (P := k ∈ first_seen (map fst kept)))
        by by rewrite elem_of_first_seen.
  - intros key. rewrite append_line_group, !Hgroup, map_app. cbn [map fst].
    unfold lines_of. rewrite filter_app, map_app, filter_cons, filter_nil. cbn [fst].
    destruct (decide (key = k)) as [->|Hne].
    + rewrite (decide_True (P := k ∈ (map fst kept ++ [k])%list))
        by (apply elem_of_app; right; by apply list_elem_of_singleton).
      destruct (decide (k = k)); [|done]. cbn [map snd].
      destruct (decide (k ∈ map fst kept)) as [Hin|Hin]; [done|].
      cbn [default from_option id]. f_equal.
      rewrite (filter_none (fun r : slide_key * string => fst r = k) kept); [done|].
      intros kl Hkl Heq. apply Hin. rewrite <- Heq. by apply list_elem_of_fmap_2.
    + destruct (decide (k = key)); [done|]. cbn [map]. rewrite app_nil_r.
      destruct (decide (key ∈ map fst kept)) as [Hin|Hin].
      * by rewrite (decide_True (P := key ∈ (map fst kept ++ [k])%list))
          by (apply elem_of_app; by left).
      * rewrite (decide_False (P := key ∈ (map fst kept ++ [k])%list)); [done|].
        intros [?|?%list_elem_of_singleton]%elem_of_app; done.
Qed.

(** X21. [group_by_ppt_slide] loses no row that it keeps and mixes no slides:
    the groups are those of the rows with a presentation, a slide number and
    a text that is not blank, one group for each (presentation, slide) in the
    order in which they are first seen, and a group holds the trimmed texts
    of its rows in the order of the rows; no group is empty and no line of a
    group is. *)
Theorem group_by_ppt_slide_spec (rows : list csv_row) :
  map fst (group_by_ppt_slide rows) = first_seen (map fst (kept_rows rows))
  ∧ NoDup (map fst (group_by_ppt_slide rows))
  ∧ (∀ key, group_of key (group_by_ppt_slide rows)
            = if decide (key ∈ map fst (kept_rows rows))
              then Some (lines_of key (kept_rows rows)) else None)
  ∧ (∀ key lines, group_of key (group_by_ppt_slide rows) = Some lines →
       lines ≠ [] ∧ Forall (fun ln => ln ≠ "" ∧ strip ln = ln) lines).
Proof.
  rewrite group_by_kept.
  destruct (fold_append_spec (kept_rows rows)) as [Hkeys Hgroup]. cbn zeta in Hkeys, Hgroup.
  split; [done|]. split; [rewrite Hkeys; apply first_seen_NoDup|]. split; [done|].
  intros key lines. rewrite Hgroup.
  destruct (decide (key ∈ map fst (kept_rows rows))) as [Hin|]; [|done].
  intros [= <-]. unfold lines_of. split.
  - apply list_elem_of_fmap in Hin as (kl & -> & Hkl).
    assert (Hf : kl ∈ filter (fun r => fst r = fst kl) (kept_rows rows))
      by by apply list_elem_of_filter.
    intros Hnil. apply fmap_nil_inv in Hnil. rewrite Hnil in Hf. by apply elem_of_nil in Hf.
  - apply Forall_map. pose proof (kept_rows_lines rows) as Hall.
    rewrite Forall_forall in Hall. apply Forall_forall.
    intros kl [_ Hkl]%list_elem_of_filter. by apply Hall.
Qed.

End TableFacts.

(** ** What the deduplicator keeps *)
Module MergeFacts.
Import Py Yaml Deduper DedupeNotions MergeNotions TableNotions DictFacts DeduperFacts.

Lemma merged_inv_nil : merged_inv [].
Proof. split; cbn [map]; [apply NoDup_nil_2|apply Forall_nil_2]. Qed.

(** The signatures under which tables are kept, as the loop goes. *)
Lemma tables_loop_keys tables merged merged' :
  tables_loop tables merged = Some merged' →
  ∃ sigs,
    mapM table_sig tables = Some sigs
    ∧ map fst merged'
      = fold_left (fun acc sg => if decide (sg ∈ acc) then acc else (acc ++ [sg])%list)
          sigs (map fst merged).
Proof.
  revert merged. induction tables as [|t tables IH]; intros merged; cbn [tables_loop].
  { intros [= <-]. by exists []. }
  destruct (table_step merged t) as [merged1|] eqn:Hstep; [|done].
  intros (sigs & Hsigs & Hkeys)%IH.
  destruct t as [| | | | |d]; try done. cbn [table_step] in Hstep.
  destruct (sig_of d) as [sg|] eqn:Hsig; cbn [mbind option_bind] in Hstep; [|done].
  exists (sg :: sigs). split.
  { cbn [mapM table_sig]. rewrite Hsig, Hsigs. done. }
  cbn [fold_left]. rewrite Hkeys. f_equal.
  destruct (lookup_sig sg merged) as [existing|] eqn:Hlook.
  - destruct (default _ _); try done.
    destruct (merge_sources _ _); cbn [mbind option_bind] in Hstep; [|done].
    injection Hstep as <-. rewrite replace_sig_keys.
    apply lookup_sig_Some in Hlook. rewrite decide_True; [done|].
    by apply (list_elem_of_fmap_2 fst) in Hlook.
  - injection Hstep as <-. apply lookup_sig_None in Hlook.
    rewrite decide_False by done. by rewrite map_app.
Qed.

Lemma fold_first_seen {A} `{EqDecision A} (l : list A) :
  fold_left (fun acc x => if decide (x ∈ acc) then acc else (acc ++ [x])%list) l []
  = first_seen l.
Proof.
  induction l as [|x l IH] using rev_ind; [done|].
  rewrite fold_left_app, IH, TableFacts.first_seen_snoc. cbn [fold_left].
  destruct (decide (x ∈ l)) as [Hin|Hin].
  - by rewrite decide_True by by apply TableFacts.elem_of_first_seen.
  - by rewrite decide_False by by rewrite TableFacts.elem_of_first_seen.
Qed.

Lemma merged_sigs merged :
  merged_inv merged →
  mapM table_sig (map (fun st => YDict (snd st)) merged) = Some (map fst merged).
Proof.
  intros [_ Hall]. induction merged as [|[sg t] merged IH]; [done|].
  apply Forall_cons in Hall as [[Hsg _] Hall]. cbn [fst snd] in Hsg.
  cbn [map mapM table_sig fst snd]. rewrite Hsg, (IH Hall). done.
Qed.

(** X22. What the deduplicator keeps: one table for each signature of the
    document, in the order in which the signatures are first seen, so that no
    two tables left share a signature; and every table left has a list under
    [sources] and no [source]. *)
Theorem one_table_per_signature (tables deduped : list yaml) :
  dedupe_tables tables = Some deduped →
  ∃ sigs,
    mapM table_sig tables = Some sigs
    ∧ mapM table_sig deduped = Some (first_seen sigs)
    ∧ NoDup (first_seen sigs)
    ∧ Forall (fun t => ∃ d, t = YDict d ∧ normalized d) deduped.
Proof.
  unfold dedupe_tables.
  destruct (tables_loop tables []) as [merged|] eqn:Hloop; cbn [mbind option_bind]; [|done].
  intros [= <-].
  pose proof (tables_loop_inv _ _ _ merged_inv_nil Hloop) as Hinv.
  destruct (tables_loop_keys _ _ _ Hloop) as (sigs & Hsigs & Hkeys).
  cbn [map] in Hkeys. rewrite fold_first_seen in Hkeys.
  exists sigs. split; [done|]. split; [by rewrite merged_sigs, Hkeys|].
  split; [apply TableFacts.first_seen_NoDup|].
  apply Forall_map. destruct Hinv as [_ Hall].
  eapply Forall_impl; [exact Hall|]. intros [sg t] [_ Hnorm]. by exists t.
Qed.

Lemma one_table_per_signature_witness :
  ∃ sigs,
    mapM table_sig [YDict Samples.gehen_first; YDict Samples.gehen_second] = Some sigs
    ∧ mapM table_sig [YDict Samples.gehen_merged] = Some (first_seen sigs)
    ∧ NoDup (first_seen sigs)
    ∧ Forall (fun t => ∃ d, t = YDict d ∧ normalized d) [YDict Samples.gehen_merged].
Proof.
  apply (one_table_per_signature [YDict Samples.gehen_first; YDict Samples.gehen_second]).
  vm_compute. reflexivity.
Defined.











End MergeFacts.

(** ** References and the index *)
Module ReferenceFacts.
Import Py Yaml Process Validator ValidatorNotions ReferenceNotions ValidatorFacts.

(** Induction on a value loaded from YAML. *)
Lemma yaml_nested_ind (P : yaml → Prop) :
  P YNull → (∀ b, P (YBool b)) → (∀ z, P (YInt z)) → (∀ s, P (YStr s)) →
  (∀ l, Forall P l → P (YList l)) →
  (∀ d, Forall (fun kv => P (snd kv)) d → P (YDict d)) →
  ∀ v, P v.
Proof.
  intros Hnull Hbool Hint Hstr Hlist Hdict. fix IH 1.
  intros [|b|z|s|l|d]; [done|done|done|done| |].
  - apply Hlist. induction l as [|x l IHl]; constructor; [apply IH|apply IHl].
  - apply Hdict. induction d as [|[k x] d IHd]; constructor; [apply IH|apply IHd].
Qed.

(** Every reference found is a field of the document whose name the pattern
    matches and whose value is not null. *)
Lemma find_lex_id_refs_sound doc :
  ∀ path field_path ref_id,
    (field_path, ref_id) ∈ find_lex_id_refs doc path →
    ∃ k v, field_in doc k v ∧ LEX_ID_KEY_RE k = true ∧ v ≠ YNull ∧ ref_id = py_str v.
Proof.
  induction doc as [| | | |l IH|d IH] using yaml_nested_ind;
    intros path fp r; cbn [find_lex_id_refs];
    try (by intros ?%elem_of_nil).
  - generalize 0%nat. induction l as [|x l IHl]; intros i; cbn [elements_refs].
    { by intros ?%elem_of_nil. }
    apply Forall_cons in IH as [Hx Hl].
    intros [Hin|Hin]%elem_of_app.
    + destruct (Hx _ _ _ Hin) as (k & v & Hf & Hrest). exists k, v. split; [|done].
      eapply field_inside; [|exact Hf]. apply elem_of_cons. by left.
    + destruct (IHl Hl _ Hin) as (k & v & Hf & Hrest). exists k, v. split; [|done].
      inversion Hf as [| |l' x' k' v' Hx' Hf']; subst.
      eapply field_inside; [|exact Hf']. apply elem_of_cons. by right.
  - induction d as [|[k0 v0] d IHd]; cbn [fields_refs].
    { by intros ?%elem_of_nil. }
    apply Forall_cons in IH as [Hv0 Hd]. cbn [snd] in Hv0.
    assert (Hlift : ∀ k v, field_in (YDict d) k v → field_in (YDict ((k0, v0) :: d)) k v).
    { intros k v Hf. inversion Hf as [d' k' v' Hin|d' k' v' k'' v'' Hin Hf'|]; subst.
      - apply field_here. apply elem_of_cons. by right.
      - eapply field_under; [|exact Hf']. apply elem_of_cons. by right. }
    intros [Hin|[Hin|Hin]%elem_of_app]%elem_of_app.
    + destruct (LEX_ID_KEY_RE k0) eqn:Hk0; cbn [andb] in Hin;
        [|by apply elem_of_nil in Hin].
      destruct (is_null v0) eqn:Hnull; cbn [negb] in Hin; [by apply elem_of_nil in Hin|].
      apply list_elem_of_singleton in Hin as [= -> ->].
      exists k0, v0. split_and!; try done.
      * apply field_here. apply elem_of_cons. by left.
      * intros ->. done.
    + destruct (Hv0 _ _ _ Hin) as (k & v & Hf & Hrest). exists k, v. split; [|done].
      eapply field_under; [|exact Hf]. apply elem_of_cons. by left.
    + destruct (IHd Hd Hin) as (k & v & Hf & Hrest). exists k, v. split; [|done].
      by apply Hlift.
Qed.

Lemma unresolved_in_elem lex_ids ypath refs m :
  m ∈ unresolved_in lex_ids ypath refs →
  ∃ field_path ref_id,
    m = Unresolved ypath field_path ref_id ∧ (field_path, ref_id) ∈ refs
    ∧ ref_id ∉ lex_ids.
Proof.
  unfold unresolved_in. intros ([fp r] & Hin & Hm)%list_elem_of_omap. cbn [fst snd] in Hm.
  destruct (decide (r ∈ lex_ids)) as [Hr|Hr].
  - by rewrite bool_decide_eq_true_2 in Hm.
  - rewrite bool_decide_eq_false_2 in Hm by done. injection Hm as <-. by exists fp, r.
Qed.

(** Something is reported exactly when something is wrong. *)
Lemma reported_iff_broken lex_ids w :
  flat_map (file_messages lex_ids) (yaml_files w) ≠ [] ↔ broken lex_ids w.
Proof.
  split.
  - intros Hne. destruct (flat_map _ _) as [|m ms] eqn:Hflat; [done|].
    assert (Hm : m ∈ flat_map (file_messages lex_ids) (yaml_files w))
      by (rewrite Hflat; apply elem_of_cons; by left).
    apply list_elem_of_In, in_flat_map in Hm as ([ypath [doc|]] & Hf & Hm);
      apply list_elem_of_In in Hf; [|left; by exists ypath].
    apply list_elem_of_In in Hm. unfold file_messages in Hm. cbn [fst snd] in Hm.
    apply unresolved_in_elem in Hm as (fp & r & _ & Href & Hr).
    apply find_lex_id_refs_sound in Href as (k & v & Hfield & Hk & Hv & ->).
    right. by exists ypath, doc, k, v.
  - intros [(ypath & Hf)|(ypath & doc & k & v & Hf & Hfield & Hk & Hv & Hr)] Hnil.
    + assert (Hm : ParseFailed ypath ∈ flat_map (file_messages lex_ids) (yaml_files w)).
      { apply list_elem_of_In, in_flat_map. exists (ypath, None).
        split; [by apply list_elem_of_In|]. by left. }
      rewrite Hnil in Hm. by apply elem_of_nil in Hm.
    + destruct (find_lex_id_refs_field doc k v Hfield Hk Hv "") as [fp Hfp].
      assert (Hm : Unresolved ypath fp (py_str v)
                   ∈ flat_map (file_messages lex_ids) (yaml_files w)).
      { apply list_elem_of_In, in_flat_map. exists (ypath, Some doc).
        split; [by apply list_elem_of_In|]. apply list_elem_of_In.
        unfold file_messages. cbn [fst snd]. by apply unresolved_in_spec. }
      rewrite Hnil in Hm. by apply elem_of_nil in Hm.
Qed.

(** X24. What the exit code of the validator means. Code 2: there is no index,
    or it holds no identifier. An exception: the index does not have the
    shape of one. Code 1: the index is loaded and something is wrong, a rule
    file that cannot be loaded or a reference that does not resolve. Code 0:
    the index is loaded and nothing is wrong. *)
Theorem validator_exit_codes (w : world) :
  (fst (main w) = Return 2
   ↔ lex_index w = None
     ∨ ∃ index, lex_index w = Some index ∧ collect_lex_ids index = Some ∅)
  ∧ (fst (main w) = Raise
     ↔ ∃ index, lex_index w = Some index ∧ collect_lex_ids index = None)
  ∧ (fst (main w) = Return 1 ↔ ∃ lex_ids, index_loaded w lex_ids ∧ broken lex_ids w)
  ∧ (fst (main w) = Return 0 ↔ ∃ lex_ids, index_loaded w lex_ids ∧ ¬ broken lex_ids w).
Proof.
  destruct (lex_index w) as [index|] eqn:Hindex.
  2: { assert (Hmain : fst (main w) = Return 2) by (unfold main; by rewrite Hindex).
       rewrite Hmain. unfold index_loaded. rewrite Hindex. split_and!; split; try done.
       - by left.
       - by intros (? & ? & _).
       - by intros (? & (? & ? & _) & _).
       - by intros (? & (? & ? & _) & _). }
  destruct (collect_lex_ids index) as [lex_ids|] eqn:Hids.
  2: { assert (Hmain : fst (main w) = Raise) by (unfold main; by rewrite Hindex, Hids).
       rewrite Hmain. unfold index_loaded. rewrite Hindex.
       split_and!; split; try done.
       - intros [?|(? & [= <-] & ?)]; congruence.
       - intros _. by exists index.
       - intros (? & (? & [= <-] & ? & _) & _). congruence.
       - intros (? & (? & [= <-] & ? & _) & _). congruence. }
  destruct (decide (lex_ids = ∅)) as [->|Hne].
  { assert (Hmain : fst (main w) = Return 2).
    { unfold main. rewrite Hindex, Hids. by rewrite bool_decide_eq_true_2. }
    rewrite Hmain. unfold index_loaded. rewrite Hindex.
    split_and!; split; try done.
    - intros _. right. by exists index.
    - intros (? & [= <-] & ?). congruence.
    - intros (? & (? & [= <-] & Hc & Hn) & _). congruence.
    - intros (? & (? & [= <-] & Hc & Hn) & _). congruence. }
  destruct (main_scan w index lex_ids Hindex Hids Hne) as [Hcode _]. cbv zeta in Hcode.
  pose proof (reported_iff_broken lex_ids w) as Hbroken.
  assert (Hloaded : index_loaded w lex_ids) by by exists index.
  assert (Hsame : ∀ ids, index_loaded w ids → ids = lex_ids).
  { intros ids (? & Hi & Hc & _). rewrite Hindex in Hi. injection Hi as <-. congruence. }
  rewrite Hcode. destruct (decide (flat_map _ _ = [])) as [Hnil|Hnot].
  - split_and!; split; try done.
    + intros [?|(? & [= <-] & ?)]; congruence.
    + intros (? & [= <-] & ?). congruence.
    + intros (ids & Hl & Hb). rewrite (Hsame ids Hl) in Hb. by apply Hbroken in Hb.
    + intros _. exists lex_ids. split; [done|]. intros Hb. by apply Hbroken in Hb.
  - split_and!; split; try done.
    + intros [?|(? & [= <-] & ?)]; congruence.
    + intros (? & [= <-] & ?). congruence.
    + intros _. exists lex_ids. split; [done|]. by apply Hbroken.
    + intros (ids & Hl & Hb). rewrite (Hsame ids Hl) in Hb. destruct Hb. by apply Hbroken.
Qed.

(** What a run prints once the index is loaded. *)
Lemma main_printed w lex_ids :
  index_loaded w lex_ids →
  snd (main w) = [NoYamlFiles] ∧ yaml_files w = []
  ∨ ∃ summary verdict,
      snd (main w)
      = (flat_map (file_messages lex_ids) (yaml_files w) ++ [summary; verdict])%list
      ∧ (∃ n f c e, summary = Summary n f c e)
      ∧ (verdict = FixHint ∨ verdict = AllResolved).
Proof.
  intros (index & Hindex & Hids & Hne). unfold main. rewrite Hindex, Hids.
  rewrite bool_decide_eq_false_2 by done.
  destruct (yaml_files w) as [|f files] eqn:Hfiles; [by left|]. right.
  destruct (scan_spec lex_ids (f :: files) (ScanState 0 0 [])) as [_ Hprinted].
  cbn [printed app] in Hprinted. rewrite Hprinted.
  destruct (0 <? _)%nat; cbn [snd]; eexists _, _; split_and!; eauto.
Qed.

Lemma file_messages_elem lex_ids (files : list (string * option yaml)) m :
  m ∈ flat_map (file_messages lex_ids) files
  ↔ (∃ ypath, (ypath, None) ∈ files ∧ m = ParseFailed ypath)
    ∨ (∃ ypath doc field_path ref_id,
         (ypath, Some doc) ∈ files ∧ m = Unresolved ypath field_path ref_id
         ∧ (field_path, ref_id) ∈ find_lex_id_refs doc "" ∧ ref_id ∉ lex_ids).
Proof.
  rewrite list_elem_of_In, in_flat_map. split.
  - intros ([ypath [doc|]] & Hf%list_elem_of_In & Hm%list_elem_of_In);
      unfold file_messages in Hm; cbn [fst snd] in Hm.
    + apply unresolved_in_elem in Hm as (fp & r & -> & Href & Hr).
      right. by exists ypath, doc, fp, r.
    + apply list_elem_of_singleton in Hm as ->. left. by exists ypath.
  - intros [(ypath & Hf & ->)|(ypath & doc & fp & r & Hf & -> & Href & Hr)].
    + exists (ypath, None). split; [by apply list_elem_of_In|]. by left.
    + exists (ypath, Some doc). split; [by apply list_elem_of_In|].
      apply list_elem_of_In. unfold file_messages. cbn [fst snd].
      by apply unresolved_in_spec.
Qed.

(** X25. The validator reports what is wrong and nothing else. With the index
    loaded, it prints that a reference does not resolve exactly for the
    references found in a file that loads whose value is not an identifier
    of the index, and each of them is a field of that file whose name the
    pattern matches; it prints that a file failed to parse exactly for the
    files that do not load. *)
Theorem validator_reports_exactly (w : world) (lex_ids : gset string) :
  index_loaded w lex_ids →
  (∀ ypath field_path ref_id,
     Unresolved ypath field_path ref_id ∈ snd (main w)
     ↔ ∃ doc, (ypath, Some doc) ∈ yaml_files w
              ∧ (field_path, ref_id) ∈ find_lex_id_refs doc "" ∧ ref_id ∉ lex_ids)
  ∧ (∀ ypath field_path ref_id,
       Unresolved ypath field_path ref_id ∈ snd (main w) →
       ∃ doc k v, (ypath, Some doc) ∈ yaml_files w ∧ field_in doc k v
                  ∧ LEX_ID_KEY_RE k = true ∧ v ≠ YNull ∧ ref_id = py_str v)
  ∧ (∀ ypath, ParseFailed ypath ∈ snd (main w) ↔ (ypath, None) ∈ yaml_files w).
Proof.
  intros Hloaded.
  assert (Hin : ∀ m, (∃ a b c, m = Unresolved a b c) ∨ (∃ a, m = ParseFailed a) →
            m ∈ snd (main w) ↔ m ∈ flat_map (file_messages lex_ids) (yaml_files w)).
  { intros m Hm.
    destruct (main_printed w lex_ids Hloaded)
      as [[-> ->]|(summary & verdict & -> & (n & f & c & e & ->) & Hv)].
    - cbn [flat_map]. rewrite list_elem_of_singleton. split; [|by intros ?%elem_of_nil].
      intros ->. destruct Hm as [(? & ? & ? & [=])|(? & [=])].
    - rewrite elem_of_app, !elem_of_cons. split; [|by left].
      intros [?|[->|[->|?%elem_of_nil]]]; try done.
      + destruct Hm as [(? & ? & ? & [=])|(? & [=])].
      + destruct Hv as [-> | ->]; destruct Hm as [(? & ? & ? & [=])|(? & [=])]. }
  assert (Hunres : ∀ ypath fp r,
            Unresolved ypath fp r ∈ snd (main w)
            ↔ ∃ doc, (ypath, Some doc) ∈ yaml_files w
                     ∧ (fp, r) ∈ find_lex_id_refs doc "" ∧ r ∉ lex_ids).
  { intros ypath fp r. rewrite Hin by (left; by eexists _, _, _).
    rewrite file_messages_elem. split.
    - intros [(? & _ & [=])|(y & doc & fp' & r' & Hf & [= -> -> ->] & Href & Hr)].
      by exists doc.
    - intros (doc & Hf & Href & Hr). right. by exists ypath, doc, fp, r. }
  split_and!.
  - done.
  - intros ypath fp r (doc & Hf & Href & _)%Hunres.
    apply find_lex_id_refs_sound in Href as (k & v & Hfield & Hk & Hv & ->).
    by exists doc, k, v.
  - intros ypath. rewrite Hin by (right; by eexists).
    rewrite file_messages_elem. split.
    + by intros [(y & Hf & [= ->])|(? & ? & ? & ? & _ & [=] & _)].
    + intros Hf. left. by exists ypath.
Qed.

Lemma validator_reports_exactly_witness :
  Unresolved "linguistic_rules/morphology/notes.yaml" "lemma_lex_id" "LEX.VERB.MISSING"
    ∈ snd (main Samples.one_line_world)
  ↔ ∃ doc, ("linguistic_rules/morphology/notes.yaml", Some doc)
             ∈ yaml_files Samples.one_line_world
           ∧ ("lemma_lex_id", "LEX.VERB.MISSING") ∈ find_lex_id_refs doc ""
           ∧ "LEX.VERB.MISSING" ∉ ({[ "LEX.VERB.GEHEN" ]} ∪ ∅ : gset string).
Proof.
  destruct (validator_reports_exactly Samples.one_line_world
              ({[ "LEX.VERB.GEHEN" ]} ∪ ∅)) as [Hunresolved _].
  - exists Samples.gehen_index. split; [reflexivity|]. split; [reflexivity|].
    intros Hempty. assert (Hin : "LEX.VERB.GEHEN" ∈ (∅ : gset string)); [|set_solver].
    rewrite <- Hempty. set_solver.
  - apply Hunresolved.
Defined.

Lemma is_newline_line_feed c : is_newline c = Ascii.eqb line_feed c.
Proof. destruct c as [[] [] [] [] [] [] [] []]; by vm_compute. Qed.

Lemma single_line_cons c k :
  single_line (String c k) = negb (is_newline c) && single_line k.
Proof.
  unfold single_line. cbn [contains_char]. rewrite is_newline_line_feed.
  by destruct (Ascii.eqb line_feed c).
Qed.

(** X26. The names the validator takes for references,
    [LEX_ID_KEY_RE.match(k)] for the pattern [.*_lex_id$]: the names made of
    a text without line feed, then [_lex_id], then nothing or one last line
    feed. On a name of one line this is: the name ends in [_lex_id]. *)
Theorem LEX_ID_KEY_RE_exact (k : string) :
  (LEX_ID_KEY_RE k = true
   ↔ ∃ pre, single_line pre = true
            ∧ (k = pre ++ "_lex_id" ∨ k = pre ++ "_lex_id" ++ String line_feed ""))
  ∧ (single_line k = true → LEX_ID_KEY_RE k = has_reference_suffix k).
Proof.
  split; [|apply LEX_ID_KEY_RE_single_line]. split.
  - induction k as [|c k IH]; cbn [LEX_ID_KEY_RE]; [by vm_compute|].
    intros [Hs|[Hc Hk]%andb_prop]%orb_prop.
    + exists "". split; [done|]. unfold suffix_at_end in Hs.
      apply orb_prop in Hs as [->%String.eqb_eq| ->%String.eqb_eq]; [by left|by right].
    + destruct (IH Hk) as (pre & Hpre & Hform). exists (String c pre).
      split; [by rewrite single_line_cons, Hc, Hpre|].
      destruct Hform as [-> | ->]; [by left|by right].
  - intros (pre & Hpre & Hform). revert k Hform.
    induction pre as [|c pre IH]; intros k Hform.
    { destruct Hform as [-> | ->]; by vm_compute. }
    rewrite single_line_cons in Hpre. apply andb_prop in Hpre as [Hc Hpre].
    assert (Hrest : ∃ k', k = String c k' ∧ LEX_ID_KEY_RE k' = true).
    { destruct Hform as [-> | ->]; eexists; (split; [reflexivity|]);
        apply (IH Hpre); [by left|by right]. }
    destruct Hrest as (k' & -> & Hk'). cbn [LEX_ID_KEY_RE].
    rewrite Hc, Hk'. apply orb_true_r.
Qed.

End ReferenceFacts.

(** ** How the tools fit together *)
Module PipelineFacts.
Import Py Yaml Process PipelineNotions DictFacts.

(** The identifiers the validator collects from a list of mappings. *)
Lemma collect_loop_spec items ids0 :
  Forall (fun it => is_dict it = true) items →
  ∃ ids,
    Validator.collect_loop items ids0 = Some ids
    ∧ ∀ id, id ∈ ids
            ↔ id ∈ ids0
              ∨ ∃ it, YDict it ∈ items
                      ∧ truthy (default YNull (Dict.get "lex_id" it)) = true
                      ∧ py_str (default YNull (Dict.get "lex_id" it)) = id.
Proof.
  revert ids0. induction items as [|item items IH]; intros ids0 Hall;
    cbn [Validator.collect_loop].
  { exists ids0. split; [done|]. intros id. split; [by left|].
    intros [?|(it & Hin & _)]; [done|]. by apply elem_of_nil in Hin. }
  apply Forall_cons in Hall as [Hitem Hall]. destruct item as [| | | | |it]; try done.
  destruct (IH (if truthy (default YNull (Dict.get "lex_id" it))
                then {[ py_str (default YNull (Dict.get "lex_id" it)) ]} ∪ ids0
                else ids0) Hall) as (ids & Hloop & Hids).
  exists ids. split; [done|]. intros id. rewrite Hids. split.
  - intros [Hin|(it' & Hin & Hrest)].
    + destruct (truthy (default YNull (Dict.get "lex_id" it))) eqn:Ht; [|by left].
      apply elem_of_union in Hin as [->%elem_of_singleton|?]; [|by left].
      right. exists it. split; [apply elem_of_cons; by left|done].
    + right. exists it'. split; [apply elem_of_cons; by right|done].
  - intros [Hin|(it' & [[= <-]|Hin]%elem_of_cons & Ht & Hid)].
    + left. destruct (truthy _); [|done]. apply elem_of_union. by right.
    + left. rewrite Ht. apply elem_of_union. left. by apply elem_of_singleton.
    + right. by exists it'.
Qed.

(** X27. The validator reads the index the builder writes: from the index of
    a run of the builder that ends with code 0 it collects exactly the
    identifiers of the entries, and it finds the index empty only when the
    lexicon has no entry. *)
Theorem validator_reads_builder_index (w : IndexBuilder.world) (effs : list IndexBuilder.effect) :
  IndexBuilder.main w = (Return 0, effs) →
  ∃ payload ids,
    IndexBuilder.written_index effs = Some payload
    ∧ Validator.collect_lex_ids (YDict payload) = Some ids
    ∧ (∀ id, id ∈ ids ↔ YStr id ∈ IndexBuilder.lex_ids_of_payload payload)
    ∧ (ids = ∅ ↔ RunNotions.payload_entries payload = []).
Proof.
  intros (entries & Hwritten & Hentries)%IndexRunFacts.written_index_entries.
  exists (IndexBuilder.index_payload entries).
  destruct (collect_loop_spec (map YDict entries) ∅) as (ids & Hloop & Hids).
  { apply Forall_map. by apply Forall_true. }
  exists ids. split; [done|]. split; [exact Hloop|].
  change (RunNotions.payload_entries (IndexBuilder.index_payload entries))
    with (map YDict entries).
  change (IndexBuilder.lex_ids_of_payload (IndexBuilder.index_payload entries))
    with (omap (fun it => match it with
                          | YDict e => Dict.get "lex_id" e
                          | _ => None
                          end) (map YDict entries)).
  assert (Hiff : ∀ x, x ∈ ids ↔ ∃ e, e ∈ entries ∧ Dict.get "lex_id" e = Some (YStr x)).
  { intros x. rewrite Hids. rewrite Forall_forall in Hentries. split.
    - intros [?%elem_of_empty|(it & Hin & Ht & Hid)]; [done|].
      apply list_elem_of_fmap in Hin as (e & [= ->] & He). exists e. split; [done|].
      destruct (Hentries e He) as (x' & Hget & _). rewrite Hget in Hid |- *.
      cbn in Hid. by subst x'.
    - intros (e & He & Hget). right. exists e. split; [by apply list_elem_of_fmap_2|].
      destruct (Hentries e He) as (x' & Hget' & Hne). rewrite Hget in Hget'.
      injection Hget' as <-. rewrite Hget. cbn [default from_option id truthy py_str].
      split; [|done]. unfold nonempty. by destruct (String.eqb_spec x ""). }
  split.
  - intros id. rewrite Hiff, list_elem_of_omap. split.
    + intros (e & He & Hget). exists (YDict e). split; [by apply list_elem_of_fmap_2|done].
    + intros (it & Hin & Hget). apply list_elem_of_fmap in Hin as (e & -> & He).
      by exists e.
  - split.
    + intros ->. destruct entries as [|e entries]; [done|].
      rewrite Forall_forall in Hentries.
      destruct (Hentries e) as (id & Hget & _); [apply elem_of_cons; by left|].
      assert (Hin : id ∈ (∅ : gset string)); [|by apply elem_of_empty in Hin].
      apply Hiff. exists e. split; [apply elem_of_cons; by left|done].
    + intros Hnil. apply fmap_nil_inv in Hnil as ->. apply set_eq. intros id.
      rewrite Hiff. split; [|by intros ?%elem_of_empty].
      intros (e & He & _). by apply elem_of_nil in He.
Qed.

Lemma validator_reads_builder_index_witness :
  ∃ payload ids,
    IndexBuilder.written_index (snd (IndexBuilder.main Samples.schuhe_world)) = Some payload
    ∧ Validator.collect_lex_ids (YDict payload) = Some ids
    ∧ (∀ id, id ∈ ids ↔ YStr id ∈ IndexBuilder.lex_ids_of_payload payload)
    ∧ (ids = ∅ ↔ RunNotions.payload_entries payload = []).
Proof.
  apply (validator_reads_builder_index Samples.schuhe_world). vm_compute. reflexivity.
Defined.

(** What the lookup of the linker holds. *)
Lemma verb_entry_Some item key lex_id :
  Linker.verb_entry item = Some (Some (key, lex_id)) →
  Dict.get "category" item = Some (YStr "verb")
  ∧ Dict.get "lex_id" item = Some lex_id ∧ truthy lex_id = true
  ∧ ∃ text, Dict.get "text" item = Some (YStr text) ∧ Linker.norm text = key.
Proof.
  unfold Linker.verb_entry.
  destruct (Dict.get "category" item) as [[| | |category| |]|]; try done.
  destruct (String.eqb_spec category "verb") as [->|]; [|done].
  destruct (Dict.get "text" item) as [text|]; cbn [default from_option id]; [|done].
  destruct (Dict.get "lex_id" item) as [lid|]; cbn [default from_option id];
    [|by rewrite andb_false_r].
  destruct (truthy text) eqn:Htext; cbn [andb]; [|done].
  destruct (truthy lid) eqn:Hlid; [|done].
  destruct text as [| | |s| |]; cbn [as_str mbind option_bind]; try done.
  intros [= <- <-]. split_and!; try done. by exists s.
Qed.

Lemma lookup_loop_spec items lookup lookup' :
  Linker.lookup_loop items lookup = Some lookup' →
  Forall (fun it => is_dict it = true) items
  ∧ ∀ key lex_id, lookup' !! key = Some lex_id →
      lookup !! key = Some lex_id
      ∨ ∃ item, YDict item ∈ items ∧ Linker.verb_entry item = Some (Some (key, lex_id)).
Proof.
  revert lookup. induction items as [|it items IH]; intros lookup; cbn [Linker.lookup_loop].
  { intros [= <-]. split; [constructor|]. by left. }
  destruct it as [| | | | |item]; try done.
  destruct (Linker.verb_entry item) as [entry|] eqn:Hentry; cbn [mbind option_bind]; [|done].
  intros [Hall Hvalues]%IH. split; [by constructor|].
  intros key lex_id Hkey. destruct (Hvalues key lex_id Hkey) as [Hold|(item' & Hin & He)].
  - destruct entry as [[k v]|]; [|by left].
    destruct (decide (k = key)) as [->|Hne].
    + rewrite lookup_insert_eq in Hold. injection Hold as ->.
      right. exists item. split; [apply elem_of_cons; by left|done].
    + rewrite lookup_insert_ne in Hold by done. by left.
  - right. exists item'. split; [apply elem_of_cons; by right|done].
Qed.

(** The identifiers in the lookup of the linker are identifiers the
    validator collects from the same index. *)
Lemma lookup_resolves index lookup :
  Linker.build_verb_lookup index = Some lookup →
  ∃ ids, Validator.collect_lex_ids index = Some ids
         ∧ ∀ key lex_id, lookup !! key = Some lex_id →
             truthy lex_id = true ∧ py_str lex_id ∈ ids.
Proof.
  unfold Linker.build_verb_lookup, Validator.collect_lex_ids.
  destruct index as [| | | | |d]; try done.
  destruct (iterate _) as [items|]; cbn [mbind option_bind]; [|done].
  intros [Hall Hvalues]%lookup_loop_spec.
  destruct (collect_loop_spec items ∅ Hall) as (ids & Hloop & Hids).
  exists ids. split; [done|]. intros key lex_id Hkey.
  destruct (Hvalues key lex_id Hkey) as [Hempty|(item & Hin & He)].
  { by rewrite lookup_empty in Hempty. }
  apply verb_entry_Some in He as (_ & Hid & Ht & _). split; [done|].
  apply Hids. right. exists item. rewrite Hid. done.
Qed.

(** One table through the linker, and the table it leaves through the
    linker again. *)
Lemma link_step_spec lookup ids st t st' :
  (∀ key lex_id, lookup !! key = Some lex_id →
     truthy lex_id = true ∧ py_str lex_id ∈ ids) →
  Linker.link_step lookup st t = Some st' →
  ∃ t' notes,
    Linker.linked st' = (Linker.linked st ++ [t'])%list
    ∧ Linker.missing st' = (Linker.missing st ++ notes)%list
    ∧ linked_or_kept ids t t'
    ∧ ∀ st2, Linker.link_step lookup st2 t'
             = Some (Linker.LinkState (Linker.linked st2 ++ [t']) (Linker.updated st2)
                       (Linker.missing st2 ++ notes)).
Proof.
  intros Hlookup. destruct t as [| | | | |d]; try done. cbn [Linker.link_step].
  destruct (negb (truthy (default (YStr "") (Dict.get "lemma_guess" d)))) eqn:Hlemma.
  { intros [= <-]. exists (YDict d), [Linker.NoLemma (Linker.table_id_of d)].
    cbn [Linker.linked Linker.missing]. split_and!; try done; [by left|].
    intros st2. cbn [Linker.link_step]. by rewrite Hlemma. }
  destruct (truthy (default YNull (Dict.get "lemma_lex_id" d))) eqn:Hlinked.
  { intros [= <-]. exists (YDict d), []. cbn [Linker.linked Linker.missing].
    rewrite app_nil_r. split_and!; try done; [by left|].
    intros st2. cbn [Linker.link_step]. by rewrite Hlemma, Hlinked, app_nil_r. }
  destruct (as_str (default (YStr "") (Dict.get "lemma_guess" d))) as [s|] eqn:Hs;
    cbn [mbind option_bind]; [|done].
  destruct (truthy (default YNull (lookup !! Linker.norm s))) eqn:Hlid.
  - intros [= <-].
    destruct (lookup !! Linker.norm s) as [lid|] eqn:Hget; cbn [default from_option id] in *;
      [|done].
    destruct (Hlookup _ _ Hget) as [Ht Hin].
    exists (YDict (Dict.set "lemma_lex_id" lid d)), [].
    cbn [Linker.linked Linker.missing]. rewrite app_nil_r. split_and!; try done.
    + right. by exists d, lid.
    + intros st2. cbn [Linker.link_step]. rewrite get_set_ne by done.
      rewrite Hlemma, get_set_eq. cbn [default from_option id]. by rewrite Ht, app_nil_r.
  - intros [= <-].
    exists (YDict d),
      [Linker.NoMatch (default (YStr "") (Dict.get "lemma_guess" d)) (Linker.table_id_of d)].
    cbn [Linker.linked Linker.missing]. split_and!; try done; [by left|].
    intros st2. cbn [Linker.link_step]. rewrite Hlemma, Hlinked, Hs.
    cbn [mbind option_bind]. by rewrite Hlid.
Qed.

Lemma link_loop_spec lookup ids tables st st' :
  (∀ key lex_id, lookup !! key = Some lex_id →
     truthy lex_id = true ∧ py_str lex_id ∈ ids) →
  Linker.link_loop lookup tables st = Some st' →
  ∃ tables' notes,
    Linker.linked st' = (Linker.linked st ++ tables')%list
    ∧ Linker.missing st' = (Linker.missing st ++ notes)%list
    ∧ Forall2 (linked_or_kept ids) tables tables'
    ∧ ∀ st2, Linker.link_loop lookup tables' st2
             = Some (Linker.LinkState (Linker.linked st2 ++ tables') (Linker.updated st2)
                       (Linker.missing st2 ++ notes)).
Proof.
  intros Hlookup. revert st. induction tables as [|t tables IH]; intros st;
    cbn [Linker.link_loop].
  { intros [= <-]. exists [], []. rewrite !app_nil_r. split_and!; try done.
    intros [? ? ?]. cbn. by rewrite !app_nil_r. }
  destruct (Linker.link_step lookup st t) as [st1|] eqn:Hstep; [|done].
  intros Hloop.
  destruct (link_step_spec _ _ _ _ _ Hlookup Hstep) as (t' & n1 & Hl1 & Hm1 & Hr1 & Hagain1).
  destruct (IH _ Hloop) as (tables' & n2 & Hl2 & Hm2 & Hr2 & Hagain2).
  exists (t' :: tables'), (n1 ++ n2)%list.
  split; [by rewrite Hl2, Hl1, <- app_assoc|].
  split; [by rewrite Hm2, Hm1, <- app_assoc|].
  split; [by constructor|].
  intros st2. cbn [Linker.link_loop]. rewrite Hagain1, Hagain2.
  cbn [Linker.linked Linker.updated Linker.missing]. by rewrite <- !app_assoc.
Qed.

(** A run of the linker that ends with code 0, taken apart. *)
Lemma linker_main_Return_0 w r :
  Linker.main w = (Return 0, Some r) →
  ∃ index lookup d tables st,
    Linker.index_file w = Some index ∧ Linker.tables_file w = Some (YDict d)
    ∧ Linker.build_verb_lookup index = Some lookup
    ∧ iterate (default (YList []) (Dict.get "tables" d)) = Some tables
    ∧ Linker.link_loop lookup tables (Linker.LinkState [] 0 []) = Some st
    ∧ r = Linker.Report
            (match Dict.get "tables" d with
             | Some (YList _) => Dict.set "tables" (YList (Linker.linked st)) d
             | _ => d
             end) (Linker.updated st) (Linker.missing st).
Proof.
  unfold Linker.main.
  destruct (Linker.index_file w) as [index|]; [|done].
  destruct (Linker.tables_file w) as [tables_data|]; [|done].
  destruct (Linker.build_verb_lookup index) as [lookup|] eqn:Hlookup; [|done].
  destruct tables_data as [| | | | |d]; try done.
  destruct (iterate _) as [tables|] eqn:Hiter; [|done].
  destruct (Linker.link_loop _ _ _) as [st|] eqn:Hloop; [|done].
  intros [= <-]. by exists index, lookup, d, tables, st.
Qed.

(** The document saved, read again. *)
Lemma saved_tables (d : Dict.t yaml) tables tables' :
  iterate (default (YList []) (Dict.get "tables" d)) = Some tables →
  (tables = [] → tables' = []) →
  let d' := match Dict.get "tables" d with
            | Some (YList _) => Dict.set "tables" (YList tables') d
            | _ => d
            end in
  iterate (default (YList []) (Dict.get "tables" d')) = Some tables'
  ∧ match Dict.get "tables" d' with
    | Some (YList _) => Dict.set "tables" (YList tables') d'
    | _ => d'
    end = d'
  ∧ ∀ k, k ≠ "tables" → Dict.get k d' = Dict.get k d.
Proof.
  intros Hiter Hnil. cbn zeta.
  destruct (Dict.get "tables" d) as [v|] eqn:Hget; cbn [default from_option id] in Hiter.
  - destruct v as [| | |s|l|fields]; try done.
    + destruct s; [|done]. injection Hiter as <-. rewrite Hget.
      cbn [default from_option id iterate]. by rewrite Hnil.
    + rewrite get_set_eq. cbn [default from_option id iterate].
      split_and!; [done|apply DeduperFacts.set_set|].
      intros k Hk. by rewrite get_set_ne by done.
    + destruct fields; [|done]. injection Hiter as <-. rewrite Hget.
      cbn [default from_option id iterate]. by rewrite Hnil.
  - injection Hiter as <-. rewrite Hget. cbn [default from_option id iterate].
    by rewrite Hnil.
Qed.

Lemma linker_main_tables index lookup (d : Dict.t yaml) tables st :
  Linker.build_verb_lookup index = Some lookup →
  iterate (default (YList []) (Dict.get "tables" d)) = Some tables →
  Linker.link_loop lookup tables (Linker.LinkState [] 0 []) = Some st →
  Linker.main (Linker.World (Some index) (Some (YDict d)))
  = (Return 0,
     Some (Linker.Report
             (match Dict.get "tables" d with
              | Some (YList _) => Dict.set "tables" (YList (Linker.linked st)) d
              | _ => d
              end) (Linker.updated st) (Linker.missing st))).
Proof.
  intros Hlookup Hiter Hloop. unfold Linker.main.
  cbn [Linker.index_file Linker.tables_file]. by rewrite Hlookup, Hiter, Hloop.
Qed.

(** X28. The linker writes only references that resolve. After a run that
    ends with code 0 the document saved is the document loaded with its
    tables replaced one for one: a table is left as it is, or, having had no
    reference, it gets under [lemma_lex_id] an identifier that the validator
    collects from the same index. *)
Theorem linker_writes_resolvable_references (w : Linker.world) (r : Linker.report) :
  Linker.main w = (Return 0, Some r) →
  ∃ index ids d tables tables',
    Linker.index_file w = Some index ∧ Linker.tables_file w = Some (YDict d)
    ∧ Validator.collect_lex_ids index = Some ids
    ∧ iterate (default (YList []) (Dict.get "tables" d)) = Some tables
    ∧ iterate (default (YList []) (Dict.get "tables" (Linker.saved r))) = Some tables'
    ∧ (∀ k, k ≠ "tables" → Dict.get k (Linker.saved r) = Dict.get k d)
    ∧ Forall2 (linked_or_kept ids) tables tables'.
Proof.
  intros (index & lookup & d & tables & st & Hindex & Htables & Hlookup & Hiter & Hloop & ->)
    %linker_main_Return_0.
  destruct (lookup_resolves _ _ Hlookup) as (ids & Hids & Hres).
  destruct (link_loop_spec _ _ _ _ _ Hres Hloop) as (tables' & notes & Hl & _ & Hrel & _).
  cbn [Linker.linked app] in Hl. rewrite Hl.
  destruct (saved_tables d tables tables' Hiter) as (Hiter' & _ & Hframe).
  { intros ->. by apply Forall2_nil_inv_l in Hrel. }
  exists index, ids, d, tables, tables'. cbn [Linker.saved]. by split_and!.
Qed.

Lemma linker_writes_resolvable_references_witness :
  ∃ index ids d tables tables',
    Linker.index_file gehen_link_world = Some index
    ∧ Linker.tables_file gehen_link_world = Some (YDict d)
    ∧ Validator.collect_lex_ids index = Some ids
    ∧ iterate (default (YList []) (Dict.get "tables" d)) = Some tables
    ∧ iterate (default (YList []) (Dict.get "tables" gehen_linked)) = Some tables'
    ∧ (∀ k, k ≠ "tables" → Dict.get k gehen_linked = Dict.get k d)
    ∧ Forall2 (linked_or_kept ids) tables tables'.
Proof.
  apply (linker_writes_resolvable_references gehen_link_world
           (Linker.Report gehen_linked 1 [])).
  vm_compute. reflexivity.
Defined.

(** X29. Linking twice is linking once: the linker leaves alone a table that
    has a reference, so a second run over the document it saved saves the
    same document, updates no table and misses the same matches. *)
Theorem linker_second_run_changes_nothing (w : Linker.world) (r : Linker.report) :
  Linker.main w = (Return 0, Some r) →
  Linker.main (Linker.World (Linker.index_file w) (Some (YDict (Linker.saved r))))
  = (Return 0, Some (Linker.Report (Linker.saved r) 0 (Linker.missing_matches r))).
Proof.
  intros (index & lookup & d & tables & st & Hindex & Htables & Hlookup & Hiter & Hloop & ->)
    %linker_main_Return_0.
  destruct (lookup_resolves _ _ Hlookup) as (ids & Hids & Hres).
  destruct (link_loop_spec _ _ _ _ _ Hres Hloop)
    as (tables' & notes & Hl & Hm & Hrel & Hagain).
  cbn [Linker.linked Linker.missing app] in Hl, Hm. rewrite Hl, Hm, Hindex.
  cbn [Linker.saved Linker.missing_matches].
  destruct (saved_tables d tables tables' Hiter) as (Hiter' & Hsame & _).
  { intros ->. by apply Forall2_nil_inv_l in Hrel. }
  cbn zeta in Hiter', Hsame.
  rewrite (linker_main_tables index lookup _ tables'
             (Linker.LinkState tables' 0 notes) Hlookup Hiter').
  - cbn [Linker.linked Linker.updated Linker.missing]. by rewrite Hsame.
  - by rewrite Hagain.
Qed.

Lemma linker_second_run_changes_nothing_witness :
  Linker.main (Linker.World (Linker.index_file gehen_link_world) (Some (YDict gehen_linked)))
  = (Return 0, Some (Linker.Report gehen_linked 0 [])).
Proof.
  apply (linker_second_run_changes_nothing gehen_link_world (Linker.Report gehen_linked 1 [])).
  vm_compute. reflexivity.
Defined.

End PipelineFacts.
